(** * tiny-task-dag: lazy DAG of asynchronous tasks

    A shallow embedding of [src/core.ts], [src/all.ts], [src/run.ts] and
    [src/trace.ts].

    The library runs on the JavaScript event loop.  The embedding keeps
    that structure:

    - task objects live in a heap ([list Task]); a task reference is its
      index, the mutable fields [_promise] and [_result] are record fields
      updated in place;
    - promises live in a second heap; a promise is pending or fulfilled
      and carries the reactions registered on it;
    - every [await] of the source is a reaction (a defunctionalised
      continuation) named after the line it resumes;
    - the microtask queue is a FIFO list of jobs;
    - a synchronous segment ([run] up to its first suspension, with the
      nested calls of [executeTask] and of [run] on the dependencies) is
      one function on the state; a job is one function on the state.

    Assumptions of the model, none of them in the source: promises are
    native (an [await] of a promise costs one reaction job), a compute
    function touches neither the task objects nor [run], and it never
    throws (the specification leaves that case undefined). *)

From stdpp Require Import base option list strings gmap.
From Stdlib Require Import ZArith Lia.

(** ** Values and results ([src/core.ts]) *)

Abbreviation ref := nat (only parsing).   (* a task object: index in the task heap *)
Abbreviation pid := nat (only parsing).   (* a promise object: index in the promise heap *)

(** Values are dynamically typed; [all] builds tuples of them. *)
#[warnings="-register-all"]
Inductive val :=
| VUndefined
| VNum (n : Z)
| VStr (s : string)
| VTuple (vs : list val).

(** [type Ok<T> = { ok: true; value: T }],
    [type Err<E> = { ok: false; error: E; errorTask: Task }]. *)
Inductive result :=
| Ok (value : val)
| Err (error : val) (errorTask : ref).

Definition is_ok (r : result) : bool :=
  match r with Ok _ => true | Err _ _ => false end.

(** [r.value]: the property is missing on an [Err]. *)
Definition value_of (r : result) : val :=
  match r with Ok v => v | Err _ _ => VUndefined end.

(** A promise-returning function: the promise it returns is either
    already fulfilled when the call returns, or it is fulfilled later, at a
    moment the environment chooses. *)
Inductive promised (A : Type) :=
| Immediately (a : A)
| Eventually (a : A).
Arguments Immediately {A} a.
Arguments Eventually {A} a.

Definition outcome {A} (c : promised A) : A :=
  match c with Immediately a | Eventually a => a end.

(** The [{ ok, err }] object handed to a compute function. *)
Record helpers := Helpers {
  h_ok : val → result;
  h_err : val → result;
}.

Record Task := mkTask {
  label : string;
  deps : list ref;
  compute : list val → promised result;
  _promise : option pid;
  _result : option result;
  _id : nat;                          (* a fresh [Symbol(label)] *)
}.

Definition ok (value : val) : result := Ok value.

Definition err (task : ref) (error : val) : result := Err error task.

(** [task(label, deps, compute)]: allocates the node; the stored compute
    is the wrapper that passes the helpers, [err] bound to the node. *)
Definition task (label : string) (deps : list ref)
    (compute : helpers → list val → promised result)
    (heap : list Task) : ref * list Task :=
  let taskNode := length heap in
  (taskNode,
   heap ++ [ {| label := label;
                deps := deps;
                compute := λ values,
                  compute {| h_ok := ok; h_err := λ error, err taskNode error |} values;
                _promise := None;
                _result := None;
                _id := taskNode |} ]).

(** [all(id, tasks)] ([src/all.ts]). *)
Definition all (id : string) (tasks : list ref) (heap : list Task) : ref * list Task :=
  task id tasks (λ h results, Immediately (h_ok h (VTuple results))) heap.

(** ** Graph introspection ([src/trace.ts]) *)

Section Trace.
Context (heap : list Task).

(** [traverse] of [getTrace]; the accumulator is the pair of the closure
    variables [visited] and [path].  [fuel] bounds the recursion depth. *)
Fixpoint traverse (fuel : nat) (t : ref) (acc : gset nat * list string)
    : option (gset nat * list string) :=
  match fuel with
  | 0 => None
  | S fuel =>
      T ← heap !! t;
      if decide (_id T ∈ acc.1) then Some acc
      else
        acc ← foldl (λ acc dep, acc ≫= traverse fuel dep)
                    (Some (acc.1 ∪ {[_id T]}, acc.2)) (deps T);
        Some (acc.1, acc.2 ++ [label T])
  end.

Definition getTrace (t : ref) : option (list string) :=
  snd <$> traverse (S (length heap)) t (∅, []).

(** [traverse] of [getEdges]. *)
Fixpoint traverse_edges (fuel : nat) (t : ref)
    (acc : gset nat * list (string * string))
    : option (gset nat * list (string * string)) :=
  match fuel with
  | 0 => None
  | S fuel =>
      T ← heap !! t;
      if decide (_id T ∈ acc.1) then Some acc
      else
        foldl (λ acc dep,
                 acc ← acc;
                 D ← heap !! dep;
                 traverse_edges fuel dep (acc.1, acc.2 ++ [(label D, label T)]))
              (Some (acc.1 ∪ {[_id T]}, acc.2)) (deps T)
  end.

Definition getEdges (t : ref) : option (list (string * string)) :=
  snd <$> traverse_edges (S (length heap)) t (∅, []).
End Trace.

(** ** Promises and the microtask queue *)

(** The object the race contestants return:
    [{ type: 'error', error }] or [{ type: 'success', allResults }]. *)
Inductive winner :=
| WError (error : result)
| WSuccess (allResults : list result).

(** What a promise of this program can be fulfilled with. *)
Inductive jsval :=
| JResult (r : result)
| JResults (rs : list result)
| JWinner (w : winner).

(** The continuations, one per suspension point of [src/run.ts], and the
    two resolving functions of the built-ins. *)
Inductive reaction :=
| RunAwait (task : ref) (self : pid)
    (* run, l.38: [const result = await task._promise] *)
| ExecAwaitLeaf (task : ref) (self : pid)
    (* executeTask, l.53: [return await task.compute([])] *)
| ContestantAwaitDep (depPromises : list pid) (self : pid)
    (* contestant, l.70: [const depResult = await depPromise] *)
| ContestantAwaitAll (self : pid)
    (* contestant, l.78: [const allResults = await Promise.all(depPromises)] *)
| ExecAwaitRace (task : ref) (self : pid)
    (* executeTask, l.67: [const winner = await Promise.race(...)] *)
| ExecAwaitCompute (task : ref) (self : pid)
    (* executeTask, l.88: [const result = await task.compute(depValues)] *)
| Forward (target : pid)
    (* a resolving function of [target]: Promise.race, and the [then] of a
       promise returned from an async function *)
| AllElement (target : pid) (index : nat)
    (* the resolve-element function of Promise.all *).

Inductive job :=
| ReactionJob (k : reaction) (v : jsval)
| ResolveThenableJob (target : pid) (thenable : pid).

(** Which call created a promise, with the variables of the call that
    identify it.  For the promise of a compute function the tag also
    carries the result its body delivers. *)
Inductive psource :=
| PRun (task : ref)
| PExec (task : ref)
| PCompute (task : ref) (r : result)
| PContestant (task : ref) (depPromises : list pid) (index : nat)
| PRace (task : ref) (depPromises : list pid) (contestants : list pid)
| PAll (contestant : pid).

Record promise := mkPromise {
  settled : option jsval;               (* [None]: pending *)
  reactions : list reaction;            (* registered while pending *)
  elements : list (option result);      (* the values array of Promise.all *)
  source : psource;
}.

Record state := mkState {
  tasks : list Task;
  promises : list promise;
  microtasks : list job;
  calls : list (ref * list val);        (* the compute invocations so far *)
}.

Definition init : state :=
  {| tasks := []; promises := []; microtasks := []; calls := [] |}.

(** *** Field updates *)

Definition with_tasks (f : list Task → list Task) (s : state) : state :=
  {| tasks := f (tasks s); promises := promises s;
     microtasks := microtasks s; calls := calls s |}.

Definition with_promises (f : list promise → list promise) (s : state) : state :=
  {| tasks := tasks s; promises := f (promises s);
     microtasks := microtasks s; calls := calls s |}.

Definition enqueue (js : list job) (s : state) : state :=
  {| tasks := tasks s; promises := promises s;
     microtasks := microtasks s ++ js; calls := calls s |}.

Definition record_call (t : ref) (values : list val) (s : state) : state :=
  {| tasks := tasks s; promises := promises s;
     microtasks := microtasks s; calls := calls s ++ [(t, values)] |}.

(** [task._promise = p] *)
Definition set_promise (t : ref) (p : pid) (s : state) : state :=
  with_tasks (alter (λ T, {| label := label T; deps := deps T; compute := compute T;
                              _promise := Some p; _result := _result T;
                              _id := _id T |}) t) s.

(** [task._result = r] *)
Definition set_result (t : ref) (r : result) (s : state) : state :=
  with_tasks (alter (λ T, {| label := label T; deps := deps T; compute := compute T;
                              _promise := _promise T; _result := Some r;
                              _id := _id T |}) t) s.

(** *** Promise primitives *)

Definition new_promise (src : psource) (s : state) : pid * state :=
  (length (promises s),
   with_promises (λ ps, ps ++ [ {| settled := None; reactions := [];
                                   elements := []; source := src |} ]) s).

(** Fulfil [p] with [v]: a no-op on a settled promise; otherwise the
    registered reactions become jobs, in registration order. *)
Definition resolve (p : pid) (v : jsval) (s : state) : state :=
  match promises s !! p with
  | Some pr =>
      match settled pr with
      | Some _ => s
      | None =>
          enqueue ((λ k, ReactionJob k v) <$> reactions pr)
            (with_promises
               <[p := {| settled := Some v; reactions := [];
                         elements := elements pr; source := source pr |}]> s)
      end
  | None => s
  end.

(** [p.then(k)]: on a fulfilled promise the job is queued at once. *)
Definition then_ (p : pid) (k : reaction) (s : state) : state :=
  match promises s !! p with
  | Some pr =>
      match settled pr with
      | Some v => enqueue [ReactionJob k v] s
      | None =>
          with_promises
            <[p := {| settled := None; reactions := reactions pr ++ [k];
                      elements := elements pr; source := source pr |}]> s
      end
  | None => s
  end.

(** [Promise.all(ps)]: the result promise with its array of [n] empty
    slots, and one resolve-element function per input promise. *)
Definition promise_all (src : psource) (ps : list pid) (s : state) : pid * state :=
  let target := length (promises s) in
  let s := with_promises
             (λ l, l ++ [ {| settled := None; reactions := [];
                             elements := replicate (length ps) None;
                             source := src |} ]) s in
  let s := if decide (ps = []) then resolve target (JResults []) s else s in
  (target, foldl (λ s ip, then_ ip.2 (AllElement target ip.1) s) s (imap pair ps)).

(** The resolve-element function: [values[index] = x], and the result
    promise is fulfilled once no slot is empty. *)
Definition all_element (target : pid) (index : nat) (x : result) (s : state) : state :=
  match promises s !! target with
  | Some pr =>
      let values := <[index := Some x]> (elements pr) in
      let s := with_promises
                 <[target := {| settled := settled pr; reactions := reactions pr;
                                elements := values; source := source pr |}]> s in
      match mapM id values with
      | Some rs => resolve target (JResults rs) s
      | None => s
      end
  | None => s
  end.

(** [Promise.race(cs)]. *)
Definition promise_race (src : psource) (cs : list pid) (s : state) : pid * state :=
  let '(target, s) := new_promise src s in
  (target, foldl (λ s c, then_ c (Forward target) s) s cs).

(** Calling [task.compute(values)]: the call is recorded, and the promise
    the function returns is allocated, fulfilled already or not. *)
Definition call_compute (t : ref) (T : Task) (values : list val) (s : state)
    : pid * state :=
  let s := record_call t values s in
  let c := compute T values in
  let '(p, s) := new_promise (PCompute t (outcome c)) s in
  match c with
  | Immediately r => (p, resolve p (JResult r) s)
  | Eventually _ => (p, s)
  end.

(** ** The executor ([src/run.ts]) *)

(** The first cached failure among the dependencies (l.57-61). *)
Fixpoint cached_error (heap : list Task) (deps : list ref) : option result :=
  match deps with
  | [] => None
  | dep :: deps =>
      match heap !! dep ≫= _result with
      | Some (Err e o) => Some (Err e o)
      | _ => cached_error heap deps
      end
  end.

Section Exec.
(** [run] on the dependencies, one level down. *)
Context (run : ref → state → option (pid * state)).

(** [task.deps.map(dep => run(dep))] *)
Fixpoint run_deps (deps : list ref) (s : state) : option (list pid * state) :=
  match deps with
  | [] => Some ([], s)
  | dep :: deps =>
      '(p, s) ← run dep s;
      '(ps, s) ← run_deps deps s;
      Some (p :: ps, s)
  end.

(** [depPromises.map(async depPromise => ...)]: each contestant runs up
    to its first [await]. *)
Fixpoint contestants (t : ref) (depPromises : list pid) (i : nat)
    (rest : list pid) (s : state) : list pid * state :=
  match rest with
  | [] => ([], s)
  | depPromise :: rest =>
      let '(self, s) := new_promise (PContestant t depPromises i) s in
      let s := then_ depPromise (ContestantAwaitDep depPromises self) s in
      let '(cs, s) := contestants t depPromises (S i) rest s in
      (self :: cs, s)
  end.

(** [executeTask(task)] up to its first suspension. *)
Definition executeTask (t : ref) (s : state) : option (pid * state) :=
  T ← tasks s !! t;
  let '(self, s) := new_promise (PExec t) s in
  match deps T with
  | [] =>
      let '(pc, s) := call_compute t T [] s in
      Some (self, then_ pc (ExecAwaitLeaf t self) s)
  | _ :: _ =>
      match cached_error (tasks s) (deps T) with
      | Some r => Some (self, resolve self (JResult r) s)
      | None =>
          '(depPromises, s) ← run_deps (deps T) s;
          let '(cs, s) := contestants t depPromises 0 depPromises s in
          let '(race, s) := promise_race (PRace t depPromises cs) cs s in
          Some (self, then_ race (ExecAwaitRace t self) s)
      end
  end.
End Exec.

(** [run(task)] up to its first suspension; the result is the promise
    the async function returns.  [fuel] bounds the depth of the nested
    calls: the source recurses without bound on a cyclic graph. *)
Fixpoint run (fuel : nat) (t : ref) (s : state) : option (pid * state) :=
  match fuel with
  | 0 => None
  | S fuel =>
      T ← tasks s !! t;
      let '(self, s) := new_promise (PRun t) s in
      match _result T with
      | Some r => Some (self, resolve self (JResult r) s)
      | None =>
          match _promise T with
          | Some p => Some (self, enqueue [ResolveThenableJob self p] s)
          | None =>
              '(p, s) ← executeTask (run fuel) t s;
              let s := set_promise t p s in
              Some (self, then_ p (RunAwait t self) s)
          end
      end
  end.

(** One job of the microtask queue. *)
Definition run_reaction (k : reaction) (v : jsval) (s : state) : state :=
  match k, v with
  | RunAwait t self, JResult result =>
      resolve self (JResult result) (set_result t result s)
  | ExecAwaitLeaf t self, JResult r => resolve self (JResult r) s
  | ContestantAwaitDep depPromises self, JResult depResult =>
      if is_ok depResult then
        let '(pall, s) := promise_all (PAll self) depPromises s in
        then_ pall (ContestantAwaitAll self) s
      else resolve self (JWinner (WError depResult)) s
  | ContestantAwaitAll self, JResults allResults =>
      resolve self (JWinner (WSuccess allResults)) s
  | ExecAwaitRace t self, JWinner (WError error) =>
      resolve self (JResult error) s
  | ExecAwaitRace t self, JWinner (WSuccess allResults) =>
      match tasks s !! t with
      | Some T =>
          let depValues := value_of <$> allResults in
          let '(pc, s) := call_compute t T depValues s in
          then_ pc (ExecAwaitCompute t self) s
      | None => s
      end
  | ExecAwaitCompute t self, JResult result => resolve self (JResult result) s
  | Forward target, v => resolve target v s
  | AllElement target index, JResult x => all_element target index x s
  | _, _ => s
  end.

Definition run_job (j : job) (s : state) : state :=
  match j with
  | ReactionJob k v => run_reaction k v s
  | ResolveThenableJob target thenable => then_ thenable (Forward target) s
  end.

(** ** The program as a transition system

    What can happen between two jobs: the host creates a task, the host
    calls [run], the environment completes the body of a pending compute
    function, or the event loop runs the next microtask. *)
Inductive action :=
| CreateTask (label : string) (deps : list ref)
             (compute : helpers → list val → promised result)
| CallRun (t : ref)
| Settle (p : pid)
| Tick.

Definition exec (a : action) (s : state) : option state :=
  match a with
  | CreateTask l ds c =>
      (* the dependencies are task objects: they exist *)
      if decide (Forall (λ d, d < length (tasks s)) ds)
      then Some (with_tasks (λ h, (task l ds c h).2) s)
      else None
  | CallRun t => snd <$> run (S (length (tasks s))) t s
  | Settle p =>
      pr ← promises s !! p;
      match source pr, settled pr with
      | PCompute _ r, None => Some (resolve p (JResult r) s)
      | _, _ => None
      end
  | Tick =>
      match microtasks s with
      | [] => None
      | j :: q =>
          Some (run_job j {| tasks := tasks s; promises := promises s;
                             microtasks := q; calls := calls s |})
      end
  end.

Definition exec_all (l : list action) (s : state) : option state :=
  foldl (λ s a, s ≫= exec a) (Some s) l.

Inductive reachable : state → Prop :=
| reachable_init : reachable init
| reachable_step s a s' : reachable s → exec a s = Some s' → reachable s'.

(** ** Specification vocabulary *)

(** *** Heaps built by [task] *)

(** Every node carries its own identity token, and its dependencies were
    allocated before it: the heaps the constructor can build. *)
Definition wf_heap (h : list Task) : Prop :=
  ∀ t T, h !! t = Some T → _id T = t ∧ Forall (λ d, d < t) (deps T).

(** [u] is [t] or a transitive dependency of [t]. *)
Inductive reach (h : list Task) : ref → ref → Prop :=
| reach_refl t : reach h t t
| reach_dep t T d u :
    h !! t = Some T → d ∈ deps T → reach h d u → reach h t u.

Definition lbl (h : list Task) (u : ref) : string :=
  from_option label ""%string (h !! u).

(** [o] lists nodes without repetition, each after all its dependencies. *)
Definition topological (h : list Task) (o : list ref) : Prop :=
  NoDup o ∧
  ∀ i u T d, o !! i = Some u → h !! u = Some T → d ∈ deps T →
             ∃ j, j < i ∧ o !! j = Some d.

(** What one call of [traverse] adds to the accumulator. *)
Definition extends_by (h : list Task) (t : ref) (vis : gset nat) (o : list ref)
    (res : option (gset nat * list string)) (o' : list ref) : Prop :=
  res = Some (vis ∪ list_to_set o', lbl h <$> (o ++ o')) ∧
  topological h (o ++ o') ∧
  (∀ u, u ∈ o' → u ≤ t).

(** *** Reading the state *)

Definition fulfilled (s : state) (p : pid) (v : jsval) : Prop :=
  ∃ pr, promises s !! p = Some pr ∧ settled pr = Some v.

Definition pending (s : state) (p : pid) : Prop :=
  ∃ pr, promises s !! p = Some pr ∧ settled pr = None.

Definition source_is (s : state) (p : pid) (src : psource) : Prop :=
  ∃ pr, promises s !! p = Some pr ∧ source pr = src.

(** [task._promise] and [task._result] *)
Definition promise_of (s : state) (t : ref) : option pid := tasks s !! t ≫= _promise.
Definition result_of (s : state) (t : ref) : option result := tasks s !! t ≫= _result.

(** The execution of [t] has returned [r]: the promise stored in
    [t._promise] is fulfilled with [r]. *)
Definition executed (s : state) (t : ref) (r : result) : Prop :=
  ∃ q, promise_of s t = Some q ∧ fulfilled s q (JResult r).

(** The compute function of [t] has been called with [values], and the
    call returns [r]. *)
Definition computed (s : state) (t : ref) (values : list val) (r : result) : Prop :=
  ∃ T, tasks s !! t = Some T ∧ (t, values) ∈ calls s ∧ outcome (compute T values) = r.

(** Number of calls of the compute function of [t]. *)
Definition ncalls (t : ref) (s : state) : nat :=
  length (filter (λ c, c.1 = t) (calls s)).

(** *** The state only grows *)

Record task_le (T T' : Task) : Prop := {
  le_label : label T' = label T;
  le_deps : deps T' = deps T;
  le_compute : compute T' = compute T;
  le_id : _id T' = _id T;
  le_promise : ∀ q, _promise T = Some q → _promise T' = Some q;
  le_result : ∀ r, _result T = Some r → _result T' = Some r;
}.

Record promise_le (pr pr' : promise) : Prop := {
  le_source : source pr' = source pr;
  le_settled : ∀ v, settled pr = Some v → settled pr' = Some v;
}.

Record extends (s s' : state) : Prop := {
  ext_tasks : ∀ t T, tasks s !! t = Some T →
                     ∃ T', tasks s' !! t = Some T' ∧ task_le T T';
  ext_promises : ∀ p pr, promises s !! p = Some pr →
                         ∃ pr', promises s' !! p = Some pr' ∧ promise_le pr pr';
  ext_calls : ∀ c, c ∈ calls s → c ∈ calls s';
}.

(** *** The invariant of reachable states

    Every value that flows through a promise, a reaction or a job is
    justified by what the tasks have done so far. *)

(** The results of all the dependencies of [t], in declaration order. *)
Definition dep_results (s : state) (t : ref) (rs : list result) : Prop :=
  ∃ T, tasks s !! t = Some T ∧ Forall2 (executed s) (deps T) rs.

(** A failure of one of the dependencies of [t]. *)
Definition dep_failure (s : state) (t : ref) (r : result) : Prop :=
  is_ok r = false ∧ ∃ T d, tasks s !! t = Some T ∧ d ∈ deps T ∧ executed s d r.

(** What [executeTask(t)] may return: the result of its own compute
    function, or the failure of a dependency. *)
Definition exec_value (s : state) (t : ref) (r : result) : Prop :=
  (∃ values, computed s t values r) ∨ dep_failure s t r.

Definition winner_value (s : state) (t : ref) (w : winner) : Prop :=
  match w with
  | WError r => dep_failure s t r
  | WSuccess rs => dep_results s t rs
  end.

Definition value_ok (s : state) (src : psource) (v : jsval) : Prop :=
  match src with
  | PRun t => ∃ r, v = JResult r ∧ executed s t r
  | PExec t => ∃ r, v = JResult r ∧ exec_value s t r
  | PCompute t r => v = JResult r
  | PContestant t _ _ | PRace t _ _ => ∃ w, v = JWinner w ∧ winner_value s t w
  | PAll c => ∃ rs t ps i, v = JResults rs ∧ source_is s c (PContestant t ps i) ∧
                           dep_results s t rs
  end.

(** [ps] are promises returned by [run] on the dependencies of [t], in
    declaration order. *)
Definition dep_promises (s : state) (t : ref) (ps : list pid) : Prop :=
  ∃ T, tasks s !! t = Some T ∧ Forall2 (λ d p, source_is s p (PRun d)) (deps T) ps.

Definition source_ok (s : state) (src : psource) (els : list (option result)) : Prop :=
  match src with
  | PRun t | PExec t => is_Some (tasks s !! t)
  | PRace t ps cs =>
      dep_promises s t ps ∧ ps ≠ [] ∧ length cs = length ps ∧
      ∀ i c, cs !! i = Some c → source_is s c (PContestant t ps i)
  | PContestant t ps i => dep_promises s t ps ∧ i < length ps
  | PCompute t r => ∃ values, computed s t values r
  | PAll c =>
      ∃ t ps i, source_is s c (PContestant t ps i) ∧
                length els = length ps ∧
                ∀ j r, els !! j = Some (Some r) →
                       ∃ p, ps !! j = Some p ∧ fulfilled s p (JResult r)
  end.

(** [k] may be registered on the promise [p], whose source is [src]. *)
Definition reaction_ok (s : state) (p : pid) (src : psource) (k : reaction) : Prop :=
  match k with
  | RunAwait t self =>
      src = PExec t ∧ source_is s self (PRun t) ∧ promise_of s t = Some p
  | ExecAwaitLeaf t self | ExecAwaitCompute t self =>
      ∃ r, src = PCompute t r ∧ source_is s self (PExec t)
  | ContestantAwaitDep depPromises self =>
      ∃ t i, source_is s self (PContestant t depPromises i) ∧
             depPromises !! i = Some p
  | ContestantAwaitAll self =>
      ∃ t ps i, src = PAll self ∧ source_is s self (PContestant t ps i)
  | ExecAwaitRace t self =>
      ∃ ps cs, src = PRace t ps cs ∧ source_is s self (PExec t)
  | Forward target =>
      (∃ t, src = PExec t ∧ source_is s target (PRun t) ∧ promise_of s t = Some p) ∨
      (∃ t ps cs i, src = PContestant t ps i ∧
                    source_is s target (PRace t ps cs) ∧ cs !! i = Some p)
  | AllElement target j =>
      ∃ c t ps i, source_is s target (PAll c) ∧
                  source_is s c (PContestant t ps i) ∧ ps !! j = Some p
  end.

Definition promise_ok (s : state) (p : pid) (pr : promise) : Prop :=
  source_ok s (source pr) (elements pr) ∧
  Forall (reaction_ok s p (source pr)) (reactions pr) ∧
  ∀ v, settled pr = Some v → value_ok s (source pr) v ∧ reactions pr = [].

Definition job_ok (s : state) (j : job) : Prop :=
  match j with
  | ReactionJob k v =>
      ∃ p pr, promises s !! p = Some pr ∧ settled pr = Some v ∧
              reaction_ok s p (source pr) k
  | ResolveThenableJob target thenable =>
      ∃ t, source_is s target (PRun t) ∧ promise_of s t = Some thenable
  end.

Definition task_ok (s : state) (t : ref) (T : Task) : Prop :=
  (∀ q, _promise T = Some q → source_is s q (PExec t)) ∧
  (∀ r, _result T = Some r → executed s t r).

Definition call_ok (s : state) (c : ref * list val) : Prop :=
  ∃ rs, dep_results s c.1 rs ∧ c.2 = value_of <$> rs.

Record Inv (s : state) : Prop := {
  inv_heap : wf_heap (tasks s);
  inv_tasks : ∀ t T, tasks s !! t = Some T → task_ok s t T;
  inv_promises : ∀ p pr, promises s !! p = Some pr → promise_ok s p pr;
  inv_jobs : Forall (job_ok s) (microtasks s);
  inv_calls : Forall (call_ok s) (calls s);
}.

(** What the induction gives for the calls of [run] one level down. *)
Definition run_ok (run_f : ref → state → option (pid * state)) : Prop :=
  ∀ t s p s', Inv s → run_f t s = Some (p, s') →
    Inv s' ∧ extends s s' ∧ source_is s' p (PRun t) ∧
    ∀ u, t < u → tasks s' !! u = tasks s !! u.


(** *** Executions *)

Inductive steps : state → state → Prop :=
| steps_refl s : steps s s
| steps_step s a s' s'' : exec a s = Some s' → steps s' s'' → steps s s''.

(** *** Counting what is outstanding for a task

    A weight gives each reaction, each fulfilled promise and each recorded
    call a number of tokens; the weight of a state is their sum over the
    queue, the promise heap and the call log. *)

Record weights := Weights {
  w_reaction : reaction → nat;
  w_settled : psource → nat;
  w_call : ref * list val → nat;
}.

Definition w_job (w : weights) (j : job) : nat :=
  match j with
  | ReactionJob k _ => w_reaction w k
  | ResolveThenableJob _ _ => 0
  end.

Definition w_promise (w : weights) (pr : promise) : nat :=
  sum_list_with (w_reaction w) (reactions pr) +
  (if settled pr then w_settled w (source pr) else 0).

Definition weight (w : weights) (s : state) : nat :=
  sum_list_with (w_job w) (microtasks s) +
  sum_list_with (w_promise w) (promises s) +
  sum_list_with (w_call w) (calls s).

Definition indicator (P : Prop) `{!Decision P} : nat := if decide P then 1 else 0.

(** Number of promises created by [executeTask(t)]. *)
Definition nexec (t : ref) (s : state) : nat :=
  sum_list_with (λ pr, match source pr with
                       | PExec u => indicator (u = t)
                       | _ => 0
                       end) (promises s).

(** [t._promise] is set. *)
Definition started (t : ref) (s : state) : nat :=
  if promise_of s t then 1 else 0.

(** One token per call of the compute function of [t], made or still to
    be made by the continuation of the race. *)
Definition w_calls (t : ref) : weights :=
  {| w_reaction k := match k with
                     | ExecAwaitRace u _ => indicator (u = t)
                     | _ => 0
                     end;
     w_settled _ := 0;
     w_call c := indicator (c.1 = t) |}.

(** One token per execution of [t], returned or still suspended. *)
Definition w_exec (t : ref) : weights :=
  {| w_reaction k := match k with
                     | ExecAwaitLeaf u _ | ExecAwaitRace u _ | ExecAwaitCompute u _ =>
                         indicator (u = t)
                     | _ => 0
                     end;
     w_settled src := match src with PExec u => indicator (u = t) | _ => 0 end;
     w_call _ := 0 |}.

(** The weights the counting argument works for: an execution of [t]
    holds at most one token, and passes it on along its continuations. *)
Record admissible (t : ref) (w : weights) : Prop := {
  adm_run : ∀ u p, w_reaction w (RunAwait u p) = 0;
  adm_dep : ∀ ps p, w_reaction w (ContestantAwaitDep ps p) = 0;
  adm_all : ∀ p, w_reaction w (ContestantAwaitAll p) = 0;
  adm_fwd : ∀ p, w_reaction w (Forward p) = 0;
  adm_elt : ∀ p i, w_reaction w (AllElement p i) = 0;
  adm_settled : ∀ src, (∀ u, src ≠ PExec u) → w_settled w src = 0;
  adm_leaf : ∀ u p vs,
    w_call w (u, vs) + w_reaction w (ExecAwaitLeaf u p) ≤ indicator (u = t);
  adm_race : ∀ u p, w_reaction w (ExecAwaitRace u p) ≤ indicator (u = t);
  adm_short : ∀ u, w_settled w (PExec u) ≤ indicator (u = t);
  adm_leaf_done : ∀ u p, w_settled w (PExec u) ≤ w_reaction w (ExecAwaitLeaf u p);
  adm_race_err : ∀ u p, w_settled w (PExec u) ≤ w_reaction w (ExecAwaitRace u p);
  adm_race_ok : ∀ u p vs,
    w_call w (u, vs) + w_reaction w (ExecAwaitCompute u p)
    ≤ w_reaction w (ExecAwaitRace u p);
  adm_compute_done : ∀ u p,
    w_settled w (PExec u) ≤ w_reaction w (ExecAwaitCompute u p);
}.

(** A step may add tokens only by starting an execution of [t]. *)
Definition pays (t : ref) (w : weights) (s s' : state) : Prop :=
  weight w s' + nexec t s ≤ weight w s + nexec t s'.

(** An execution is started only for a task that has none. *)
Definition starts (t : ref) (s s' : state) : Prop :=
  nexec t s' + started t s ≤ nexec t s + started t s'.

(** *** Who settles a pending promise

    A promise that is still pending is settled by a continuation that is
    registered on another promise or already sits in the queue. *)

(** The reaction [k] is registered on [q], or [q] is fulfilled and the
    job of [k] is in the queue. *)
Definition waiting (s : state) (k : reaction) (q : pid) : Prop :=
  ∃ pr, promises s !! q = Some pr ∧
        match settled pr with
        | None => k ∈ reactions pr
        | Some v => ReactionJob k v ∈ microtasks s
        end.

(** What the pending promise [p] waits for, by the call that created it. *)
Definition awaits (s : state) (p : pid) (src : psource)
    (els : list (option result)) : Prop :=
  match src with
  | PRun t =>
      ∃ q, promise_of s t = Some q ∧
           (waiting s (RunAwait t p) q ∨
            ResolveThenableJob p q ∈ microtasks s ∨
            waiting s (Forward p) q)
  | PExec t =>
      (∃ pc r, source_is s pc (PCompute t r) ∧
               (waiting s (ExecAwaitLeaf t p) pc ∨
                waiting s (ExecAwaitCompute t p) pc)) ∨
      (∃ race ps cs, source_is s race (PRace t ps cs) ∧
                     waiting s (ExecAwaitRace t p) race)
  | PCompute _ _ => True
  | PContestant t ps i =>
      (∃ d, ps !! i = Some d ∧ waiting s (ContestantAwaitDep ps p) d) ∨
      (∃ pall, source_is s pall (PAll p) ∧ waiting s (ContestantAwaitAll p) pall)
  | PRace t ps cs => ∀ c, c ∈ cs → waiting s (Forward p) c
  | PAll c =>
      ∃ t ps i, source_is s c (PContestant t ps i) ∧
                ∀ j d, ps !! j = Some d →
                       (∃ r, els !! j = Some (Some r)) ∨
                       waiting s (AllElement p j) d
  end.

Definition alive (s : state) (p : pid) : Prop :=
  ∀ pr, promises s !! p = Some pr → settled pr = None →
        awaits s p (source pr) (elements pr).

(** The promise of [Promise.all] is pending exactly while a slot of its
    array is empty, and it is fulfilled with the array. *)
Definition slots_ok (pr : promise) : Prop :=
  ∀ c, source pr = PAll c →
       match settled pr with
       | None => mapM id (elements pr) = None
       | Some v => ∃ rs, v = JResults rs ∧ elements pr = Some <$> rs
       end.

(** While [t._result] is not set, the continuation of [run] that sets
    it is registered on [t._promise]. *)
Definition task_alive (s : state) (t : ref) : Prop :=
  ∀ q, promise_of s t = Some q → result_of s t = None →
       ∃ self, waiting s (RunAwait t self) q.

Record Live (s : state) : Prop := {
  live_promises : ∀ p, alive s p;
  live_tasks : ∀ t, task_alive s t;
  live_slots : ∀ p pr, promises s !! p = Some pr → slots_ok pr;
}.

(** The promise a job settles or continues. *)
Definition self_of (k : reaction) : pid :=
  match k with
  | RunAwait _ self | ExecAwaitLeaf _ self | ContestantAwaitDep _ self
  | ContestantAwaitAll self | ExecAwaitRace _ self | ExecAwaitCompute _ self => self
  | Forward target | AllElement target _ => target
  end.

Definition owner (j : job) : pid :=
  match j with
  | ReactionJob k _ => self_of k
  | ResolveThenableJob target _ => target
  end.

(** The state after the job at the head of the queue has been taken. *)
Definition dequeued (s : state) : state :=
  {| tasks := tasks s; promises := promises s;
     microtasks := tail (microtasks s); calls := calls s |}.

(** *** How a step changes the promises

    A pending promise keeps its reactions until it is fulfilled, and then
    they are in the queue. *)
Record promise_grows (queue : list job) (pr pr' : promise) : Prop := {
  gr_source : source pr' = source pr;
  gr_settled : ∀ v, settled pr = Some v → settled pr' = Some v;
  gr_reactions : ∀ k, settled pr = None → k ∈ reactions pr →
      match settled pr' with
      | None => k ∈ reactions pr'
      | Some v => ReactionJob k v ∈ queue
      end;
  gr_elements : ∀ j r, elements pr !! j = Some (Some r) →
                       elements pr' !! j = Some (Some r);
}.

Record grows (s s' : state) : Prop := {
  gr_tasks : ∀ t T, tasks s !! t = Some T →
                    ∃ T', tasks s' !! t = Some T' ∧ task_le T T';
  gr_promises : ∀ p pr, promises s !! p = Some pr →
      ∃ pr', promises s' !! p = Some pr' ∧ promise_grows (microtasks s') pr pr';
  gr_queue : ∀ j, j ∈ microtasks s → j ∈ microtasks s';
}.

(** *** The order of the jobs

    The queue is first in, first out, and so are the reactions of a
    promise: what is registered first runs first. *)

(** Every element with [Q] comes after an element with [P]. *)
Definition precedes {A} (P Q : A → Prop) (l : list A) : Prop :=
  ∀ n x, l !! n = Some x → Q x → ∃ m y, m < n ∧ l !! m = Some y ∧ P y.

Definition is_run_await (t : ref) (k : reaction) : Prop :=
  ∃ self, k = RunAwait t self.

Definition is_forward (k : reaction) : Prop := ∃ target, k = Forward target.

Definition runs_await (t : ref) (j : job) : Prop :=
  ∃ self v, j = ReactionJob (RunAwait t self) v.

Definition forwards_to (s : state) (t : ref) (j : job) : Prop :=
  ∃ target v, j = ReactionJob (Forward target) v ∧ source_is s target (PRun t).

(** The cache is written before any promise of [run] is fulfilled: the
    continuation of the call that started the execution is the first
    reaction of [task._promise]. *)
Record Cached (s : state) : Prop := {
  k_result : ∀ p t r, source_is s p (PRun t) → fulfilled s p (JResult r) →
                      result_of s t = Some r;
  k_reactions : ∀ t q pr, promise_of s t = Some q → result_of s t = None →
      promises s !! q = Some pr →
      precedes (is_run_await t) is_forward (reactions pr);
  k_queue : ∀ t, result_of s t = None →
      precedes (runs_await t) (forwards_to s t) (microtasks s);
}.

(** *** Quiescent states

    The microtask queue is empty and no compute function is still
    running: nothing happens any more unless [run] is called. *)
Definition running (pr : promise) : bool :=
  match source pr, settled pr with
  | PCompute _ _, None => true
  | _, _ => false
  end.

Definition quiescent (s : state) : Prop :=
  microtasks s = [] ∧ forallb (λ pr, negb (running pr)) (promises s) = true.

(** *** The event loop drains

    What is left to do: every job and every registered reaction counts
    for itself and for what it will register, and a compute function that
    is still running counts for one. *)
Definition drain_weights : weights :=
  {| w_reaction k := match k with
                     | ContestantAwaitDep depPromises _ => length depPromises + 2
                     | ExecAwaitRace _ _ => 3
                     | _ => 1
                     end;
     w_settled _ := 0;
     w_call _ := 0 |}.

Definition w_thenable (j : job) : nat :=
  match j with ResolveThenableJob _ _ => 2 | ReactionJob _ _ => 0 end.

Definition potential (s : state) : nat :=
  weight drain_weights s +
  sum_list_with w_thenable (microtasks s) +
  sum_list_with (λ pr, if running pr then 1 else 0) (promises s).

(** The steps of the event loop and of the environment: a microtask
    runs, or the body of a pending compute function completes. *)
Definition drains (a : action) : Prop := a = Tick ∨ ∃ p, a = Settle p.

(** The promise [p] settles as [v]: it is never fulfilled with anything
    else, and from every later state the event loop, with the compute
    functions completing, reaches a state in which it is fulfilled with
    [v]. *)
Definition settles (s : state) (p : pid) (v : jsval) : Prop :=
  ∀ s', steps s s' →
    (∀ v', fulfilled s' p v' → v' = v) ∧
    (quiescent s' → fulfilled s' p v) ∧
    ∃ l s'', Forall drains l ∧ exec_all l s' = Some s'' ∧ fulfilled s'' p v.

(** The promises of [s'] are those of [s], up to their reactions. *)
Definition same_settled (s s' : state) : Prop :=
  ∀ p pr', promises s' !! p = Some pr' →
    ∃ pr, promises s !! p = Some pr ∧ source pr = source pr' ∧
          settled pr = settled pr' ∧ elements pr = elements pr'.

Definition Slots (s : state) : Prop :=
  ∀ p pr, promises s !! p = Some pr → slots_ok pr.

(** *** What a call of [run] does before it returns

    It touches no promise that existed before the call, and it queues no
    job of a built-in. *)

Definition sync_reaction (k : reaction) : Prop :=
  match k with
  | RunAwait _ _ | ExecAwaitLeaf _ _ | ContestantAwaitDep _ _ => True
  | _ => False
  end.

Definition sync_job (j : job) : Prop :=
  match j with
  | ReactionJob k _ => sync_reaction k
  | ResolveThenableJob _ _ => True
  end.

(** The promises created since there were [n] of them. *)
Definition new_source (n : nat) (s : state) (pr : promise) : Prop :=
  match source pr with
  | PRun t =>
      (∀ v, settled pr = Some v → ∃ r, v = JResult r ∧ result_of s t = Some r) ∧
      Forall (λ k, ∃ ps c, k = ContestantAwaitDep ps c) (reactions pr)
  | PExec t => Forall (λ k, ∃ self, k = RunAwait t self) (reactions pr)
  | PCompute _ _ => True
  | PContestant t ps i => settled pr = None ∧ ∃ d, ps !! i = Some d ∧ n ≤ d
  | PRace t ps cs => settled pr = None ∧ ∀ c, c ∈ cs → n ≤ c
  | PAll _ => False
  end.

Record new_ok (n : nat) (s : state) (p : pid) (pr : promise) : Prop := {
  n_alive : settled pr = None → awaits s p (source pr) (elements pr);
  n_source : new_source n s pr;
}.

(** All of them but those of [open], which are under construction. *)
Definition news (n : nat) (open : list pid) (s : state) : Prop :=
  ∀ p pr, promises s !! p = Some pr → n ≤ p → p ∉ open → new_ok n s p pr.

Record sync (n : nat) (s s' : state) : Prop := {
  sync_old : ∀ p, p < n → promises s' !! p = promises s !! p;
  sync_queue : ∃ js, microtasks s' = microtasks s ++ js ∧ Forall sync_job js;
  sync_results : ∀ t, result_of s' t = result_of s t;
  sync_started : ∀ t q, promise_of s' t = Some q →
      promise_of s t = Some q ∨
      (promise_of s t = None ∧ n ≤ q ∧ ∃ self, waiting s' (RunAwait t self) q);
  sync_kept : ∀ t q, promise_of s t = Some q → promise_of s' t = Some q;
}.

(** What the induction gives for the calls of [run] one level down. *)
Definition run_sync (run_f : ref → state → option (pid * state)) : Prop :=
  ∀ t s p s', Inv s → run_f t s = Some (p, s') →
    p = length (promises s) ∧
    grows s s' ∧ sync (length (promises s)) s s' ∧ news (length (promises s)) [] s'.

(** *** The race of the contestants

    A contestant answers [error] in the job that receives the failure
    of its dependency, and [success] only after its [Promise.all] has
    seen every dependency.  The reaction of each contestant is registered
    on its dependency before any resolve-element function is, so the
    error reaches the race first. *)

#[global] Instance reaction_eq_dec : EqDecision reaction.
Proof. solve_decision. Defined.

(** The contestant [c] has passed [await depPromise]. *)
Definition Ran (s : state) (c : pid) : Prop :=
  (∃ v, fulfilled s c v) ∨ ∃ pall, source_is s pall (PAll c).

(** A resolve-element function for slot [j] of a [Promise.all(ps)]. *)
Definition element_of (s : state) (ps : list pid) (j : nat) (k : reaction) : Prop :=
  ∃ pall c t i, k = AllElement pall j ∧ source_is s pall (PAll c) ∧
                source_is s c (PContestant t ps i).

Definition element_job (s : state) (ps : list pid) (j : nat) (jb : job) : Prop :=
  ∃ k v, jb = ReactionJob k v ∧ element_of s ps j k.

Definition awaits_dep (ps : list pid) (c : pid) (jb : job) : Prop :=
  ∃ v, jb = ReactionJob (ContestantAwaitDep ps c) v.

Definition all_ok (rs : list result) : Prop := Forall (λ r, is_ok r = true) rs.

Definition has_err (rs : list result) : Prop := Exists (λ r, is_ok r = false) rs.

Definition forwards_error (race : pid) (jb : job) : Prop :=
  ∃ e, jb = ReactionJob (Forward race) (JWinner (WError e)).

(** A job that carries a [success] to the race [race] although a
    dependency has failed. *)
Definition bad_job (race : pid) (cs : list pid) (jb : job) : Prop :=
  ∃ rs, has_err rs ∧
    (jb = ReactionJob (Forward race) (JWinner (WSuccess rs)) ∨
     ∃ c, c ∈ cs ∧ jb = ReactionJob (ContestantAwaitAll c) (JResults rs)).

(** The compute function is called with the values of the dependencies,
    all of which have succeeded. *)
Definition call_values (s : state) (c : ref * list val) : Prop :=
  ∃ rs, dep_results s c.1 rs ∧ c.2 = value_of <$> rs ∧ all_ok rs.

(** [skipc] and [skipr]: the contestant and the race whose job has just
    been taken from the queue and has not run yet. *)
Record Ordered' (skipc skipr : pid → Prop) (s : state) : Prop := {
  o_pall : ∀ pall c t ps i,
      source_is s pall (PAll c) → source_is s c (PContestant t ps i) →
      ∃ d r, ps !! i = Some d ∧ fulfilled s d (JResult r) ∧ is_ok r = true;
  o_won : ∀ c t ps i w,
      source_is s c (PContestant t ps i) → fulfilled s c (JWinner w) →
      match w with
      | WSuccess _ => ∃ pall, source_is s pall (PAll c)
      | WError e => ∃ d, ps !! i = Some d ∧ fulfilled s d (JResult e) ∧ is_ok e = false
      end;
  o_reactions : ∀ c t ps j d prd,
      source_is s c (PContestant t ps j) → promises s !! d = Some prd →
      precedes (λ k, k = ContestantAwaitDep ps c) (element_of s ps j) (reactions prd);
  o_queue : ∀ c t ps j,
      source_is s c (PContestant t ps j) →
      skipc c ∨ Ran s c ∨
      precedes (awaits_dep ps c) (element_job s ps j) (microtasks s);
  o_slots : ∀ pall pr c' t' ps i j r c t,
      promises s !! pall = Some pr → source pr = PAll c' →
      source_is s c' (PContestant t' ps i) →
      elements pr !! j = Some (Some r) →
      source_is s c (PContestant t ps j) → Ran s c;
  o_ahead : ∀ race t ps cs,
      source_is s race (PRace t ps cs) → pending s race →
      skipr race ∨ precedes (forwards_error race) (bad_job race cs) (microtasks s);
  o_race : ∀ race t ps cs rs,
      source_is s race (PRace t ps cs) →
      fulfilled s race (JWinner (WSuccess rs)) → all_ok rs;
  o_calls : Forall (call_values s) (calls s);
}.

Definition Ordered (s : state) : Prop := Ordered' (λ _, False) (λ _, False) s.


(** ** Example graphs

    Compute functions and host scripts used to exercise the executor. *)

Definition succeeds (v : val) : helpers → list val → promised result :=
  λ h _, Immediately (h_ok h v).

Definition fails (msg : string) : helpers → list val → promised result :=
  λ h _, Immediately (h_err h (VStr msg)).

Definition fails_later (msg : string) : helpers → list val → promised result :=
  λ h _, Eventually (h_err h (VStr msg)).

(** The compute function that [all] installs. *)
Definition tuple_of : helpers → list val → promised result :=
  λ h results, Immediately (h_ok h (VTuple results)).

(** A compute function that calls the exported [err] on another node. *)
Definition blames (t : ref) (msg : string) : helpers → list val → promised result :=
  λ _ _, Immediately (err t (VStr msg)).

Definition ticks (n : nat) : list action := replicate n Tick.

Definition after (l : list action) : state := default init (exec_all l init).

(** A compute function that builds its results with the helpers it is
    given. *)
Definition uses_helpers (c : helpers → list val → promised result) : Prop :=
  ∀ h values, (∃ v, outcome (c h values) = h_ok h v) ∨
              (∃ e, outcome (c h values) = h_err h e).

(** The node was built by [all]. *)
Definition built_by_all (T : Task) : Prop :=
  ∀ values, compute T values = Immediately (ok (VTuple values)).


(** [d] depends on [m], which depends on [a]; [a] fails. *)
Definition chain : list action :=
  [ CreateTask "a" [] (fails "A"); CreateTask "m" [0] tuple_of;
    CreateTask "d" [1] tuple_of; CallRun 2 ].

(** [top] depends on [left] and [right], which share [shared]. *)
Definition diamond : list action :=
  [ CreateTask "shared" [] (succeeds (VNum 1)); CreateTask "left" [0] tuple_of;
    CreateTask "right" [0] tuple_of; CreateTask "top" [1; 2] tuple_of ].

(** A node that fails, run once. *)
Definition failed_once : list action :=
  [ CreateTask "a" [] (fails "A"); CallRun 0 ].

(** [x] has failed and is cached; [t] depends on it and has not run. *)
Definition cached_dep : list action :=
  [ CreateTask "x" [] (fails "X"); CreateTask "never" [] (succeeds (VNum 0));
    CreateTask "t" [1; 0] tuple_of; CallRun 0 ].

(** [t] is in flight when its dependency [x] settles as failed. *)
Definition in_flight : list action :=
  [ CreateTask "x" [] (fails "X"); CreateTask "z" [] (fails "Z");
    CreateTask "t" [1; 0] tuple_of; CallRun 0; CallRun 2; Tick; Tick; Tick; Tick ].

(** Two successful nodes and their [all]. *)
Definition pair_script : list action :=
  [ CreateTask "a" [] (succeeds (VNum 1)); CreateTask "b" [] (succeeds (VNum 2));
    CreateTask "pair" [0; 1] tuple_of; CallRun 2 ].

(** The node [liar] blames [innocent]. *)
Definition liar_script : list action :=
  [ CreateTask "innocent" [] tuple_of; CreateTask "liar" [] (blames 0 "boom");
    CallRun 1; Tick; Tick ].

(** [t] depends on [y] and [x]; [x] fails first, [y] later. *)
Definition late_failure : list action :=
  [ CreateTask "y" [] (fails_later "Y"); CreateTask "x" [] (fails "X");
    CreateTask "t" [0; 1] tuple_of; CallRun 2 ] ++ ticks 6 ++ [Settle 4; Tick; Tick].

(** Two failed dependencies, both cached, of a node that has not run. *)
Definition two_cached : list action :=
  [ CreateTask "y" [] (fails "Y"); CreateTask "x" [] (fails "X");
    CreateTask "t" [0; 1] tuple_of; CallRun 1; CallRun 0 ] ++ ticks 4.

(** A small graph with a repeated label. *)
Definition labelled : list Task :=
  (task "top" [1; 2] tuple_of
     (task "mid" [0] tuple_of
        (task "mid" [0] tuple_of
           (task "leaf" [] tuple_of []).2).2).2).2.

(** [u] is the node without dependencies reached from [t] by following
    the first dependency of each node: the first compute function a call
    of [run(t)] reaches. *)
Inductive first_leaf (h : list Task) : ref → ref → Prop :=
| first_leaf_here t T : h !! t = Some T → deps T = [] → first_leaf h t t
| first_leaf_dep t T d ds u :
    h !! t = Some T → deps T = d :: ds → first_leaf h d u → first_leaf h t u.



(** ** More vocabulary and example graphs *)

(** The edges that leave [u]: one per entry of its [deps] list. *)
Definition edges_of (h : list Task) (u : ref) : list (ref * ref) :=
  (λ d, (d, u)) <$> from_option deps [] (h !! u).

Definition edge_labels (h : list Task) (e : ref * ref) : string * string :=
  (lbl h e.1, lbl h e.2).

Definition succeeds_later (v : val) : helpers → list val → promised result :=
  λ h _, Eventually (h_ok h v).

(** [t] depends on [slow], which takes its time, and on [fast], which
    fails at once. *)
Definition slow_and_fast : list action :=
  [ CreateTask "slow" [] (succeeds_later (VNum 1)); CreateTask "fast" [] (fails "F");
    CreateTask "t" [0; 1] tuple_of; CallRun 2 ].

(** * Proofs *)

(** ** Heaps and the trace *)

Lemma wf_heap_nil : wf_heap [].
Proof. intros t T Ht. by rewrite lookup_nil in Ht. Qed.

Lemma wf_heap_task h l ds c :
  wf_heap h → Forall (λ d, d < length h) ds → wf_heap (task l ds c h).2.
Proof.
  intros Hwf Hds t T. simpl. intros Ht.
  apply lookup_app_Some in Ht as [Ht | [Hlen Ht]]; [by apply Hwf|].
  apply list_lookup_singleton_Some in Ht as [Hi <-]. simpl.
  assert (t = length h) as -> by lia. done.
Qed.

Lemma wf_heap_dep_valid h t T d :
  wf_heap h → h !! t = Some T → d ∈ deps T → d < t ∧ d < length h.
Proof.
  intros Hwf Ht Hd. destruct (Hwf _ _ Ht) as [_ Hall].
  rewrite Forall_forall in Hall. specialize (Hall _ Hd).
  apply lookup_lt_Some in Ht. lia.
Qed.

Lemma reach_le h t u : wf_heap h → reach h t u → u ≤ t.
Proof.
  intros Hwf. induction 1 as [|t T d u Ht Hd _ IH]; [lia|].
  pose proof (wf_heap_dep_valid _ _ _ _ Hwf Ht Hd). lia.
Qed.

Section TraceProofs.
Context (h : list Task) (Hwf : wf_heap h).
Local Abbreviation lbl := (lbl h).
Local Abbreviation topological := (topological h).
Local Abbreviation extends_by := (extends_by h).

Lemma lbl_lookup t T : h !! t = Some T → lbl t = label T.
Proof. unfold lbl. by intros ->. Qed.

Lemma topological_closed o t u :
  topological o → t ∈ o → reach h t u → u ∈ o.
Proof.
  intros [_ Hto] Hin Hr. induction Hr as [|t T d u Ht Hd _ IH]; [done|].
  apply IH. apply list_elem_of_lookup in Hin as [i Hi].
  destruct (Hto _ _ _ _ Hi Ht Hd) as (j & _ & Hj).
  apply list_elem_of_lookup. eauto.
Qed.

Lemma topological_snoc o t T :
  topological o → t ∉ o → h !! t = Some T → (∀ d, d ∈ deps T → d ∈ o) →
  topological (o ++ [t]).
Proof.
  intros [Hnd Hto] Hnin Ht Hds. split.
  - apply NoDup_app. split_and!; [done| |apply NoDup_singleton].
    intros x Hx ->%list_elem_of_singleton. done.
  - intros i u T' d Hi Hu Hd.
    apply lookup_app_Some in Hi as [Hi | [Hlen Hi]].
    + destruct (Hto _ _ _ _ Hi Hu Hd) as (j & Hj & Hjd).
      exists j. split; [done|]. by apply lookup_app_l_Some.
    + apply list_lookup_singleton_Some in Hi as [Hi <-].
      assert (T' = T) as -> by congruence.
      apply Hds, list_elem_of_lookup in Hd as [j Hj].
      exists j. split; [apply lookup_lt_Some in Hj; lia|].
      by apply lookup_app_l_Some.
Qed.

Lemma traverse_spec fuel : ∀ t vis o,
  t < fuel → t < length h →
  topological o → (∀ u, u ≤ t → u ∈ vis ↔ u ∈ o) →
  ∃ o', extends_by t vis o (traverse h fuel t (vis, lbl <$> o)) o' ∧
        (∀ u, u ∈ o' ↔ reach h t u ∧ u ∉ o) ∧
        last (o ++ o') = (if decide (t ∈ o) then last o else Some t).
Proof.
  induction fuel as [|fuel IH]; intros t vis o Hfuel Hlen Hto Hvis; [lia|].
  destruct (lookup_lt_is_Some_2 _ _ Hlen) as [T HT].
  destruct (Hwf _ _ HT) as [Hid Hdeps].
  simpl. rewrite HT. simpl. rewrite Hid.
  destruct (decide (t ∈ vis)) as [Hin | Hnin].
  { (* already visited *)
    exists []. rewrite app_nil_r. apply Hvis in Hin; [|lia].
    rewrite decide_True by done. split_and!; try done.
    - unfold extends_by. rewrite app_nil_r.
      split_and!; [|done|intros ? []%elem_of_nil].
      simpl. by rewrite (right_id_L ∅ (∪)).
    - intros u. split; [intros []%elem_of_nil|].
      intros [Hr Hn]. destruct Hn. by eapply topological_closed. }
  assert (t ∉ o) as Hno by (rewrite <-Hvis by lia; done).
  rewrite decide_False by done.
  (* the loop over the dependencies *)
  assert (∀ ds, Forall (λ d, d < t) ds → ∀ vis1 o1,
    topological (o ++ o1) → (∀ u, u < t → u ∈ vis1 ↔ u ∈ o ++ o1) →
    (∀ u, u ∈ o1 → u < t) →
    ∃ o2, foldl (λ acc dep, acc ≫= traverse h fuel dep)
                (Some (vis1, lbl <$> (o ++ o1))) ds
          = Some (vis1 ∪ list_to_set o2, lbl <$> (o ++ o1 ++ o2)) ∧
          topological (o ++ o1 ++ o2) ∧
          (∀ u, u ∈ o2 → u < t) ∧
          (∀ u, u ∈ o2 ↔ (∃ d, d ∈ ds ∧ reach h d u) ∧ u ∉ o ++ o1)) as Hloop.
  { induction ds as [|d ds IHds]; intros Hds vis1 o1 Hto1 Hvis1 Hlt1.
    - exists []. rewrite !app_nil_r. simpl. split_and!; try done.
      + by rewrite (right_id_L ∅ (∪)).
      + intros ? []%elem_of_nil.
      + intros u. split; [intros []%elem_of_nil|].
        intros [(d & []%elem_of_nil & _) _].
    - apply Forall_cons in Hds as [Hd Hds]. simpl.
      destruct (IH d vis1 (o ++ o1)) as (oa & (Hres & Htoa & Hlea) & Hina & _);
        [lia | lia | done | intros u Hu; apply Hvis1; lia |].
      rewrite Hres.
      destruct (IHds Hds (vis1 ∪ list_to_set oa) (o1 ++ oa))
        as (ob & Hresb & Htob & Hltb & Hinb).
      { by rewrite app_assoc. }
      { intros u Hu. rewrite elem_of_union, elem_of_list_to_set, Hvis1 by done.
        rewrite !elem_of_app. tauto. }
      { intros u [Hu | Hu]%elem_of_app; [by apply Hlt1|].
        apply Hlea in Hu. lia. }
      exists (oa ++ ob). rewrite <-!app_assoc in *.
      rewrite (app_assoc o o1 oa) in Hresb |- *. rewrite <-!app_assoc in *.
      split_and!.
      + rewrite Hresb, list_to_set_app_L. by rewrite (assoc_L (∪)).
      + done.
      + intros u [Hu | Hu]%elem_of_app; [apply Hlea in Hu; lia | by apply Hltb].
      + intros u. rewrite elem_of_app, Hina, Hinb.
        rewrite !elem_of_app. setoid_rewrite elem_of_cons.
        split.
        * intros [[Hr Hn] | [(d' & Hd' & Hr) Hn]].
          -- split; [exists d; auto | tauto].
          -- split; [exists d'; auto | tauto].
        * intros [(d' & [-> | Hd'] & Hr) Hn].
          -- left. tauto.
          -- destruct (decide (u ∈ oa)) as [Hoa | Hoa].
             ++ apply Hina in Hoa. left. tauto.
             ++ right. split; [eauto | tauto]. }
  destruct (Hloop (deps T) Hdeps (vis ∪ {[t]}) []) as (o2 & Hres & Hto2 & Hlt2 & Hin2).
  { by rewrite app_nil_r. }
  { intros u Hu. rewrite app_nil_r, elem_of_union, elem_of_singleton, Hvis by lia.
    split; [intros [?| ->]; [done | lia] | auto]. }
  { intros ? []%elem_of_nil. }
  rewrite app_nil_r in Hres. simpl in *. rewrite Hres. simpl.
  rewrite app_nil_r in Hin2.
  exists (o2 ++ [t]). split_and!.
  - split_and!.
    + assert (vis ∪ {[t]} ∪ list_to_set o2 =@{gset nat} vis ∪ list_to_set (o2 ++ [t]))
        as -> by (rewrite list_to_set_app_L; set_solver).
      rewrite (app_assoc o), (fmap_app _ (o ++ o2)). simpl.
      by rewrite (lbl_lookup _ _ HT).
    + rewrite app_assoc. eapply topological_snoc; [done| |done|].
      * intros [Hu | Hu]%elem_of_app; [done| apply Hlt2 in Hu; lia].
      * intros d Hd. destruct (decide (d ∈ o)) as [|Hdo]; [set_solver|].
        apply elem_of_app. right. apply Hin2. split; [|done].
        exists d. split; [done | constructor].
    + intros u [Hu | ->%list_elem_of_singleton]%elem_of_app; [apply Hlt2 in Hu|]; lia.
  - intros u. rewrite elem_of_app, list_elem_of_singleton, Hin2. split.
    + intros [[(d & Hd & Hr) Hn] | ->].
      * split; [by eapply reach_dep | done].
      * split; [constructor | done].
    + intros [Hr Hn]. inversion Hr as [|? T' d ? HT' Hd Hr']; subst; [by right|].
      left. assert (T' = T) as -> by congruence. eauto.
  - by rewrite !app_assoc, last_snoc.
Qed.
End TraceProofs.



(** ** The state only grows: monotonicity *)

Lemma task_le_refl T : task_le T T.
Proof. by split. Qed.

Lemma promise_le_refl pr : promise_le pr pr.
Proof. by split. Qed.

Lemma extends_refl s : extends s s.
Proof.
  split; [intros t T ?; exists T | intros p pr ?; exists pr | done];
    eauto using task_le_refl, promise_le_refl.
Qed.

Lemma extends_trans s1 s2 s3 : extends s1 s2 → extends s2 s3 → extends s1 s3.
Proof.
  intros [Ht1 Hp1 Hc1] [Ht2 Hp2 Hc2]. split.
  - intros t T HT. destruct (Ht1 _ _ HT) as (T' & HT' & [? ? ? ? ? ?]).
    destruct (Ht2 _ _ HT') as (T'' & HT'' & [? ? ? ? ? ?]).
    exists T''. split; [done|]. split; try congruence; eauto.
  - intros p pr Hp. destruct (Hp1 _ _ Hp) as (pr' & Hpr' & [? ?]).
    destruct (Hp2 _ _ Hpr') as (pr'' & Hpr'' & [? ?]).
    exists pr''. split; [done|]. split; try congruence; eauto.
  - eauto.
Qed.

Section Mono.
Context (s s' : state) (Hext : extends s s').

Lemma fulfilled_mono p v : fulfilled s p v → fulfilled s' p v.
Proof.
  intros (pr & Hp & Hv). destruct (ext_promises _ _ Hext _ _ Hp) as (pr' & ? & [? ?]).
  exists pr'. eauto.
Qed.

Lemma source_is_mono p src : source_is s p src → source_is s' p src.
Proof.
  intros (pr & Hp & Hv). destruct (ext_promises _ _ Hext _ _ Hp) as (pr' & ? & [? ?]).
  exists pr'. split; [done | congruence].
Qed.

Lemma promise_of_mono t q : promise_of s t = Some q → promise_of s' t = Some q.
Proof.
  unfold promise_of. intros (T & HT & Hq)%bind_Some.
  destruct (ext_tasks _ _ Hext _ _ HT) as (T' & -> & [? ? ? ? ? ?]). simpl. eauto.
Qed.

Lemma result_of_mono t r : result_of s t = Some r → result_of s' t = Some r.
Proof.
  unfold result_of. intros (T & HT & Hq)%bind_Some.
  destruct (ext_tasks _ _ Hext _ _ HT) as (T' & -> & [? ? ? ? ? ?]). simpl. eauto.
Qed.

Lemma task_mono t T :
  tasks s !! t = Some T →
  ∃ T', tasks s' !! t = Some T' ∧ deps T' = deps T ∧ compute T' = compute T.
Proof.
  intros HT. destruct (ext_tasks _ _ Hext _ _ HT) as (T' & ? & [? ? ? ? ? ?]). eauto.
Qed.

Lemma is_Some_task_mono t : is_Some (tasks s !! t) → is_Some (tasks s' !! t).
Proof. intros [T HT]. destruct (task_mono _ _ HT) as (T' & ? & _). eauto. Qed.

Lemma executed_mono t r : executed s t r → executed s' t r.
Proof. intros (q & ? & ?). exists q. eauto using promise_of_mono, fulfilled_mono. Qed.

Lemma computed_mono t values r : computed s t values r → computed s' t values r.
Proof.
  intros (T & HT & Hc & Ho). destruct (task_mono _ _ HT) as (T' & ? & ? & Hcomp).
  exists T'. split_and!; [done | by apply (ext_calls _ _ Hext) | by rewrite Hcomp].
Qed.

Lemma dep_results_mono t rs : dep_results s t rs → dep_results s' t rs.
Proof.
  intros (T & HT & Hrs). destruct (task_mono _ _ HT) as (T' & ? & Hd & _).
  exists T'. split; [done|]. rewrite Hd.
  eapply Forall2_impl; [done|]. eauto using executed_mono.
Qed.

Lemma dep_failure_mono t r : dep_failure s t r → dep_failure s' t r.
Proof.
  intros (Hr & T & d & HT & Hd & He). destruct (task_mono _ _ HT) as (T' & ? & Hds & _).
  split; [done|]. exists T', d. rewrite Hds. eauto using executed_mono.
Qed.

Lemma exec_value_mono t r : exec_value s t r → exec_value s' t r.
Proof.
  intros [[values ?] | ?]; [left; exists values | right];
    eauto using computed_mono, dep_failure_mono.
Qed.

Lemma winner_value_mono t w : winner_value s t w → winner_value s' t w.
Proof. destruct w; simpl; eauto using dep_failure_mono, dep_results_mono. Qed.

Lemma dep_promises_mono t ps : dep_promises s t ps → dep_promises s' t ps.
Proof.
  intros (T & HT & Hps). destruct (task_mono _ _ HT) as (T' & ? & Hd & _).
  exists T'. split; [done|]. rewrite Hd.
  eapply Forall2_impl; [done|]. eauto using source_is_mono.
Qed.

Lemma value_ok_mono src v : value_ok s src v → value_ok s' src v.
Proof.
  destruct src; simpl; try done.
  - intros (r & ? & ?). eauto using executed_mono.
  - intros (r & ? & ?). eauto using exec_value_mono.
  - intros (w & ? & ?). eauto using winner_value_mono.
  - intros (w & ? & ?). eauto using winner_value_mono.
  - intros (rs & t & ps & i & ? & ? & ?).
    exists rs, t, ps, i. eauto using source_is_mono, dep_results_mono.
Qed.

Lemma source_ok_mono src els : source_ok s src els → source_ok s' src els.
Proof.
  destruct src; simpl; eauto using is_Some_task_mono.
  - intros [values ?]. eauto using computed_mono.
  - intros [? ?]. eauto using dep_promises_mono.
  - intros (? & ? & ? & Hcs). split_and!; eauto using dep_promises_mono.
    intros i c Hi. eauto using source_is_mono.
  - intros (t & ps & i & Hc & Hlen & Hels).
    exists t, ps, i. split_and!; eauto using source_is_mono.
    intros j r Hj. destruct (Hels _ _ Hj) as (p & ? & ?). eauto using fulfilled_mono.
Qed.

Lemma reaction_ok_mono p src k : reaction_ok s p src k → reaction_ok s' p src k.
Proof.
  destruct k; simpl.
  - intros (? & ? & ?). eauto using source_is_mono, promise_of_mono.
  - intros (r & ? & ?). eauto using source_is_mono.
  - intros (t & i & ? & ?). eauto using source_is_mono.
  - intros (t & ps & i & ? & ?). eauto 6 using source_is_mono.
  - intros (ps & cs & ? & ?). eauto using source_is_mono.
  - intros (r & ? & ?). eauto using source_is_mono.
  - intros [(t & ? & ? & ?) | (t & ps & cs & i & ? & ? & ?)]; [left | right].
    + eauto 7 using source_is_mono, promise_of_mono.
    + exists t, ps, cs, i. eauto using source_is_mono.
  - intros (c & t & ps & i & ? & ? & ?).
    exists c, t, ps, i. split_and!; eauto using source_is_mono.
Qed.

Lemma job_ok_mono j : job_ok s j → job_ok s' j.
Proof.
  destruct j as [k v | target thenable]; simpl.
  - intros (p & pr & Hp & Hv & Hk).
    destruct (ext_promises _ _ Hext _ _ Hp) as (pr' & ? & [Hsrc ?]).
    exists p, pr'. rewrite Hsrc. eauto using reaction_ok_mono.
  - intros (t & ? & ?). eauto using source_is_mono, promise_of_mono.
Qed.

Lemma promise_ok_mono p pr : promise_ok s p pr → promise_ok s' p pr.
Proof.
  intros (Hsrc & Hks & Hv). split_and!.
  - by apply source_ok_mono.
  - eapply Forall_impl; [done|]. eauto using reaction_ok_mono.
  - intros v Hs. destruct (Hv _ Hs). eauto using value_ok_mono.
Qed.

Lemma call_ok_mono c : call_ok s c → call_ok s' c.
Proof. intros (rs & ? & ?). exists rs. eauto using dep_results_mono. Qed.

Lemma task_ok_mono t T : task_ok s t T → task_ok s' t T.
Proof. intros [Hp Hr]. split; eauto using source_is_mono, executed_mono. Qed.

(** The invariant after a step that only adds to the state: what was
    there stays justified, what is new or changed has to be. *)
Lemma Inv_extend :
  Inv s →
  wf_heap (tasks s') →
  (∀ t T', tasks s' !! t = Some T' →
     (∃ T, tasks s !! t = Some T ∧ _promise T' = _promise T ∧ _result T' = _result T)
     ∨ task_ok s' t T') →
  (∀ p pr', promises s' !! p = Some pr' →
     promises s !! p = Some pr' ∨ promise_ok s' p pr') →
  (∀ j, j ∈ microtasks s' → j ∈ microtasks s ∨ job_ok s' j) →
  (∀ c, c ∈ calls s' → c ∈ calls s ∨ call_ok s' c) →
  Inv s'.
Proof.
  intros [Hh Ht Hp Hj Hc] Hh' Ht' Hp' Hj' Hc'. split; [done|..].
  - intros t T' HT'. destruct (Ht' _ _ HT') as [(T & HT & Heqp & Heqr) | ?]; [|done].
    destruct (task_ok_mono _ _ (Ht _ _ HT)) as [H1 H2].
    split; intros ?; rewrite ?Heqp, ?Heqr; eauto.
  - intros p pr' Hpr'. destruct (Hp' _ _ Hpr') as [? | ?]; [|done].
    eauto using promise_ok_mono.
  - apply Forall_forall. intros j Hin. destruct (Hj' _ Hin) as [Hold | ?]; [|done].
    rewrite Forall_forall in Hj. eauto using job_ok_mono.
  - apply Forall_forall. intros c Hin. destruct (Hc' _ Hin) as [Hold | ?]; [|done].
    rewrite Forall_forall in Hc. eauto using call_ok_mono.
Qed.
End Mono.


(** ** The primitives keep the invariant *)

Lemma extends_queue s s' :
  tasks s' = tasks s → promises s' = promises s → calls s' = calls s → extends s s'.
Proof.
  intros Ht Hp Hc. split; rewrite ?Ht, ?Hp, ?Hc;
    eauto using task_le_refl, promise_le_refl.
Qed.

Lemma extends_insert_promise s p pr pr' :
  promises s !! p = Some pr → promise_le pr pr' →
  extends s (with_promises <[p := pr']> s).
Proof.
  intros Hp Hle. split; simpl; eauto using task_le_refl.
  intros p0 pr0 Hp0. destruct (decide (p = p0)) as [<- | Hne].
  - exists pr'. rewrite list_lookup_insert_eq by (by eapply lookup_lt_Some).
    split; [done | congruence].
  - exists pr0. rewrite list_lookup_insert_ne by done. eauto using promise_le_refl.
Qed.

Lemma extends_app_promise s l :
  extends s (with_promises (λ ps, ps ++ l) s).
Proof.
  split; simpl; eauto using task_le_refl.
  intros p pr Hp. exists pr. split; [by apply lookup_app_l_Some | apply promise_le_refl].
Qed.

(** *** [new_promise] *)

Lemma new_promise_fst src s : (new_promise src s).1 = length (promises s).
Proof. done. Qed.

Lemma new_promise_lookup src s :
  promises (new_promise src s).2 !! length (promises s)
  = Some {| settled := None; reactions := []; elements := []; source := src |}.
Proof. simpl. by rewrite lookup_app_r, Nat.sub_diag by lia. Qed.

Lemma new_promise_source src s :
  source_is (new_promise src s).2 (length (promises s)) src.
Proof. eexists. split; [apply new_promise_lookup | done]. Qed.

Lemma new_promise_extends src s : extends s (new_promise src s).2.
Proof. apply extends_app_promise. Qed.

Lemma Inv_new_promise src s :
  Inv s → source_ok s src [] → Inv (new_promise src s).2.
Proof.
  intros HI Hsrc. pose proof (new_promise_extends src s) as Hext.
  apply (Inv_extend _ _ Hext HI); simpl; [apply HI | eauto | | auto | auto].
  intros p pr' [Hp | [_ Hp]]%lookup_app_Some; [by left | right].
  apply list_lookup_singleton_Some in Hp as [_ <-].
  split_and!; simpl; [by eapply source_ok_mono | done | done].
Qed.

(** *** [resolve] *)

Lemma resolve_extends p v s : extends s (resolve p v s).
Proof.
  unfold resolve. destruct (promises s !! p) as [pr|] eqn:Hp; [|apply extends_refl].
  destruct (settled pr) eqn:Hs; [apply extends_refl|].
  set (pr' := mkPromise _ _ _ _).
  apply (extends_trans _ (with_promises <[p := pr']> s)); [|by apply extends_queue].
  eapply extends_insert_promise; [done|]. split; simpl; [done | congruence].
Qed.

Lemma Inv_resolve p v s :
  Inv s →
  (∀ pr, promises s !! p = Some pr → settled pr = None → value_ok s (source pr) v) →
  Inv (resolve p v s).
Proof.
  intros HI Hv. pose proof (resolve_extends p v s) as Hext. revert Hext.
  unfold resolve. destruct (promises s !! p) as [pr|] eqn:Hp; [|done].
  destruct (settled pr) eqn:Hs; [done|]. intros Hext.
  destruct (inv_promises _ HI _ _ Hp) as (Hsrc & Hks & _).
  apply (Inv_extend _ _ Hext HI); simpl; [apply HI | eauto | | | auto].
  - intros p0 pr0 [(<- & <- & _) | [_ ?]]%list_lookup_insert_Some; [right | by left].
    split_and!; simpl; [by eapply source_ok_mono | done |].
    intros ? [= <-]. split; [|done]. eapply value_ok_mono; eauto.
  - intros j [? | Hj]%elem_of_app; [by left | right].
    apply list_elem_of_fmap in Hj as (k & -> & Hk). simpl.
    eexists p, _. rewrite list_lookup_insert_eq by (by eapply lookup_lt_Some).
    split_and!; [done..|]. simpl. rewrite Forall_forall in Hks.
    eapply reaction_ok_mono; eauto.
Qed.

Lemma resolve_fulfilled p v s :
  pending s p → fulfilled (resolve p v s) p v.
Proof.
  intros (pr & Hp & Hs). unfold resolve. rewrite Hp, Hs.
  eexists. simpl. rewrite list_lookup_insert_eq by (by eapply lookup_lt_Some). done.
Qed.

(** *** [then_] *)

Lemma then_extends p k s : extends s (then_ p k s).
Proof.
  unfold then_. destruct (promises s !! p) as [pr|] eqn:Hp; [|apply extends_refl].
  destruct (settled pr) eqn:Hs; [by apply extends_queue|].
  eapply extends_insert_promise; [done|]. split; simpl; [done | congruence].
Qed.

Lemma Inv_then p k s :
  Inv s →
  (∀ pr, promises s !! p = Some pr → reaction_ok s p (source pr) k) →
  Inv (then_ p k s).
Proof.
  intros HI Hk. pose proof (then_extends p k s) as Hext. revert Hext.
  unfold then_. destruct (promises s !! p) as [pr|] eqn:Hp; [|done].
  specialize (Hk _ eq_refl).
  destruct (inv_promises _ HI _ _ Hp) as (Hsrc & Hks & _).
  destruct (settled pr) as [v|] eqn:Hs; intros Hext.
  - apply (Inv_extend _ _ Hext HI); simpl; [apply HI | eauto | auto | | auto].
    intros j [? | ->%list_elem_of_singleton]%elem_of_app; [by left | right].
    simpl. exists p, pr. eauto.
  - apply (Inv_extend _ _ Hext HI); simpl; [apply HI | eauto | | auto | auto].
    intros p0 pr0 [(<- & <- & _) | [_ ?]]%list_lookup_insert_Some; [right | by left].
    split_and!; simpl; [by eapply source_ok_mono | | done].
    apply Forall_app. split.
    + eapply Forall_impl; [done|]. intros; by eapply reaction_ok_mono.
    + constructor; [|done]. by eapply reaction_ok_mono.
Qed.

(** *** The queue and the call log *)

Lemma Inv_enqueue js s : Inv s → Forall (job_ok s) js → Inv (enqueue js s).
Proof.
  intros HI Hjs. assert (extends s (enqueue js s)) as Hext by by apply extends_queue.
  apply (Inv_extend _ _ Hext HI); simpl; [apply HI | eauto | auto | | auto].
  intros j [? | Hj]%elem_of_app; [by left | right].
  rewrite Forall_forall in Hjs. eapply job_ok_mono; eauto.
Qed.

Lemma Inv_dequeue s j q :
  Inv s → microtasks s = j :: q →
  Inv {| tasks := tasks s; promises := promises s; microtasks := q; calls := calls s |}
  ∧ job_ok s j.
Proof.
  intros HI Hq. pose proof (inv_jobs _ HI) as Hjs. rewrite Hq in Hjs.
  apply Forall_cons in Hjs as [Hj Hjs]. split; [|done].
  set (s' := mkState _ _ _ _).
  assert (extends s s') as Hext by by apply extends_queue.
  apply (Inv_extend _ _ Hext HI); simpl; [apply HI | eauto | auto | | auto].
  intros j' Hin. left. rewrite Hq. by right.
Qed.

Lemma record_call_extends t values s : extends s (record_call t values s).
Proof.
  split; simpl; eauto using task_le_refl, promise_le_refl.
  intros c Hc. apply elem_of_app. by left.
Qed.

Lemma Inv_record_call t values s :
  Inv s → call_ok s (t, values) → Inv (record_call t values s).
Proof.
  intros HI Hc. pose proof (record_call_extends t values s) as Hext.
  apply (Inv_extend _ _ Hext HI); simpl; [apply HI | eauto | auto | auto |].
  intros c [? | ->%list_elem_of_singleton]%elem_of_app; [by left | right].
  by eapply call_ok_mono.
Qed.

(** *** The task fields *)

Lemma alter_task_extends (f : Task → Task) t s :
  (∀ T, tasks s !! t = Some T → task_le T (f T)) →
  extends s (with_tasks (alter f t) s).
Proof.
  intros Hf. split; simpl; eauto using promise_le_refl.
  intros u T HT. destruct (decide (t = u)) as [<- | Hne].
  - exists (f T). rewrite list_lookup_alter_eq, HT. eauto.
  - exists T. rewrite list_lookup_alter_ne by done. eauto using task_le_refl.
Qed.

Lemma wf_heap_alter (f : Task → Task) t h :
  (∀ T, _id (f T) = _id T ∧ deps (f T) = deps T) →
  wf_heap h → wf_heap (alter f t h).
Proof.
  intros Hf Hwf u T'. destruct (decide (t = u)) as [<- | Hne].
  - rewrite list_lookup_alter_eq. intros (T & HT & ->)%fmap_Some.
    destruct (Hf T) as [-> ->]. by apply Hwf.
  - rewrite list_lookup_alter_ne by done. apply Hwf.
Qed.

Lemma Inv_set_promise t q s :
  Inv s → promise_of s t = None → source_is s q (PExec t) →
  Inv (set_promise t q s).
Proof.
  intros HI Hnone Hq.
  assert (extends s (set_promise t q s)) as Hext.
  { apply alter_task_extends. intros T HT. split; simpl; try done.
    unfold promise_of in Hnone. rewrite HT in Hnone. simpl in Hnone. by rewrite Hnone. }
  apply (Inv_extend _ _ Hext HI); simpl; [|  | auto | auto | auto].
  { apply wf_heap_alter; [done | apply HI]. }
  intros u T'. destruct (decide (t = u)) as [<- | Hne].
  - rewrite list_lookup_alter_eq. intros (T & HT & ->)%fmap_Some. right.
    split; simpl.
    + intros ? [= <-]. by eapply source_is_mono.
    + intros r Hr. destruct (inv_tasks _ HI _ _ HT) as [_ Hex].
      destruct (Hex _ Hr) as (q' & Hq' & _). congruence.
  - rewrite list_lookup_alter_ne by done. eauto.
Qed.

Lemma executed_fun s t r r' : executed s t r → executed s t r' → r = r'.
Proof.
  intros (q & Hq & pr & Hp & Hs) (q' & Hq' & pr' & Hp' & Hs'). congruence.
Qed.

Lemma set_result_extends t r s :
  Inv s → executed s t r → extends s (set_result t r s).
Proof.
  intros HI Hex. apply alter_task_extends. intros T HT. split; simpl; try done.
  intros r' Hr'. f_equal. destruct (inv_tasks _ HI _ _ HT) as [_ Hex'].
  eauto using executed_fun.
Qed.

Lemma Inv_set_result t r s :
  Inv s → executed s t r → Inv (set_result t r s).
Proof.
  intros HI Hex.
  assert (extends s (set_result t r s)) as Hext.
  { apply alter_task_extends. intros T HT. split; simpl; try done.
    intros r' Hr'. f_equal. destruct (inv_tasks _ HI _ _ HT) as [_ Hex'].
    eauto using executed_fun. }
  apply (Inv_extend _ _ Hext HI); simpl; [|  | auto | auto | auto].
  { apply wf_heap_alter; [done | apply HI]. }
  intros u T'. destruct (decide (t = u)) as [<- | Hne].
  - rewrite list_lookup_alter_eq. intros (T & HT & ->)%fmap_Some. right.
    destruct (inv_tasks _ HI _ _ HT) as [Hpr _]. split; simpl.
    + intros q' Hq'. eapply source_is_mono; eauto.
    + intros ? [= <-]. by eapply executed_mono.
  - rewrite list_lookup_alter_ne by done. eauto.
Qed.


(** ** The built-ins and [call_compute] keep the invariant *)

(** None of the promise primitives touches the task heap. *)
Lemma tasks_resolve p v s : tasks (resolve p v s) = tasks s.
Proof.
  unfold resolve. destruct (promises s !! p) as [pr|]; [|done]. by destruct (settled pr).
Qed.

Lemma tasks_then p k s : tasks (then_ p k s) = tasks s.
Proof.
  unfold then_. destruct (promises s !! p) as [pr|]; [|done]. by destruct (settled pr).
Qed.

Lemma tasks_fold_then {A} (f : A → pid) (g : A → reaction) l : ∀ s,
  tasks (foldl (λ s x, then_ (f x) (g x) s) s l) = tasks s.
Proof. induction l as [|x l IH]; intros s; simpl; [done|]. by rewrite IH, tasks_then. Qed.

Lemma fold_then_extends {A} (f : A → pid) (g : A → reaction) l : ∀ s,
  extends s (foldl (λ s x, then_ (f x) (g x) s) s l).
Proof.
  induction l as [|x l IH]; intros s; simpl; [apply extends_refl|].
  eapply extends_trans; [apply then_extends | apply IH].
Qed.

Lemma Inv_fold_then {A} (f : A → pid) (g : A → reaction) l : ∀ s,
  Inv s →
  Forall (λ x, ∃ src, source_is s (f x) src ∧ reaction_ok s (f x) src (g x)) l →
  Inv (foldl (λ s x, then_ (f x) (g x) s) s l).
Proof.
  induction l as [|x l IH]; intros s HI Hl; simpl; [done|].
  apply Forall_cons in Hl as [(src & (pr & Hp & Hsrc) & Hk) Hl].
  apply IH.
  - apply Inv_then; [done|]. intros pr' Hp'. congruence.
  - eapply Forall_impl; [done|]. intros y (src' & ? & ?). exists src'.
    eauto using source_is_mono, reaction_ok_mono, then_extends.
Qed.

(** *** [call_compute] *)

Lemma call_compute_spec t T values s :
  Inv s → tasks s !! t = Some T → call_ok s (t, values) →
  let ps := call_compute t T values s in
  Inv ps.2 ∧ extends s ps.2 ∧ tasks ps.2 = tasks s ∧
  ps.1 = length (promises s) ∧
  source_is ps.2 ps.1 (PCompute t (outcome (compute T values))).
Proof.
  intros HI HT Hc. unfold call_compute.
  set (s1 := record_call t values s).
  assert (Inv s1) as HI1 by by apply Inv_record_call.
  assert (extends s s1) as Hext1 by apply record_call_extends.
  set (r := outcome (compute T values)).
  assert (Inv (new_promise (PCompute t r) s1).2) as HI2.
  { apply Inv_new_promise; [done|]. exists values, T. split_and!; [done | | done].
    simpl. apply elem_of_app. right. by apply list_elem_of_singleton. }
  pose proof (new_promise_source (PCompute t r) s1) as Hsrc.
  pose proof (new_promise_extends (PCompute t r) s1) as Hext2.
  destruct (compute T values) as [r' | r'] eqn:Hcomp; simpl.
  - split_and!.
    + apply Inv_resolve; [done|]. intros pr Hp _. simpl in Hp.
      rewrite lookup_app_r, Nat.sub_diag in Hp by done. by injection Hp as <-.
    + eauto using extends_trans, resolve_extends.
    + by rewrite tasks_resolve.
    + done.
    + eapply source_is_mono; [apply resolve_extends | done].
  - split_and!; eauto using extends_trans.
Qed.

(** *** [Promise.race] *)

Lemma source_is_fun s p src src' : source_is s p src → source_is s p src' → src = src'.
Proof. intros (? & ? & ?) (? & ? & ?). congruence. Qed.

Lemma Inv_fulfilled s p pr v :
  Inv s → promises s !! p = Some pr → settled pr = Some v → value_ok s (source pr) v.
Proof.
  intros HI Hp Hv.
  by destruct (inv_promises _ HI _ _ Hp) as (_ & _ & [? _]%(λ H, H v Hv)).
Qed.

Lemma Inv_source s p src :
  Inv s → source_is s p src → ∃ els, source_ok s src els.
Proof.
  intros HI (pr & Hp & <-). destruct (inv_promises _ HI _ _ Hp) as (? & _). eauto.
Qed.

Lemma Inv_contestant s c t ps i :
  Inv s → source_is s c (PContestant t ps i) → dep_promises s t ps ∧ i < length ps.
Proof. intros HI Hc. by destruct (Inv_source _ _ _ HI Hc) as [els ?]. Qed.

(** The value of a promise returned by [run(d)] is the result of [d]. *)
Lemma Inv_run_value s p d v :
  Inv s → source_is s p (PRun d) → fulfilled s p v →
  ∃ r, v = JResult r ∧ executed s d r.
Proof.
  intros HI (pr & Hp & Hsrc) (pr' & Hp' & Hv).
  assert (pr' = pr) as -> by congruence.
  pose proof (Inv_fulfilled _ _ _ _ HI Hp Hv) as H. by rewrite Hsrc in H.
Qed.

Lemma promise_race_spec t ps cs s :
  Inv s → dep_promises s t ps → ps ≠ [] → length cs = length ps →
  (∀ i c, cs !! i = Some c → source_is s c (PContestant t ps i)) →
  let r := promise_race (PRace t ps cs) cs s in
  Inv r.2 ∧ extends s r.2 ∧ tasks r.2 = tasks s ∧
  r.1 = length (promises s) ∧ source_is r.2 r.1 (PRace t ps cs).
Proof.
  intros HI Ht Hne Hlen Hcs. unfold promise_race.
  destruct (new_promise (PRace t ps cs) s) as [target s1] eqn:Hnew. simpl.
  assert (s1 = (new_promise (PRace t ps cs) s).2) as -> by by rewrite Hnew.
  assert (target = length (promises s)) as -> by by injection Hnew.
  pose proof (new_promise_extends (PRace t ps cs) s) as Hext.
  pose proof (new_promise_source (PRace t ps cs) s) as Hsrc.
  split_and!; [| | |done|].
  - apply (Inv_fold_then id (λ _, Forward _)); [by apply Inv_new_promise|].
    apply Forall_forall. intros c [i Hi]%list_elem_of_lookup.
    exists (PContestant t ps i).
    split; [eapply source_is_mono; eauto|]. right. exists t, ps, cs, i. eauto.
  - eapply extends_trans; [done|]. apply (fold_then_extends id (λ _, Forward _)).
  - by rewrite (tasks_fold_then id (λ _, Forward _)).
  - eapply source_is_mono; [apply (fold_then_extends id (λ _, Forward _)) | done].
Qed.

(** *** [Promise.all] *)

Lemma Forall2_imap_pair {A B} (P : A → B → Prop) (l : list A) (k : list B) :
  Forall2 P l k →
  Forall (λ ip, ∃ x, l !! ip.1 = Some x ∧ k !! ip.1 = Some ip.2 ∧ P x ip.2)
         (imap pair k).
Proof.
  intros H. apply Forall_forall. intros [i p] Hin.
  apply list_elem_of_lookup in Hin as [j Hj].
  rewrite list_lookup_imap in Hj. apply fmap_Some in Hj as (y & Hy & [= -> ->]).
  destruct (Forall2_lookup_r _ _ _ _ _ H Hy) as (x & ? & ?). eauto.
Qed.

Lemma promise_all_spec c t ps i s :
  Inv s → source_is s c (PContestant t ps i) →
  let r := promise_all (PAll c) ps s in
  Inv r.2 ∧ extends s r.2 ∧ tasks r.2 = tasks s ∧ source_is r.2 r.1 (PAll c).
Proof.
  intros HI Hc. destruct (Inv_contestant _ _ _ _ _ HI Hc) as [(T & HT & Hps) Hi].
  unfold promise_all.
  set (pr0 := mkPromise _ _ _ _).
  set (s1 := with_promises (λ l, l ++ [pr0]) s).
  set (target := length (promises s)).
  assert (extends s s1) as Hext1 by apply extends_app_promise.
  assert (promises s1 !! target = Some pr0) as Hlook.
  { simpl. by rewrite lookup_app_r, Nat.sub_diag by done. }
  assert (Inv s1) as HI1.
  { apply (Inv_extend _ _ Hext1 HI); simpl; [apply HI | eauto | | auto | auto].
    intros p pr' [Hp | [_ Hp]]%lookup_app_Some; [by left | right].
    apply list_lookup_singleton_Some in Hp as [_ <-].
    split_and!; simpl; [|done..].
    exists t, ps, i. split_and!; [by eapply source_is_mono | |].
    - by rewrite length_replicate.
    - intros j r [??]%lookup_replicate. done. }
  set (s2 := if decide (ps = []) then resolve target (JResults []) s1 else s1).
  assert (Inv s2 ∧ extends s1 s2 ∧ tasks s2 = tasks s1) as (HI2 & Hext2 & Ht2).
  { unfold s2. destruct (decide (ps = [])) as [-> | _]; [|eauto using extends_refl].
    split_and!; [|apply resolve_extends | apply tasks_resolve].
    apply Inv_resolve; [done|]. intros pr Hp _.
    assert (pr = pr0) as -> by congruence. simpl.
    exists [], t, [], i. split_and!; [done | by eapply source_is_mono |].
    exists T. split; [done|]. apply Forall2_nil_inv_r in Hps as ->. constructor. }
  assert (source_is s2 target (PAll c)) as Hsrc.
  { eapply source_is_mono; [done|]. by exists pr0. }
  pose proof (fold_then_extends (λ ip : nat * nat, ip.2)
                (λ ip, AllElement target ip.1) (imap pair ps) s2) as Hext3.
  split_and!.
  - apply (Inv_fold_then (λ ip : nat * nat, ip.2) (λ ip, AllElement target ip.1));
      [done|].
    eapply Forall_impl; [apply (Forall2_imap_pair _ _ _ Hps)|].
    intros [j p] (d & Hd & Hj & Hp). simpl in *. exists (PRun d).
    split; [eauto using source_is_mono, extends_trans|].
    exists c, t, ps, i. split_and!; eauto using source_is_mono, extends_trans.
  - eauto using extends_trans.
  - simpl. rewrite (tasks_fold_then (λ ip : nat * nat, ip.2)
                      (λ ip, AllElement target ip.1)). by rewrite Ht2.
  - simpl. by eapply source_is_mono.
Qed.

Lemma all_element_extends target index x s : extends s (all_element target index x s).
Proof.
  unfold all_element. destruct (promises s !! target) as [pr|] eqn:Hp; [|apply extends_refl].
  set (pr' := mkPromise _ _ _ _).
  assert (extends s (with_promises <[target := pr']> s)) as Hext.
  { eapply extends_insert_promise; [done|]. by split. }
  destruct (mapM id _); [|done]. eauto using extends_trans, resolve_extends.
Qed.

Lemma tasks_all_element target index x s : tasks (all_element target index x s) = tasks s.
Proof.
  unfold all_element. destruct (promises s !! target) as [pr|]; [|done].
  destruct (mapM id _); [|done]. by rewrite tasks_resolve.
Qed.

Lemma Inv_all_element target index x s c t ps i p :
  Inv s → source_is s target (PAll c) → source_is s c (PContestant t ps i) →
  ps !! index = Some p → fulfilled s p (JResult x) →
  Inv (all_element target index x s).
Proof.
  intros HI (pr & Hp & Hsrc) Hc Hd Hx. unfold all_element. rewrite Hp.
  destruct (Inv_contestant _ _ _ _ _ HI Hc) as [(T & HT & Hps) Hi].
  set (values := <[index := Some x]> (elements pr)).
  set (pr' := mkPromise _ _ _ _).
  set (s1 := with_promises <[target := pr']> s).
  assert (extends s s1) as Hext.
  { eapply extends_insert_promise; [done|]. by split. }
  destruct (inv_promises _ HI _ _ Hp) as (Hso & Hks & Hv).
  rewrite Hsrc in Hso. simpl in Hso.
  destruct Hso as (t' & ps' & i' & Hc' & Hlen & Hels).
  assert (PContestant t' ps' i' = PContestant t ps i) as [= -> -> ->]
    by eauto using source_is_fun.
  assert (length values = length ps) as Hlen' by by (unfold values; rewrite length_insert).
  assert (∀ j r, values !! j = Some (Some r) →
                 ∃ p, ps !! j = Some p ∧ fulfilled s p (JResult r)) as Hels'.
  { intros j r [(<- & [= <-] & _) | [_ ?]]%list_lookup_insert_Some; eauto. }
  assert (Inv s1) as HI1.
  { apply (Inv_extend _ _ Hext HI); simpl; [apply HI | eauto | | auto | auto].
    intros p0 pr0 [(<- & <- & _) | [_ ?]]%list_lookup_insert_Some; [right | by left].
    split_and!; simpl.
    - rewrite Hsrc. simpl. exists t, ps, i.
      split_and!; [by eapply source_is_mono | done |].
      intros j r Hj. destruct (Hels' _ _ Hj) as (p' & ? & ?).
      eauto using fulfilled_mono.
    - eapply Forall_impl; [done|]. intros; by eapply reaction_ok_mono.
    - intros v Hs. destruct (Hv _ Hs). split; [by eapply value_ok_mono | done]. }
  destruct (mapM id values) as [rs|] eqn:Hrs; [|done].
  apply Inv_resolve; [done|]. intros pr1 Hp1 _. simpl in Hp1.
  rewrite list_lookup_insert_eq in Hp1 by (by eapply lookup_lt_Some).
  injection Hp1 as <-. simpl. rewrite Hsrc. simpl.
  exists rs, t, ps, i. split_and!; [done | by eapply source_is_mono |].
  exists T. split; [done|]. apply mapM_Some in Hrs.
  apply Forall2_same_length_lookup. split.
  { apply Forall2_length in Hrs, Hps. lia. }
  intros j d' r Hd' Hr. destruct (Forall2_lookup_r _ _ _ _ _ Hrs Hr) as (o & Ho & Hid).
  simpl in Hid. subst o. destruct (Hels' _ _ Ho) as (p' & Hp' & Hful).
  destruct (Forall2_lookup_l _ _ _ _ _ Hps Hd') as (p'' & Hp'' & Hsrc'').
  assert (p'' = p') as -> by congruence.
  destruct (Inv_run_value _ _ _ _ HI Hsrc'' Hful) as (r' & [= <-] & Hex).
  by eapply executed_mono.
Qed.


(** ** The executor keeps the invariant *)

#[local] Arguments promise_race : simpl never.
#[local] Arguments promise_all : simpl never.
#[local] Arguments call_compute : simpl never.
#[local] Arguments all_element : simpl never.

Lemma set_promise_extends t q s :
  promise_of s t = None → extends s (set_promise t q s).
Proof.
  intros Hnone. apply alter_task_extends. intros T HT. split; simpl; try done.
  unfold promise_of in Hnone. rewrite HT in Hnone. simpl in Hnone. by rewrite Hnone.
Qed.

Lemma tasks_set_promise_ne t q s u :
  t ≠ u → tasks (set_promise t q s) !! u = tasks s !! u.
Proof. intros. simpl. by rewrite list_lookup_alter_ne. Qed.

Lemma promise_of_set_promise t q s :
  is_Some (tasks s !! t) → promise_of (set_promise t q s) t = Some q.
Proof.
  intros [T HT]. unfold promise_of. simpl. by rewrite list_lookup_alter_eq, HT.
Qed.

Lemma cached_error_Some h ds r :
  cached_error h ds = Some r →
  is_ok r = false ∧ ∃ d T, d ∈ ds ∧ h !! d = Some T ∧ _result T = Some r.
Proof.
  induction ds as [|d ds IH]; simpl; [done|].
  destruct (h !! d) as [T|] eqn:HT; simpl.
  - destruct (_result T) as [[v | e o]|] eqn:Hr.
    + intros (? & d' & T' & ? & ?)%IH. split; [done|]. exists d', T'. set_solver.
    + intros [= <-]. split; [done|]. exists d, T. set_solver.
    + intros (? & d' & T' & ? & ?)%IH. split; [done|]. exists d', T'. set_solver.
  - intros (? & d' & T' & ? & ?)%IH. split; [done|]. exists d', T'. set_solver.
Qed.

Lemma contestants_spec t depPromises : ∀ rest i s,
  Inv s → dep_promises s t depPromises →
  drop i depPromises = rest →
  let r := contestants t depPromises i rest s in
  Inv r.2 ∧ extends s r.2 ∧ tasks r.2 = tasks s ∧ length r.1 = length rest ∧
  ∀ k c, r.1 !! k = Some c → source_is r.2 c (PContestant t depPromises (i + k)).
Proof.
  induction rest as [|depPromise rest IH]; intros i s HI Hps Hdrop; simpl.
  { split_and!; eauto using extends_refl. intros k c Hk. done. }
  assert (depPromises !! i = Some depPromise) as Hi.
  { rewrite <-(Nat.add_0_r i), <-lookup_drop, Hdrop. done. }
  set (self := length (promises s)).
  set (s1 := with_promises _ s).
  assert (s1 = (new_promise (PContestant t depPromises i) s).2) as Hs1 by done.
  assert (Inv s1) as HI1.
  { rewrite Hs1. apply Inv_new_promise; [done|]. split; [done|].
    by eapply lookup_lt_Some. }
  assert (extends s s1) as Hext1 by (rewrite Hs1; apply new_promise_extends).
  assert (source_is s1 self (PContestant t depPromises i)) as Hself
    by (rewrite Hs1; apply new_promise_source).
  set (s2 := then_ depPromise (ContestantAwaitDep depPromises self) s1).
  assert (extends s1 s2) as Hext2 by apply then_extends.
  assert (Inv s2) as HI2.
  { apply Inv_then; [done|]. intros pr Hp. by exists t, i. }
  specialize (IH (S i) s2 HI2).
  destruct (contestants t depPromises (S i) rest s2) as [cs s3] eqn:Hrest.
  simpl in *. destruct IH as (HI3 & Hext3 & Ht3 & Hlen & Hcs).
  - eauto using dep_promises_mono, extends_trans.
  - rewrite <-(Nat.add_1_r i), <-drop_drop, Hdrop. done.
  - split_and!; [done | eauto using extends_trans | | by rewrite Hlen |].
    + rewrite Ht3. unfold s2. by rewrite tasks_then.
    + intros [|k] c Hk; simpl in Hk.
      * injection Hk as <-. rewrite Nat.add_0_r.
        eauto using source_is_mono, extends_trans.
      * replace (i + S k) with (S i + k) by lia. by apply Hcs.
Qed.

Section ExecSpec.
Context (run_f : ref → state → option (pid * state)).

Context (Hrun : run_ok run_f).

Lemma run_deps_spec ds : ∀ s ps s',
  Inv s → run_deps run_f ds s = Some (ps, s') →
  Inv s' ∧ extends s s' ∧ Forall2 (λ d p, source_is s' p (PRun d)) ds ps ∧
  ∀ u, Forall (λ d, d < u) ds → tasks s' !! u = tasks s !! u.
Proof.
  induction ds as [|d ds IH]; intros s ps s' HI Hr; simpl in Hr.
  { injection Hr as <- <-. eauto using extends_refl. }
  destruct (run_f d s) as [[p s1]|] eqn:Hd; [|done]. simpl in Hr.
  destruct (run_deps run_f ds s1) as [[ps' s2]|] eqn:Hds; [|done]. simpl in Hr.
  injection Hr as <- <-.
  destruct (Hrun _ _ _ _ HI Hd) as (HI1 & Hext1 & Hp & Hfr1).
  destruct (IH _ _ _ HI1 Hds) as (HI2 & Hext2 & Hps & Hfr2).
  split_and!; [done | eauto using extends_trans | |].
  - constructor; [by eapply source_is_mono | done].
  - intros u [? ?]%Forall_cons. rewrite Hfr2, Hfr1 by done. done.
Qed.

Lemma executeTask_spec t s p s' :
  Inv s → executeTask run_f t s = Some (p, s') →
  Inv s' ∧ extends s s' ∧ source_is s' p (PExec t) ∧
  ∀ u, t ≤ u → tasks s' !! u = tasks s !! u.
Proof.
  intros HI. unfold executeTask.
  destruct (tasks s !! t) as [T|] eqn:HT; [|done].
  cbn -[promise_race call_compute contestants].
  set (self := length (promises s)).
  set (s1 := with_promises _ s).
  assert (s1 = (new_promise (PExec t) s).2) as Hs1 by done.
  assert (Inv s1) as HI1 by (rewrite Hs1; apply Inv_new_promise; [done | by eexists]).
  assert (extends s s1) as Hext1 by (rewrite Hs1; apply new_promise_extends).
  assert (source_is s1 self (PExec t)) as Hself
    by (rewrite Hs1; apply new_promise_source).
  assert (tasks s1 !! t = Some T) as HT1 by done.
  destruct (deps T) as [|d0 ds0] eqn:Hdeps.
  - (* no dependencies *)
    destruct (call_compute_spec t T [] s1) as (HI2 & Hext2 & Ht2 & Hpc & Hsrc);
      [done | done | |].
    { exists []. split; [|done]. exists T. rewrite Hdeps. by split. }
    destruct (call_compute t T [] s1) as [pc s2]. cbn [fst snd] in *.
    intros [= <- <-]. split_and!.
    + apply Inv_then; [done|]. intros pr Hp. destruct Hsrc as (pr' & Hp' & Hsrc').
      assert (pr' = pr) as -> by congruence. rewrite Hsrc'. simpl.
      eexists. eauto using source_is_mono.
    + eauto using extends_trans, then_extends.
    + eauto using source_is_mono, extends_trans, then_extends.
    + intros u _. by rewrite tasks_then, Ht2.
  - rewrite <-Hdeps. change (tasks s1) with (tasks s).
    destruct (cached_error (tasks s) (deps T)) as [r|] eqn:Hce.
    + (* a dependency has already failed *)
      intros [= <- <-]. split_and!.
      * apply Inv_resolve; [done|]. intros pr Hp _.
        destruct Hself as (pr' & Hp' & Hsrc').
        assert (pr' = pr) as -> by congruence. rewrite Hsrc'. simpl.
        exists r. split; [done|]. right.
        apply cached_error_Some in Hce as (Hr & d & D & Hd & HD & HDr).
        split; [done|]. exists T, d. split_and!; [done..|].
        eapply executed_mono; [done|]. by eapply (inv_tasks _ HI).
      * eauto using extends_trans, resolve_extends.
      * eauto using source_is_mono, resolve_extends.
      * intros u _. by rewrite tasks_resolve.
    + (* run the dependencies and race *)
      destruct (run_deps run_f (deps T) s1) as [[depPromises s2]|] eqn:Hrd; [|done].
      cbn -[promise_race call_compute contestants].
      destruct (run_deps_spec _ _ _ _ HI1 Hrd) as (HI2 & Hext2 & Hps & Hfr2).
      assert (∀ u, t ≤ u → tasks s2 !! u = tasks s !! u) as Hfr2'.
      { intros u Hu. rewrite Hfr2; [done|].
        destruct (inv_heap _ HI _ _ HT) as [_ Hlt].
        eapply Forall_impl; [done|]. simpl. lia. }
      assert (tasks s2 !! t = Some T) as HT2 by (rewrite Hfr2' by done; done).
      assert (dep_promises s2 t depPromises) as Hdp by by exists T.
      assert (depPromises ≠ []) as Hne.
      { intros ->. apply Forall2_length in Hps. by rewrite Hdeps in Hps. }
      destruct (contestants_spec t depPromises depPromises 0 s2)
        as (HI3 & Hext3 & Ht3 & Hlen & Hcs); [done..|].
      destruct (contestants t depPromises 0 depPromises s2) as [cs s3].
      cbn [fst snd] in *.
      destruct (promise_race_spec t depPromises cs s3)
        as (HI4 & Hext4 & Ht4 & _ & Hrace);
        [done | by eapply dep_promises_mono | done | done | done |].
      destruct (promise_race (PRace t depPromises cs) cs s3) as [race s4].
      cbn [fst snd] in *.
      intros [= <- <-].
      assert (extends s s4) as Hext by eauto using extends_trans.
      split_and!.
      * apply Inv_then; [done|]. intros pr Hp. destruct Hrace as (pr' & Hp' & Hsrc').
        assert (pr' = pr) as -> by congruence. rewrite Hsrc'. simpl.
        exists depPromises, cs. split; [done|].
        eauto using source_is_mono, extends_trans.
      * eauto using extends_trans, then_extends.
      * eauto 6 using source_is_mono, extends_trans, then_extends.
      * intros u Hu. rewrite tasks_then, Ht4, Ht3. auto.
Qed.
End ExecSpec.

Lemma run_spec fuel : run_ok (run fuel).
Proof.
  induction fuel as [|fuel IH]; intros t s p s' HI; simpl; [done|].
  destruct (tasks s !! t) as [T|] eqn:HT; [|done]. simpl.
  set (self := length (promises s)).
  set (s1 := with_promises _ s).
  assert (s1 = (new_promise (PRun t) s).2) as Hs1 by done.
  assert (Inv s1) as HI1 by (rewrite Hs1; apply Inv_new_promise; [done | by eexists]).
  assert (extends s s1) as Hext1 by (rewrite Hs1; apply new_promise_extends).
  assert (source_is s1 self (PRun t)) as Hself
    by (rewrite Hs1; apply new_promise_source).
  destruct (inv_tasks _ HI _ _ HT) as [HTp HTr].
  destruct (_result T) as [r|] eqn:Hres.
  { (* cache hit *)
    intros [= <- <-]. split_and!.
    - apply Inv_resolve; [done|]. intros pr Hp _.
      destruct Hself as (pr' & Hp' & Hsrc'). assert (pr' = pr) as -> by congruence.
      rewrite Hsrc'. simpl. exists r. split; [done|].
      eapply executed_mono; eauto.
    - eauto using extends_trans, resolve_extends.
    - eauto using source_is_mono, resolve_extends.
    - intros u _. by rewrite tasks_resolve. }
  destruct (_promise T) as [q|] eqn:Hprom.
  { (* in flight *)
    intros [= <- <-]. split_and!.
    - apply Inv_enqueue; [done|]. constructor; [|done]. simpl.
      exists t. split; [done|]. unfold promise_of. simpl. rewrite HT. done.
    - eapply extends_trans; [done|]. by apply extends_queue.
    - done.
    - done. }
  destruct (executeTask (run fuel) t s1) as [[q s2]|] eqn:Hex; [|done]. simpl.
  destruct (executeTask_spec _ IH _ _ _ _ HI1 Hex) as (HI2 & Hext2 & Hq & Hfr).
  intros [= <- <-].
  assert (tasks s2 !! t = Some T) as HT2 by (rewrite Hfr by done; done).
  assert (promise_of s2 t = None) as Hnone.
  { unfold promise_of. rewrite HT2. done. }
  pose proof (set_promise_extends t q s2 Hnone) as Hext3.
  assert (Inv (set_promise t q s2)) as HI3 by by apply Inv_set_promise.
  split_and!.
  - apply Inv_then; [done|]. intros pr Hp.
    destruct (source_is_mono _ _ Hext3 _ _ Hq) as (pr' & Hp' & Hsrc').
    assert (pr' = pr) as -> by congruence. rewrite Hsrc'. simpl.
    split_and!; [done | eauto using source_is_mono, extends_trans |].
    apply promise_of_set_promise. eauto.
  - eauto using extends_trans, then_extends.
  - eauto 6 using source_is_mono, extends_trans, then_extends.
  - intros u Hu. rewrite tasks_then, tasks_set_promise_ne by lia.
    rewrite Hfr by lia. done.
Qed.


(** ** Every reachable state satisfies the invariant *)

#[local] Opaque promise_race promise_all call_compute all_element resolve then_.

Lemma Inv_resolve_at p v s src :
  Inv s → source_is s p src → value_ok s src v → Inv (resolve p v s).
Proof.
  intros HI (pr' & Hp' & <-) Hv. apply Inv_resolve; [done|]. intros pr Hp _.
  congruence.
Qed.

Lemma Inv_then_at p k s :
  Inv s → (∀ src, source_is s p src → reaction_ok s p src k) → Inv (then_ p k s).
Proof. intros HI Hk. apply Inv_then; [done|]. intros pr Hp. apply Hk. by exists pr. Qed.

(** The promise a contestant or a resolve-element function waits on is
    the promise of the dependency at its index. *)
Lemma dep_promise_value s t ps i p v :
  Inv s → dep_promises s t ps → ps !! i = Some p → fulfilled s p v →
  ∃ T d r, tasks s !! t = Some T ∧ deps T !! i = Some d ∧
           source_is s p (PRun d) ∧ v = JResult r ∧ executed s d r.
Proof.
  intros HI (T & HT & Hps) Hi Hv.
  destruct (Forall2_lookup_r _ _ _ _ _ Hps Hi) as (d & Hd & Hsrc).
  destruct (Inv_run_value _ _ _ _ HI Hsrc Hv) as (r & -> & Hr).
  exists T, d, r. done.
Qed.

Lemma Inv_run_reaction k v s p pr :
  Inv s → promises s !! p = Some pr → settled pr = Some v →
  reaction_ok s p (source pr) k →
  Inv (run_reaction k v s).
Proof.
  intros HI Hp Hs Hk. pose proof (Inv_fulfilled _ _ _ _ HI Hp Hs) as Hv.
  assert (fulfilled s p v) as Hful by by exists pr.
  destruct (inv_promises _ HI _ _ Hp) as (Hso & _ & _).
  destruct k as [t self | t self | depPromises self | self | t self | t self
                | target | target index]; simpl in Hk.
  - (* RunAwait *)
    destruct Hk as (Hsrc & Hself & Hq). rewrite Hsrc in Hv.
    destruct Hv as (r & -> & Hr). simpl.
    assert (executed s t r) as Hex by (exists p; split; [done | by exists pr]).
    apply (Inv_resolve_at _ _ _ (PRun t));
      [by apply Inv_set_result
      |by eapply source_is_mono, Hself; apply set_result_extends |].
    exists r. split; [done|]. eapply executed_mono; [|done].
    by apply set_result_extends.
  - (* ExecAwaitLeaf *)
    destruct Hk as (r & Hsrc & Hself). rewrite Hsrc in Hv, Hso. simpl in *.
    subst v. apply (Inv_resolve_at _ _ _ (PExec t)); [done..|].
    exists r. split; [done|]. by left.
  - (* ContestantAwaitDep *)
    destruct Hk as (t & i & Hself & Hi).
    destruct (Inv_contestant _ _ _ _ _ HI Hself) as [Hdp _].
    destruct (dep_promise_value _ _ _ _ _ _ HI Hdp Hi Hful)
      as (T & d & r & HT & Hd & _ & -> & Hr). simpl.
    destruct (is_ok r) eqn:Hok.
    + destruct (promise_all_spec self t depPromises i s) as (HI1 & Hext1 & _ & Hall);
        [done..|].
      destruct (promise_all (PAll self) depPromises s) as [pall s1].
      cbn [fst snd] in *. apply Inv_then_at; [done|]. intros src Hsrc'.
      rewrite (source_is_fun _ _ _ _ Hsrc' Hall). simpl.
      exists t, depPromises, i. eauto using source_is_mono.
    + apply (Inv_resolve_at _ _ _ (PContestant t depPromises i)); [done..|].
      eexists. split; [done|]. simpl. split; [done|].
      exists T, d. split_and!; [done | by eapply list_elem_of_lookup_2 | done].
  - (* ContestantAwaitAll *)
    destruct Hk as (t & ps & i & Hsrc & Hself). rewrite Hsrc in Hv.
    destruct Hv as (rs & t' & ps' & i' & -> & Hself' & Hrs). simpl.
    assert (PContestant t ps i = PContestant t' ps' i') as [= <- <- <-]
      by eauto using source_is_fun.
    apply (Inv_resolve_at _ _ _ (PContestant t ps i)); [done..|].
    eexists. split; [done|]. done.
  - (* ExecAwaitRace *)
    destruct Hk as (ps & cs & Hsrc & Hself). rewrite Hsrc in Hv.
    destruct Hv as (w & -> & Hw). simpl. destruct w as [r | rs]; simpl in Hw.
    + apply (Inv_resolve_at _ _ _ (PExec t)); [done..|].
      exists r. split; [done|]. by right.
    + destruct Hw as (T & HT & Hrs). rewrite HT.
      destruct (call_compute_spec t T (value_of <$> rs) s)
        as (HI1 & Hext1 & _ & _ & Hpc); [done | done | |].
      { exists rs. split; [|done]. by exists T. }
      destruct (call_compute t T (value_of <$> rs) s) as [pc s1].
      cbn [fst snd] in *. apply Inv_then_at; [done|]. intros src Hsrc'.
      rewrite (source_is_fun _ _ _ _ Hsrc' Hpc). simpl.
      eexists. eauto using source_is_mono.
  - (* ExecAwaitCompute *)
    destruct Hk as (r & Hsrc & Hself). rewrite Hsrc in Hv, Hso. simpl in *.
    subst v. apply (Inv_resolve_at _ _ _ (PExec t)); [done..|].
    exists r. split; [done|]. by left.
  - (* Forward *)
    destruct Hk as [(t & Hsrc & Htarget & Hq)
                   | (t & ps & cs & i & Hsrc & Htarget & _)];
      rewrite Hsrc in Hv; simpl in *.
    + destruct Hv as (r & -> & Hr).
      apply (Inv_resolve_at _ _ _ (PRun t)); [done..|].
      exists r. split; [done|]. exists p. split; [done | by exists pr].
    + by apply (Inv_resolve_at _ _ _ (PRace t ps cs)).
  - (* AllElement *)
    destruct Hk as (c & t & ps & i & Htarget & Hc & Hj).
    destruct (Inv_contestant _ _ _ _ _ HI Hc) as [Hdp _].
    destruct (dep_promise_value _ _ _ _ _ _ HI Hdp Hj Hful)
      as (T & d & r & HT & Hd & _ & -> & Hr). simpl.
    by eapply Inv_all_element.
Qed.

Lemma Inv_run_job j s : Inv s → job_ok s j → Inv (run_job j s).
Proof.
  intros HI Hj. destruct j as [k v | target thenable]; simpl in *.
  - destruct Hj as (p & pr & ? & ? & ?). by eapply Inv_run_reaction.
  - destruct Hj as (t & Htarget & Hq). apply Inv_then_at; [done|]. intros src Hsrc.
    unfold promise_of in Hq. apply bind_Some in Hq as (T & HT & Hq).
    destruct (inv_tasks _ HI _ _ HT) as [Hpr _].
    rewrite (source_is_fun _ _ _ _ Hsrc (Hpr _ Hq)). simpl. left.
    exists t. split_and!; [done..|]. unfold promise_of. by rewrite HT.
Qed.

Lemma Inv_init : Inv init.
Proof.
  split; simpl; try done; by constructor.
Qed.

Lemma Inv_create_task l ds c s :
  Inv s → Forall (λ d, d < length (tasks s)) ds →
  Inv (with_tasks (λ h, (task l ds c h).2) s).
Proof.
  intros HI Hds. set (s' := with_tasks _ s).
  assert (extends s s') as Hext.
  { split; simpl; eauto using promise_le_refl.
    intros t T HT. exists T. split; [by apply lookup_app_l_Some | apply task_le_refl]. }
  apply (Inv_extend _ _ Hext HI); simpl; [| | auto..].
  - apply wf_heap_task; [apply HI | done].
  - intros t T' [HT | [_ HT]]%lookup_app_Some; [left; eauto | right].
    apply list_lookup_singleton_Some in HT as [_ <-]. by split.
Qed.

Lemma Inv_exec a s s' : Inv s → exec a s = Some s' → Inv s'.
Proof.
  intros HI. destruct a as [l ds c | t | p |]; unfold exec.
  - case_decide; [|done]. intros [= <-]. by apply Inv_create_task.
  - intros ([q s1] & Hr & ->)%fmap_Some. by destruct (run_spec _ _ _ _ _ HI Hr).
  - intros (pr & Hp & Hs)%bind_Some.
    destruct (source pr) eqn:Hsrc; try done.
    destruct (settled pr) eqn:Hset; [done|]. injection Hs as <-.
    eapply (Inv_resolve_at _ _ _ (source pr)); [done | by exists pr |].
    by rewrite Hsrc.
  - destruct (microtasks s) as [|j q] eqn:Hq; [done|]. intros [= <-].
    destruct (Inv_dequeue _ _ _ HI Hq) as [HI' Hj].
    apply Inv_run_job; [done|]. eapply job_ok_mono; [|done]. by apply extends_queue.
Qed.

Lemma reachable_Inv s : reachable s → Inv s.
Proof. induction 1; eauto using Inv_init, Inv_exec. Qed.


(** ** Steps only add to the state *)

#[local] Opaque promise_race promise_all call_compute all_element resolve then_.

Lemma run_reaction_extends k v s p pr :
  Inv s → promises s !! p = Some pr → settled pr = Some v →
  reaction_ok s p (source pr) k →
  extends s (run_reaction k v s).
Proof.
  intros HI Hp Hs Hk. pose proof (Inv_fulfilled _ _ _ _ HI Hp Hs) as Hv.
  destruct k as [t self | t self | depPromises self | self | t self | t self
                | target | target index], v as [r | rs | [r | rs]];
    simpl; try apply extends_refl; try apply resolve_extends.
  - destruct Hk as (Hsrc & Hself & Hq). rewrite Hsrc in Hv.
    destruct Hv as (r' & [= <-] & Hr).
    assert (executed s t r) as Hex by (exists p; split; [done | by exists pr]).
    eauto using extends_trans, resolve_extends, set_result_extends.
  - destruct Hk as (t & i & Hself & Hi).
    destruct (is_ok r); [|apply resolve_extends].
    destruct (promise_all_spec self t depPromises i s) as (_ & Hext1 & _); [done..|].
    destruct (promise_all (PAll self) depPromises s) as [pall s1].
    eauto using extends_trans, then_extends.
  - destruct Hk as (ps & cs & Hsrc & Hself). rewrite Hsrc in Hv.
    destruct Hv as (w & [= <-] & T & HT & Hrs). rewrite HT.
    destruct (call_compute_spec t T (value_of <$> rs) s) as (_ & Hext1 & _);
      [done | done | |].
    { exists rs. split; [|done]. by exists T. }
    destruct (call_compute t T (value_of <$> rs) s) as [pc s1].
    eauto using extends_trans, then_extends.
  - apply all_element_extends.
Qed.

Lemma exec_extends a s s' : Inv s → exec a s = Some s' → extends s s'.
Proof.
  intros HI. destruct a as [l ds c | t | p |]; unfold exec.
  - case_decide; [|done]. intros [= <-].
    split; simpl; eauto using promise_le_refl.
    intros t T HT. exists T. split; [by apply lookup_app_l_Some | apply task_le_refl].
  - intros ([q s1] & Hr & ->)%fmap_Some. by destruct (run_spec _ _ _ _ _ HI Hr) as (_ & ? & _).
  - intros (pr & Hp & Hs)%bind_Some.
    destruct (source pr); try done. destruct (settled pr); [done|].
    injection Hs as <-. apply resolve_extends.
  - destruct (microtasks s) as [|j q] eqn:Hq; [done|]. intros [= <-].
    destruct (Inv_dequeue _ _ _ HI Hq) as [HI' Hj].
    set (s0 := mkState _ _ _ _) in *.
    assert (extends s s0) as Hext0 by by apply extends_queue.
    eapply extends_trans; [done|].
    apply (job_ok_mono _ _ Hext0) in Hj.
    destruct j as [k v | target thenable]; simpl in *; [|apply then_extends].
    destruct Hj as (p & pr & ? & ? & ?). by eapply run_reaction_extends.
Qed.

Lemma steps_reachable s s' : reachable s → steps s s' → reachable s'.
Proof. intros Hr Hs. induction Hs; eauto using reachable_step. Qed.

Lemma steps_extends s s' : reachable s → steps s s' → extends s s'.
Proof.
  intros Hr Hs. induction Hs as [|s a s' s'' Ha _ IH]; [apply extends_refl|].
  eapply extends_trans; [by eapply exec_extends, Ha; apply reachable_Inv|].
  eauto using reachable_step.
Qed.

Lemma steps_trans s1 s2 s3 : steps s1 s2 → steps s2 s3 → steps s1 s3.
Proof. induction 1; eauto using steps_step. Qed.

Lemma steps_one a s s' : exec a s = Some s' → steps s s'.
Proof. eauto using steps_step, steps_refl. Qed.


(** ** Counting tokens *)

#[local] Transparent promise_race promise_all call_compute all_element resolve then_.

Lemma sum_list_with_insert {A} (f : A → nat) (l : list A) i x y :
  l !! i = Some y →
  sum_list_with f (<[i := x]> l) + f y = sum_list_with f l + f x.
Proof.
  revert i. induction l as [|a l IH]; intros [|i]; simpl; try done.
  - intros [= ->]. lia.
  - intros Hi. specialize (IH _ Hi). lia.
Qed.

Lemma sum_list_with_fmap {A B} (f : B → nat) (g : A → B) (l : list A) :
  sum_list_with f (g <$> l) = sum_list_with (f ∘ g) l.
Proof. induction l as [|x l IH]; [done|]. csimpl. by rewrite IH. Qed.

Lemma indicator_le P `{!Decision P} : indicator P ≤ 1.
Proof. unfold indicator. case_decide; lia. Qed.

Lemma indicator_True P `{!Decision P} : P → indicator P = 1.
Proof. unfold indicator. intros. by rewrite decide_True. Qed.

Lemma indicator_False P `{!Decision P} : ¬ P → indicator P = 0.
Proof. unfold indicator. intros. by rewrite decide_False. Qed.

Section Weight.
Context (w : weights).

Lemma weight_queue s s' j :
  tasks s' = tasks s → promises s' = promises s → calls s' = calls s →
  microtasks s = j :: microtasks s' →
  weight w s' + w_job w j = weight w s.
Proof. unfold weight. intros _ -> -> ->. simpl. lia. Qed.

Lemma weight_new_promise src s : weight w (new_promise src s).2 = weight w s.
Proof. unfold weight. simpl. rewrite sum_list_with_app. simpl. unfold w_promise. simpl. lia. Qed.

Lemma weight_enqueue js s :
  weight w (enqueue js s) = weight w s + sum_list_with (w_job w) js.
Proof. unfold weight. simpl. rewrite sum_list_with_app. lia. Qed.

Lemma weight_record_call t values s :
  weight w (record_call t values s) = weight w s + w_call w (t, values).
Proof. unfold weight. simpl. rewrite sum_list_with_app. simpl. lia. Qed.

Lemma weight_with_tasks f s : weight w (with_tasks f s) = weight w s.
Proof. done. Qed.

Lemma weight_resolve p v s n :
  (∀ pr, promises s !! p = Some pr → w_settled w (source pr) ≤ n) →
  weight w (resolve p v s) ≤ weight w s + n.
Proof.
  intros Hn. unfold resolve. destruct (promises s !! p) as [pr|] eqn:Hp; [|lia].
  specialize (Hn _ eq_refl). destruct (settled pr) eqn:Hs; [lia|].
  unfold weight. simpl. rewrite sum_list_with_app.
  pose proof (sum_list_with_insert (w_promise w) _ _
                (mkPromise (Some v) [] (elements pr) (source pr)) _ Hp) as Hi.
  rewrite sum_list_with_fmap.
  assert (w_promise w pr = sum_list_with (w_reaction w) (reactions pr)) as Hpr
    by (unfold w_promise; rewrite Hs; lia).
  rewrite Hpr in Hi. unfold w_promise at 3 in Hi. simpl in Hi.
  change (w_job w ∘ (λ k, ReactionJob k v)) with (w_reaction w). lia.
Qed.

Lemma weight_then p k s : weight w (then_ p k s) ≤ weight w s + w_reaction w k.
Proof.
  unfold then_. destruct (promises s !! p) as [pr|] eqn:Hp; [|lia].
  destruct (settled pr) eqn:Hs.
  - rewrite weight_enqueue. simpl. lia.
  - unfold weight. simpl.
    pose proof (sum_list_with_insert (w_promise w) _ _
                  (mkPromise None (reactions pr ++ [k]) (elements pr) (source pr))
                  _ Hp) as Hi.
    assert (w_promise w pr = sum_list_with (w_reaction w) (reactions pr)) as Hpr
      by (unfold w_promise; rewrite Hs; lia).
    rewrite Hpr in Hi. unfold w_promise at 3 in Hi. simpl in Hi.
    rewrite sum_list_with_app in Hi. simpl in Hi. lia.
Qed.

Lemma weight_fold_then {A} (f : A → pid) (g : A → reaction) l : ∀ s,
  (∀ x, w_reaction w (g x) = 0) →
  weight w (foldl (λ s x, then_ (f x) (g x) s) s l) ≤ weight w s.
Proof.
  induction l as [|x l IH]; intros s Hg; simpl; [lia|].
  etrans; [by apply IH|]. pose proof (weight_then (f x) (g x) s).
  rewrite Hg in *. lia.
Qed.
End Weight.

(** *** The number of executions *)

Lemma nexec_new_promise t src s :
  nexec t (new_promise src s).2
  = nexec t s + match src with PExec u => indicator (u = t) | _ => 0 end.
Proof. unfold nexec. simpl. rewrite sum_list_with_app. simpl. lia. Qed.

Lemma nexec_insert t s p pr pr' :
  promises s !! p = Some pr → source pr' = source pr →
  nexec t (with_promises <[p := pr']> s) = nexec t s.
Proof.
  intros Hp Hsrc. unfold nexec. simpl.
  pose proof (sum_list_with_insert
    (λ pr, match source pr with PExec u => indicator (u = t) | _ => 0 end) _ _ pr' _ Hp) as Hi.
  simpl in Hi. rewrite Hsrc in Hi. lia.
Qed.

Lemma nexec_resolve t p v s : nexec t (resolve p v s) = nexec t s.
Proof.
  unfold resolve. destruct (promises s !! p) as [pr|] eqn:Hp; [|done].
  destruct (settled pr); [done|].
  change (nexec t (enqueue ?js ?s)) with (nexec t s).
  by erewrite nexec_insert.
Qed.

Lemma nexec_then t p k s : nexec t (then_ p k s) = nexec t s.
Proof.
  unfold then_. destruct (promises s !! p) as [pr|] eqn:Hp; [|done].
  destruct (settled pr); [done|]. by erewrite nexec_insert.
Qed.

Lemma nexec_fold_then {A} t (f : A → pid) (g : A → reaction) l : ∀ s,
  nexec t (foldl (λ s x, then_ (f x) (g x) s) s l) = nexec t s.
Proof. induction l as [|x l IH]; intros s; simpl; [done|]. by rewrite IH, nexec_then. Qed.

Lemma nexec_call_compute t u T values s :
  nexec t (call_compute u T values s).2 = nexec t s.
Proof.
  unfold call_compute.
  destruct (compute T values); simpl; rewrite ?nexec_resolve;
    unfold nexec; simpl; rewrite sum_list_with_app; simpl; lia.
Qed.

Lemma nexec_promise_race t u ps cs s :
  nexec t (promise_race (PRace u ps cs) cs s).2 = nexec t s.
Proof.
  unfold promise_race. simpl. rewrite (nexec_fold_then t id (λ _, Forward _)).
  unfold nexec; simpl; rewrite sum_list_with_app; simpl; lia.
Qed.

Lemma nexec_promise_all t c ps s :
  nexec t (promise_all (PAll c) ps s).2 = nexec t s.
Proof.
  unfold promise_all. simpl.
  rewrite (nexec_fold_then t (λ ip : nat * nat, ip.2) (λ ip, AllElement _ ip.1)).
  destruct (decide (ps = [])); rewrite ?nexec_resolve;
    unfold nexec; simpl; rewrite sum_list_with_app; simpl; lia.
Qed.

Lemma nexec_all_element t target index x s :
  nexec t (all_element target index x s) = nexec t s.
Proof.
  unfold all_element. destruct (promises s !! target) as [pr|] eqn:Hp; [|done].
  destruct (mapM id _); rewrite ?nexec_resolve; by erewrite nexec_insert.
Qed.

Lemma nexec_contestants t u depPromises : ∀ rest i s,
  nexec t (contestants u depPromises i rest s).2 = nexec t s.
Proof.
  induction rest as [|p rest IH]; intros i s; simpl; [done|].
  specialize (IH (S i) (then_ p (ContestantAwaitDep depPromises (length (promises s)))
                          (new_promise (PContestant u depPromises i) s).2)).
  simpl in IH. destruct (contestants _ _ _ _ _) as [cs s3]. simpl in *.
  rewrite IH, nexec_then. unfold nexec; simpl; rewrite sum_list_with_app; simpl; lia.
Qed.

(** *** The built-ins under admissible weights *)

Section Admissible.
Context (t : ref) (w : weights) (Hw : admissible t w).

Lemma weight_resolve_other p v s src :
  source_is s p src → (∀ u, src ≠ PExec u) →
  weight w (resolve p v s) ≤ weight w s.
Proof.
  intros (pr & Hp & <-) Hsrc. pose proof (weight_resolve w p v s 0) as H.
  rewrite Nat.add_0_r in H. apply H. intros pr' Hp'.
  assert (pr' = pr) as -> by congruence. by rewrite (adm_settled _ _ Hw).
Qed.

Lemma weight_resolve_exec p v s u :
  source_is s p (PExec u) →
  weight w (resolve p v s) ≤ weight w s + w_settled w (PExec u).
Proof.
  intros (pr & Hp & Hsrc). apply weight_resolve. intros pr' Hp'.
  assert (pr' = pr) as -> by congruence. by rewrite Hsrc.
Qed.

Lemma weight_call_compute u T values s :
  weight w (call_compute u T values s).2 ≤ weight w s + w_call w (u, values).
Proof.
  unfold call_compute. destruct (compute T values) as [r | r]; simpl.
  - pose proof (weight_new_promise w (PCompute u r) (record_call u values s)) as H1.
    rewrite weight_record_call in H1. simpl in H1.
    etrans; [eapply (weight_resolve_other _ _ _ (PCompute u r))|]; [| done | lia].
    apply (new_promise_source _ (record_call u values s)).
  - pose proof (weight_new_promise w (PCompute u r) (record_call u values s)) as H1.
    rewrite weight_record_call in H1. simpl in H1. lia.
Qed.

Lemma weight_promise_race u ps cs s :
  weight w (promise_race (PRace u ps cs) cs s).2 ≤ weight w s.
Proof.
  unfold promise_race. simpl.
  etrans; [apply (weight_fold_then w id (λ _, Forward _)); intros; apply Hw|].
  pose proof (weight_new_promise w (PRace u ps cs) s) as H1. simpl in H1. lia.
Qed.

Lemma weight_promise_all c ps s :
  weight w (promise_all (PAll c) ps s).2 ≤ weight w s.
Proof.
  unfold promise_all. simpl.
  etrans; [apply (weight_fold_then w (λ ip : nat * nat, ip.2)
                    (λ ip, AllElement _ ip.1)); intros; apply Hw|].
  set (pr0 := mkPromise _ _ _ _).
  assert (weight w (with_promises (λ l, l ++ [pr0]) s) = weight w s) as Hw0.
  { unfold weight. simpl. rewrite sum_list_with_app. simpl.
    unfold w_promise. simpl. lia. }
  destruct (decide (ps = [])); [|lia].
  etrans; [eapply (weight_resolve_other _ _ _ (PAll c))|]; [| done | lia].
  exists pr0. simpl. by rewrite lookup_app_r, Nat.sub_diag by done.
Qed.

Lemma weight_all_element target index x s c :
  source_is s target (PAll c) →
  weight w (all_element target index x s) ≤ weight w s.
Proof.
  intros (pr & Hp & Hsrc). unfold all_element. rewrite Hp.
  set (pr' := mkPromise _ _ _ _).
  assert (weight w (with_promises <[target := pr']> s) = weight w s) as Hw0.
  { unfold weight. simpl.
    pose proof (sum_list_with_insert (w_promise w) _ _ pr' _ Hp) as Hi.
    assert (w_promise w pr' = w_promise w pr) as Hpr by done. lia. }
  destruct (mapM id _); [|lia].
  etrans; [eapply (weight_resolve_other _ _ _ (PAll c))|]; [| done | lia].
  exists pr'. simpl. rewrite list_lookup_insert_eq by (by eapply lookup_lt_Some). done.
Qed.

Lemma weight_contestants u depPromises : ∀ rest i s,
  weight w (contestants u depPromises i rest s).2 ≤ weight w s.
Proof.
  induction rest as [|p rest IH]; intros i s; simpl; [done|].
  specialize (IH (S i) (then_ p (ContestantAwaitDep depPromises (length (promises s)))
                          (new_promise (PContestant u depPromises i) s).2)).
  simpl in IH. destruct (contestants _ _ _ _ _) as [cs s3]. simpl in *.
  etrans; [done|].
  pose proof (weight_then w p (ContestantAwaitDep depPromises (length (promises s)))
                (new_promise (PContestant u depPromises i) s).2) as H.
  rewrite (adm_dep _ _ Hw), weight_new_promise in H. simpl in H. lia.
Qed.
End Admissible.


(** ** At most one execution, at most one call *)

#[local] Opaque promise_race promise_all call_compute all_element resolve then_.

Section Tokens.
Context (t : ref) (w : weights) (Hw : admissible t w).

Local Abbreviation pays := (pays t w).

Lemma pays_refl s : pays s s.
Proof. unfold pays. lia. Qed.

Lemma pays_trans s1 s2 s3 : pays s1 s2 → pays s2 s3 → pays s1 s3.
Proof. unfold pays. lia. Qed.

Lemma pays_new_promise src s : pays s (new_promise src s).2.
Proof. unfold pays. rewrite weight_new_promise, nexec_new_promise. lia. Qed.

Lemma pays_with_tasks f s : pays s (with_tasks f s).
Proof.
  unfold pays. change (weight w (with_tasks f s)) with (weight w s).
  change (nexec t (with_tasks f s)) with (nexec t s). lia.
Qed.

Lemma pays_then p k s : w_reaction w k = 0 → pays s (then_ p k s).
Proof.
  intros Hk. unfold pays. rewrite nexec_then.
  pose proof (weight_then w p k s). lia.
Qed.

Lemma pays_resolve_other p v s src :
  source_is s p src → (∀ u, src ≠ PExec u) → pays s (resolve p v s).
Proof.
  intros Hp Hsrc. unfold pays. rewrite nexec_resolve.
  pose proof (weight_resolve_other t w Hw p v s src Hp Hsrc). lia.
Qed.

Section Sync.
Context (run_f : ref → state → option (pid * state)).
Context (Hrun : ∀ u s p s', run_f u s = Some (p, s') → pays s s').

Lemma run_deps_pays ds : ∀ s ps s',
  run_deps run_f ds s = Some (ps, s') → pays s s'.
Proof.
  induction ds as [|d ds IH]; intros s ps s' Hr; simpl in Hr.
  { injection Hr as <- <-. apply pays_refl. }
  destruct (run_f d s) as [[p s1]|] eqn:Hd; [|done]. simpl in Hr.
  destruct (run_deps run_f ds s1) as [[ps' s2]|] eqn:Hds; [|done]. simpl in Hr.
  injection Hr as <- <-. eauto using pays_trans.
Qed.

Lemma executeTask_pays u s p s' :
  executeTask run_f u s = Some (p, s') → pays s s'.
Proof.
  unfold executeTask. destruct (tasks s !! u) as [T|] eqn:HT; [|done].
  cbn -[promise_race call_compute contestants].
  set (self := length (promises s)).
  set (s1 := with_promises _ s).
  assert (s1 = (new_promise (PExec u) s).2) as Hs1 by done.
  assert (weight w s1 = weight w s) as Hw1 by (rewrite Hs1; apply weight_new_promise).
  assert (nexec t s1 = nexec t s + indicator (u = t)) as Hn1
    by (rewrite Hs1; apply nexec_new_promise).
  assert (source_is s1 self (PExec u)) as Hself
    by (rewrite Hs1; apply new_promise_source).
  destruct (deps T) as [|d0 ds0] eqn:Hdeps.
  - pose proof (weight_call_compute t w Hw u T [] s1) as Hc.
    pose proof (nexec_call_compute t u T [] s1) as Hn.
    destruct (call_compute u T [] s1) as [pc s2]. cbn [fst snd] in *.
    intros [= <- <-]. unfold pays. rewrite nexec_then.
    pose proof (weight_then w pc (ExecAwaitLeaf u self) s2).
    pose proof (adm_leaf _ _ Hw u self []). lia.
  - rewrite <-Hdeps. change (tasks s1) with (tasks s).
    destruct (cached_error (tasks s) (deps T)) as [r|].
    + intros [= <- <-]. unfold pays. rewrite nexec_resolve.
      pose proof (weight_resolve_exec w self (JResult r) s1 u Hself).
      pose proof (adm_short _ _ Hw u). lia.
    + destruct (run_deps run_f (deps T) s1) as [[depPromises s2]|] eqn:Hrd; [|done].
      cbn -[promise_race call_compute contestants].
      pose proof (run_deps_pays _ _ _ _ Hrd) as H2.
      pose proof (weight_contestants t w Hw u depPromises depPromises 0 s2) as Hc.
      pose proof (nexec_contestants t u depPromises depPromises 0 s2) as Hn.
      destruct (contestants u depPromises 0 depPromises s2) as [cs s3].
      pose proof (weight_promise_race t w Hw u depPromises cs s3) as Hc'.
      pose proof (nexec_promise_race t u depPromises cs s3) as Hn'.
      destruct (promise_race (PRace u depPromises cs) cs s3) as [race s4]. cbn [fst snd] in *.
      intros [= <- <-]. unfold pays in *. rewrite nexec_then.
      pose proof (weight_then w race (ExecAwaitRace u self) s4).
      pose proof (adm_race _ _ Hw u self). lia.
Qed.
End Sync.

Lemma run_pays fuel : ∀ u s p s', run fuel u s = Some (p, s') → pays s s'.
Proof.
  induction fuel as [|fuel IH]; intros u s p s'; simpl; [done|].
  destruct (tasks s !! u) as [T|] eqn:HT; [|done]. simpl.
  set (self := length (promises s)).
  set (s1 := with_promises _ s).
  assert (s1 = (new_promise (PRun u) s).2) as Hs1 by done.
  assert (pays s s1) as H1 by (rewrite Hs1; apply pays_new_promise).
  assert (source_is s1 self (PRun u)) as Hself
    by (rewrite Hs1; apply new_promise_source).
  destruct (_result T) as [r|].
  { intros [= <- <-]. eapply pays_trans; [done|]. by eapply pays_resolve_other. }
  destruct (_promise T) as [q|].
  { intros [= <- <-]. eapply pays_trans; [done|]. unfold pays.
    rewrite weight_enqueue. simpl. change (nexec t (enqueue ?js ?s)) with (nexec t s).
    lia. }
  destruct (executeTask (run fuel) u s1) as [[q s2]|] eqn:Hex; [|done]. simpl.
  intros [= <- <-].
  pose proof (executeTask_pays _ IH _ _ _ _ Hex) as H2.
  eapply pays_trans; [done|]. eapply pays_trans; [done|].
  eapply pays_trans; [|apply pays_then, (adm_run _ _ Hw)]. apply pays_with_tasks.
Qed.

Lemma run_reaction_pays k v s p pr :
  Inv s → promises s !! p = Some pr → settled pr = Some v →
  reaction_ok s p (source pr) k →
  weight w (run_reaction k v s) ≤ weight w s + w_reaction w k ∧
  nexec t (run_reaction k v s) = nexec t s.
Proof.
  intros HI Hp Hs Hk. pose proof (Inv_fulfilled _ _ _ _ HI Hp Hs) as Hv.
  destruct k as [u self | u self | depPromises self | self | u self | u self
                | target | target index], v as [r | rs | [r | rs]];
    simpl; rewrite ?nexec_resolve; try (split; [lia | done]); simpl in Hk.
  - (* RunAwait *)
    destruct Hk as (Hsrc & Hself & Hq). split; [|done].
    assert (source_is (set_result u r s) self (PRun u)) as Hself'
      by (destruct Hself as (pr' & ? & ?); by exists pr').
    pose proof (weight_resolve_other t w Hw self (JResult r) _ _ Hself'
                  ltac:(done)) as H.
    change (weight w (set_result u r s)) with (weight w s) in H. lia.
  - (* ExecAwaitLeaf *)
    destruct Hk as (r' & Hsrc & Hself). split; [|done].
    pose proof (weight_resolve_exec w self (JResult r) s u Hself).
    pose proof (adm_leaf_done _ _ Hw u self). lia.
  - (* ContestantAwaitDep *)
    destruct Hk as (u & i & Hself & Hi).
    destruct (is_ok r).
    + pose proof (weight_promise_all t w Hw self depPromises s) as Hc.
      pose proof (nexec_promise_all t self depPromises s) as Hn.
      destruct (promise_all (PAll self) depPromises s) as [pall s1].
      cbn [fst snd] in *. rewrite nexec_then. split; [|done].
      pose proof (weight_then w pall (ContestantAwaitAll self) s1).
      rewrite (adm_all _ _ Hw) in *. lia.
    + rewrite nexec_resolve. split; [|done].
      pose proof (weight_resolve_other t w Hw self (JWinner (WError r)) s _ Hself ltac:(done)).
      lia.
  - (* ContestantAwaitAll *)
    destruct Hk as (u & ps & i & Hsrc & Hself). split; [|done].
    pose proof (weight_resolve_other t w Hw self (JWinner (WSuccess rs)) s _ Hself ltac:(done)).
    lia.
  - (* ExecAwaitRace, error *)
    destruct Hk as (ps & cs & Hsrc & Hself). split; [|done].
    pose proof (weight_resolve_exec w self (JResult r) s u Hself).
    pose proof (adm_race_err _ _ Hw u self). lia.
  - (* ExecAwaitRace, success *)
    destruct Hk as (ps & cs & Hsrc & Hself).
    destruct (tasks s !! u) as [T|]; [|split; [lia|done]].
    pose proof (weight_call_compute t w Hw u T (value_of <$> rs) s) as Hc.
    pose proof (nexec_call_compute t u T (value_of <$> rs) s) as Hn.
    destruct (call_compute u T (value_of <$> rs) s) as [pc s1].
    cbn [fst snd] in *. rewrite nexec_then. split; [|done].
    pose proof (weight_then w pc (ExecAwaitCompute u self) s1).
    pose proof (adm_race_ok _ _ Hw u self (value_of <$> rs)). lia.
  - (* ExecAwaitCompute *)
    destruct Hk as (r' & Hsrc & Hself). split; [|done].
    pose proof (weight_resolve_exec w self (JResult r) s u Hself).
    pose proof (adm_compute_done _ _ Hw u self). lia.
  - (* Forward *)
    split; [|done]. destruct Hk as [(u & _ & Ht & _) | (u & ps & cs & i & _ & Ht & _)].
    + pose proof (weight_resolve_other t w Hw target (JResult r) s _ Ht ltac:(done)). lia.
    + pose proof (weight_resolve_other t w Hw target (JResult r) s _ Ht ltac:(done)). lia.
  - split; [|done]. destruct Hk as [(u & _ & Ht & _) | (u & ps & cs & i & _ & Ht & _)].
    + pose proof (weight_resolve_other t w Hw target (JResults rs) s _ Ht ltac:(done)). lia.
    + pose proof (weight_resolve_other t w Hw target (JResults rs) s _ Ht ltac:(done)). lia.
  - split; [|done]. destruct Hk as [(u & _ & Ht & _) | (u & ps & cs & i & _ & Ht & _)].
    + pose proof (weight_resolve_other t w Hw target (JWinner (WError r)) s _ Ht ltac:(done)). lia.
    + pose proof (weight_resolve_other t w Hw target (JWinner (WError r)) s _ Ht ltac:(done)). lia.
  - split; [|done]. destruct Hk as [(u & _ & Ht & _) | (u & ps & cs & i & _ & Ht & _)].
    + pose proof (weight_resolve_other t w Hw target (JWinner (WSuccess rs)) s _ Ht ltac:(done)). lia.
    + pose proof (weight_resolve_other t w Hw target (JWinner (WSuccess rs)) s _ Ht ltac:(done)). lia.
  - (* AllElement *)
    destruct Hk as (c & u & ps & i & Htarget & Hc & Hj).
    rewrite nexec_all_element. split; [|done].
    pose proof (weight_all_element t w Hw target index r s c Htarget). lia.
Qed.

Lemma exec_pays a s s' : Inv s → exec a s = Some s' → pays s s'.
Proof.
  intros HI. destruct a as [l ds c | u | p |]; unfold exec.
  - case_decide; [|done]. intros [= <-]. apply pays_with_tasks.
  - intros ([q s1] & Hr & ->)%fmap_Some. by eapply run_pays.
  - intros (pr & Hp & Hs)%bind_Some.
    destruct (source pr) eqn:Hsrc; try done. destruct (settled pr); [done|].
    injection Hs as <-. eapply pays_resolve_other; [by exists pr|]. done.
  - destruct (microtasks s) as [|j q] eqn:Hq; [done|]. intros [= <-].
    destruct (Inv_dequeue _ _ _ HI Hq) as [HI' Hj].
    set (s0 := mkState _ _ _ _) in *.
    assert (extends s s0) as Hext0 by by apply extends_queue.
    assert (weight w s0 + w_job w j = weight w s) as Hw0
      by by apply weight_queue.
    apply (job_ok_mono _ _ Hext0) in Hj. unfold pays.
    change (nexec t s) with (nexec t s0).
    destruct j as [k v | target thenable]; simpl in *.
    + destruct Hj as (p & pr & Hp & Hs & Hk).
      destruct (run_reaction_pays k v s0 p pr) as [? ->]; [done..|]. lia.
    + rewrite nexec_then. pose proof (weight_then w thenable (Forward target) s0).
      rewrite (adm_fwd _ _ Hw) in *. lia.
Qed.

Lemma reachable_weight s : reachable s → weight w s ≤ nexec t s.
Proof.
  induction 1 as [|s a s' Hr IH Ha]; [done|].
  pose proof (exec_pays _ _ _ (reachable_Inv _ Hr) Ha) as Hp. unfold pays in Hp. lia.
Qed.
End Tokens.

Lemma admissible_calls t : admissible t (w_calls t).
Proof. split; simpl; intros; try done; try lia; apply indicator_le || lia. Qed.

Lemma admissible_exec t : admissible t (w_exec t).
Proof.
  split; simpl; try (intros; first [done | lia]).
  intros src Hsrc. destruct src as [?|u|? ?|? ?|?|?]; try done. by destruct (Hsrc u).
Qed.


(** ** At most one execution per task *)

#[local] Opaque promise_race promise_all call_compute all_element resolve then_.

Lemma started_le t s : started t s ≤ 1.
Proof. unfold started. destruct (promise_of s t); lia. Qed.

Lemma started_mono t s s' : extends s s' → started t s ≤ started t s'.
Proof.
  intros Hext. unfold started. destruct (promise_of s t) as [q|] eqn:Hq.
  - by rewrite (promise_of_mono _ _ Hext _ _ Hq).
  - destruct (promise_of s' t); lia.
Qed.

Lemma started_frame t s s' : tasks s' !! t = tasks s !! t → started t s' = started t s.
Proof. unfold started, promise_of. by intros ->. Qed.

Lemma starts_refl t s : starts t s s.
Proof. unfold starts. lia. Qed.

Lemma starts_trans t s1 s2 s3 :
  started t s2 ≤ started t s3 → starts t s1 s2 → starts t s2 s3 → starts t s1 s3.
Proof. unfold starts. lia. Qed.

Section Once.
Context (run_f : ref → state → option (pid * state)).
Context (Hrun : run_ok run_f).
Context (Honce : ∀ u s p s', Inv s → run_f u s = Some (p, s') →
                   ∀ t, starts t s s' ∧ (u < t → nexec t s' = nexec t s)).

Lemma run_deps_once ds : ∀ s ps s',
  Inv s → run_deps run_f ds s = Some (ps, s') →
  ∀ t, starts t s s' ∧ (Forall (λ d, d < t) ds → nexec t s' = nexec t s).
Proof.
  induction ds as [|d ds IH]; intros s ps s' HI Hr t; simpl in Hr.
  { injection Hr as <- <-. split; [apply starts_refl | done]. }
  destruct (run_f d s) as [[p s1]|] eqn:Hd; [|done]. simpl in Hr.
  destruct (run_deps run_f ds s1) as [[ps' s2]|] eqn:Hds; [|done]. simpl in Hr.
  injection Hr as <- <-.
  destruct (Hrun _ _ _ _ HI Hd) as (HI1 & Hext1 & _).
  destruct (run_deps_spec _ Hrun _ _ _ _ HI1 Hds) as (_ & Hext2 & _).
  destruct (Honce _ _ _ _ HI Hd t) as [H1 H1'].
  destruct (IH _ _ _ HI1 Hds t) as [H2 H2']. split.
  - eapply starts_trans; [by apply started_mono | done..].
  - intros [? ?]%Forall_cons. rewrite H2', H1'; done.
Qed.

Lemma executeTask_once u s p s' :
  Inv s → executeTask run_f u s = Some (p, s') →
  ∀ t, nexec t s' + started t s ≤ nexec t s + started t s' + indicator (u = t) ∧
       (u ≤ t → nexec t s' = nexec t s + indicator (u = t)).
Proof.
  intros HI. unfold executeTask. destruct (tasks s !! u) as [T|] eqn:HT; [|done].
  cbn -[promise_race call_compute contestants].
  set (self := length (promises s)).
  set (s1 := with_promises _ s).
  assert (s1 = (new_promise (PExec u) s).2) as Hs1 by done.
  assert (Inv s1) as HI1 by (rewrite Hs1; apply Inv_new_promise; [done | by eexists]).
  intros Hex t.
  assert (nexec t s1 = nexec t s + indicator (u = t)) as Hn1
    by (rewrite Hs1; apply nexec_new_promise).
  assert (started t s1 = started t s) as Hst1 by done.
  revert Hex. destruct (deps T) as [|d0 ds0] eqn:Hdeps.
  - pose proof (nexec_call_compute t u T [] s1) as Hn.
    destruct (call_compute_spec u T [] s1) as (_ & _ & Ht2 & _); [done | done | |].
    { exists []. split; [|done]. exists T. rewrite Hdeps. by split. }
    destruct (call_compute u T [] s1) as [pc s2]. cbn [fst snd] in *.
    intros [= <- <-]. rewrite nexec_then.
    assert (started t (then_ pc (ExecAwaitLeaf u self) s2) = started t s) as Hst2
      by (apply started_frame; by rewrite tasks_then, Ht2).
    lia.
  - rewrite <-Hdeps. change (tasks s1) with (tasks s).
    destruct (cached_error (tasks s) (deps T)) as [r|].
    + intros [= <- <-]. rewrite nexec_resolve.
      assert (started t (resolve self (JResult r) s1) = started t s) as Hst2
        by (apply started_frame; by rewrite tasks_resolve).
      lia.
    + destruct (run_deps run_f (deps T) s1) as [[depPromises s2]|] eqn:Hrd; [|done].
      cbn -[promise_race call_compute contestants].
      destruct (run_deps_spec _ Hrun _ _ _ _ HI1 Hrd) as (HI2 & Hext2 & Hps & Hfr2).
      destruct (run_deps_once _ _ _ _ HI1 Hrd t) as [H2 H2'].
      assert (tasks s2 !! u = Some T) as HT2.
      { rewrite Hfr2; [done|]. by destruct (inv_heap _ HI _ _ HT). }
      assert (dep_promises s2 u depPromises) as Hdp by (exists T; done).
      assert (depPromises ≠ []) as Hne.
      { intros ->. apply Forall2_length in Hps. by rewrite Hdeps in Hps. }
      destruct (contestants_spec u depPromises depPromises 0 s2)
        as (HI3 & Hext3 & Ht3 & Hlen & Hcs); [done..|].
      pose proof (nexec_contestants t u depPromises depPromises 0 s2) as Hn3.
      destruct (contestants u depPromises 0 depPromises s2) as [cs s3].
      destruct (promise_race_spec u depPromises cs s3) as (_ & _ & Ht4 & _);
        [done | by eapply dep_promises_mono | done | done | done |].
      pose proof (nexec_promise_race t u depPromises cs s3) as Hn4.
      destruct (promise_race (PRace u depPromises cs) cs s3) as [race s4]. cbn [fst snd] in *.
      intros [= <- <-]. rewrite nexec_then.
      assert (started t (then_ race (ExecAwaitRace u self) s4) = started t s2) as Hst2
        by (apply started_frame; by rewrite tasks_then, Ht4, Ht3).
      unfold starts in H2. split; [lia|]. intros Hu. rewrite Hn4, Hn3, H2'; [lia|].
      destruct (inv_heap _ HI _ _ HT) as [_ Hlt].
      eapply Forall_impl; [done|]. simpl. lia.
Qed.
End Once.

Lemma run_once fuel : ∀ u s p s',
  Inv s → run fuel u s = Some (p, s') →
  ∀ t, starts t s s' ∧ (u < t → nexec t s' = nexec t s).
Proof.
  induction fuel as [|fuel IH]; intros u s p s' HI; simpl; [done|].
  destruct (tasks s !! u) as [T|] eqn:HT; [|done]. simpl.
  set (self := length (promises s)).
  set (s1 := with_promises _ s).
  assert (s1 = (new_promise (PRun u) s).2) as Hs1 by done.
  assert (Inv s1) as HI1 by (rewrite Hs1; apply Inv_new_promise; [done | by eexists]).
  intros Hr t.
  assert (nexec t s1 = nexec t s) as Hn1 by (rewrite Hs1, nexec_new_promise; lia).
  assert (started t s1 = started t s) as Hst1 by done.
  revert Hr. destruct (_result T) as [r|] eqn:Hres.
  { intros [= <- <-]. unfold starts. rewrite nexec_resolve.
    assert (started t (resolve self (JResult r) s1) = started t s) as Hst2
      by (apply started_frame; by rewrite tasks_resolve).
    lia. }
  destruct (_promise T) as [q|] eqn:Hprom.
  { intros [= <- <-]. unfold starts.
    change (nexec t (enqueue ?js ?s)) with (nexec t s).
    change (started t (enqueue ?js ?s)) with (started t s). lia. }
  destruct (executeTask (run fuel) u s1) as [[q s2]|] eqn:Hex; [|done]. simpl.
  intros [= <- <-].
  destruct (executeTask_spec _ (run_spec fuel) _ _ _ _ HI1 Hex) as (HI2 & Hext2 & Hq & Hfr).
  destruct (executeTask_once _ (run_spec fuel) IH _ _ _ _ HI1 Hex t) as [H2 H2'].
  unfold starts. rewrite nexec_then.
  change (nexec t (set_promise u q s2)) with (nexec t s2).
  assert (tasks s2 !! u = Some T) as HT2 by (rewrite Hfr by done; done).
  destruct (decide (u = t)) as [<- | Hne].
  - rewrite indicator_True in * by done.
    assert (started u s = 0) as Hs0.
    { unfold started, promise_of. by rewrite HT; simpl; rewrite Hprom. }
    assert (started u (then_ q (RunAwait u self) (set_promise u q s2)) = 1) as ->.
    { unfold started, promise_of. rewrite tasks_then. simpl.
      by rewrite list_lookup_alter_eq, HT2. }
    specialize (H2' (le_n u)). lia.
  - rewrite indicator_False in * by done.
    assert (started t (then_ q (RunAwait u self) (set_promise u q s2)) = started t s2)
      as Hst2 by (apply started_frame; by rewrite tasks_then, tasks_set_promise_ne).
    split; [lia|]. intros Hu. rewrite H2' by lia. lia.
Qed.

Lemma run_reaction_nexec t k v s p pr :
  Inv s → promises s !! p = Some pr → settled pr = Some v →
  reaction_ok s p (source pr) k →
  nexec t (run_reaction k v s) = nexec t s.
Proof.
  intros HI Hp Hs Hk.
  by destruct (run_reaction_pays t (w_calls t) (admissible_calls t) k v s p pr).
Qed.

Lemma exec_starts t a s s' : Inv s → exec a s = Some s' → starts t s s'.
Proof.
  intros HI Ha. pose proof (exec_extends _ _ _ HI Ha) as Hext.
  pose proof (started_mono t _ _ Hext) as Hst.
  revert Ha. destruct a as [l ds c | u | p |]; unfold exec.
  - case_decide; [|done]. intros [= <-]. unfold starts.
    change (nexec t (with_tasks ?f s)) with (nexec t s). intros. lia.
  - intros ([q s1] & Hr & ->)%fmap_Some. by destruct (run_once _ _ _ _ _ HI Hr t).
  - intros (pr & Hp & Hs)%bind_Some.
    destruct (source pr) eqn:Hsrc; try done. destruct (settled pr); [done|].
    injection Hs as <-. unfold starts. rewrite nexec_resolve. lia.
  - destruct (microtasks s) as [|j q] eqn:Hq; [done|]. intros [= <-].
    destruct (Inv_dequeue _ _ _ HI Hq) as [HI' Hj].
    set (s0 := mkState _ _ _ _) in *.
    assert (extends s s0) as Hext0 by by apply extends_queue.
    apply (job_ok_mono _ _ Hext0) in Hj. unfold starts.
    change (nexec t s) with (nexec t s0).
    destruct j as [k v | target thenable]; simpl in *.
    + destruct Hj as (p & pr & Hp & Hs & Hk).
      rewrite (run_reaction_nexec t k v s0 p pr) by done. lia.
    + rewrite nexec_then. lia.
Qed.

Lemma reachable_nexec t s : reachable s → nexec t s ≤ started t s.
Proof.
  induction 1 as [|s a s' Hr IH Ha]; [done|].
  pose proof (exec_starts t _ _ _ (reachable_Inv _ Hr) Ha) as Hp. unfold starts in Hp. lia.
Qed.

Lemma ncalls_weight t s : ncalls t s ≤ weight (w_calls t) s.
Proof.
  unfold ncalls, weight. simpl.
  assert (length (filter (λ c : nat * list val, c.1 = t) (calls s))
          = sum_list_with (λ c, indicator (c.1 = t)) (calls s)) as ->; [|lia].
  induction (calls s) as [|c l IH]; [done|].
  rewrite filter_cons. simpl. unfold indicator at 1.
  destruct (decide (c.1 = t)); simpl; lia.
Qed.

Lemma reachable_ncalls t s : reachable s → ncalls t s ≤ 1.
Proof.
  intros Hr. pose proof (ncalls_weight t s).
  pose proof (reachable_weight t _ (admissible_calls t) s Hr).
  pose proof (reachable_nexec t s Hr). pose proof (started_le t s). lia.
Qed.

(** * Pending promises and what they wait for *)

#[local] Opaque promise_race promise_all call_compute all_element.
#[local] Transparent resolve then_.

(** ** The order [grows] *)

Lemma promise_grows_refl q pr : promise_grows q pr pr.
Proof. split; try done. intros k Hs Hk. by rewrite Hs. Qed.

Lemma grows_refl s : grows s s.
Proof.
  split; [|eauto using promise_grows_refl|done].
  intros t T HT. exists T. split; [done|]. by split.
Qed.

Lemma task_le_trans T1 T2 T3 : task_le T1 T2 → task_le T2 T3 → task_le T1 T3.
Proof.
  intros [] []. split; try congruence; eauto.
Qed.

Lemma grows_trans s1 s2 s3 : grows s1 s2 → grows s2 s3 → grows s1 s3.
Proof.
  intros [Ht1 Hp1 Hq1] [Ht2 Hp2 Hq2]. split; [| |eauto].
  - intros t T HT. destruct (Ht1 _ _ HT) as (T' & HT' & Hle).
    destruct (Ht2 _ _ HT') as (T'' & HT'' & Hle'). eauto using task_le_trans.
  - intros p pr Hp. destruct (Hp1 _ _ Hp) as (pr' & Hp' & [Hs1 Hv1 Hk1 He1]).
    destruct (Hp2 _ _ Hp') as (pr'' & Hp'' & [Hs2 Hv2 Hk2 He2]).
    exists pr''. split; [done|]. split; [congruence | eauto | | eauto].
    intros k Hs Hk. specialize (Hk1 k Hs Hk).
    destruct (settled pr') as [v|] eqn:Hs'.
    + rewrite (Hv2 v eq_refl). auto.
    + by apply Hk2.
Qed.

Section GrowsMono.
Context (s s' : state) (Hgr : grows s s').

Lemma waiting_mono k q : waiting s k q → waiting s' k q.
Proof.
  intros (pr & Hp & Hw). destruct (gr_promises _ _ Hgr _ _ Hp) as (pr' & Hp' & Hpr).
  exists pr'. split; [done|]. destruct (settled pr) as [v|] eqn:Hs.
  - rewrite (gr_settled _ _ _ Hpr _ Hs). by apply (gr_queue _ _ Hgr).
  - by apply (gr_reactions _ _ _ Hpr).
Qed.

Lemma source_is_grows p src : source_is s p src → source_is s' p src.
Proof.
  intros (pr & Hp & Hsrc). destruct (gr_promises _ _ Hgr _ _ Hp) as (pr' & Hp' & Hpr).
  exists pr'. split; [done|]. by rewrite (gr_source _ _ _ Hpr).
Qed.

Lemma fulfilled_grows p v : fulfilled s p v → fulfilled s' p v.
Proof.
  intros (pr & Hp & Hv). destruct (gr_promises _ _ Hgr _ _ Hp) as (pr' & Hp' & Hpr).
  exists pr'. split; [done|]. by apply (gr_settled _ _ _ Hpr).
Qed.

Lemma promise_of_grows t q : promise_of s t = Some q → promise_of s' t = Some q.
Proof.
  unfold promise_of. intros (T & HT & Hq)%bind_Some.
  destruct (gr_tasks _ _ Hgr _ _ HT) as (T' & HT' & Hle).
  rewrite HT'. simpl. by apply (le_promise _ _ Hle).
Qed.

Lemma result_of_grows t r : result_of s t = Some r → result_of s' t = Some r.
Proof.
  unfold result_of. intros (T & HT & Hq)%bind_Some.
  destruct (gr_tasks _ _ Hgr _ _ HT) as (T' & HT' & Hle).
  rewrite HT'. simpl. by apply (le_result _ _ Hle).
Qed.

Lemma awaits_mono p src els els' :
  (∀ j r, els !! j = Some (Some r) → els' !! j = Some (Some r)) →
  awaits s p src els → awaits s' p src els'.
Proof.
  intros Hels. destruct src as [t | t | t r | t ps i | t ps cs | c]; simpl.
  - pose proof (gr_queue _ _ Hgr) as Hq'.
    intros (q & Hq & [Hw | [Hj | Hw]]); exists q;
      (split; [by apply promise_of_grows|]);
      [left | right; left | right; right];
      eauto using waiting_mono.
  - intros [(pc & r & Hsrc & [Hw | Hw]) | (race & ps & cs & Hsrc & Hw)];
      [left; exists pc, r | left; exists pc, r | right; exists race, ps, cs];
      eauto using waiting_mono, source_is_grows.
  - done.
  - intros [(d & Hd & Hw) | (pall & Hsrc & Hw)]; [left | right];
      eauto using waiting_mono, source_is_grows.
  - intros Hcs c Hc. eauto using waiting_mono.
  - intros (t & ps & i & Hsrc & Hslots). exists t, ps, i.
    split; [by apply source_is_grows|]. intros j d Hd.
    destruct (Hslots _ _ Hd) as [[r Hr] | Hw]; eauto using waiting_mono.
Qed.

Lemma alive_mono p : p < length (promises s) → alive s p → alive s' p.
Proof.
  intros [pr Hp]%lookup_lt_is_Some Hal pr' Hp' Hs'.
  destruct (gr_promises _ _ Hgr _ _ Hp) as (pr'' & Hp'' & Hpr).
  assert (pr'' = pr') as -> by congruence.
  assert (settled pr = None) as Hs.
  { destruct (settled pr) as [v|] eqn:Hs; [|done].
    rewrite (gr_settled _ _ _ Hpr _ Hs) in Hs'. done. }
  rewrite (gr_source _ _ _ Hpr).
  eapply awaits_mono; [apply (gr_elements _ _ _ Hpr) | by apply Hal].
Qed.
End GrowsMono.

(** ** The primitives grow the state *)

Lemma grows_enqueue js s : grows s (enqueue js s).
Proof.
  split; simpl.
  - intros t T HT. exists T. split; [done|]. by split.
  - intros p pr Hp. exists pr. split; [done|]. apply promise_grows_refl.
  - intros j Hj. set_solver.
Qed.

Lemma grows_with_tasks (f : list Task → list Task) s :
  (∀ t T, tasks s !! t = Some T → ∃ T', f (tasks s) !! t = Some T' ∧ task_le T T') →
  grows s (with_tasks f s).
Proof.
  intros Hf. split; simpl; [done| |done].
  intros p pr Hp. exists pr. split; [done|]. apply promise_grows_refl.
Qed.

Lemma grows_record_call t values s : grows s (record_call t values s).
Proof.
  split; simpl; [|eauto using promise_grows_refl|done].
  intros u T HT. exists T. split; [done|]. by split.
Qed.

Lemma grows_new_promise src s : grows s (new_promise src s).2.
Proof.
  split; simpl; [| |done].
  - intros u T HT. exists T. split; [done|]. by split.
  - intros p pr Hp. exists pr. split; [by apply lookup_app_l_Some|].
    apply promise_grows_refl.
Qed.

Lemma grows_app_promise l s : grows s (with_promises (λ ps, ps ++ l) s).
Proof.
  split; simpl; [| |done].
  - intros u T HT. exists T. split; [done|]. by split.
  - intros p pr Hp. exists pr. split; [by apply lookup_app_l_Some|].
    apply promise_grows_refl.
Qed.

(** One promise is replaced and jobs are added. *)
Lemma grows_insert_promise p pr pr' js s :
  promises s !! p = Some pr →
  promise_grows (microtasks s ++ js) pr pr' →
  grows s (enqueue js (with_promises <[p := pr']> s)).
Proof.
  intros Hp Hpr. split; simpl.
  - intros u T HT. exists T. split; [done|]. by split.
  - intros p' pr'' Hp'. destruct (decide (p' = p)) as [->|Hne].
    + assert (pr'' = pr) as -> by congruence. exists pr'.
      split; [|done]. apply list_lookup_insert_eq. by eapply lookup_lt_Some.
    + exists pr''. split; [by rewrite list_lookup_insert_ne|].
      apply promise_grows_refl.
  - intros j Hj. set_solver.
Qed.

Lemma grows_resolve p v s : grows s (resolve p v s).
Proof.
  unfold resolve. destruct (promises s !! p) as [pr|] eqn:Hp; [|apply grows_refl].
  destruct (settled pr) as [v'|] eqn:Hs; [apply grows_refl|].
  apply (grows_insert_promise _ pr); [done|].
  split; simpl; [done | by rewrite Hs | | done].
  intros k _ Hk. apply elem_of_app. right.
  apply list_elem_of_fmap. by exists k.
Qed.

Lemma grows_then p k s : grows s (then_ p k s).
Proof.
  unfold then_. destruct (promises s !! p) as [pr|] eqn:Hp; [|apply grows_refl].
  destruct (settled pr) as [v'|] eqn:Hs; [apply grows_enqueue|].
  assert (with_promises <[p := {| settled := None; reactions := reactions pr ++ [k];
            elements := elements pr; source := source pr |}]> s
          = enqueue [] (with_promises <[p := {| settled := None;
              reactions := reactions pr ++ [k];
              elements := elements pr; source := source pr |}]> s)) as ->.
  { unfold enqueue, with_promises. simpl. by rewrite app_nil_r. }
  apply (grows_insert_promise _ pr); [done|].
  split; simpl; [done | by rewrite Hs | | done].
  intros k' _ Hk'. set_solver.
Qed.

Lemma grows_fold_then {A} (f : A → pid) (g : A → reaction) l : ∀ s,
  grows s (foldl (λ s x, then_ (f x) (g x) s) s l).
Proof.
  induction l as [|x l IH]; intros s; simpl; [apply grows_refl|].
  eapply grows_trans; [apply grows_then | apply IH].
Qed.

Lemma grows_set_promise t q s :
  promise_of s t = None → grows s (set_promise t q s).
Proof.
  intros Hq. apply grows_with_tasks. intros u T HT.
  destruct (decide (u = t)) as [->|Hne].
  - exists {| label := label T; deps := deps T; compute := compute T;
              _promise := Some q; _result := _result T; _id := _id T |}.
    split; [by rewrite list_lookup_alter_eq, HT|]. split; try done. simpl.
    unfold promise_of in Hq. rewrite HT in Hq. simpl in Hq. by rewrite Hq.
  - exists T. split; [by rewrite list_lookup_alter_ne|]. by split.
Qed.

Lemma grows_set_result t r s :
  (∀ r', result_of s t = Some r' → r' = r) → grows s (set_result t r s).
Proof.
  intros Hr. apply grows_with_tasks. intros u T HT.
  destruct (decide (u = t)) as [->|Hne].
  - exists {| label := label T; deps := deps T; compute := compute T;
              _promise := _promise T; _result := Some r; _id := _id T |}.
    split; [by rewrite list_lookup_alter_eq, HT|]. split; try done. simpl.
    intros r' Hr'. f_equal. symmetry. apply Hr. unfold result_of. by rewrite HT.
  - exists T. split; [by rewrite list_lookup_alter_ne|]. by split.
Qed.

(** ** Taking the job at the head of the queue *)

Lemma waiting_dequeue s j k q :
  head (microtasks s) = Some j → (∀ v, j ≠ ReactionJob k v) →
  waiting s k q → waiting (dequeued s) k q.
Proof.
  intros Hj Hne (pr & Hp & Hw). exists pr. split; [done|].
  destruct (settled pr) as [v|]; [|done]. simpl.
  destruct (microtasks s) as [|j' l]; [done|]. simpl in *.
  injection Hj as ->. apply elem_of_cons in Hw as [Heq|?]; [|done].
  by destruct (Hne v).
Qed.

Lemma alive_dequeue s j p :
  head (microtasks s) = Some j → owner j ≠ p → alive s p → alive (dequeued s) p.
Proof.
  intros Hj Hne Hal pr Hp Hs. specialize (Hal pr Hp Hs).
  assert (∀ k q, self_of k = p → waiting s k q → waiting (dequeued s) k q) as Hw.
  { intros k q Hk. apply (waiting_dequeue _ j); [done|]. intros v ->. by apply Hne. }
  destruct (source pr) as [t | t | t r | t ps i | t ps cs | c]; simpl in *.
  - destruct Hal as (q & Hq & [H | [H | H]]); exists q; (split; [done|]).
    + left. by apply Hw.
    + right. left. destruct (microtasks s) as [|j' l]; [done|]. simpl in *.
      injection Hj as ->. apply elem_of_cons in H as [Heq|?]; [|done].
      destruct Hne. by rewrite <-Heq.
    + right. right. by apply Hw.
  - destruct Hal as [(pc & r & Hsrc & [H | H]) | (race & ps & cs & Hsrc & H)].
    + left. exists pc, r. split; [done|]. left. by apply Hw.
    + left. exists pc, r. split; [done|]. right. by apply Hw.
    + right. exists race, ps, cs. split; [done|]. by apply Hw.
  - done.
  - destruct Hal as [(d & Hd & H) | (pall & Hsrc & H)].
    + left. exists d. split; [done|]. by apply Hw.
    + right. exists pall. split; [done|]. by apply Hw.
  - intros c Hc. apply Hw; [done|]. by apply Hal.
  - destruct Hal as (t & ps & i & Hsrc & Hslots). exists t, ps, i. split; [done|].
    intros j' d Hd. destruct (Hslots _ _ Hd) as [? | H]; [by left | right].
    by apply Hw.
Qed.

(** * What a call of [run] does before it returns *)

#[local] Opaque promise_race promise_all call_compute all_element.

(** ** The primitives on a promise whose state is known *)

Lemma then_pending d k s pr :
  promises s !! d = Some pr → settled pr = None →
  then_ d k s = with_promises <[d := {| settled := None;
                                        reactions := reactions pr ++ [k];
                                        elements := elements pr;
                                        source := source pr |}]> s.
Proof. intros Hd Hs. unfold then_. by rewrite Hd, Hs. Qed.

Lemma then_fulfilled d k s pr v :
  promises s !! d = Some pr → settled pr = Some v →
  then_ d k s = enqueue [ReactionJob k v] s.
Proof. intros Hd Hs. unfold then_. by rewrite Hd, Hs. Qed.

Lemma resolve_pending p v s pr :
  promises s !! p = Some pr → settled pr = None →
  resolve p v s =
  enqueue ((λ k, ReactionJob k v) <$> reactions pr)
    (with_promises <[p := {| settled := Some v; reactions := [];
                             elements := elements pr; source := source pr |}]> s).
Proof. intros Hp Hs. unfold resolve. by rewrite Hp, Hs. Qed.

Lemma resolve_settled p v s pr v' :
  promises s !! p = Some pr → settled pr = Some v' → resolve p v s = s.
Proof. intros Hp Hs. unfold resolve. by rewrite Hp, Hs. Qed.

Lemma promises_then_length d k s : length (promises (then_ d k s)) = length (promises s).
Proof.
  unfold then_. destruct (promises s !! d) as [pr|]; [|done].
  destruct (settled pr); simpl; [done|]. by rewrite length_insert.
Qed.

Lemma promises_resolve_length p v s :
  length (promises (resolve p v s)) = length (promises s).
Proof.
  unfold resolve. destruct (promises s !! p) as [pr|]; [|done].
  destruct (settled pr); simpl; [done|]. by rewrite length_insert.
Qed.

Lemma promises_then_ne d k s p :
  p ≠ d → promises (then_ d k s) !! p = promises s !! p.
Proof.
  intros Hne. unfold then_. destruct (promises s !! d) as [pr|]; [|done].
  destruct (settled pr); simpl; [done|]. by rewrite list_lookup_insert_ne.
Qed.

Lemma promises_resolve_ne p' v s p :
  p ≠ p' → promises (resolve p' v s) !! p = promises s !! p.
Proof.
  intros Hne. unfold resolve. destruct (promises s !! p') as [pr|]; [|done].
  destruct (settled pr); simpl; [done|]. by rewrite list_lookup_insert_ne.
Qed.

Lemma pending_then d k s p : pending s p → pending (then_ d k s) p.
Proof.
  intros (pr & Hp & Hs). destruct (decide (p = d)) as [->|Hne].
  - rewrite (then_pending _ _ _ _ Hp Hs). eexists. simpl.
    split; [apply list_lookup_insert_eq; by eapply lookup_lt_Some | done].
  - exists pr. by rewrite promises_then_ne.
Qed.

Lemma waiting_then d k s :
  is_Some (promises s !! d) → waiting (then_ d k s) k d.
Proof.
  intros [pr Hd]. destruct (settled pr) as [v|] eqn:Hs.
  - rewrite (then_fulfilled _ _ _ _ _ Hd Hs). exists pr. rewrite Hs. simpl.
    split; [done|]. set_solver.
  - rewrite (then_pending _ _ _ _ Hd Hs). eexists. simpl. split.
    + apply list_lookup_insert_eq. by eapply lookup_lt_Some.
    + simpl. set_solver.
Qed.

(** ** The relation [sync] *)

Lemma sync_refl n s : sync n s s.
Proof.
  split; [done | | done | auto | auto]. exists []. by rewrite app_nil_r.
Qed.

Lemma sync_trans n s1 s2 s3 :
  grows s2 s3 → sync n s1 s2 → sync n s2 s3 → sync n s1 s3.
Proof.
  intros Hgr [Ho1 (js1 & Hq1 & Hjs1) Hr1 Hs1 Hk1] [Ho2 (js2 & Hq2 & Hjs2) Hr2 Hs2 Hk2].
  split; [| | | |auto].
  - intros p Hp. by rewrite Ho2, Ho1.
  - exists (js1 ++ js2). rewrite Hq2, Hq1, (assoc_L (++)). split; [done|].
    by apply Forall_app.
  - intros t. by rewrite Hr2, Hr1.
  - intros t q Hq. destruct (Hs2 _ _ Hq) as [Hq2' | (Hq2' & Hn & Hw)].
    + destruct (Hs1 _ _ Hq2') as [? | (? & ? & self & Hw)]; [by left | right].
      split_and!; [done..|]. exists self. by eapply waiting_mono.
    + right. split_and!; [|done..].
      destruct (promise_of s1 t) as [q1|] eqn:Hq1'; [|done].
      rewrite (Hk1 _ _ Hq1') in Hq2'. done.
Qed.

Lemma sync_weaken n n' s s' : n' ≤ n → sync n s s' → sync n' s s'.
Proof.
  intros Hn [Ho Hq Hr Hs Hk]. split; [|done|done| |done].
  - intros p Hp. apply Ho. lia.
  - intros t q Hq'. destruct (Hs _ _ Hq') as [? | (? & ? & ?)]; [by left | right].
    split_and!; [done | lia | done].
Qed.

(** Promises from [n] on are replaced or added, jobs of [run] are queued. *)
Lemma sync_promises n (f : list promise → list promise) js s :
  (∀ p, p < n → f (promises s) !! p = promises s !! p) →
  Forall sync_job js →
  sync n s (enqueue js (with_promises f s)).
Proof. intros Hf Hjs. split; simpl; [done | by exists js | done | auto | auto]. Qed.

Lemma sync_new_promise n src s :
  n ≤ length (promises s) → sync n s (new_promise src s).2.
Proof.
  intros Hn. split; simpl; [| |done|auto|auto].
  - intros p Hp. apply lookup_app_l. lia.
  - exists []. by rewrite app_nil_r.
Qed.

Lemma sync_then n d k s :
  n ≤ d → sync_reaction k ∨ pending s d → sync n s (then_ d k s).
Proof.
  intros Hn Hk. destruct (promises s !! d) as [pr|] eqn:Hd.
  - destruct (settled pr) as [v|] eqn:Hs.
    + rewrite (then_fulfilled _ _ _ _ _ Hd Hs).
      destruct Hk as [Hk | (pr' & Hd' & Hs')]; [|congruence].
      split; simpl; [done | | done | auto | auto]. exists [ReactionJob k v].
      split; [done|]. by constructor.
    + rewrite (then_pending _ _ _ _ Hd Hs). split; simpl; [| |done|auto|auto].
      * intros p Hp. apply list_lookup_insert_ne. lia.
      * exists []. by rewrite app_nil_r.
  - unfold then_. rewrite Hd. apply sync_refl.
Qed.

Lemma sync_resolve n p v s :
  n ≤ p → (∀ pr, promises s !! p = Some pr → reactions pr = []) →
  sync n s (resolve p v s).
Proof.
  intros Hn Hk. destruct (promises s !! p) as [pr|] eqn:Hp.
  - destruct (settled pr) as [v'|] eqn:Hs.
    + rewrite (resolve_settled _ _ _ _ _ Hp Hs). apply sync_refl.
    + rewrite (resolve_pending _ _ _ _ Hp Hs), (Hk _ eq_refl).
      split; simpl; [| |done|auto|auto].
      * intros p' Hp'. apply list_lookup_insert_ne. lia.
      * exists []. by rewrite app_nil_r.
  - unfold resolve. rewrite Hp. apply sync_refl.
Qed.

Lemma sync_enqueue n js s : Forall sync_job js → sync n s (enqueue js s).
Proof. intros Hjs. split; simpl; [done | by exists js | done | auto | auto]. Qed.

Lemma sync_record_call n t values s : sync n s (record_call t values s).
Proof.
  split; simpl; [done | | done | auto | auto]. exists []. by rewrite app_nil_r.
Qed.

(** ** The new promises *)

Lemma new_ok_mono n s s' p pr : grows s s' → new_ok n s p pr → new_ok n s' p pr.
Proof.
  intros Hgr [Hal Hsrc]. split.
  - intros Hs. eapply awaits_mono; [done | done | by apply Hal].
  - unfold new_source in *. destruct (source pr); try done.
    destruct Hsrc as [Hv Hks]. split; [|done].
    intros v Hs. destruct (Hv _ Hs) as (r & -> & Hr).
    exists r. split; [done|]. by eapply result_of_grows.
Qed.

Lemma new_ok_weaken n n' s p pr : n' ≤ n → new_ok n s p pr → new_ok n' s p pr.
Proof.
  intros Hn [Hal Hsrc]. split; [done|].
  unfold new_source in *. destruct (source pr); try done.
  - destruct Hsrc as (? & d & ? & ?). split; [done|]. exists d. split; [done | lia].
  - destruct Hsrc as (? & Hcs). split; [done|]. intros c Hc.
    specialize (Hcs c Hc). lia.
Qed.

(** After a step that grows the state, the new promises are those that
    were, unchanged, and those that are justified afresh. *)
Lemma news_step n open s s' :
  grows s s' →
  (∀ p pr', promises s' !! p = Some pr' → n ≤ p → p ∉ open →
            promises s !! p = Some pr' ∨ new_ok n s' p pr') →
  news n open s → news n open s'.
Proof.
  intros Hgr Hstep Hnews p pr' Hp' Hn Hopen.
  destruct (Hstep _ _ Hp' Hn Hopen) as [Hp | ?]; [|done].
  eapply new_ok_mono; [done|]. by apply Hnews.
Qed.

Lemma news_close n open p s :
  news n (p :: open) s → (∀ pr, promises s !! p = Some pr → new_ok n s p pr) →
  news n open s.
Proof.
  intros Hnews Hp p' pr Hp' Hn Hopen. destruct (decide (p' = p)) as [->|Hne].
  - by apply Hp.
  - apply Hnews; [done..|]. set_solver.
Qed.

Lemma news_open n open p s : news n open s → news n (p :: open) s.
Proof. intros Hnews p' pr Hp' Hn Hopen. apply Hnews; [done..|]. set_solver. Qed.

Lemma news_new_promise n open src s :
  news n open s → news n (length (promises s) :: open) (new_promise src s).2.
Proof.
  intros Hnews. eapply news_step; [apply grows_new_promise | | by apply news_open].
  simpl. intros p pr' [Hp | [Hlen Hp]]%lookup_app_Some Hn Hopen; [by left|].
  apply list_lookup_singleton_Some in Hp as [Hp _].
  destruct Hopen. assert (p = length (promises s)) as -> by lia. set_solver.
Qed.

Lemma news_enqueue n open js s : news n open s → news n open (enqueue js s).
Proof. intros Hnews. eapply news_step; [apply grows_enqueue | | done]. auto. Qed.

Lemma news_record_call n open t values s :
  news n open s → news n open (record_call t values s).
Proof. intros Hnews. eapply news_step; [apply grows_record_call | | done]. auto. Qed.

Lemma news_set_promise n open t q s :
  promise_of s t = None → news n open s → news n open (set_promise t q s).
Proof.
  intros Hq Hnews. eapply news_step; [by apply grows_set_promise | | done]. auto.
Qed.

(** Resolving a promise that is still under construction. *)
Lemma news_resolve n open p v s : p ∈ open → news n open s → news n open (resolve p v s).
Proof.
  intros Hp Hnews. eapply news_step; [apply grows_resolve | | done].
  intros p' pr' Hp' Hn Hopen. left. rewrite promises_resolve_ne in Hp'; [done|].
  set_solver.
Qed.

(** ** The blocks of [run] and [executeTask] *)

#[local] Transparent promise_race call_compute.

Lemma grows_length s s' : grows s s' → length (promises s) ≤ length (promises s').
Proof.
  intros Hgr. destruct (decide (length (promises s) = 0)) as [|Hne]; [lia|].
  destruct (lookup_lt_is_Some_2 (promises s) (length (promises s) - 1)) as [pr Hp];
    [lia|].
  destruct (gr_promises _ _ Hgr _ _ Hp) as (pr' & Hp' & _).
  apply lookup_lt_Some in Hp'. lia.
Qed.

Lemma news_then n open d k s :
  news n open s →
  (∀ pr, promises s !! d = Some pr → settled pr = None →
     match source pr with
     | PRun _ => ∃ ps c, k = ContestantAwaitDep ps c
     | PExec t => ∃ self, k = RunAwait t self
     | _ => True
     end) →
  news n open (then_ d k s).
Proof.
  intros Hnews Hk. eapply news_step; [apply grows_then | | done].
  intros p pr' Hp' Hn Hopen. destruct (decide (p = d)) as [->|Hne];
    [|left; by rewrite promises_then_ne in Hp' by done].
  destruct (promises s !! d) as [pr|] eqn:Hd;
    [|left; unfold then_ in Hp'; rewrite Hd in Hp'; congruence].
  destruct (settled pr) as [v|] eqn:Hs.
  { left. rewrite (then_fulfilled _ _ _ _ _ Hd Hs) in Hp'. simpl in Hp'. congruence. }
  right. specialize (Hk _ eq_refl Hs).
  destruct (Hnews _ _ Hd Hn Hopen) as [Hal Hsrc].
  rewrite (then_pending _ _ _ _ Hd Hs) in Hp'. simpl in Hp'.
  rewrite list_lookup_insert_eq in Hp' by by eapply lookup_lt_Some.
  injection Hp' as <-. split; simpl.
  - intros _. eapply awaits_mono; [apply grows_then | done | by apply Hal].
  - unfold new_source in *. simpl. destruct (source pr); try done.
    + destruct Hsrc as [_ Hks]. split; [done|]. apply Forall_app. split; [done|].
      by constructor.
    + apply Forall_app. split; [done|]. by constructor.
    + by destruct Hsrc.
    + by destruct Hsrc.
Qed.

(** *** [call_compute] *)

Lemma call_compute_sync n t T values s :
  n ≤ length (promises s) → news n [] s →
  let r := call_compute t T values s in
  r.1 = length (promises s) ∧ grows s r.2 ∧ sync n s r.2 ∧ news n [] r.2 ∧
  source_is r.2 r.1 (PCompute t (outcome (compute T values))) ∧
  length (promises r.2) = S (length (promises s)).
Proof.
  intros Hn Hnews. unfold call_compute.
  set (s1 := record_call t values s).
  set (src := PCompute t (outcome (compute T values))).
  assert (grows s s1) as Hgr1 by apply grows_record_call.
  pose proof (news_new_promise n [] src s1 (news_record_call _ _ _ _ _ Hnews)) as Hnews2.
  pose proof (grows_new_promise src s1) as Hgr2.
  pose proof (new_promise_source src s1) as Hsrc.
  pose proof (new_promise_lookup src s1) as Hlook.
  assert (sync n s (new_promise src s1).2) as Hsync2.
  { eapply sync_trans; [done | apply sync_record_call | by apply sync_new_promise]. }
  destruct (new_promise src s1) as [pc s2] eqn:Hnew.
  assert (pc = length (promises s)) as -> by by injection Hnew.
  cbn [fst snd] in *. change (length (promises s1)) with (length (promises s)) in *.
  assert (∀ s3, grows s2 s3 → news n [length (promises s)] s3 → news n [] s3) as Hclose.
  { intros s3 Hgr3 Hnews3. apply (news_close _ _ (length (promises s))); [done|].
    intros pr Hp. destruct (source_is_grows _ _ Hgr3 _ _ Hsrc) as (pr' & Hp' & Hsrc').
    assert (pr' = pr) as -> by congruence.
    split; [by rewrite Hsrc' | unfold new_source; by rewrite Hsrc']. }
  assert (length (promises s2) = S (length (promises s))) as Hlen2.
  { injection Hnew as <-. simpl. rewrite length_app. simpl. lia. }
  destruct (compute T values) as [r | r]; cbn [fst snd].
  - pose proof (grows_resolve (length (promises s)) (JResult r) s2) as Hgr3.
    split_and!; [done | eauto using grows_trans | | | by eapply source_is_grows
                | by rewrite promises_resolve_length].
    + eapply sync_trans; [done | done |]. apply sync_resolve; [done|].
      intros pr Hp. rewrite Hlook in Hp. by injection Hp as <-.
    + apply Hclose; [done|]. apply news_resolve; [set_solver | done].
  - split_and!; [done | eauto using grows_trans | done | | done | done].
    apply Hclose; [apply grows_refl | done].
Qed.

Lemma tasks_call_compute t T values s : tasks (call_compute t T values s).2 = tasks s.
Proof.
  unfold call_compute. simpl.
  destruct (compute T values); simpl; [by rewrite tasks_resolve | done].
Qed.

(** *** The contestants *)

Lemma contestants_sync n t ps : ∀ rest i s,
  n ≤ length (promises s) → news n [] s →
  Forall (λ d, n ≤ d ∧ ∃ u, source_is s d (PRun u)) ps →
  drop i ps = rest →
  let r := contestants t ps i rest s in
  grows s r.2 ∧ sync n s r.2 ∧ news n [] r.2 ∧
  Forall (λ c, length (promises s) ≤ c ∧ ∃ i, source_is r.2 c (PContestant t ps i)) r.1.
Proof.
  induction rest as [|d rest IH]; intros i s Hn Hnews Hps Hdrop; simpl.
  { split_and!; [apply grows_refl | apply sync_refl | done | done]. }
  assert (ps !! i = Some d) as Hi.
  { rewrite <-(Nat.add_0_r i), <-lookup_drop, Hdrop. done. }
  set (self := length (promises s)).
  set (src := PContestant t ps i).
  set (s1 := with_promises _ s).
  assert (s1 = (new_promise src s).2) as Hs1 by done.
  assert (grows s s1) as Hgr1 by (rewrite Hs1; apply grows_new_promise).
  assert (promises s1 !! self = Some {| settled := None; reactions := [];
            elements := []; source := src |}) as Hself
    by (rewrite Hs1; apply new_promise_lookup).
  destruct (Forall_lookup_1 _ _ _ _ Hps Hi) as (Hd & u & Hu).
  assert (d < self) as Hlt by (destruct Hu as (? & ?%lookup_lt_Some & _); done).
  set (k := ContestantAwaitDep ps self).
  set (s2 := then_ d k s1).
  assert (grows s1 s2) as Hgr2 by apply grows_then.
  assert (promises s2 !! self = promises s1 !! self) as Hself2
    by (apply promises_then_ne; lia).
  assert (news n [] s2) as Hnews2.
  { apply (news_close _ _ self).
    - apply news_then; [rewrite Hs1; by apply news_new_promise|].
      intros pr Hp _. destruct (source_is_grows _ _ Hgr1 _ _ Hu) as (pr' & Hp' & Hsrc).
      assert (pr' = pr) as -> by congruence. rewrite Hsrc. by exists ps, self.
    - intros pr Hp. rewrite Hself2, Hself in Hp. injection Hp as <-.
      split; simpl.
      + intros _. left. exists d. split; [done|]. apply waiting_then.
        destruct (source_is_grows _ _ Hgr1 _ _ Hu) as (pr' & Hp' & _). eauto.
      + unfold new_source. simpl. split; [done|]. eauto. }
  specialize (IH (S i) s2).
  destruct (contestants t ps (S i) rest s2) as [cs s3] eqn:Hrest.
  cbn [fst snd] in *. destruct IH as (Hgr3 & Hsync3 & Hnews3 & Hcs).
  - apply grows_length in Hgr1, Hgr2. lia.
  - done.
  - eapply Forall_impl; [done|]. intros d' (? & u' & ?). split; [done|].
    exists u'. eauto using source_is_grows.
  - rewrite <-(Nat.add_1_r i), <-drop_drop, Hdrop. done.
  - split_and!; [eauto using grows_trans | | done |].
    + eapply sync_trans; [done | | done].
      eapply sync_trans; [done | rewrite Hs1; by apply sync_new_promise |].
      apply sync_then; [done | by left].
    + constructor.
      * split; [done|]. exists i. apply (source_is_grows _ _ Hgr3).
        eexists. rewrite Hself2, Hself. done.
      * eapply Forall_impl; [done|]. intros c [Hc ?]. split; [|done].
        apply grows_length in Hgr1, Hgr2. unfold self in *. lia.
Qed.

(** *** [Promise.race] *)

Lemma race_fold n open race : ∀ cs s,
  news n open s →
  Forall (λ c, n ≤ c ∧ c ≠ race ∧ pending s c ∧
               ∃ t ps i, source_is s c (PContestant t ps i)) cs →
  let s' := foldl (λ s c, then_ c (Forward race) s) s cs in
  sync n s s' ∧ news n open s' ∧ (∀ c, c ∈ cs → waiting s' (Forward race) c) ∧
  promises s' !! race = promises s !! race.
Proof.
  induction cs as [|c cs IH]; intros s Hnews Hcs; simpl.
  { split_and!; [apply sync_refl | done | set_solver | done]. }
  apply Forall_cons in Hcs as [(Hn & Hne & Hpen & t & ps & i & Hsrc) Hcs].
  set (s1 := then_ c (Forward race) s).
  assert (grows s s1) as Hgr1 by apply grows_then.
  destruct (IH s1) as (Hsync & Hnews' & Hw & Hrace).
  - apply news_then; [done|]. intros pr Hp _. destruct Hsrc as (pr' & Hp' & Hsrc).
    assert (pr' = pr) as -> by congruence. by rewrite Hsrc.
  - eapply Forall_impl; [done|]. intros c' (? & ? & ? & t' & ps' & i' & ?).
    split_and!; [done | done | by apply pending_then |].
    exists t', ps', i'. by eapply source_is_grows.
  - pose proof (grows_fold_then id (λ _, Forward race) cs s1) as Hgr2.
    split_and!; [| done | |].
    + eapply sync_trans; [done | | done]. apply sync_then; [done | by right].
    + intros c' [->|Hc']%elem_of_cons; [|by apply Hw].
      eapply waiting_mono; [done|]. apply waiting_then.
      destruct Hpen as (pr & ? & _). eauto.
    + rewrite Hrace. by apply promises_then_ne.
Qed.

Lemma promise_race_sync n t ps cs s :
  n ≤ length (promises s) → news n [] s →
  Forall (λ c, n ≤ c ∧ ∃ i, source_is s c (PContestant t ps i)) cs →
  let r := promise_race (PRace t ps cs) cs s in
  r.1 = length (promises s) ∧ grows s r.2 ∧ sync n s r.2 ∧ news n [] r.2 ∧
  source_is r.2 r.1 (PRace t ps cs) ∧ pending r.2 r.1.
Proof.
  intros Hn Hnews Hcs. unfold promise_race.
  set (src := PRace t ps cs).
  pose proof (news_new_promise n [] src s Hnews) as Hnews1.
  pose proof (grows_new_promise src s) as Hgr1.
  pose proof (new_promise_lookup src s) as Hrace.
  pose proof (sync_new_promise n src s Hn) as Hsync1.
  destruct (new_promise src s) as [race s1] eqn:Hnew.
  assert (race = length (promises s)) as -> by by injection Hnew.
  cbn [fst snd] in *. set (race := length (promises s)) in *.
  assert (Forall (λ c, n ≤ c ∧ c ≠ race ∧ pending s1 c ∧
                       ∃ t ps i, source_is s1 c (PContestant t ps i)) cs) as Hcs1.
  { eapply Forall_impl; [done|]. intros c (Hc & i & Hsrc).
    destruct (source_is_grows _ _ Hgr1 _ _ Hsrc) as (pr & Hp & Hsrc').
    assert (c ≠ race) as Hne.
    { destruct Hsrc as (? & ?%lookup_lt_Some & _). unfold race. lia. }
    split_and!; [done | done | | exists t, ps, i; by exists pr].
    exists pr. split; [done|].
    assert (new_ok n s1 c pr) as [_ Hso] by (apply Hnews1; [done | done | set_solver]).
    unfold new_source in Hso. rewrite Hsrc' in Hso. by destruct Hso. }
  assert (grows s1 (foldl (λ s c, then_ c (Forward race) s) s1 cs)) as Hgr2
    by apply (grows_fold_then id (λ _, Forward race)).
  assert (∀ s2, news n [race] s2 → promises s2 !! race = promises s1 !! race →
                (∀ c, c ∈ cs → waiting s2 (Forward race) c) → news n [] s2) as Hclose.
  { intros s2 Hnews2 Heq Hw. apply (news_close _ _ race); [done|].
    intros pr Hp. rewrite Heq, Hrace in Hp. injection Hp as <-.
    split; simpl; [done|]. unfold new_source. simpl. split; [done|].
    intros c Hc. by destruct (proj1 (Forall_forall _ _) Hcs1 _ Hc). }
  destruct (race_fold n [race] race cs s1 Hnews1 Hcs1) as (Hsync2 & Hnews2 & Hw & Heq).
  cbn zeta in *. revert Hclose Hgr2 Hsync2 Hnews2 Hw Heq.
  generalize (foldl (λ s c, then_ c (Forward race) s) s1 cs).
  intros s2 Hclose Hgr2 Hsync2 Hnews2 Hw Heq.
  split_and!; [done | eauto using grows_trans | eauto using sync_trans | auto | |];
    exists {| settled := None; reactions := []; elements := []; source := src |};
    by rewrite Heq.
Qed.

(** ** [run] touches only the promises it creates *)

#[local] Opaque promise_race call_compute.

Lemma news_extend n s :
  news (S n) [] s → (∀ pr, promises s !! n = Some pr → new_ok n s n pr) →
  news n [] s.
Proof.
  intros Hnews Hn p pr Hp Hle _. destruct (decide (p = n)) as [->|Hne]; [auto|].
  apply (new_ok_weaken (S n)); [lia|]. apply Hnews; [done | lia | set_solver].
Qed.

Lemma news_vacuous n s : length (promises s) ≤ n → news n [] s.
Proof. intros Hn p pr Hp%lookup_lt_Some Hle _. lia. Qed.

Section RunSync.
Context (run_f : ref → state → option (pid * state)).
Context (Hrun : run_ok run_f) (Hsync : run_sync run_f).

Lemma run_lift n t s p s' :
  Inv s → run_f t s = Some (p, s') → n ≤ length (promises s) → news n [] s →
  p = length (promises s) ∧ grows s s' ∧ sync n s s' ∧ news n [] s'.
Proof.
  intros HI Hr Hn Hnews.
  destruct (Hsync _ _ _ _ HI Hr) as (-> & Hgr & Hsy & Hnews').
  split_and!; [done | done | by eapply sync_weaken |].
  intros p pr Hp Hle _. destruct (decide (p < length (promises s))) as [Hlt|Hge].
  - rewrite (sync_old _ _ _ Hsy) in Hp by done.
    eapply new_ok_mono; [done|]. apply Hnews; [done | done | set_solver].
  - apply (new_ok_weaken (length (promises s))); [done|].
    apply Hnews'; [done | lia | set_solver].
Qed.

Lemma run_deps_sync n ds : ∀ s ps s',
  Inv s → n ≤ length (promises s) → news n [] s →
  run_deps run_f ds s = Some (ps, s') →
  grows s s' ∧ sync n s s' ∧ news n [] s' ∧ Forall (λ p, length (promises s) ≤ p) ps.
Proof.
  induction ds as [|d ds IH]; intros s ps s' HI Hn Hnews Hr; simpl in Hr.
  { injection Hr as <- <-. split_and!; [apply grows_refl | apply sync_refl | done..]. }
  destruct (run_f d s) as [[p s1]|] eqn:Hd; [|done]. simpl in Hr.
  destruct (run_deps run_f ds s1) as [[ps' s2]|] eqn:Hds; [|done]. simpl in Hr.
  injection Hr as <- <-.
  destruct (Hrun _ _ _ _ HI Hd) as (HI1 & _).
  destruct (run_lift _ _ _ _ _ HI Hd Hn Hnews) as (-> & Hgr1 & Hsy1 & Hnews1).
  pose proof (grows_length _ _ Hgr1) as Hlen.
  destruct (IH _ _ _ HI1 ltac:(lia) Hnews1 Hds) as (Hgr2 & Hsy2 & Hnews2 & Hps).
  split_and!; [eauto using grows_trans | eauto using sync_trans | done |].
  constructor; [done|]. eapply Forall_impl; [done|]. simpl. lia.
Qed.

Lemma executeTask_sync t s q s' :
  Inv s → executeTask run_f t s = Some (q, s') →
  q = length (promises s) ∧ grows s s' ∧
  sync (length (promises s)) s s' ∧ news (length (promises s)) [] s'.
Proof.
  intros HI. unfold executeTask.
  destruct (tasks s !! t) as [T|] eqn:HT; [|done].
  cbn -[promise_race call_compute contestants].
  set (self := length (promises s)).
  set (s1 := with_promises _ s).
  assert (s1 = (new_promise (PExec t) s).2) as Hs1 by done.
  assert (Inv s1) as HI1 by (rewrite Hs1; apply Inv_new_promise; [done | by eexists]).
  assert (grows s s1) as Hgr1 by (rewrite Hs1; apply grows_new_promise).
  assert (sync self s s1) as Hsy1 by (rewrite Hs1; by apply sync_new_promise).
  assert (promises s1 !! self = Some {| settled := None; reactions := [];
            elements := []; source := PExec t |}) as Hself
    by (rewrite Hs1; apply new_promise_lookup).
  assert (length (promises s1) = S self) as Hlen1
    by (simpl; rewrite length_app; simpl; unfold self; lia).
  assert (news (S self) [] s1) as Hnews1 by (apply news_vacuous; lia).
  (* the end of each branch *)
  assert (∀ s2, grows s1 s2 → sync (S self) s1 s2 → news (S self) [] s2 →
            awaits s2 self (PExec t) [] →
            self = self ∧ grows s s2 ∧ sync self s s2 ∧ news self [] s2) as Hend.
  { intros s2 Hgr2 Hsy2 Hnews2 Haw.
    split_and!; [done | eauto using grows_trans | |].
    - eapply sync_trans; [done | done | eapply sync_weaken; [|done]; lia].
    - apply news_extend; [done|]. intros pr Hp.
      rewrite (sync_old _ _ _ Hsy2), Hself in Hp by lia. injection Hp as <-.
      split; simpl; [done|]. unfold new_source. simpl. done. }
  destruct (deps T) as [|d0 ds0] eqn:Hdeps.
  - (* no dependencies *)
    destruct (call_compute_sync (S self) t T [] s1)
      as (Hpc & Hgr2 & Hsy2 & Hnews2 & Hsrc & _); [lia | done |].
    destruct (call_compute t T [] s1) as [pc s2]. cbn [fst snd] in *.
    intros [= <- <-]. apply Hend.
    + eauto using grows_trans, grows_then.
    + eapply sync_trans; [apply grows_then | done |].
      apply sync_then; [lia | by left].
    + apply news_then; [done|]. intros pr Hp _. destruct Hsrc as (pr' & Hp' & Hsrc).
      assert (pr' = pr) as -> by congruence. by rewrite Hsrc.
    + left. exists pc, (outcome (compute T [])).
      split; [eapply source_is_grows; [apply grows_then | done]|].
      left. apply waiting_then. destruct Hsrc as (pr & ? & _). eauto.
  - rewrite <-Hdeps. change (tasks s1) with (tasks s).
    destruct (cached_error (tasks s) (deps T)) as [r|] eqn:Hce.
    + (* a dependency has already failed *)
      intros [= <- <-].
      split_and!; [done | eauto using grows_trans, grows_resolve | |].
      * eapply sync_trans; [apply grows_resolve | done |].
        apply sync_resolve; [done|]. intros pr Hp. rewrite Hself in Hp.
        by injection Hp as <-.
      * apply news_extend.
        { apply news_vacuous. rewrite promises_resolve_length. lia. }
        intros pr Hp. rewrite (resolve_pending _ _ _ _ Hself eq_refl) in Hp.
        cbn [promises enqueue with_promises] in Hp.
        rewrite list_lookup_insert_eq in Hp by lia.
        injection Hp as <-. split; simpl; [done|]. unfold new_source. simpl. done.
    + (* run the dependencies and race *)
      destruct (run_deps run_f (deps T) s1) as [[depPromises s2]|] eqn:Hrd; [|done].
      cbn -[promise_race call_compute contestants].
      destruct (run_deps_spec _ Hrun _ _ _ _ HI1 Hrd) as (HI2 & _ & Hps & _).
      destruct (run_deps_sync (S self) _ _ _ _ HI1 ltac:(lia) Hnews1 Hrd)
        as (Hgr2 & Hsy2 & Hnews2 & Hbound).
      destruct (contestants_sync (S self) t depPromises depPromises 0 s2)
        as (Hgr3 & Hsy3 & Hnews3 & Hcs); [apply grows_length in Hgr2; lia | done | | done |].
      { apply Forall_forall. intros d Hd. split.
        - rewrite Forall_forall in Hbound. specialize (Hbound _ Hd). lia.
        - apply list_elem_of_lookup in Hd as [i Hi].
          destruct (Forall2_lookup_r _ _ _ _ _ Hps Hi) as (u & _ & ?). eauto. }
      pose proof (grows_length _ _ Hgr2) as Hlen2.
      destruct (contestants t depPromises 0 depPromises s2) as [cs s3].
      cbn [fst snd] in *.
      pose proof (grows_length _ _ Hgr3) as Hlen3.
      destruct (promise_race_sync (S self) t depPromises cs s3)
        as (Hrace & Hgr4 & Hsy4 & Hnews4 & Hsrc & Hpen); [lia | done | |].
      { eapply Forall_impl; [done|]. simpl. intros c [? ?]. split; [lia | done]. }
      destruct (promise_race (PRace t depPromises cs) cs s3) as [race s4].
      cbn [fst snd] in *. intros [= <- <-].
      pose proof (grows_then race (ExecAwaitRace t self) s4) as Hgr5.
      apply Hend.
      * eauto using grows_trans.
      * eapply sync_trans; [done | | apply sync_then; [lia | by right]].
        eapply sync_trans; [done | | done]. eauto using sync_trans.
      * apply news_then; [done|]. intros pr Hp _. destruct Hsrc as (pr' & Hp' & Hsrc).
        assert (pr' = pr) as -> by congruence. by rewrite Hsrc.
      * right. exists race, depPromises, cs.
        split; [by eapply source_is_grows|]. apply waiting_then.
        destruct Hsrc as (pr & ? & _). eauto.
Qed.
End RunSync.

Lemma run_sync_spec fuel : run_sync (run fuel).
Proof.
  induction fuel as [|fuel IH]; intros t s p s' HI; simpl; [done|].
  destruct (tasks s !! t) as [T|] eqn:HT; [|done]. simpl.
  set (self := length (promises s)).
  set (s1 := with_promises _ s).
  assert (s1 = (new_promise (PRun t) s).2) as Hs1 by done.
  assert (Inv s1) as HI1 by (rewrite Hs1; apply Inv_new_promise; [done | by eexists]).
  assert (grows s s1) as Hgr1 by (rewrite Hs1; apply grows_new_promise).
  assert (sync self s s1) as Hsy1 by (rewrite Hs1; by apply sync_new_promise).
  assert (promises s1 !! self = Some {| settled := None; reactions := [];
            elements := []; source := PRun t |}) as Hself
    by (rewrite Hs1; apply new_promise_lookup).
  assert (length (promises s1) = S self) as Hlen1
    by (simpl; rewrite length_app; simpl; unfold self; lia).
  destruct (_result T) as [r|] eqn:Hres.
  { (* cache hit *)
    intros [= <- <-].
    split_and!; [done | eauto using grows_trans, grows_resolve | |].
    - eapply sync_trans; [apply grows_resolve | done |].
      apply sync_resolve; [done|]. intros pr Hp. rewrite Hself in Hp.
      by injection Hp as <-.
    - apply news_extend.
      { apply news_vacuous. rewrite promises_resolve_length. lia. }
      intros pr Hp. rewrite (resolve_pending _ _ _ _ Hself eq_refl) in Hp.
      cbn [promises enqueue with_promises] in Hp.
      rewrite list_lookup_insert_eq in Hp by lia.
      injection Hp as <-. split; simpl; [done|]. unfold new_source. simpl.
      split; [|done]. intros v [= <-]. exists r. split; [done|].
      unfold result_of. rewrite tasks_resolve. simpl. by rewrite HT. }
  destruct (_promise T) as [q|] eqn:Hprom.
  { (* in flight *)
    intros [= <- <-].
    split_and!; [done | eauto using grows_trans, grows_enqueue | |].
    - eapply sync_trans; [apply grows_enqueue | done |].
      apply sync_enqueue. by constructor.
    - apply news_extend; [apply news_vacuous; simpl in *; lia|].
      intros pr Hp. simpl in Hp. change (promises s ++ _) with (promises s1) in Hp.
      rewrite Hself in Hp. injection Hp as <-. split; simpl.
      + intros _. exists q. split; [unfold promise_of; simpl; by rewrite HT|].
        right. left. set_solver.
      + unfold new_source. simpl. done. }
  destruct (executeTask (run fuel) t s1) as [[q s2]|] eqn:Hex; [|done]. simpl.
  destruct (executeTask_spec _ (run_spec fuel) _ _ _ _ HI1 Hex) as (HI2 & _ & Hq & Hfr).
  destruct (executeTask_sync _ (run_spec fuel) IH _ _ _ _ HI1 Hex)
    as (-> & Hgr2 & Hsy2 & Hnews2).
  rewrite Hlen1 in *. intros [= <- <-].
  assert (tasks s2 !! t = Some T) as HT2 by (rewrite Hfr by done; done).
  assert (promise_of s2 t = None) as Hnone.
  { unfold promise_of. rewrite HT2. done. }
  set (s3 := set_promise t (S self) s2).
  set (s4 := then_ (S self) (RunAwait t self) s3).
  assert (grows s2 s3) as Hgr3 by by apply grows_set_promise.
  assert (grows s3 s4) as Hgr4 by apply grows_then.
  assert (waiting s4 (RunAwait t self) (S self)) as Hw.
  { apply waiting_then. destruct Hq as (pr & ? & _). simpl. eauto. }
  assert (promise_of s4 t = Some (S self)) as Hq4.
  { unfold s4, promise_of. rewrite tasks_then. apply promise_of_set_promise. eauto. }
  assert (sync (S self) s2 s4) as Hsy4.
  { pose proof (sync_then (S self) (S self) (RunAwait t self) s3 ltac:(lia)
                  ltac:(by left)) as [Ho Hj _ _ _].
    split; [done | done | | |].
    - intros u. unfold result_of, s4. rewrite tasks_then. simpl.
      destruct (decide (u = t)) as [->|Hne].
      + rewrite list_lookup_alter_eq, HT2. done.
      + by rewrite list_lookup_alter_ne.
    - intros u q' Hq'. destruct (decide (u = t)) as [->|Hne].
      + right. rewrite Hq4 in Hq'. injection Hq' as <-. eauto.
      + left. revert Hq'. unfold promise_of, s4. rewrite tasks_then. simpl.
        by rewrite list_lookup_alter_ne.
    - intros u q' Hq'. by apply (promise_of_grows s3), (promise_of_grows s2). }
  split_and!; [done | eauto using grows_trans | |].
  - apply (sync_trans _ _ s1); [eauto using grows_trans | done |].
    apply (sync_weaken (S self)); [lia|].
    apply (sync_trans _ _ s2); [eauto using grows_trans | done | done].
  - apply news_extend.
    + apply news_then; [by apply news_set_promise|].
      intros pr Hp _. destruct (source_is_grows _ _ Hgr3 _ _ Hq) as (pr' & Hp' & Hsrc).
      assert (pr' = pr) as -> by congruence. rewrite Hsrc. eauto.
    + intros pr Hp. rewrite (sync_old _ _ _ Hsy4), (sync_old _ _ _ Hsy2), Hself in Hp
        by lia.
      injection Hp as <-. split; simpl; [|unfold new_source; simpl; done].
      intros _. exists (S self). split; [done|]. by left.
Qed.

(** * The invariant [Live] *)

#[local] Transparent promise_race promise_all call_compute all_element resolve then_.

(** ** Steps that only register reactions *)

Lemma same_settled_refl s : same_settled s s.
Proof. intros p pr Hp. by exists pr. Qed.

Lemma same_settled_trans s1 s2 s3 :
  same_settled s1 s2 → same_settled s2 s3 → same_settled s1 s3.
Proof.
  intros H1 H2 p pr3 Hp3. destruct (H2 _ _ Hp3) as (pr2 & Hp2 & ? & ? & ?).
  destruct (H1 _ _ Hp2) as (pr1 & Hp1 & ? & ? & ?). exists pr1.
  split_and!; congruence.
Qed.

Lemma same_settled_then d k s : same_settled s (then_ d k s).
Proof.
  intros p pr' Hp'. destruct (decide (p = d)) as [->|Hne];
    [|exists pr'; by rewrite promises_then_ne in Hp' by done].
  destruct (promises s !! d) as [pr|] eqn:Hd;
    [|unfold then_ in Hp'; rewrite Hd in Hp'; congruence].
  destruct (settled pr) as [v|] eqn:Hs.
  - rewrite (then_fulfilled _ _ _ _ _ Hd Hs) in Hp'. simpl in Hp'.
    exists pr'. split; [congruence | done].
  - rewrite (then_pending _ _ _ _ Hd Hs) in Hp'. simpl in Hp'.
    rewrite list_lookup_insert_eq in Hp' by by eapply lookup_lt_Some.
    injection Hp' as <-. exists pr. done.
Qed.

Lemma same_settled_fold_then {A} (f : A → pid) (g : A → reaction) l : ∀ s,
  same_settled s (foldl (λ s x, then_ (f x) (g x) s) s l).
Proof.
  induction l as [|x l IH]; intros s; simpl; [apply same_settled_refl|].
  eapply same_settled_trans; [apply same_settled_then | apply IH].
Qed.

Lemma Slots_same s s' : same_settled s s' → Slots s → Slots s'.
Proof.
  intros Hsame Hsl p pr' Hp'. destruct (Hsame _ _ Hp') as (pr & Hp & Hsrc & Hs & He).
  specialize (Hsl _ _ Hp). unfold slots_ok in *. by rewrite <-Hsrc, <-Hs, <-He.
Qed.

Lemma Slots_resolve p v s :
  (∀ pr c, promises s !! p = Some pr → source pr ≠ PAll c) →
  Slots s → Slots (resolve p v s).
Proof.
  intros Hsrc Hsl p' pr' Hp'. destruct (decide (p' = p)) as [->|Hne];
    [|rewrite promises_resolve_ne in Hp' by done; by eapply Hsl].
  destruct (promises s !! p) as [pr|] eqn:Hp;
    [|unfold resolve in Hp'; rewrite Hp in Hp'; congruence].
  destruct (settled pr) as [v'|] eqn:Hs.
  - rewrite (resolve_settled _ _ _ _ _ Hp Hs) in Hp'. by eapply Hsl.
  - rewrite (resolve_pending _ _ _ _ Hp Hs) in Hp'. simpl in Hp'.
    rewrite list_lookup_insert_eq in Hp' by by eapply lookup_lt_Some.
    injection Hp' as <-. intros c Hc. simpl in Hc. by destruct (Hsrc pr c).
Qed.

Lemma Slots_new_promise src s :
  (∀ c, src ≠ PAll c) → Slots s → Slots (new_promise src s).2.
Proof.
  intros Hsrc Hsl p pr. simpl. intros [Hp | [_ Hp]]%lookup_app_Some; [by eapply Hsl|].
  apply list_lookup_singleton_Some in Hp as [_ <-]. intros c Hc. by destruct (Hsrc c).
Qed.

Lemma resolve_not_pending p v s : ¬ pending (resolve p v s) p.
Proof.
  intros (pr' & Hp' & Hs'). destruct (promises s !! p) as [pr|] eqn:Hp;
    [|unfold resolve in Hp'; rewrite Hp in Hp'; congruence].
  destruct (settled pr) as [v'|] eqn:Hs.
  - rewrite (resolve_settled _ _ _ _ _ Hp Hs) in Hp'. congruence.
  - rewrite (resolve_pending _ _ _ _ Hp Hs) in Hp'. simpl in Hp'.
    rewrite list_lookup_insert_eq in Hp' by by eapply lookup_lt_Some.
    by injection Hp' as <-.
Qed.

Lemma waiting_fold_then {A} (f : A → pid) (g : A → reaction) l : ∀ s x,
  x ∈ l → is_Some (promises s !! f x) →
  waiting (foldl (λ s x, then_ (f x) (g x) s) s l) (g x) (f x).
Proof.
  induction l as [|y l IH]; intros s x Hx Hs; [set_solver|]. simpl.
  apply elem_of_cons in Hx as [->|Hx].
  - eapply waiting_mono; [apply grows_fold_then | by apply waiting_then].
  - apply IH; [done|]. apply lookup_lt_is_Some. rewrite promises_then_length.
    by apply lookup_lt_is_Some.
Qed.

(** ** [Promise.all] *)

Lemma mapM_replicate_None {A} n : n ≠ 0 → mapM id (replicate n (@None A)) = None.
Proof. destruct n; [done|]. done. Qed.

Lemma promise_all_live c ps s :
  Forall (λ d, d < length (promises s)) ps →
  let r := promise_all (PAll c) ps s in
  r.1 = length (promises s) ∧ grows s r.2 ∧
  length (promises r.2) = S (length (promises s)) ∧
  (∀ p pr', p ≠ r.1 → promises r.2 !! p = Some pr' →
     ∃ pr, promises s !! p = Some pr ∧ source pr = source pr' ∧
           settled pr = settled pr' ∧ elements pr = elements pr') ∧
  (∃ pr, promises r.2 !! r.1 = Some pr ∧ source pr = PAll c ∧ reactions pr = [] ∧
         elements pr = replicate (length ps) None ∧ slots_ok pr) ∧
  (∀ j d, ps !! j = Some d → waiting r.2 (AllElement r.1 j) d).
Proof.
  intros Hps. unfold promise_all.
  set (pr0 := mkPromise _ _ _ _).
  set (s1 := with_promises (λ l, l ++ [pr0]) s).
  set (target := length (promises s)).
  assert (grows s s1) as Hgr1 by apply grows_app_promise.
  assert (promises s1 !! target = Some pr0) as Hlook.
  { simpl. by rewrite lookup_app_r, Nat.sub_diag by done. }
  assert (length (promises s1) = S target) as Hlen1.
  { simpl. rewrite length_app. simpl. unfold target. lia. }
  set (s2 := if decide (ps = []) then resolve target (JResults []) s1 else s1).
  assert (grows s1 s2) as Hgr2.
  { unfold s2. destruct (decide (ps = [])); [apply grows_resolve | apply grows_refl]. }
  assert (length (promises s2) = S target) as Hlen2.
  { unfold s2. destruct (decide (ps = [])); [|done]. by rewrite promises_resolve_length. }
  assert (∀ p, p ≠ target → promises s2 !! p = promises s !! p) as Hother.
  { intros p Hne. unfold s2. destruct (decide (ps = [])).
    - rewrite promises_resolve_ne by done. simpl.
      destruct (decide (p < target)); [by rewrite lookup_app_l|].
      rewrite !lookup_ge_None_2; [done | unfold target in *; lia |].
      rewrite length_app. simpl. unfold target in *. lia.
    - simpl. destruct (decide (p < target)); [by rewrite lookup_app_l|].
      rewrite !lookup_ge_None_2; [done | unfold target in *; lia |].
      rewrite length_app. simpl. unfold target in *. lia. }
  assert (∃ pr, promises s2 !! target = Some pr ∧ source pr = PAll c ∧
                reactions pr = [] ∧
                elements pr = replicate (length ps) None ∧ slots_ok pr)
    as (pr2 & Hp2 & Hsrc2 & Hk2 & Hel2 & Hsl2).
  { unfold s2. destruct (decide (ps = [])) as [-> | Hne].
    - rewrite (resolve_pending _ _ _ _ Hlook eq_refl). simpl.
      rewrite list_lookup_insert_eq by (rewrite length_app; simpl; unfold target; lia).
      eexists. split; [done|]. split_and!; [done..|].
      intros c' _. simpl. by exists [].
    - exists pr0. split_and!; [done..|]. intros c' _. simpl.
      apply mapM_replicate_None. by destruct ps. }
  set (f := λ ip : nat * nat, ip.2).
  set (g := λ ip : nat * nat, AllElement target ip.1).
  pose proof (grows_fold_then f g (imap pair ps) s2) as Hgr3.
  pose proof (same_settled_fold_then f g (imap pair ps) s2) as Hsame.
  cbn [fst snd].
  assert (promises (foldl (λ s x, then_ (f x) (g x) s) s2 (imap pair ps))
            !! target = Some pr2) as Hp3.
  { clear Hgr3 Hsame. revert Hp2. generalize s2. clear -Hps.
    assert (Forall (λ ip : nat * nat, f ip ≠ target) (imap pair ps)) as Hne.
    { apply Forall_forall. intros [j d] Hin.
      apply list_elem_of_lookup in Hin as [i Hi]. rewrite list_lookup_imap in Hi.
      apply fmap_Some in Hi as (y & Hy & [= -> ->]). simpl.
      rewrite Forall_forall in Hps. apply list_elem_of_lookup_2 in Hy.
      specialize (Hps _ Hy). unfold target. lia. }
    induction Hne as [|x l Hx Hl IH]; intros s2 Hp2; simpl; [done|].
    apply IH. by rewrite promises_then_ne. }
  split_and!; [done | eauto using grows_trans | | | |].
  - apply grows_length in Hgr3. pose proof (Hsame (S target)) as Hs.
    destruct (decide (length (promises (foldl (λ s x, then_ (f x) (g x) s) s2
                (imap pair ps))) = S target)) as [|Hne]; [done|].
    destruct (lookup_lt_is_Some_2 (promises (foldl (λ s x, then_ (f x) (g x) s) s2
                (imap pair ps))) (S target)) as [pr' Hp']; [lia|].
    destruct (Hs _ Hp') as (pr & Hp%lookup_lt_Some & _). lia.
  - intros p pr' Hne Hp'. destruct (Hsame _ _ Hp') as (pr & Hp & ?).
    exists pr. by rewrite <-Hother.
  - exists pr2. done.
  - intros j d Hj.
    apply (waiting_fold_then f g (imap pair ps) s2 (j, d)).
    + apply list_elem_of_lookup. exists j. by rewrite list_lookup_imap, Hj.
    + simpl. apply lookup_lt_is_Some. rewrite Hlen2.
      rewrite Forall_forall in Hps. apply list_elem_of_lookup_2 in Hj.
      specialize (Hps _ Hj). unfold target. lia.
Qed.

Lemma mapM_id_Some {A} (l : list (option A)) rs : mapM id l = Some rs → l = Some <$> rs.
Proof.
  intros H%mapM_Some. induction H as [|o r l rs Ho _ IH]; [done|].
  simpl in *. by rewrite Ho, IH.
Qed.

Lemma mapM_id_fmap {A} (rs : list A) : mapM id (Some <$> rs) = Some rs.
Proof. apply mapM_Some. induction rs; by constructor. Qed.

Lemma all_element_live target index x s pr c :
  promises s !! target = Some pr → source pr = PAll c → slots_ok pr →
  index < length (elements pr) →
  (∀ r, elements pr !! index = Some (Some r) → r = x) →
  let s' := all_element target index x s in
  grows s s' ∧ (∀ p, p ≠ target → promises s' !! p = promises s !! p) ∧
  ∃ pr', promises s' !! target = Some pr' ∧ source pr' = PAll c ∧
         elements pr' = <[index := Some x]> (elements pr) ∧ slots_ok pr'.
Proof.
  intros Hp Hsrc Hsl Hi Hx. unfold all_element. rewrite Hp.
  set (values := <[index := Some x]> (elements pr)).
  set (pr1 := mkPromise _ _ _ _).
  set (s1 := with_promises <[target := pr1]> s).
  assert (promises s1 !! target = Some pr1) as Hp1.
  { simpl. apply list_lookup_insert_eq. by eapply lookup_lt_Some. }
  assert (grows s s1) as Hgr1.
  { split; simpl; [| |done].
    - intros t T HT. exists T. split; [done|]. by split.
    - intros p pr' Hp'. destruct (decide (p = target)) as [->|Hne].
      + assert (pr' = pr) as -> by congruence. exists pr1. split; [done|].
        split; simpl; [done | done | |].
        * intros k Hs Hk. by rewrite Hs.
        * intros j r Hj. unfold values. destruct (decide (j = index)) as [->|Hne].
          -- rewrite (Hx _ Hj). by apply list_lookup_insert_eq.
          -- by rewrite list_lookup_insert_ne.
      + exists pr'. split; [by rewrite list_lookup_insert_ne|].
        apply promise_grows_refl. }
  assert (∀ p, p ≠ target → promises s1 !! p = promises s !! p) as Ho1.
  { intros p Hne. simpl. by rewrite list_lookup_insert_ne. }
  specialize (Hsl c Hsrc).
  destruct (mapM id values) as [rs|] eqn:Hrs.
  - split_and!; [eauto using grows_trans, grows_resolve | |].
    { intros p Hne. rewrite promises_resolve_ne by done. auto. }
    apply mapM_id_Some in Hrs.
    destruct (settled pr) as [v|] eqn:Hs.
    + rewrite (resolve_settled _ _ _ _ v Hp1 eq_refl). exists pr1.
      split_and!; [done..|]. intros c' _. simpl.
      destruct Hsl as (rs' & -> & Hel). exists rs'. split; [done|].
      unfold values. rewrite Hel. apply list_insert_id.
      rewrite Hel in Hx. destruct (lookup_lt_is_Some_2 _ _ Hi) as [o Ho].
      rewrite Hel in Ho. rewrite Ho. apply list_lookup_fmap_Some in Ho as (r & -> & Hr).
      f_equal. f_equal. apply Hx. by rewrite list_lookup_fmap, Hr.
    + rewrite (resolve_pending _ _ _ _ Hp1 eq_refl). simpl.
      rewrite list_lookup_insert_eq
        by (rewrite length_insert; by eapply lookup_lt_Some).
      eexists. split; [done|]. split_and!; [done..|].
      intros c' _. simpl. eauto.
  - split_and!; [done | done |]. exists pr1. split_and!; [done..|].
    intros c' _. simpl. destruct (settled pr) as [v|] eqn:Hs; [|done].
    destruct Hsl as (rs' & -> & Hel). exfalso.
    assert (values = elements pr) as Heq.
    { unfold values. apply list_insert_id.
      destruct (lookup_lt_is_Some_2 _ _ Hi) as [o Ho]. rewrite Ho.
      rewrite Hel in Ho. apply list_lookup_fmap_Some in Ho as (r & -> & Hr).
      f_equal. f_equal. apply Hx. rewrite Hel, list_lookup_fmap, Hr. done. }
    rewrite Heq, Hel, mapM_id_fmap in Hrs. done.
Qed.

(** ** [Live] is preserved by every step *)

#[local] Opaque promise_race promise_all call_compute all_element resolve then_.

Lemma source_is_lookup s p src pr :
  source_is s p src → promises s !! p = Some pr → source pr = src.
Proof. intros (pr' & Hp' & Hsrc) Hp. congruence. Qed.

Lemma Live_run fuel t s p s' :
  Inv s → Live s → run fuel t s = Some (p, s') → Live s'.
Proof.
  intros HI [Hal Hta Hsl] Hr.
  destruct (run_sync_spec _ _ _ _ _ HI Hr) as (-> & Hgr & Hsy & Hnews).
  split.
  - intros p. destruct (decide (p < length (promises s))) as [Hlt|Hge].
    + by apply (alive_mono s).
    + intros pr Hp Hs. by apply (Hnews p pr Hp ltac:(lia) ltac:(set_solver)).
  - intros u q Hq Hres. rewrite (sync_results _ _ _ Hsy) in Hres.
    destruct (sync_started _ _ _ Hsy _ _ Hq) as [Hq' | (_ & _ & Hw)]; [|done].
    destruct (Hta _ _ Hq' Hres) as [self Hw]. exists self. by eapply waiting_mono.
  - intros p pr Hp. destruct (decide (p < length (promises s))) as [Hlt|Hge].
    + rewrite (sync_old _ _ _ Hsy) in Hp by done. by eapply Hsl.
    + destruct (Hnews p pr Hp ltac:(lia) ltac:(set_solver)) as [_ Hsrc].
      intros c Hc. unfold new_source in Hsrc. by rewrite Hc in Hsrc.
Qed.

(** The job at the head of the queue has been taken and run. *)
Lemma Live_job s j s' :
  Live s → head (microtasks s) = Some j →
  grows (dequeued s) s' →
  (∀ p pr, promises s' !! p = Some pr → settled pr = None →
     p = owner j ∨ length (promises s) ≤ p → awaits s' p (source pr) (elements pr)) →
  (∀ t self v, j = ReactionJob (RunAwait t self) v → result_of s' t ≠ None) →
  (∀ t q, promise_of s' t = Some q → promise_of s t = Some q) →
  Slots s' →
  Live s'.
Proof.
  intros [Hal Hta Hsl] Hj Hgr Hnew Hrun Hprom Hsl'. split; [| |done].
  - intros p pr Hp Hs.
    destruct (decide (p = owner j)) as [->|Hne]; [by apply Hnew; [..|left]|].
    destruct (decide (p < length (promises s))) as [Hlt|Hge];
      [|apply Hnew; [done | done | right; lia]].
    eapply (alive_mono (dequeued s)); [done | done | | done | done].
    by apply (alive_dequeue _ j).
  - intros t q Hq Hres. specialize (Hprom _ _ Hq).
    assert (result_of s t = None) as Hres0.
    { destruct (result_of s t) as [r|] eqn:Hr; [|done].
      by rewrite (result_of_grows _ _ Hgr t r) in Hres. }
    destruct (Hta _ _ Hprom Hres0) as [self Hw]. exists self.
    eapply waiting_mono; [done|]. apply (waiting_dequeue _ j); [done | | done].
    intros v ->. by destruct (Hrun t self v).
Qed.

(** A job that only fulfils its promise. *)
Lemma Live_resolve_job s j v :
  Live s → head (microtasks s) = Some j →
  (∀ pr c, promises s !! owner j = Some pr → source pr ≠ PAll c) →
  (∀ t self v, j ≠ ReactionJob (RunAwait t self) v) →
  Live (resolve (owner j) v (dequeued s)).
Proof.
  intros HL Hj Hsrc Hrun.
  apply (Live_job s j); [done | done | apply grows_resolve | | | |].
  - intros p pr Hp Hs [-> | Hge].
    + destruct (resolve_not_pending (owner j) v (dequeued s)). by exists pr.
    + apply lookup_lt_Some in Hp. rewrite promises_resolve_length in Hp.
      simpl in Hp. lia.
  - intros t self v' ->. by destruct (Hrun t self v').
  - intros t q. unfold promise_of. by rewrite tasks_resolve.
  - apply Slots_resolve; [done|]. exact (live_slots _ HL).
Qed.

Lemma Live_settle s p pr r t :
  Live s → promises s !! p = Some pr → source pr = PCompute t r →
  Live (resolve p (JResult r) s).
Proof.
  intros [Hal Hta Hsl] Hp Hsrc.
  pose proof (grows_resolve p (JResult r) s) as Hgr. split.
  - intros p'. destruct (decide (p' < length (promises s))) as [Hlt|Hge].
    + by apply (alive_mono s).
    + intros pr' Hp'%lookup_lt_Some. rewrite promises_resolve_length in Hp'. lia.
  - intros u q. unfold promise_of, result_of. rewrite tasks_resolve.
    intros Hq Hres. destruct (Hta _ _ Hq Hres) as [self Hw].
    exists self. by eapply waiting_mono.
  - apply Slots_resolve; [|done]. intros pr' c Hp'.
    assert (pr' = pr) as -> by congruence. by rewrite Hsrc.
Qed.

Lemma Live_create_task l ds c s :
  Live s → Live (with_tasks (λ h, (task l ds c h).2) s).
Proof.
  intros [Hal Hta Hsl].
  assert (grows s (with_tasks (λ h, (task l ds c h).2) s)) as Hgr.
  { apply grows_with_tasks. intros t T HT. exists T. simpl.
    split; [by apply lookup_app_l_Some | by split]. }
  split; [| |done].
  - intros p. destruct (decide (p < length (promises s))) as [Hlt|Hge].
    + by apply (alive_mono s).
    + intros pr Hp%lookup_lt_Some. simpl in Hp. lia.
  - intros t q. unfold promise_of, result_of. simpl.
    destruct (decide (t < length (tasks s))) as [Hlt|Hge].
    + rewrite lookup_app_l by done. intros Hq Hres.
      destruct (Hta _ _ Hq Hres) as [self Hw]. exists self. by eapply waiting_mono.
    + destruct (decide (t = length (tasks s))) as [->|Hne].
      * rewrite lookup_app_r, Nat.sub_diag by done. done.
      * rewrite lookup_ge_None_2; [done|]. rewrite length_app. simpl. lia.
Qed.

Lemma promise_of_set_result t r s u : promise_of (set_result t r s) u = promise_of s u.
Proof.
  unfold promise_of. simpl. destruct (decide (u = t)) as [->|Hne].
  - rewrite list_lookup_alter_eq. by destruct (tasks s !! t).
  - by rewrite list_lookup_alter_ne.
Qed.

Lemma result_of_set_result t r s :
  is_Some (tasks s !! t) → result_of (set_result t r s) t = Some r.
Proof.
  intros [T HT]. unfold result_of. simpl. by rewrite list_lookup_alter_eq, HT.
Qed.

Lemma Inv_dequeued s j :
  Inv s → head (microtasks s) = Some j → Inv (dequeued s).
Proof.
  intros HI Hj. destruct (microtasks s) as [|j' q] eqn:Hq; [done|].
  destruct (Inv_dequeue _ _ _ HI Hq) as [HI' _]. unfold dequeued. by rewrite Hq.
Qed.

(** [const result = await task._promise; task._result = result] *)
Lemma Live_run_await s t self r q :
  Inv s → Live s →
  head (microtasks s) = Some (ReactionJob (RunAwait t self) (JResult r)) →
  source_is s self (PRun t) → promise_of s t = Some q → fulfilled s q (JResult r) →
  Live (resolve self (JResult r) (set_result t r (dequeued s))).
Proof.
  intros HI HL Hj Hself Hq Hful.
  assert (is_Some (tasks s !! t)) as HT.
  { unfold promise_of in Hq. apply bind_Some in Hq as (T & ? & _). eauto. }
  apply (Live_job s (ReactionJob (RunAwait t self) (JResult r))); [done | done | ..].
  - eapply grows_trans; [apply grows_set_result | apply grows_resolve].
    intros r' (T & HT' & Hr')%bind_Some. simpl in HT'.
    destruct (inv_tasks _ HI _ _ HT') as [_ Hex].
    apply (executed_fun s t); [by apply Hex | by exists q].
  - intros p pr Hp Hs [-> | Hge].
    + destruct (resolve_not_pending self (JResult r) (set_result t r (dequeued s))).
      by exists pr.
    + apply lookup_lt_Some in Hp. rewrite promises_resolve_length in Hp.
      simpl in Hp. lia.
  - intros t' self' v [= -> -> ->]. unfold result_of. rewrite tasks_resolve.
    change (result_of (set_result t' r (dequeued s)) t' ≠ None).
    by rewrite result_of_set_result.
  - intros u q'. unfold promise_of. rewrite tasks_resolve.
    change (promise_of (set_result t r (dequeued s)) u = Some q' → promise_of s u = Some q').
    by rewrite promise_of_set_result.
  - apply Slots_resolve; [|exact (live_slots _ HL)].
    intros pr c Hp. simpl in Hp. by rewrite (source_is_lookup _ _ _ _ Hself Hp).
Qed.

(** [const allResults = await Promise.all(depPromises)] *)
Lemma Live_all s t ps i self v :
  Inv s → Live s →
  head (microtasks s) = Some (ReactionJob (ContestantAwaitDep ps self) v) →
  source_is s self (PContestant t ps i) →
  let r := promise_all (PAll self) ps (dequeued s) in
  Live (then_ r.1 (ContestantAwaitAll self) r.2).
Proof.
  intros HI HL Hj Hself.
  pose proof (Inv_dequeued _ _ HI Hj) as HI0.
  destruct (Inv_contestant _ _ _ _ _ HI Hself) as [(T & HT & Hps) Hi].
  destruct (promise_all_live self ps (dequeued s))
    as (Hpall & Hgr1 & Hlen1 & Hother & (pra & Hpa & Hsrca & Hka & Hela & Hsla) & Hw).
  { apply Forall_forall. intros d [j Hd]%list_elem_of_lookup.
    destruct (Forall2_lookup_r _ _ _ _ _ Hps Hd) as (u & _ & (? & ?%lookup_lt_Some & _)).
    done. }
  destruct (promise_all_spec self t ps i (dequeued s) HI0 Hself) as (_ & _ & Ht1 & _).
  destruct (promise_all (PAll self) ps (dequeued s)) as [pall s1].
  cbn [fst snd] in *. change (promises (dequeued s)) with (promises s) in *.
  subst pall. set (pall := length (promises s)) in *.
  pose proof (grows_then pall (ContestantAwaitAll self) s1) as Hgr2.
  pose proof (same_settled_then pall (ContestantAwaitAll self) s1) as Hsame.
  assert (grows (dequeued s) (then_ pall (ContestantAwaitAll self) s1)) as Hgr
    by eauto using grows_trans.
  assert (source_is (then_ pall (ContestantAwaitAll self) s1) self (PContestant t ps i))
    as Hself' by by apply (source_is_grows (dequeued s)).
  assert (source_is (then_ pall (ContestantAwaitAll self) s1) pall (PAll self)) as Hpall'.
  { apply (source_is_grows s1); [done|]. by exists pra. }
  apply (Live_job s (ReactionJob (ContestantAwaitDep ps self) v)); [done | done | done | ..].
  - intros p pr Hp Hs [-> | Hge].
    + simpl in *. rewrite (source_is_lookup _ _ _ _ Hself' Hp). simpl. right.
      exists pall. split; [done|]. apply waiting_then. eauto.
    + assert (p = pall) as ->.
      { apply lookup_lt_Some in Hp. rewrite promises_then_length, Hlen1 in Hp.
        unfold pall. simpl in *. lia. }
      destruct (Hsame _ _ Hp) as (pr' & Hp' & Hsrc' & _ & Hel').
      assert (pr' = pra) as -> by congruence.
      rewrite <-Hsrc', Hsrca. simpl. exists t, ps, i. split; [done|].
      intros j d Hd. right. apply (waiting_mono s1); [done|]. by apply Hw.
  - done.
  - intros u q. unfold promise_of. by rewrite tasks_then, Ht1.
  - apply (Slots_same s1); [done|]. intros p pr Hp.
    destruct (decide (p = pall)) as [->|Hne].
    + by assert (pr = pra) as -> by congruence.
    + destruct (Hother _ _ Hne Hp) as (pr0 & Hp0 & Hsrc & Hs & He).
      pose proof (live_slots _ HL _ _ Hp0) as Hsl. unfold slots_ok in *.
      by rewrite <-Hsrc, <-Hs, <-He.
Qed.

(** [const result = await task.compute(depValues)] *)
Lemma Live_compute s t T self values v :
  Inv s → Live s →
  head (microtasks s) = Some (ReactionJob (ExecAwaitRace t self) v) →
  source_is s self (PExec t) → tasks s !! t = Some T →
  let r := call_compute t T values (dequeued s) in
  Live (then_ r.1 (ExecAwaitCompute t self) r.2).
Proof.
  intros HI HL Hj Hself HT.
  destruct (call_compute_sync (length (promises s)) t T values (dequeued s))
    as (Hpc & Hgr1 & Hsy1 & Hnews1 & Hsrc & Hlen1); [done | by apply news_vacuous |].
  pose proof (tasks_call_compute t T values (dequeued s)) as Ht1.
  destruct (call_compute t T values (dequeued s)) as [pc s1].
  cbn [fst snd] in *. change (promises (dequeued s)) with (promises s) in *.
  subst pc. set (pc := length (promises s)) in *.
  pose proof (grows_then pc (ExecAwaitCompute t self) s1) as Hgr2.
  pose proof (same_settled_then pc (ExecAwaitCompute t self) s1) as Hsame.
  apply (Live_job s (ReactionJob (ExecAwaitRace t self) v));
    [done | done | eauto using grows_trans | ..].
  - intros p pr Hp Hs [-> | Hge].
    + simpl in *.
      assert (source_is (then_ pc (ExecAwaitCompute t self) s1) self (PExec t))
        as Hself' by (apply (source_is_grows s1), (source_is_grows (dequeued s)); done).
      rewrite (source_is_lookup _ _ _ _ Hself' Hp). simpl. left.
      exists pc, (outcome (compute T values)).
      split; [by apply (source_is_grows s1)|]. right. apply waiting_then.
      destruct Hsrc as (? & ? & _). eauto.
    + destruct (Hsame _ _ Hp) as (pr' & Hp' & Hsrc' & _ & _).
      destruct (Hnews1 p pr' Hp' Hge ltac:(set_solver)) as [_ Hns].
      unfold new_source in Hns. rewrite <-Hsrc'.
      destruct (decide (p = pc)) as [->|Hne].
      * by rewrite (source_is_lookup _ _ _ _ Hsrc Hp').
      * apply lookup_lt_Some in Hp'. lia.
  - done.
  - intros u q. unfold promise_of. by rewrite tasks_then, Ht1.
  - apply (Slots_same s1); [done|]. intros p pr Hp.
    destruct (decide (p < length (promises s))) as [Hlt|Hge].
    + rewrite (sync_old _ _ _ Hsy1) in Hp by done. by apply (live_slots _ HL _ _ Hp).
    + destruct (Hnews1 p pr Hp ltac:(lia) ltac:(set_solver)) as [_ Hns].
      intros c Hc. unfold new_source in Hns. by rewrite Hc in Hns.
Qed.

(** The resolve-element function of [Promise.all] *)
Lemma Live_element s target index x c t ps i d :
  Inv s → Live s →
  head (microtasks s) = Some (ReactionJob (AllElement target index) (JResult x)) →
  source_is s target (PAll c) → source_is s c (PContestant t ps i) →
  ps !! index = Some d → fulfilled s d (JResult x) →
  Live (all_element target index x (dequeued s)).
Proof.
  intros HI HL Hj (pr & Hp & Hsrc) Hc Hd Hx.
  destruct (inv_promises _ HI _ _ Hp) as (Hso & _ & _).
  rewrite Hsrc in Hso. simpl in Hso.
  destruct Hso as (t' & ps' & i' & Hc' & Hlen & Hels).
  assert (PContestant t' ps' i' = PContestant t ps i) as [= -> -> ->]
    by eauto using source_is_fun.
  destruct (all_element_live target index x (dequeued s) pr c)
    as (Hgr & Hother & pr' & Hp' & Hsrc' & Hel' & Hsl'); [done | done | ..].
  { by apply (live_slots _ HL _ _ Hp). }
  { rewrite Hlen. by eapply lookup_lt_Some. }
  { intros r Hr. destruct (Hels _ _ Hr) as (d' & Hd' & (pd & Hpd & Hsd)).
    destruct Hx as (pd' & Hpd' & Hsd'). congruence. }
  apply (Live_job s (ReactionJob (AllElement target index) (JResult x)));
    [done | done | done | ..].
  - intros p pr0 Hp0 Hs0 [-> | Hge]; simpl in *.
    + assert (pr0 = pr') as -> by congruence. rewrite Hsrc'. simpl.
      assert (settled pr = None) as Hs.
      { destruct (gr_promises _ _ Hgr _ _ Hp) as (pr1 & Hp1 & Hpr1).
        assert (pr1 = pr') as -> by congruence.
        destruct (settled pr) as [v|] eqn:Hs; [|done].
        rewrite (gr_settled _ _ _ Hpr1 _ Hs) in Hs0. done. }
      pose proof (live_promises _ HL target pr Hp Hs) as Hal.
      rewrite Hsrc in Hal. simpl in Hal.
      destruct Hal as (t' & ps' & i' & Hc'' & Hslots).
      assert (PContestant t' ps' i' = PContestant t ps i) as [= -> -> ->]
        by eauto using source_is_fun.
      exists t, ps, i. split; [by apply (source_is_grows (dequeued s))|].
      intros j d' Hd'. rewrite Hel'. destruct (decide (j = index)) as [->|Hne].
      * left. exists x. apply list_lookup_insert_eq. rewrite Hlen.
        by eapply lookup_lt_Some.
      * rewrite list_lookup_insert_ne by done.
        destruct (Hslots _ _ Hd') as [? | Hw]; [by left | right].
        apply (waiting_mono (dequeued s)); [done|].
        apply (waiting_dequeue _ (ReactionJob (AllElement target index) (JResult x)));
          [done | | done].
        intros v [= ?]. done.
    + rewrite Hother in Hp0.
      * apply lookup_lt_Some in Hp0. simpl in Hp0. lia.
      * apply lookup_lt_Some in Hp. lia.
  - done.
  - intros u q. unfold promise_of. by rewrite tasks_all_element.
  - intros p pr0 Hp0. destruct (decide (p = target)) as [->|Hne].
    + by assert (pr0 = pr') as -> by congruence.
    + rewrite Hother in Hp0 by done. by apply (live_slots _ HL _ _ Hp0).
Qed.

(** The job that resolves the promise of [run] with [task._promise] *)
Lemma Live_thenable s target q t :
  Inv s → Live s →
  head (microtasks s) = Some (ResolveThenableJob target q) →
  source_is s target (PRun t) → promise_of s t = Some q →
  Live (then_ q (Forward target) (dequeued s)).
Proof.
  intros HI HL Hj Htarget Hq.
  assert (source_is s q (PExec t)) as Hqsrc.
  { unfold promise_of in Hq. apply bind_Some in Hq as (T & HT & Hq).
    by apply (inv_tasks _ HI _ _ HT). }
  pose proof (grows_then q (Forward target) (dequeued s)) as Hgr.
  apply (Live_job s (ResolveThenableJob target q)); [done | done | done | ..].
  - intros p pr Hp Hs [-> | Hge]; simpl in *.
    + assert (source_is (then_ q (Forward target) (dequeued s)) target (PRun t))
        as Hsrc by by apply (source_is_grows (dequeued s)).
      rewrite (source_is_lookup _ _ _ _ Hsrc Hp). simpl. exists q.
      split; [unfold promise_of; by rewrite tasks_then|].
      right. right. apply waiting_then. destruct Hqsrc as (? & ? & _). eauto.
    + apply lookup_lt_Some in Hp. rewrite promises_then_length in Hp.
      simpl in Hp. lia.
  - done.
  - intros u q'. unfold promise_of. by rewrite tasks_then.
  - apply (Slots_same (dequeued s)); [apply same_settled_then|].
    exact (live_slots _ HL).
Qed.

Lemma Live_run_reaction k v s p pr :
  Inv s → Live s → head (microtasks s) = Some (ReactionJob k v) →
  promises s !! p = Some pr → settled pr = Some v →
  reaction_ok s p (source pr) k →
  Live (run_reaction k v (dequeued s)).
Proof.
  intros HI HL Hj Hp Hs Hk. pose proof (Inv_fulfilled _ _ _ _ HI Hp Hs) as Hv.
  assert (fulfilled s p v) as Hful by by exists pr.
  assert (∀ self src v',
    self = self_of k → source_is s self src → (∀ c, src ≠ PAll c) →
    (∀ t self', k ≠ RunAwait t self') →
    Live (resolve self v' (dequeued s))) as Hres.
  { intros self src v' -> Hself Hsrc Hrun.
    apply (Live_resolve_job s (ReactionJob k v)); [done | done | |].
    - intros pr' c Hp'. simpl in Hp'. by rewrite (source_is_lookup _ _ _ _ Hself Hp').
    - intros t self' v'' [= -> _]. by destruct (Hrun t self'). }
  destruct k as [t self | t self | depPromises self | self | t self | t self
                | target | target index]; simpl in Hk.
  - (* RunAwait *)
    destruct Hk as (Hsrc & Hself & Hq). rewrite Hsrc in Hv.
    destruct Hv as (r & -> & Hr). simpl. by eapply Live_run_await.
  - (* ExecAwaitLeaf *)
    destruct Hk as (r & Hsrc & Hself). rewrite Hsrc in Hv. simpl in *. subst v.
    by apply (Hres _ (PExec t)).
  - (* ContestantAwaitDep *)
    destruct Hk as (t & i & Hself & Hi).
    destruct (Inv_contestant _ _ _ _ _ HI Hself) as [Hdp _].
    destruct (dep_promise_value _ _ _ _ _ _ HI Hdp Hi Hful)
      as (T & d & r & HT & Hd & _ & -> & Hr). simpl.
    destruct (is_ok r) eqn:Hok.
    + pose proof (Live_all s t depPromises i self (JResult r) HI HL Hj Hself) as H.
      cbn zeta in H. by destruct (promise_all (PAll self) depPromises (dequeued s)).
    + by apply (Hres _ (PContestant t depPromises i)).
  - (* ContestantAwaitAll *)
    destruct Hk as (t & ps & i & Hsrc & Hself). rewrite Hsrc in Hv.
    destruct Hv as (rs & t' & ps' & i' & -> & Hself' & Hrs). simpl.
    by apply (Hres _ (PContestant t ps i)).
  - (* ExecAwaitRace *)
    destruct Hk as (ps & cs & Hsrc & Hself). rewrite Hsrc in Hv.
    destruct Hv as (w & -> & Hw). simpl. destruct w as [r | rs]; simpl in Hw.
    + by apply (Hres _ (PExec t)).
    + destruct Hw as (T & HT & Hrs).
      change (tasks (dequeued s)) with (tasks s). rewrite HT.
      pose proof (Live_compute s t T self (value_of <$> rs) _ HI HL Hj Hself HT) as H.
      cbn zeta in H.
      by destruct (call_compute t T (value_of <$> rs) (dequeued s)).
  - (* ExecAwaitCompute *)
    destruct Hk as (r & Hsrc & Hself). rewrite Hsrc in Hv. simpl in *. subst v.
    by apply (Hres _ (PExec t)).
  - (* Forward *)
    destruct Hk as [(t & Hsrc & Htarget & Hq)
                   | (t & ps & cs & i & Hsrc & Htarget & _)]; simpl.
    + by apply (Hres _ (PRun t)).
    + by apply (Hres _ (PRace t ps cs)).
  - (* AllElement *)
    destruct Hk as (c & t & ps & i & Htarget & Hc & Hd).
    destruct (Inv_contestant _ _ _ _ _ HI Hc) as [Hdp _].
    destruct (dep_promise_value _ _ _ _ _ _ HI Hdp Hd Hful)
      as (T & d & r & HT & Hd' & _ & -> & Hr). simpl.
    by eapply Live_element.
Qed.

Lemma Live_exec a s s' : Inv s → Live s → exec a s = Some s' → Live s'.
Proof.
  intros HI HL. destruct a as [l ds c | t | p |]; unfold exec.
  - case_decide; [|done]. intros [= <-]. by apply Live_create_task.
  - intros ([q s1] & Hr & ->)%fmap_Some. by eapply Live_run.
  - intros (pr & Hp & Hs)%bind_Some.
    destruct (source pr) eqn:Hsrc; try done.
    destruct (settled pr) eqn:Hset; [done|]. injection Hs as <-.
    by eapply Live_settle.
  - destruct (microtasks s) as [|j q] eqn:Hq; [done|]. intros [= <-].
    assert (head (microtasks s) = Some j) as Hj by by rewrite Hq.
    destruct (Inv_dequeue _ _ _ HI Hq) as [_ Hjob].
    change (mkState (tasks s) (promises s) q (calls s))
      with (mkState (tasks s) (promises s) (tail (j :: q)) (calls s)).
    rewrite <-Hq. change (Live (run_job j (dequeued s))).
    destruct j as [k v | target thenable]; simpl in *.
    + destruct Hjob as (p & pr & ? & ? & ?). by eapply Live_run_reaction.
    + destruct Hjob as (t & Htarget & Hthen). by eapply Live_thenable.
Qed.

Lemma Live_init : Live init.
Proof. split; [intros p pr Hp | intros t q Hq | intros p pr Hp]; done. Qed.

Lemma reachable_Live s : reachable s → Live s.
Proof.
  induction 1 as [|s a s' Hreach IH Hexec]; [apply Live_init|].
  eapply Live_exec; [by apply reachable_Inv | done | done].
Qed.

(** * Quiescent states: every promise is fulfilled *)

Lemma mapM_id_None {A} (l : list (option A)) :
  mapM id l = None → ∃ j, l !! j = Some None.
Proof.
  induction l as [|[x|] l IH]; simpl; [done | | by exists 0].
  destruct (mapM id l) as [xs|]; [done|]. intros _.
  destruct (IH eq_refl) as [j Hj]. by exists (S j).
Qed.

Lemma dep_promise_lt s t ps j d :
  Inv s → dep_promises s t ps → ps !! j = Some d →
  ∃ u, u < t ∧ source_is s d (PRun u).
Proof.
  intros HI (T & HT & Hps) Hj.
  destruct (Forall2_lookup_r _ _ _ _ _ Hps Hj) as (u & Hu & Hsrc).
  exists u. split; [|done]. destruct (inv_heap _ HI _ _ HT) as [_ Hlt].
  rewrite Forall_forall in Hlt. apply Hlt. by eapply list_elem_of_lookup_2.
Qed.

Section Quiescent.
Context (s : state) (HI : Inv s) (HL : Live s) (Hq : quiescent s).

Lemma quiet_waiting k q : waiting s k q → pending s q.
Proof.
  intros (pr & Hp & Hw). exists pr. split; [done|].
  destruct (settled pr) as [v|]; [|done]. destruct Hq as [Hq' _].
  rewrite Hq' in Hw. set_solver.
Qed.

Lemma quiet_compute p t r : source_is s p (PCompute t r) → ¬ pending s p.
Proof.
  intros (pr & Hp & Hsrc) (pr' & Hp' & Hs). assert (pr' = pr) as -> by congruence.
  destruct Hq as [_ Hall]. rewrite forallb_forall in Hall.
  specialize (Hall pr). unfold running in Hall. rewrite Hsrc, Hs in Hall.
  assert (negb true = true); [|done]. apply Hall.
  apply list_elem_of_In. by eapply list_elem_of_lookup_2.
Qed.

Section Task.
Context (t : ref).
Context (IH : ∀ u, u < t → ∀ p, source_is s p (PRun u) → ¬ pending s p).

Lemma quiet_dep ps j d : dep_promises s t ps → ps !! j = Some d → ¬ pending s d.
Proof.
  intros Hdp Hj. destruct (dep_promise_lt _ _ _ _ _ HI Hdp Hj) as (u & Hu & Hsrc).
  by apply (IH u).
Qed.

Lemma quiet_all pall c ps i :
  source_is s pall (PAll c) → source_is s c (PContestant t ps i) → ¬ pending s pall.
Proof.
  intros (pr & Hp & Hsrc) Hc (pr' & Hp' & Hs). assert (pr' = pr) as -> by congruence.
  destruct (Inv_contestant _ _ _ _ _ HI Hc) as [Hdp _].
  pose proof (live_slots _ HL _ _ Hp c Hsrc) as Hsl. rewrite Hs in Hsl.
  apply mapM_id_None in Hsl as [j Hj].
  destruct (inv_promises _ HI _ _ Hp) as (Hso & _ & _).
  rewrite Hsrc in Hso. simpl in Hso. destruct Hso as (t' & ps' & i' & Hc' & Hlen & _).
  assert (PContestant t' ps' i' = PContestant t ps i) as [= -> -> ->]
    by eauto using source_is_fun.
  destruct (lookup_lt_is_Some_2 ps j) as [d Hd].
  { rewrite <-Hlen. by eapply lookup_lt_Some. }
  pose proof (live_promises _ HL pall pr Hp Hs) as Hal. rewrite Hsrc in Hal.
  simpl in Hal. destruct Hal as (t' & ps' & i' & Hc'' & Hslots).
  assert (PContestant t' ps' i' = PContestant t ps i) as [= -> -> ->]
    by eauto using source_is_fun.
  destruct (Hslots _ _ Hd) as [[r Hr] | Hw]; [congruence|].
  apply quiet_waiting in Hw. by apply (quiet_dep ps j d).
Qed.

Lemma quiet_contestant c ps i : source_is s c (PContestant t ps i) → ¬ pending s c.
Proof.
  intros Hc (pr & Hp & Hs). destruct (Inv_contestant _ _ _ _ _ HI Hc) as [Hdp _].
  pose proof (live_promises _ HL c pr Hp Hs) as Hal.
  rewrite (source_is_lookup _ _ _ _ Hc Hp) in Hal. simpl in Hal.
  destruct Hal as [(d & Hd & Hw) | (pall & Hpall & Hw)]; apply quiet_waiting in Hw.
  - by apply (quiet_dep ps i d).
  - by apply (quiet_all pall c ps i).
Qed.

Lemma quiet_race race ps cs : source_is s race (PRace t ps cs) → ¬ pending s race.
Proof.
  intros Hr (pr & Hp & Hs).
  destruct (inv_promises _ HI _ _ Hp) as (Hso & _ & _).
  pose proof (source_is_lookup _ _ _ _ Hr Hp) as Hsrc.
  rewrite Hsrc in Hso. simpl in Hso. destruct Hso as (_ & Hne & Hlen & Hcs).
  pose proof (live_promises _ HL race pr Hp Hs) as Hal. rewrite Hsrc in Hal.
  simpl in Hal. destruct cs as [|c cs]; [by destruct ps|].
  assert (waiting s (Forward race) c) as Hw%quiet_waiting by (apply Hal; set_solver).
  by apply (quiet_contestant c ps 0); [apply Hcs|].
Qed.

Lemma quiet_exec q : source_is s q (PExec t) → ¬ pending s q.
Proof.
  intros Hsrc (pr & Hp & Hs). pose proof (live_promises _ HL q pr Hp Hs) as Hal.
  rewrite (source_is_lookup _ _ _ _ Hsrc Hp) in Hal. simpl in Hal.
  destruct Hal as [(pc & r & Hpc & [Hw | Hw]) | (race & ps & cs & Hrace & Hw)];
    apply quiet_waiting in Hw.
  - by apply (quiet_compute pc t r).
  - by apply (quiet_compute pc t r).
  - by apply (quiet_race race ps cs).
Qed.

Lemma quiet_run_task p : source_is s p (PRun t) → ¬ pending s p.
Proof.
  intros Hsrc (pr & Hp & Hs). pose proof (live_promises _ HL p pr Hp Hs) as Hal.
  rewrite (source_is_lookup _ _ _ _ Hsrc Hp) in Hal. simpl in Hal.
  destruct Hal as (q & Hq' & Hw).
  assert (source_is s q (PExec t)) as Hqsrc.
  { unfold promise_of in Hq'. apply bind_Some in Hq' as (T & HT & Hq').
    by apply (inv_tasks _ HI _ _ HT). }
  destruct Hw as [Hw | [Hj | Hw]].
  - apply quiet_waiting in Hw. by apply (quiet_exec q).
  - destruct Hq as [Hq0 _]. rewrite Hq0 in Hj. set_solver.
  - apply quiet_waiting in Hw. by apply (quiet_exec q).
Qed.
End Task.

Lemma quiet_run t : ∀ p, source_is s p (PRun t) → ¬ pending s p.
Proof.
  induction (lt_wf t) as [t _ IH]. intros p. by apply quiet_run_task.
Qed.

(** In a quiescent state no promise is pending. *)
Lemma quiescent_settled p : ¬ pending s p.
Proof.
  intros (pr & Hp & Hs).
  assert (pending s p) as Hpen by by exists pr.
  assert (source_is s p (source pr)) as Hsrc by by exists pr.
  pose proof (λ t u (_ : u < t), quiet_run u) as IH.
  destruct (source pr) as [t | t | t r | t ps i | t ps cs | c] eqn:Hso.
  - by apply (quiet_run t p).
  - by apply (quiet_exec t (IH t) p).
  - by apply (quiet_compute p t r).
  - by apply (quiet_contestant t (IH t) p ps i).
  - by apply (quiet_race t (IH t) p ps cs).
  - destruct (inv_promises _ HI _ _ Hp) as (Hok & _ & _).
    rewrite Hso in Hok. simpl in Hok. destruct Hok as (t & ps & i & Hc & _).
    by apply (quiet_all t (IH t) p c ps i).
Qed.

Lemma quiescent_fulfilled p : p < length (promises s) → ∃ v, fulfilled s p v.
Proof.
  intros [pr Hp]%lookup_lt_is_Some. destruct (settled pr) as [v|] eqn:Hs.
  - exists v. by exists pr.
  - destruct (quiescent_settled p). by exists pr.
Qed.
End Quiescent.

(** * First in, first out *)

Section Precedes.
Context {A : Type}.
Implicit Types P Q : A → Prop.
Implicit Types l : list A.

Lemma precedes_nil P Q : precedes P Q [].
Proof. intros n x Hn. done. Qed.

Lemma precedes_free P Q l : Forall (λ x, ¬ Q x) l → precedes P Q l.
Proof.
  intros Hl n x Hn HQ. rewrite Forall_forall in Hl.
  destruct (Hl x); [by eapply list_elem_of_lookup_2 | done].
Qed.

Lemma precedes_mono P P' Q Q' l :
  (∀ x, x ∈ l → P x → P' x) → (∀ x, x ∈ l → Q' x → Q x) →
  precedes P Q l → precedes P' Q' l.
Proof.
  intros HP HQ Hl n x Hn Hx.
  destruct (Hl n x Hn) as (m & y & Hm & Hy & HPy).
  { apply HQ; [by eapply list_elem_of_lookup_2 | done]. }
  exists m, y. split_and!; [done..|]. apply HP; [by eapply list_elem_of_lookup_2 | done].
Qed.

(** What is appended comes after what is there. *)
Lemma precedes_app P Q l l' :
  precedes P Q l →
  (∀ n x, l' !! n = Some x → Q x →
          (∃ y, y ∈ l ∧ P y) ∨ ∃ m y, m < n ∧ l' !! m = Some y ∧ P y) →
  precedes P Q (l ++ l').
Proof.
  intros Hl Hl' n x Hn Hx. apply lookup_app_Some in Hn as [Hn | [Hlen Hn]].
  - destruct (Hl n x Hn Hx) as (m & y & Hm & Hy & HP). exists m, y.
    split_and!; [done | by apply lookup_app_l_Some | done].
  - destruct (Hl' _ _ Hn Hx) as [(y & [m Hy]%list_elem_of_lookup & HP)
                               | (m & y & Hm & Hy & HP)].
    + exists m, y. split_and!; [|by apply lookup_app_l_Some | done].
      apply lookup_lt_Some in Hy. lia.
    + exists (length l + m), y. split_and!; [lia | | done].
      rewrite lookup_app_r by lia. by replace (length l + m - length l) with m by lia.
Qed.

Lemma precedes_app_free P Q l l' :
  precedes P Q l → Forall (λ x, ¬ Q x) l' → precedes P Q (l ++ l').
Proof.
  intros Hl Hl'. apply precedes_app; [done|]. intros n x Hn Hx.
  rewrite Forall_forall in Hl'. destruct (Hl' x); [by eapply list_elem_of_lookup_2 | done].
Qed.

Lemma precedes_snoc P Q l x :
  precedes P Q l → (Q x → ∃ y, y ∈ l ∧ P y) → precedes P Q (l ++ [x]).
Proof.
  intros Hl Hx. apply precedes_app; [done|].
  intros n x' [-> ->]%list_lookup_singleton_Some HQ. left. auto.
Qed.

(** The head has nothing before it. *)
Lemma precedes_head P Q x l : precedes P Q (x :: l) → ¬ Q x.
Proof. intros Hl HQ. destruct (Hl 0 x eq_refl HQ) as (m & _ & Hm & _). lia. Qed.

Lemma precedes_tail P Q x l : precedes P Q (x :: l) → ¬ P x → precedes P Q l.
Proof.
  intros Hl HP n y Hn Hy. destruct (Hl (S n) y Hn Hy) as (m & z & Hm & Hz & HPz).
  destruct m as [|m]; [by injection Hz as ->|]. exists m, z. split_and!; [lia | done..].
Qed.
End Precedes.

Lemma precedes_fmap {A B} (f : A → B) (P Q : B → Prop) (l : list A) :
  precedes (P ∘ f) (Q ∘ f) l → precedes P Q (f <$> l).
Proof.
  intros Hl n x Hn Hx. rewrite list_lookup_fmap in Hn.
  apply fmap_Some in Hn as (a & Ha & ->).
  destruct (Hl n a Ha Hx) as (m & b & Hm & Hb & HP). exists m, (f b).
  split_and!; [done | by rewrite list_lookup_fmap, Hb | done].
Qed.

(** * The cache is written first *)

#[local] Opaque promise_race promise_all call_compute all_element.
#[local] Transparent resolve then_.

Lemma forwards_to_mono s s' t j :
  (∀ target, source_is s target (PRun t) → source_is s' target (PRun t)) →
  forwards_to s t j → forwards_to s' t j.
Proof. intros H (target & v & -> & Hsrc). exists target, v. auto. Qed.

Lemma not_forward_sync s t j : sync_job j → ¬ forwards_to s t j.
Proof. intros Hj (target & v & -> & _). done. Qed.

(** ** The primitives *)

Lemma Cached_resolve X v s :
  Cached s →
  (∀ pr target t, promises s !! X = Some pr → Forward target ∈ reactions pr →
     source_is s target (PRun t) → promise_of s t = Some X) →
  (∀ t, source_is s X (PRun t) → pending s X →
     ∃ r, v = JResult r ∧ result_of s t = Some r) →
  Cached (resolve X v s).
Proof.
  intros HC Hfw Hrun. destruct (promises s !! X) as [pr|] eqn:HX;
    [|unfold resolve; by rewrite HX].
  destruct (settled pr) as [v'|] eqn:Hs; [by rewrite (resolve_settled _ _ _ _ _ HX Hs)|].
  rewrite (resolve_pending _ _ _ _ HX Hs). destruct HC as [Hres Hrea Hque].
  set (pr' := mkPromise _ _ _ _).
  assert (∀ p src, source_is
            (enqueue ((λ k, ReactionJob k v) <$> reactions pr)
               (with_promises <[X := pr']> s)) p src → source_is s p src) as Hsrc.
  { intros p src (prp & Hp & <-). simpl in Hp.
    apply list_lookup_insert_Some in Hp as [(<- & <- & _) | [_ Hp]];
      [by exists pr | by exists prp]. }
  split.
  - intros p t r Hp (prp & Hp' & Hv). simpl in Hp'.
    change (result_of s t = Some r). apply Hsrc in Hp.
    apply list_lookup_insert_Some in Hp' as [(<- & <- & _) | [_ Hp']].
    + simpl in Hv. injection Hv as ->.
      destruct (Hrun t Hp) as (r' & [= <-] & ?); [by exists pr | done].
    + apply (Hres p); [done | by exists prp].
  - intros t q prq Hq Hr Hpq. simpl in Hpq.
    apply list_lookup_insert_Some in Hpq as [(<- & <- & _) | [_ Hpq]].
    + apply precedes_nil.
    + by apply (Hrea t q).
  - intros t Hr. simpl. apply precedes_app.
    + eapply precedes_mono; [by intros | | by apply Hque].
      intros x _ (target & v0 & -> & Htarget). exists target, v0. auto.
    + intros n x Hn (target & v0 & -> & Htarget). right.
      rewrite list_lookup_fmap in Hn. apply fmap_Some in Hn as (k & Hk & [= <- <-]).
      assert (promise_of s t = Some X) as Hq.
      { apply (Hfw pr target); [done | by eapply list_elem_of_lookup_2 | auto]. }
      destruct (Hrea t X pr Hq Hr HX n _ Hk) as (m & k' & Hm & Hk' & self & ->);
        [by eexists|].
      exists m, (ReactionJob (RunAwait t self) v0).
      split_and!; [done | by rewrite list_lookup_fmap, Hk' | by eexists _, _].
Qed.

Lemma Cached_then X k s :
  Cached s →
  (∀ target t, k = Forward target → promise_of s t = Some X → result_of s t = None →
     ∃ self, waiting s (RunAwait t self) X) →
  (∀ target t, k = Forward target → source_is s target (PRun t) →
     promise_of s t = Some X) →
  Cached (then_ X k s).
Proof.
  intros [Hres Hrea Hque] Hw Hfw. destruct (promises s !! X) as [pr|] eqn:HX;
    [|unfold then_; by rewrite HX].
  destruct (settled pr) as [v|] eqn:Hs.
  - rewrite (then_fulfilled _ _ _ _ _ HX Hs). split; [done | done |].
    intros t Hr. simpl. apply precedes_snoc; [by apply Hque|].
    intros (target & v0 & [= -> <-] & Htarget).
    destruct (Hw target t eq_refl (Hfw _ _ eq_refl Htarget) Hr)
      as (self & pr' & HX' & Hjob).
    assert (pr' = pr) as -> by congruence. rewrite Hs in Hjob.
    exists (ReactionJob (RunAwait t self) v). split; [done | by eexists _, _].
  - rewrite (then_pending _ _ _ _ HX Hs). set (pr' := mkPromise _ _ _ _).
    assert (∀ p src, source_is (with_promises <[X := pr']> s) p src →
                     source_is s p src) as Hsrc.
    { intros p src (prp & Hp & <-). simpl in Hp.
      apply list_lookup_insert_Some in Hp as [(<- & <- & _) | [_ Hp]];
        [by exists pr | by exists prp]. }
    split.
    + intros p t r Hp (prp & Hp' & Hv). simpl in Hp'.
      change (result_of s t = Some r). apply Hsrc in Hp.
      apply list_lookup_insert_Some in Hp' as [(<- & <- & _) | [_ Hp']]; [done|].
      apply (Hres p); [done | by exists prp].
    + intros t q prq Hq Hr Hpq. simpl in Hpq.
      apply list_lookup_insert_Some in Hpq as [(<- & <- & _) | [_ Hpq]];
        [|by apply (Hrea t q)].
      simpl. apply precedes_snoc; [by apply (Hrea t X)|].
      intros [target ->]. destruct (Hw target t eq_refl Hq Hr) as (self & pr'' & HX' & Hk).
      assert (pr'' = pr) as -> by congruence. rewrite Hs in Hk.
      exists (RunAwait t self). split; [done | by eexists].
    + intros t Hr. simpl. eapply precedes_mono; [by intros | | by apply Hque].
      intros x _ (target & v0 & -> & Htarget). exists target, v0. auto.
Qed.

Lemma Cached_fold_then {A} (f : A → pid) (g : A → reaction) l : ∀ s,
  (∀ x target, g x ≠ Forward target) →
  Cached s → Cached (foldl (λ s x, then_ (f x) (g x) s) s l).
Proof.
  induction l as [|x l IH]; intros s Hg HC; simpl; [done|].
  apply IH; [done|]. apply Cached_then; [done | |];
    intros target t Hk; by destruct (Hg x target).
Qed.

(** A new promise that is not one of [run]. *)
Lemma Cached_app_promise pr0 s :
  Cached s → (∀ t, source pr0 ≠ PRun t) → reactions pr0 = [] →
  Cached (with_promises (λ l, l ++ [pr0]) s).
Proof.
  intros [Hres Hrea Hque] Hsrc Hk.
  assert (∀ p t, source_is (with_promises (λ l, l ++ [pr0]) s) p (PRun t) →
                 source_is s p (PRun t)) as Hold.
  { intros p t (pr & Hp & Hso). simpl in Hp.
    apply lookup_app_Some in Hp as [Hp | [_ Hp]]; [by exists pr|].
    apply list_lookup_singleton_Some in Hp as [_ <-]. by destruct (Hsrc t). }
  split.
  - intros p t r Hp (pr & Hp' & Hv). change (result_of s t = Some r).
    pose proof (Hold _ _ Hp) as (pr0' & Hp0 & Hso). simpl in Hp'.
    rewrite lookup_app_l in Hp' by by eapply lookup_lt_Some.
    apply (Hres p); [by exists pr0' | by exists pr].
  - intros t q pr Hq Hr Hp. simpl in Hp.
    apply lookup_app_Some in Hp as [Hp | [_ Hp]]; [by apply (Hrea t q)|].
    apply list_lookup_singleton_Some in Hp as [_ <-]. rewrite Hk. apply precedes_nil.
  - intros t Hr. simpl. eapply precedes_mono; [by intros | | by apply Hque].
    intros x _ (target & v0 & -> & Htarget). exists target, v0. auto.
Qed.

(** The tasks and the queue are the same, the promises up to their arrays. *)
Lemma Cached_same s s' :
  tasks s' = tasks s → microtasks s' = microtasks s →
  (∀ p pr', promises s' !! p = Some pr' →
     ∃ pr, promises s !! p = Some pr ∧ source pr = source pr' ∧
           settled pr = settled pr' ∧ reactions pr = reactions pr') →
  Cached s → Cached s'.
Proof.
  intros Ht Hq Hp [Hres Hrea Hque].
  assert (∀ p src, source_is s' p src → source_is s p src) as Hsrc.
  { intros p src (pr' & Hp' & <-). destruct (Hp _ _ Hp') as (pr & ? & ? & _).
    by exists pr. }
  assert (∀ t, result_of s' t = result_of s t) as Hr by (intros; unfold result_of; by rewrite Ht).
  assert (∀ t, promise_of s' t = promise_of s t) as Hpo
    by (intros; unfold promise_of; by rewrite Ht).
  split.
  - intros p t r Hso (pr' & Hp' & Hv). rewrite Hr.
    destruct (Hp _ _ Hp') as (pr & ? & ? & Hs & _). apply (Hres p); [auto|].
    exists pr. split; [done | congruence].
  - intros t q pr' Hq' Hr' Hp'. rewrite Hpo in Hq'. rewrite Hr in Hr'.
    destruct (Hp _ _ Hp') as (pr & ? & ? & ? & <-). by apply (Hrea t q).
  - intros t Hr'. rewrite Hr in Hr'. rewrite Hq.
    eapply precedes_mono; [by intros | | by apply Hque].
    intros x _ (target & v0 & -> & Htarget). exists target, v0. auto.
Qed.

Lemma Cached_record_call t values s : Cached s → Cached (record_call t values s).
Proof. apply Cached_same; [done | done |]. intros p pr Hp. by exists pr. Qed.

(** Taking a job that is not the continuation of [run]. *)
Lemma Cached_dequeue s j :
  Cached s → head (microtasks s) = Some j →
  (∀ t, runs_await t j → result_of s t ≠ None) →
  Cached (dequeued s).
Proof.
  intros [Hres Hrea Hque] Hj Hrun. split; [done | done |].
  intros t Hr. simpl. destruct (microtasks s) as [|j' q] eqn:Hq; [done|].
  injection Hj as ->. simpl. eapply precedes_tail; [by apply (Hque t)|].
  intros Hj. by destruct (Hrun t).
Qed.

(** The continuation of [run]: [task._result = result]. *)
Lemma Cached_run_await s t self v r :
  Cached s → head (microtasks s) = Some (ReactionJob (RunAwait t self) v) →
  is_Some (tasks s !! t) → (∀ r', result_of s t = Some r' → r' = r) →
  Cached (set_result t r (dequeued s)).
Proof.
  intros [Hres Hrea Hque] Hj HT Hr.
  assert (∀ u, u ≠ t → result_of (set_result t r (dequeued s)) u = result_of s u) as Hne.
  { intros u Hu. unfold result_of. simpl. by rewrite list_lookup_alter_ne. }
  pose proof (result_of_set_result t r (dequeued s) HT) as Heq.
  split.
  - intros p u r' Hp Hv. destruct (decide (u = t)) as [->|Hu].
    + rewrite Heq. f_equal. symmetry. apply Hr. by apply (Hres p).
    + rewrite Hne by done. by apply (Hres p).
  - intros u q pr Hq Hres' Hp. rewrite promise_of_set_result in Hq.
    destruct (decide (u = t)) as [->|Hu]; [congruence|].
    rewrite Hne in Hres' by done. by apply (Hrea u q).
  - intros u Hres'. destruct (decide (u = t)) as [->|Hu]; [congruence|].
    rewrite Hne in Hres' by done. simpl.
    destruct (microtasks s) as [|j' q] eqn:Hq; [done|].
    injection Hj as ->. simpl. eapply precedes_tail; [by apply (Hque u)|].
    intros (self' & v' & [= -> _]). done.
Qed.

(** ** The built-ins *)

#[local] Transparent promise_all call_compute all_element.

Lemma Cached_promise_all c ps s : Cached s → Cached (promise_all (PAll c) ps s).2.
Proof.
  intros HC. unfold promise_all. cbn [snd].
  apply (Cached_fold_then (λ ip : nat * nat, ip.2)); [done|].
  set (pr0 := mkPromise _ _ _ _).
  assert (Cached (with_promises (λ l, l ++ [pr0]) s)) as HC1
    by by apply Cached_app_promise.
  destruct (decide (ps = [])); [|done].
  assert (promises (with_promises (λ l, l ++ [pr0]) s) !! length (promises s)
          = Some pr0) as Hp0.
  { simpl. by rewrite lookup_app_r, Nat.sub_diag by done. }
  apply Cached_resolve; [done | |].
  - intros pr target t Hp Hin. rewrite Hp0 in Hp. injection Hp as <-. set_solver.
  - intros t (pr & Hp & Hsrc). rewrite Hp0 in Hp. by injection Hp as <-.
Qed.

Lemma Cached_call_compute t T values s :
  Cached s → Cached (call_compute t T values s).2.
Proof.
  intros HC. unfold call_compute.
  set (pr0 := {| settled := None; reactions := [];
                 elements := []; source := PCompute t (outcome (compute T values)) |}).
  assert (Cached (with_promises (λ l, l ++ [pr0]) (record_call t values s))) as HC1
    by (apply Cached_app_promise; [by apply Cached_record_call | done..]).
  assert (promises (with_promises (λ l, l ++ [pr0]) (record_call t values s))
            !! length (promises s) = Some pr0) as Hp0.
  { simpl. by rewrite lookup_app_r, Nat.sub_diag by done. }
  cbv zeta. unfold new_promise. fold pr0.
  destruct (compute T values) as [r | r]; cbn [snd]; [|done].
  apply Cached_resolve; [done | |].
  - intros pr target u Hp Hin. change (length (promises (record_call t values s)))
      with (length (promises s)) in Hp.
    rewrite Hp0 in Hp. injection Hp as <-. set_solver.
  - intros u (pr & Hp & Hsrc). change (length (promises (record_call t values s)))
      with (length (promises s)) in Hp.
    rewrite Hp0 in Hp. by injection Hp as <-.
Qed.

Lemma Cached_all_element target index x s c :
  Cached s → source_is s target (PAll c) →
  (∀ pr k t, promises s !! target = Some pr → Forward k ∈ reactions pr →
     source_is s k (PRun t) → promise_of s t = Some target) →
  Cached (all_element target index x s).
Proof.
  intros HC (pr & Hp & Hsrc) Hfw. unfold all_element. rewrite Hp.
  set (pr1 := mkPromise _ _ _ _).
  set (s1 := with_promises <[target := pr1]> s).
  assert (promises s1 !! target = Some pr1) as Hp1.
  { simpl. apply list_lookup_insert_eq. by eapply lookup_lt_Some. }
  assert (∀ p src, source_is s1 p src → source_is s p src) as Hold.
  { intros p src (prp & Hpp & <-). simpl in Hpp.
    apply list_lookup_insert_Some in Hpp as [(<- & <- & _) | [_ Hpp]];
      [by exists pr | by exists prp]. }
  assert (Cached s1) as HC1.
  { apply (Cached_same s); [done | done | | done]. intros p pr' Hp'. simpl in Hp'.
    apply list_lookup_insert_Some in Hp' as [(<- & <- & _) | [_ Hp']];
      [by exists pr | by exists pr']. }
  destruct (mapM id _); [|done]. apply Cached_resolve; [done | |].
  - intros pr' k t Hp' Hin Hk. rewrite Hp1 in Hp'. injection Hp' as <-.
    apply (Hfw pr k t); auto.
  - intros t (pr' & Hp' & Hsrc'). rewrite Hp1 in Hp'. injection Hp' as <-.
    simpl in Hsrc'. congruence.
Qed.

#[local] Opaque promise_all call_compute all_element.

(** ** The jobs *)

(** A forwarding reaction to a promise of [run(t)] is registered on
    [t._promise]. *)
Lemma forward_typing s X pr target t :
  Inv s → promises s !! X = Some pr → Forward target ∈ reactions pr →
  source_is s target (PRun t) → promise_of s t = Some X.
Proof.
  intros HI HX Hin Htarget. destruct (inv_promises _ HI _ _ HX) as (_ & Hks & _).
  rewrite Forall_forall in Hks. specialize (Hks _ Hin). simpl in Hks.
  destruct Hks as [(t' & _ & Htarget' & Hq) | (t' & ps & cs & i & _ & Htarget' & _)].
  - assert (PRun t' = PRun t) as [= ->] by eauto using source_is_fun. done.
  - assert (PRace t' ps cs = PRun t) by eauto using source_is_fun. done.
Qed.

Lemma Cached_resolve_job s j X v :
  Inv s → Cached s → head (microtasks s) = Some j →
  (∀ t self v', j ≠ ReactionJob (RunAwait t self) v') →
  (∀ t, ¬ source_is s X (PRun t)) →
  Cached (resolve X v (dequeued s)).
Proof.
  intros HI HC Hj Hrun Hsrc. apply Cached_resolve.
  - apply (Cached_dequeue s j); [done | done |].
    intros t (self & v' & ->). by destruct (Hrun t self v').
  - intros pr target t. apply (forward_typing (dequeued s)). by eapply Inv_dequeued.
  - intros t Ht. by destruct (Hsrc t).
Qed.

Lemma Cached_thenable s target q t :
  Inv s → Live s → Cached s →
  head (microtasks s) = Some (ResolveThenableJob target q) →
  source_is s target (PRun t) → promise_of s t = Some q →
  Cached (then_ q (Forward target) (dequeued s)).
Proof.
  intros HI HL HC Hj Htarget Hq. apply Cached_then.
  - apply (Cached_dequeue s (ResolveThenableJob target q)); [done | done |].
    by intros u (self & v & ?).
  - intros target' u _ Hu Hres. destruct (live_tasks _ HL u q Hu Hres) as [self Hw].
    exists self. by apply (waiting_dequeue _ (ResolveThenableJob target q)).
  - intros target' u [= <-] Hu.
    by assert (PRun u = PRun t) as [= ->] by eauto using source_is_fun.
Qed.

Lemma Cached_run_reaction k v s p pr :
  Inv s → Live s → Cached s → head (microtasks s) = Some (ReactionJob k v) →
  promises s !! p = Some pr → settled pr = Some v →
  reaction_ok s p (source pr) k →
  Cached (run_reaction k v (dequeued s)).
Proof.
  intros HI HL HC Hj Hp Hs Hk. pose proof (Inv_fulfilled _ _ _ _ HI Hp Hs) as Hv.
  assert (fulfilled s p v) as Hful by by exists pr.
  pose proof (Inv_dequeued _ _ HI Hj) as HI0.
  assert (∀ self src v',
    source_is s self src → (∀ t, src ≠ PRun t) →
    (∀ t self', k ≠ RunAwait t self') →
    Cached (resolve self v' (dequeued s))) as Hres.
  { intros self src v' Hself Hsrc Hrun.
    apply (Cached_resolve_job s (ReactionJob k v)); [done | done | done | |].
    - intros t self' v'' [= -> _]. by destruct (Hrun t self').
    - intros t Ht. destruct (Hsrc t). eauto using source_is_fun. }
  assert (Cached (dequeued s) ∨ ∃ t self, k = RunAwait t self) as HC0.
  { destruct k; try (right; by eauto); left;
      (eapply (Cached_dequeue s); [done | done |]);
      by intros u (self' & v' & ?). }
  destruct k as [t self | t self | depPromises self | self | t self | t self
                | target | target index]; simpl in Hk.
  - (* RunAwait *)
    destruct Hk as (Hsrc & Hself & Hq). rewrite Hsrc in Hv.
    destruct Hv as (r & -> & Hr). simpl.
    assert (is_Some (tasks s !! t)) as HT.
    { unfold promise_of in Hq. apply bind_Some in Hq as (T & ? & _). eauto. }
    assert (executed s t r) as Hex.
    { exists p. split; [done|]. by exists pr. }
    apply Cached_resolve.
    + apply (Cached_run_await s t self (JResult r)); [done..|].
      intros r' (T & HT' & Hr')%bind_Some.
      destruct (inv_tasks _ HI _ _ HT') as [_ Hex']. symmetry.
      apply (executed_fun s t); [done | by apply Hex'].
    + intros pr' target u Hp' Hin Htarget.
      rewrite promise_of_set_result.
      by apply (forward_typing (dequeued s) self pr' target u).
    + intros u Hu _. exists r. split; [done|].
      assert (PRun u = PRun t) as [= ->].
      { eapply source_is_fun; [exact Hu | exact Hself]. }
      by apply result_of_set_result.
  - (* ExecAwaitLeaf *)
    destruct Hk as (r & Hsrc & Hself). rewrite Hsrc in Hv. simpl in *. subst v.
    by apply (Hres _ (PExec t)).
  - (* ContestantAwaitDep *)
    destruct Hk as (t & i & Hself & Hi).
    destruct (Inv_contestant _ _ _ _ _ HI Hself) as [Hdp _].
    destruct (dep_promise_value _ _ _ _ _ _ HI Hdp Hi Hful)
      as (T & d & r & HT & Hd & _ & -> & Hr). simpl.
    destruct HC0 as [HC0 | (? & ? & ?)]; [|done].
    destruct (is_ok r) eqn:Hok.
    + pose proof (Cached_promise_all self depPromises (dequeued s) HC0) as H.
      destruct (promise_all (PAll self) depPromises (dequeued s)) as [pall s1].
      by apply Cached_then.
    + by apply (Hres _ (PContestant t depPromises i)).
  - (* ContestantAwaitAll *)
    destruct Hk as (t & ps & i & Hsrc & Hself). rewrite Hsrc in Hv.
    destruct Hv as (rs & t' & ps' & i' & -> & Hself' & Hrs). simpl.
    by apply (Hres _ (PContestant t ps i)).
  - (* ExecAwaitRace *)
    destruct Hk as (ps & cs & Hsrc & Hself). rewrite Hsrc in Hv.
    destruct Hv as (w & -> & Hw). simpl. destruct w as [r | rs]; simpl in Hw.
    + by apply (Hres _ (PExec t)).
    + destruct Hw as (T & HT & Hrs).
      change (tasks (dequeued s)) with (tasks s). rewrite HT.
      destruct HC0 as [HC0 | (? & ? & ?)]; [|done].
      pose proof (Cached_call_compute t T (value_of <$> rs) (dequeued s) HC0) as H.
      destruct (call_compute t T (value_of <$> rs) (dequeued s)) as [pc s1].
      by apply Cached_then.
  - (* ExecAwaitCompute *)
    destruct Hk as (r & Hsrc & Hself). rewrite Hsrc in Hv. simpl in *. subst v.
    by apply (Hres _ (PExec t)).
  - (* Forward *)
    destruct HC0 as [HC0 | (? & ? & ?)]; [|done].
    destruct Hk as [(t & Hsrc & Htarget & Hq)
                   | (t & ps & cs & i & Hsrc & Htarget & _)]; simpl.
    + rewrite Hsrc in Hv. destruct Hv as (r & -> & Hr).
      apply Cached_resolve; [done | |].
      * intros pr' target' u. by apply (forward_typing (dequeued s)).
      * intros u Hu _. exists r. split; [done|].
        assert (PRun u = PRun t) as [= ->].
        { eapply source_is_fun; [exact Hu | exact Htarget]. }
        change (result_of s t = Some r).
        destruct (result_of s t) as [r'|] eqn:Hres'.
        -- apply bind_Some in Hres' as (T & HT & Hr').
           destruct (inv_tasks _ HI _ _ HT) as [_ Hex]. f_equal.
           apply (executed_fun s t); [by apply Hex|].
           exists p. split; [done|]. by exists pr.
        -- pose proof (k_queue _ HC t Hres') as Hpre.
           destruct (microtasks s) as [|j l]; [done|]. injection Hj as ->.
           destruct (precedes_head _ _ _ _ Hpre). by exists target, (JResult r).
    + by apply (Hres _ (PRace t ps cs)).
  - (* AllElement *)
    destruct HC0 as [HC0 | (? & ? & ?)]; [|done].
    destruct Hk as (c & t & ps & i & Htarget & Hc & Hd).
    destruct (Inv_contestant _ _ _ _ _ HI Hc) as [Hdp _].
    destruct (dep_promise_value _ _ _ _ _ _ HI Hdp Hd Hful)
      as (T & d & r & HT & Hd' & _ & -> & Hr). simpl.
    apply (Cached_all_element _ _ _ _ c); [done | done |].
    intros pr' k u. by apply (forward_typing (dequeued s)).
Qed.

Lemma Cached_run fuel t s p s' :
  Inv s → Cached s → run fuel t s = Some (p, s') → Cached s'.
Proof.
  intros HI [Hres Hrea Hque] Hr.
  destruct (run_sync_spec _ _ _ _ _ HI Hr) as (-> & Hgr & Hsy & Hnews).
  destruct (run_spec fuel _ _ _ _ HI Hr) as (HI' & _).
  split.
  - intros p u r (pr & Hp & Hsrc) (pr' & Hp' & Hs).
    assert (pr' = pr) as -> by congruence.
    destruct (decide (p < length (promises s))) as [Hlt|Hge].
    + rewrite (sync_results _ _ _ Hsy). rewrite (sync_old _ _ _ Hsy) in Hp by done.
      apply (Hres p); by exists pr.
    + destruct (Hnews p pr Hp ltac:(lia) ltac:(set_solver)) as [_ Hns].
      unfold new_source in Hns. rewrite Hsrc in Hns.
      destruct Hns as [Hv _]. destruct (Hv _ Hs) as (r' & [= <-] & ?). done.
  - intros u q pr Hq Hru Hp. rewrite (sync_results _ _ _ Hsy) in Hru.
    destruct (decide (q < length (promises s))) as [Hlt|Hge].
    + rewrite (sync_old _ _ _ Hsy) in Hp by done.
      destruct (sync_started _ _ _ Hsy _ _ Hq) as [Hq' | (_ & ? & _)]; [|lia].
      by apply (Hrea u q).
    + destruct (Hnews q pr Hp ltac:(lia) ltac:(set_solver)) as [_ Hns].
      unfold promise_of in Hq. apply bind_Some in Hq as (T & HT & Hq).
      destruct (inv_tasks _ HI' _ _ HT) as [Hex _].
      unfold new_source in Hns. rewrite (source_is_lookup _ _ _ _ (Hex _ Hq) Hp) in Hns.
      apply precedes_free. eapply Forall_impl; [done|].
      intros k (self & ->) (target & ?). done.
  - intros u Hru. rewrite (sync_results _ _ _ Hsy) in Hru.
    destruct (sync_queue _ _ _ Hsy) as (js & -> & Hjs).
    apply precedes_app_free.
    + eapply precedes_mono; [by intros | | by apply Hque].
      intros j Hj (target & v & -> & Htarget). exists target, v. split; [done|].
      pose proof (inv_jobs _ HI) as Hjobs. rewrite Forall_forall in Hjobs.
      destruct (Hjobs _ Hj) as (q & prq & _ & _ & Hk). simpl in Hk.
      assert (∃ src, source_is s target src) as [src Hsrc].
      { destruct Hk as [(? & _ & ? & _) | (? & ? & ? & ? & _ & ? & _)]; eauto. }
      assert (source_is s' target src) as Hsrc' by by apply (source_is_grows s).
      by assert (src = PRun u) as -> by eauto using source_is_fun.
    + eapply Forall_impl; [done|]. intros j. apply not_forward_sync.
Qed.

Lemma Cached_settle s p pr r t :
  Inv s → Cached s → promises s !! p = Some pr → source pr = PCompute t r →
  Cached (resolve p (JResult r) s).
Proof.
  intros HI HC Hp Hsrc. apply Cached_resolve; [done | |].
  - intros pr' target u. by apply forward_typing.
  - intros u Hu. by rewrite (source_is_lookup _ _ _ _ Hu Hp) in Hsrc.
Qed.

Lemma Cached_create_task l ds c s :
  Inv s → Cached s → Cached (with_tasks (λ h, (task l ds c h).2) s).
Proof.
  intros HI [Hres Hrea Hque].
  assert (∀ t, t < length (tasks s) →
    tasks (with_tasks (λ h, (task l ds c h).2) s) !! t = tasks s !! t) as Hold.
  { intros t Ht. simpl. by apply lookup_app_l. }
  assert (∀ t, length (tasks s) ≤ t →
    tasks (with_tasks (λ h, (task l ds c h).2) s) !! t ≫= _result = None ∧
    tasks (with_tasks (λ h, (task l ds c h).2) s) !! t ≫= _promise = None) as Hnew.
  { intros t Ht. simpl. rewrite lookup_app_r by done.
    by destruct (t - length (tasks s)) as [|n]. }
  assert (∀ p t, source_is s p (PRun t) → t < length (tasks s)) as Hlt.
  { intros p t Hp. destruct (Inv_source _ _ _ HI Hp) as [els Hso]. simpl in Hso.
    by apply lookup_lt_is_Some. }
  split.
  - intros p t r Hp Hful. unfold result_of. rewrite Hold by eauto.
    by apply (Hres p).
  - intros t q pr. unfold promise_of, result_of.
    destruct (decide (t < length (tasks s))) as [Ht|Ht].
    + rewrite !Hold by done. apply Hrea.
    + destruct (Hnew t ltac:(lia)) as [_ ->]. done.
  - intros t. unfold result_of. destruct (decide (t < length (tasks s))) as [Ht|Ht].
    + rewrite Hold by done. apply Hque.
    + intros _. apply precedes_free, Forall_forall.
      intros j _ (target & v & -> & Htarget). apply Ht. eauto.
Qed.

Lemma Cached_exec a s s' : Inv s → Live s → Cached s → exec a s = Some s' → Cached s'.
Proof.
  intros HI HL HC. destruct a as [l ds c | t | p |]; unfold exec.
  - case_decide; [|done]. intros [= <-]. by apply Cached_create_task.
  - intros ([q s1] & Hr & ->)%fmap_Some. by eapply Cached_run.
  - intros (pr & Hp & Hs)%bind_Some.
    destruct (source pr) eqn:Hsrc; try done.
    destruct (settled pr) eqn:Hset; [done|]. injection Hs as <-.
    by eapply Cached_settle.
  - destruct (microtasks s) as [|j q] eqn:Hq; [done|]. intros [= <-].
    assert (head (microtasks s) = Some j) as Hj by by rewrite Hq.
    destruct (Inv_dequeue _ _ _ HI Hq) as [_ Hjob].
    change (mkState (tasks s) (promises s) q (calls s))
      with (mkState (tasks s) (promises s) (tail (j :: q)) (calls s)).
    rewrite <-Hq. change (Cached (run_job j (dequeued s))).
    destruct j as [k v | target thenable]; simpl in *.
    + destruct Hjob as (p & pr & ? & ? & ?). by eapply Cached_run_reaction.
    + destruct Hjob as (t & Htarget & Hthen). by eapply Cached_thenable.
Qed.

Lemma Cached_init : Cached init.
Proof.
  split; [by intros p t r (pr & Hp & _) | by intros t q pr Hq | intros t _].
  apply precedes_nil.
Qed.

Lemma reachable_Cached s : reachable s → Cached s.
Proof.
  induction 1 as [|s a s' Hreach IH Hexec]; [apply Cached_init|].
  eapply Cached_exec; [by apply reachable_Inv | by apply reachable_Live | done | done].
Qed.

(** * The failure of a dependency wins the race *)

#[local] Opaque promise_race promise_all call_compute all_element.
#[local] Transparent resolve then_.

(** ** What a step keeps *)

Lemma executed_grows s s' t r : grows s s' → executed s t r → executed s' t r.
Proof.
  intros Hgr (q & Hq & Hful). exists q.
  split; [by eapply promise_of_grows | by eapply fulfilled_grows].
Qed.

Lemma dep_results_grows s s' t rs : grows s s' → dep_results s t rs → dep_results s' t rs.
Proof.
  intros Hgr (T & HT & Hrs). destruct (gr_tasks _ _ Hgr _ _ HT) as (T' & HT' & Hle).
  exists T'. split; [done|]. rewrite (le_deps _ _ Hle).
  eapply Forall2_impl; [done|]. intros d r. by apply executed_grows.
Qed.

Lemma call_values_grows s s' c : grows s s' → call_values s c → call_values s' c.
Proof.
  intros Hgr (rs & Hrs & Hc & Hok). exists rs. eauto using dep_results_grows.
Qed.

Lemma call_values_same s s' c :
  tasks s' = tasks s → (∀ p v, fulfilled s p v → fulfilled s' p v) →
  call_values s c → call_values s' c.
Proof.
  intros Ht Hful (rs & (T & HT & Hrs) & Hc & Hok). exists rs. split_and!; [|done..].
  exists T. rewrite Ht. split; [done|]. eapply Forall2_impl; [done|].
  intros d r (q & Hq & Hfq). exists q. unfold promise_of in *. rewrite Ht. auto.
Qed.

Lemma Ran_grows s s' c : grows s s' → Ran s c → Ran s' c.
Proof.
  intros Hgr [[v Hv] | [pall Hpall]]; [left | right].
  - exists v. by eapply fulfilled_grows.
  - exists pall. by eapply source_is_grows.
Qed.

Lemma fulfilled_fun s p v v' : fulfilled s p v → fulfilled s p v' → v = v'.
Proof. intros (pr & Hp & Hs) (pr' & Hp' & Hs'). congruence. Qed.

Lemma pending_fulfilled s p v : pending s p → fulfilled s p v → False.
Proof. intros (pr & Hp & Hs) (pr' & Hp' & Hs'). congruence. Qed.

Lemma has_err_lookup rs : has_err rs → ∃ k r, rs !! k = Some r ∧ is_ok r = false.
Proof.
  intros (r & [k Hk]%list_elem_of_lookup & Hr)%Exists_exists. eauto.
Qed.

Lemma all_ok_or_err rs : all_ok rs ∨ has_err rs.
Proof.
  induction rs as [|r rs [IH | IH]].
  - left. constructor.
  - destruct (is_ok r) eqn:Hr; [left; by constructor | right; by constructor].
  - right. by constructor.
Qed.

(** A contestant whose dependency has failed, once it has run, has
    answered [error]. *)
Lemma Ran_failed X Y s c t ps j d r :
  Inv s → Ordered' X Y s →
  source_is s c (PContestant t ps j) → ps !! j = Some d →
  fulfilled s d (JResult r) → is_ok r = false → Ran s c →
  ∃ e, fulfilled s c (JWinner (WError e)).
Proof.
  intros HI HO Hc Hd Hful Hr Hran.
  assert (∀ pall, source_is s pall (PAll c) → False) as Hno.
  { intros pall Hpall. destruct (o_pall _ _ _ HO _ _ _ _ _ Hpall Hc) as (d' & r' & Hd' & Hful' & Hr').
    assert (d' = d) as -> by congruence.
    assert (JResult r' = JResult r) as [= ->] by eauto using fulfilled_fun. congruence. }
  destruct Hran as [[v Hv] | [pall Hpall]]; [|by destruct (Hno pall)].
  destruct Hc as (pr & Hp & Hsrc). destruct Hv as (pr' & Hp' & Hs).
  assert (pr' = pr) as -> by congruence.
  pose proof (Inv_fulfilled _ _ _ _ HI Hp Hs) as Hv. rewrite Hsrc in Hv.
  destruct Hv as (w & -> & _). destruct w as [e | rs].
  - exists e. by exists pr.
  - destruct (o_won _ _ _ HO c t ps j (WSuccess rs)) as [pall Hpall];
      [by exists pr | by exists pr | by destruct (Hno pall)].
Qed.

(** ** Exemptions *)

Lemma Ordered_weaken (X Y X' Y' : pid → Prop) s :
  (∀ c, X c → X' c) → (∀ r, Y r → Y' r) → Ordered' X Y s → Ordered' X' Y' s.
Proof.
  intros HX HY [H1 H2 H3 H4 H5 H6 H7 H8]. split; try done.
  - intros c t ps j Hc. destruct (H4 _ _ _ _ Hc) as [? | [? | ?]]; auto.
  - intros race t ps cs Hr Hp. destruct (H6 _ _ _ _ Hr Hp) as [? | ?]; auto.
Qed.

Lemma Ordered_close (X Y : pid → Prop) s :
  (∀ c t ps j, X c → source_is s c (PContestant t ps j) → Ran s c) →
  (∀ r, Y r → ¬ pending s r) →
  Ordered' X Y s → Ordered s.
Proof.
  intros HX HY [H1 H2 H3 H4 H5 H6 H7 H8]. split; try done.
  - intros c t ps j Hc. destruct (H4 _ _ _ _ Hc) as [? | [? | ?]]; eauto.
  - intros race t ps cs Hr Hp. destruct (H6 _ _ _ _ Hr Hp) as [? | ?]; [|auto].
    by destruct (HY race).
Qed.

(** The job at the head of the queue is taken. *)
Lemma Ordered_dequeue s j :
  Ordered s → head (microtasks s) = Some j →
  Ordered' (λ c, ∃ ps, awaits_dep ps c j) (λ r, forwards_error r j) (dequeued s).
Proof.
  intros [H1 H2 H3 H4 H5 H6 H7 H8] Hj.
  destruct (microtasks s) as [|j' l] eqn:Hq; [done|]. injection Hj as ->.
  split; try done.
  - intros c t ps i Hc. destruct (H4 _ _ _ _ Hc) as [[] | [? | Hpre]]; [by auto|].
    simpl. rewrite Hq. simpl.
    destruct j as [k v | target thenable].
    + destruct (decide (k = ContestantAwaitDep ps c)) as [->|Hne].
      * left. exists ps. by exists v.
      * right. right. eapply precedes_tail; [exact Hpre|]. by intros (v' & [= ?]).
    + right. right. eapply precedes_tail; [exact Hpre|]. by intros (v' & ?).
  - intros race t ps cs Hr Hp. destruct (H6 _ _ _ _ Hr Hp) as [[] | Hpre].
    simpl. rewrite Hq. simpl.
    destruct j as [k v | target thenable].
    + destruct (decide (k = Forward race)) as [->|Hne].
      * destruct v as [r | rs | [e | rs]].
        -- right. eapply precedes_tail; [exact Hpre|]. by intros (e & ?).
        -- right. eapply precedes_tail; [exact Hpre|]. by intros (e & ?).
        -- left. by exists e.
        -- right. eapply precedes_tail; [exact Hpre|]. by intros (e & ?).
      * right. eapply precedes_tail; [exact Hpre|]. by intros (e & [= ?]).
    + right. eapply precedes_tail; [exact Hpre|]. by intros (e & ?).
Qed.

(** ** The primitives *)

Lemma source_is_resolve p v s q src :
  source_is (resolve p v s) q src ↔ source_is s q src.
Proof.
  unfold resolve. destruct (promises s !! p) as [pr|] eqn:Hp; [|done].
  destruct (settled pr) eqn:Hs; [done|]. unfold source_is. simpl. split.
  - intros (prq & Hq & <-).
    apply list_lookup_insert_Some in Hq as [(<- & <- & _) | [_ Hq]]; eauto.
  - intros (prq & Hq & <-). destruct (decide (q = p)) as [->|Hne].
    + eexists. rewrite list_lookup_insert_eq by (by eapply lookup_lt_Some).
      split; [done|]. simpl. congruence.
    + exists prq. by rewrite list_lookup_insert_ne.
Qed.

Lemma source_is_then p k s q src :
  source_is (then_ p k s) q src ↔ source_is s q src.
Proof.
  unfold then_. destruct (promises s !! p) as [pr|] eqn:Hp; [|done].
  destruct (settled pr) eqn:Hs; [done|]. unfold source_is. simpl. split.
  - intros (prq & Hq & <-).
    apply list_lookup_insert_Some in Hq as [(<- & <- & _) | [_ Hq]]; eauto.
  - intros (prq & Hq & <-). destruct (decide (q = p)) as [->|Hne].
    + eexists. rewrite list_lookup_insert_eq by (by eapply lookup_lt_Some).
      split; [done|]. simpl. congruence.
    + exists prq. by rewrite list_lookup_insert_ne.
Qed.

Lemma element_of_same s s' ps j k :
  (∀ p src, source_is s' p src → source_is s p src) →
  element_of s' ps j k → element_of s ps j k.
Proof. intros H (pall & c & t & i & -> & ? & ?). exists pall, c, t, i. auto. Qed.

Lemma element_job_same s s' ps j jb :
  (∀ p src, source_is s' p src → source_is s p src) →
  element_job s' ps j jb → element_job s ps j jb.
Proof. intros H (k & v & -> & ?). exists k, v. eauto using element_of_same. Qed.

Lemma fulfilled_resolve_inv p v s q w :
  fulfilled (resolve p v s) q w → fulfilled s q w ∨ (q = p ∧ w = v ∧ pending s p).
Proof.
  unfold resolve. destruct (promises s !! p) as [pr|] eqn:Hp; [|by left].
  destruct (settled pr) eqn:Hs; [by left|]. intros (prq & Hq & Hw). simpl in Hq.
  apply list_lookup_insert_Some in Hq as [(<- & <- & _) | [_ Hq]].
  - right. simpl in Hw. injection Hw as <-. split_and!; [done..|]. by exists pr.
  - left. by exists prq.
Qed.

Lemma pending_resolve_inv p v s q : pending (resolve p v s) q → pending s q ∧ q ≠ p.
Proof.
  intros Hq. split.
  - destruct Hq as (prq & Hq & Hs). unfold resolve in Hq.
    destruct (promises s !! p) as [pr|] eqn:Hp; [|by exists prq].
    destruct (settled pr) eqn:Hs'; [by exists prq|]. simpl in Hq.
    apply list_lookup_insert_Some in Hq as [(<- & <- & _) | [_ Hq]]; [done|].
    by exists prq.
  - intros ->. by destruct (resolve_not_pending p v s).
Qed.

Lemma fulfilled_then p k s q w : fulfilled (then_ p k s) q w ↔ fulfilled s q w.
Proof.
  unfold then_. destruct (promises s !! p) as [pr|] eqn:Hp; [|done].
  destruct (settled pr) eqn:Hs; [done|]. unfold fulfilled. simpl. split.
  - intros (prq & Hq & Hw).
    apply list_lookup_insert_Some in Hq as [(<- & <- & _) | [_ Hq]]; [done|]. eauto.
  - intros (prq & Hq & Hw). exists prq. split; [|done].
    rewrite list_lookup_insert_ne; [done|]. congruence.
Qed.

Lemma pending_then_inv p k s q : pending (then_ p k s) q → pending s q.
Proof.
  unfold then_. destruct (promises s !! p) as [pr|] eqn:Hp; [|done].
  destruct (settled pr) eqn:Hs; [done|]. intros (prq & Hq & Hw). simpl in Hq.
  apply list_lookup_insert_Some in Hq as [(<- & <- & _) | [_ Hq]];
    [by exists pr | by exists prq].
Qed.

(** Fulfilling a promise: its reactions become jobs, in order. *)
Lemma Ordered_resolve X Y p v s :
  Ordered' X Y s →
  (∀ t ps i w, source_is s p (PContestant t ps i) → pending s p → v = JWinner w →
     match w with
     | WSuccess _ => ∃ pall, source_is s pall (PAll p)
     | WError e => ∃ d, ps !! i = Some d ∧ fulfilled s d (JResult e) ∧ is_ok e = false
     end) →
  (∀ t ps cs rs, source_is s p (PRace t ps cs) → pending s p →
     v = JWinner (WSuccess rs) → all_ok rs) →
  (∀ race t ps cs pr k, source_is s race (PRace t ps cs) → pending s race →
     promises s !! p = Some pr → k ∈ reactions pr →
     bad_job race cs (ReactionJob k v) →
     ∃ y, y ∈ microtasks s ∧ forwards_error race y) →
  Ordered' X Y (resolve p v s).
Proof.
  intros HO Hwon Hrace Hbad.
  pose proof (grows_resolve p v s) as Hgr.
  assert (∀ q src, source_is (resolve p v s) q src → source_is s q src) as Htag
    by (intros q src; apply source_is_resolve).
  destruct (promises s !! p) as [pr|] eqn:Hp; [|unfold resolve; by rewrite Hp].
  destruct (settled pr) as [v'|] eqn:Hs; [by rewrite (resolve_settled _ _ _ _ _ Hp Hs)|].
  assert (pending s p) as Hpend by by exists pr.
  split.
  - intros pall c t ps i Hpall%Htag Hc%Htag.
    destruct (o_pall _ _ _ HO _ _ _ _ _ Hpall Hc) as (d & r & Hd & Hful & Hr).
    exists d, r. split_and!; [done | by eapply fulfilled_grows | done].
  - intros c t ps i w Hc%Htag [Hful | (-> & <- & _)]%fulfilled_resolve_inv.
    + pose proof (o_won _ _ _ HO _ _ _ _ _ Hc Hful) as Hw. destruct w as [e | rs].
      * destruct Hw as (d & Hd & Hful' & He). exists d.
        split_and!; [done | by eapply fulfilled_grows | done].
      * destruct Hw as [pall Hpall]. exists pall. by eapply source_is_grows.
    + pose proof (Hwon _ _ _ w Hc Hpend eq_refl) as Hw. destruct w as [e | rs].
      * destruct Hw as (d & Hd & Hful' & He). exists d.
        split_and!; [done | by eapply fulfilled_grows | done].
      * destruct Hw as [pall Hpall]. exists pall. by eapply source_is_grows.
  - intros c t ps j d prd Hc%Htag Hd.
    rewrite (resolve_pending _ _ _ _ Hp Hs) in Hd. simpl in Hd.
    apply list_lookup_insert_Some in Hd as [(<- & <- & _) | [_ Hd]];
      [apply precedes_nil|].
    pose proof (o_reactions _ _ _ HO _ _ _ _ _ _ Hc Hd) as Hpre.
    eapply precedes_mono; [| |exact Hpre]; [done|].
    intros k _. by apply element_of_same.
  - intros c t ps j Hc%Htag.
    destruct (o_queue _ _ _ HO _ _ _ _ Hc) as [? | [? | Hpre]];
      [by left | right; left; by eapply Ran_grows | right; right].
    rewrite (resolve_pending _ _ _ _ Hp Hs). simpl. apply precedes_app.
    + eapply precedes_mono; [| |exact Hpre]; [done|]. intros jb _.
      apply element_job_same. intros q src. rewrite <-(resolve_pending _ _ _ _ Hp Hs).
      apply Htag.
    + intros n jb Hn (k & v0 & -> & Hk). right.
      rewrite list_lookup_fmap in Hn. apply fmap_Some in Hn as (k' & Hk' & [= -> ->]).
      destruct (o_reactions _ _ _ HO _ _ _ _ _ _ Hc Hp n k' Hk') as (m & y & Hm & Hy & ->).
      { eapply element_of_same; [|done]. intros q src.
        rewrite <-(resolve_pending _ _ _ _ Hp Hs). apply Htag. }
      exists m, (ReactionJob (ContestantAwaitDep ps c) v).
      split_and!; [done | by rewrite list_lookup_fmap, Hy | by exists v].
  - intros pall prp c' t' ps i j r c t Hpall Hsrc Hc'%Htag Hel Hc%Htag.
    eapply Ran_grows; [done|].
    rewrite (resolve_pending _ _ _ _ Hp Hs) in Hpall. simpl in Hpall.
    apply list_lookup_insert_Some in Hpall as [(<- & <- & _) | [_ Hpall]].
    + by eapply (o_slots _ _ _ HO p pr).
    + by eapply (o_slots _ _ _ HO pall prp).
  - intros race t ps cs Hr%Htag [Hpr Hne]%pending_resolve_inv.
    destruct (o_ahead _ _ _ HO _ _ _ _ Hr Hpr) as [? | Hpre]; [by left | right].
    rewrite (resolve_pending _ _ _ _ Hp Hs). simpl. apply precedes_app; [done|].
    intros n jb Hn Hjb. left.
    rewrite list_lookup_fmap in Hn. apply fmap_Some in Hn as (k & Hk & ->).
    eapply Hbad; [done | done | done | by eapply list_elem_of_lookup_2 | done].
  - intros race t ps cs rs Hr%Htag [Hful | (-> & <- & _)]%fulfilled_resolve_inv.
    + by eapply (o_race _ _ _ HO).
    + by eapply Hrace.
  - eapply Forall_impl; [|intros c; by apply call_values_grows].
    rewrite (resolve_pending _ _ _ _ Hp Hs). simpl. by apply (o_calls _ _ _ HO).
Qed.

(** Registering a reaction: a resolve-element function comes after the
    reactions of the contestants. *)
Lemma Ordered_then X Y p k s :
  Ordered' X Y s →
  (∀ c t ps j, source_is s c (PContestant t ps j) →
     ¬ element_of s ps j k ∨ waiting s (ContestantAwaitDep ps c) p ∨
     ((∃ v, fulfilled s p v) ∧ (X c ∨ Ran s c))) →
  (∀ race cs v, fulfilled s p v → ¬ bad_job race cs (ReactionJob k v)) →
  Ordered' X Y (then_ p k s).
Proof.
  intros HO Hel Hbad.
  pose proof (grows_then p k s) as Hgr.
  assert (∀ q src, source_is (then_ p k s) q src → source_is s q src) as Htag
    by (intros q src; apply source_is_then).
  destruct (promises s !! p) as [pr|] eqn:Hp; [|unfold then_; by rewrite Hp].
  split.
  - intros pall c t ps i Hpall%Htag Hc%Htag.
    destruct (o_pall _ _ _ HO _ _ _ _ _ Hpall Hc) as (d & r & Hd & Hful & Hr).
    exists d, r. split_and!; [done | by eapply fulfilled_grows | done].
  - intros c t ps i w Hc%Htag Hful%fulfilled_then.
    pose proof (o_won _ _ _ HO _ _ _ _ _ Hc Hful) as Hw. destruct w as [e | rs].
    + destruct Hw as (d & Hd & Hful' & He). exists d.
      split_and!; [done | by eapply fulfilled_grows | done].
    + destruct Hw as [pall Hpall]. exists pall. by eapply source_is_grows.
  - intros c t ps j d prd Hc%Htag Hd.
    assert (∀ prd0, promises s !! d = Some prd0 →
      precedes (λ k, k = ContestantAwaitDep ps c) (element_of (then_ p k s) ps j)
        (reactions prd0)) as Hold.
    { intros prd0 Hd0. pose proof (o_reactions _ _ _ HO _ _ _ _ _ _ Hc Hd0) as Hpre.
      eapply precedes_mono; [| |exact Hpre]; [done|].
      intros k0 _. by apply element_of_same. }
    destruct (settled pr) as [v|] eqn:Hs.
    + rewrite (then_fulfilled _ _ _ _ _ Hp Hs) in Hd. by apply Hold.
    + rewrite (then_pending _ _ _ _ Hp Hs) in Hd. simpl in Hd.
      apply list_lookup_insert_Some in Hd as [(<- & <- & _) | [_ Hd]]; [|by apply Hold].
      simpl. apply precedes_snoc; [by apply Hold|].
      intros Hk%(element_of_same s); [|done].
      destruct (Hel _ _ _ _ Hc) as [? | [(pr' & Hp' & Hw) | [[v Hv] _]]]; [done | |].
      * assert (pr' = pr) as -> by congruence. rewrite Hs in Hw. eauto.
      * destruct (pending_fulfilled s p v); [by exists pr | done].
  - intros c t ps j Hc%Htag.
    destruct (o_queue _ _ _ HO _ _ _ _ Hc) as [? | [? | Hpre]];
      [by left | right; left; by eapply Ran_grows |].
    assert (precedes (awaits_dep ps c) (element_job (then_ p k s) ps j) (microtasks s))
      as Hpre'.
    { eapply precedes_mono; [| |exact Hpre]; [done|].
      intros jb _. by apply element_job_same. }
    destruct (settled pr) as [v|] eqn:Hs.
    + rewrite (then_fulfilled _ _ _ _ _ Hp Hs) in *. simpl.
      destruct (Hel _ _ _ _ Hc) as [Hno | [(pr' & Hp' & Hw) | [_ [? | ?]]]];
        [| |by left|right; left; by eapply Ran_grows]; right; right.
      * apply precedes_snoc; [done|]. intros (k0 & v0 & [= <- <-] & Hk). by destruct Hno.
      * assert (pr' = pr) as -> by congruence. rewrite Hs in Hw.
        apply precedes_snoc; [done|]. intros _. eexists. split; [done|]. by exists v.
    + right. right. by rewrite (then_pending _ _ _ _ Hp Hs) in *.
  - intros pall prp c' t' ps i j r c t Hpall Hsrc Hc'%Htag Hel' Hc%Htag.
    eapply Ran_grows; [done|].
    destruct (settled pr) as [v|] eqn:Hs.
    + rewrite (then_fulfilled _ _ _ _ _ Hp Hs) in Hpall.
      by eapply (o_slots _ _ _ HO pall prp).
    + rewrite (then_pending _ _ _ _ Hp Hs) in Hpall. simpl in Hpall.
      apply list_lookup_insert_Some in Hpall as [(<- & <- & _) | [_ Hpall]].
      * by eapply (o_slots _ _ _ HO p pr).
      * by eapply (o_slots _ _ _ HO pall prp).
  - intros race t ps cs Hr%Htag Hpr%pending_then_inv.
    destruct (o_ahead _ _ _ HO _ _ _ _ Hr Hpr) as [? | Hpre]; [by left | right].
    destruct (settled pr) as [v|] eqn:Hs.
    + rewrite (then_fulfilled _ _ _ _ _ Hp Hs). simpl.
      apply precedes_app_free; [done|]. constructor; [|done].
      apply Hbad. by exists pr.
    + by rewrite (then_pending _ _ _ _ Hp Hs).
  - intros race t ps cs rs Hr%Htag Hful%fulfilled_then. by eapply (o_race _ _ _ HO).
  - eapply Forall_impl; [|intros c; by apply call_values_grows].
    assert (calls (then_ p k s) = calls s) as ->; [|by apply (o_calls _ _ _ HO)].
    unfold then_. rewrite Hp. by destruct (settled pr).
Qed.

Lemma Ordered_enqueue_free X Y js s :
  Ordered' X Y s →
  Forall (λ jb, (∀ ps j, ¬ element_job s ps j jb) ∧ ∀ race cs, ¬ bad_job race cs jb) js →
  Ordered' X Y (enqueue js s).
Proof.
  intros [H1 H2 H3 H4 H5 H6 H7 H8] Hjs. split; try done.
  - intros c t ps j Hc. destruct (H4 _ _ _ _ Hc) as [? | [? | Hpre]]; [by auto..|].
    right. right. simpl. apply precedes_app_free; [done|].
    eapply Forall_impl; [done|]. intros jb [Hjb _]. apply Hjb.
  - intros race t ps cs Hr Hp. destruct (H6 _ _ _ _ Hr Hp) as [? | Hpre]; [by auto|].
    right. simpl. apply precedes_app_free; [done|].
    eapply Forall_impl; [done|]. intros jb [_ Hjb]. apply Hjb.
Qed.

Lemma Ordered_fold_then {A} X Y (f : A → pid) (g : A → reaction) l : ∀ s,
  Ordered' X Y s →
  (∀ x, x ∈ l →
     (∀ c t ps j, source_is s c (PContestant t ps j) →
        ¬ element_of s ps j (g x) ∨ waiting s (ContestantAwaitDep ps c) (f x) ∨
        ((∃ v, fulfilled s (f x) v) ∧ (X c ∨ Ran s c))) ∧
     ∀ race cs v, ¬ bad_job race cs (ReactionJob (g x) v)) →
  Ordered' X Y (foldl (λ s x, then_ (f x) (g x) s) s l).
Proof.
  induction l as [|x l IH]; intros s HO Hl; simpl; [done|].
  pose proof (grows_then (f x) (g x) s) as Hgr.
  apply IH.
  - apply Ordered_then; [done | |].
    + apply Hl. by left.
    + intros race cs v _. apply Hl. by left.
  - intros y Hy. destruct (Hl y) as [Hel Hbad]; [by right|]. split; [|done].
    intros c t ps j Hc%source_is_then.
    destruct (Hel _ _ _ _ Hc) as [Hno | [Hw | [[v Hv] [? | ?]]]].
    + left. intros Hk. apply Hno. eapply element_of_same; [|done].
      intros q src. apply source_is_then.
    + right. left. by eapply waiting_mono.
    + right. right. split; [|by left]. exists v. by eapply fulfilled_grows.
    + right. right. split; [|right; by eapply Ran_grows].
      exists v. by eapply fulfilled_grows.
Qed.

(** A step that leaves the queue, the reactions and the values alone. *)
Lemma Ordered_same X Y s s' :
  microtasks s' = microtasks s →
  length (promises s') = length (promises s) →
  (∀ p pr', promises s' !! p = Some pr' →
     ∃ pr, promises s !! p = Some pr ∧ source pr = source pr' ∧
           settled pr = settled pr' ∧ reactions pr = reactions pr' ∧
           ∀ j r, elements pr' !! j = Some (Some r) →
                  elements pr !! j = Some (Some r) ∨
                  ∀ c' t' ps i c t, source pr = PAll c' →
                    source_is s c' (PContestant t' ps i) →
                    source_is s c (PContestant t ps j) → Ran s c) →
  Forall (call_values s') (calls s') →
  Ordered' X Y s → Ordered' X Y s'.
Proof.
  intros Hq Hlen Hsame Hcalls HO.
  assert (∀ p src, source_is s' p src ↔ source_is s p src) as Htag.
  { intros p src. split.
    - intros (pr' & Hp' & <-). destruct (Hsame _ _ Hp') as (pr & Hp & Hsrc & _). by exists pr.
    - intros (pr & Hp & <-).
      destruct (lookup_lt_is_Some_2 (promises s') p) as [pr' Hp'].
      { rewrite Hlen. by eapply lookup_lt_Some. }
      destruct (Hsame _ _ Hp') as (pr0 & Hp0 & Hsrc & _).
      exists pr'. split; [done|]. congruence. }
  assert (∀ p v, fulfilled s' p v ↔ fulfilled s p v) as Hful.
  { intros p v. split.
    - intros (pr' & Hp' & Hs). destruct (Hsame _ _ Hp') as (pr & Hp & _ & Hset & _).
      exists pr. split; [done|]. congruence.
    - intros (pr & Hp & Hs).
      destruct (lookup_lt_is_Some_2 (promises s') p) as [pr' Hp'].
      { rewrite Hlen. by eapply lookup_lt_Some. }
      destruct (Hsame _ _ Hp') as (pr0 & Hp0 & _ & Hset & _).
      exists pr'. split; [done|]. congruence. }
  assert (∀ c, Ran s c → Ran s' c) as Hran.
  { intros c [[v Hv] | [pall Hpall]]; [left; exists v; by apply Hful|].
    right. exists pall. by apply Htag. }
  split.
  - intros pall c t ps i Hpall%Htag Hc%Htag.
    destruct (o_pall _ _ _ HO _ _ _ _ _ Hpall Hc) as (d & r & Hd & Hfd & Hr).
    exists d, r. split_and!; [done | by apply Hful | done].
  - intros c t ps i w Hc%Htag Hw%Hful.
    pose proof (o_won _ _ _ HO _ _ _ _ _ Hc Hw) as H. destruct w as [e | rs].
    + destruct H as (d & Hd & Hfd & He). exists d.
      split_and!; [done | by apply Hful | done].
    + destruct H as [pall Hpall]. exists pall. by apply Htag.
  - intros c t ps j d prd' Hc%Htag Hd.
    destruct (Hsame _ _ Hd) as (prd & Hd0 & _ & _ & <- & _).
    pose proof (o_reactions _ _ _ HO _ _ _ _ _ _ Hc Hd0) as Hpre.
    eapply precedes_mono; [| |exact Hpre]; [done|].
    intros k _. apply element_of_same. intros q src. apply Htag.
  - intros c t ps j Hc%Htag. rewrite Hq.
    destruct (o_queue _ _ _ HO _ _ _ _ Hc) as [? | [? | Hpre]]; [by auto..|].
    right. right. eapply precedes_mono; [| |exact Hpre]; [done|].
    intros jb _. apply element_job_same. intros q src. apply Htag.
  - intros pall pr' c' t' ps i j r c t Hpall Hsrc Hc'%Htag Hel Hc%Htag.
    apply Hran. destruct (Hsame _ _ Hpall) as (pr & Hp & Hsrc' & _ & _ & Hels).
    destruct (Hels _ _ Hel) as [Hel' | Hjust].
    + apply (o_slots _ _ _ HO pall pr c' t' ps i j r c t); [done | congruence | done..].
    + apply (Hjust c' t' ps i c t); [congruence | done..].
  - intros race t ps cs Hr%Htag (pr' & Hp' & Hs). rewrite Hq.
    destruct (Hsame _ _ Hp') as (pr & Hp & _ & Hset & _).
    apply (o_ahead _ _ _ HO _ _ _ _ Hr). exists pr. split; [done|]. congruence.
  - intros race t ps cs rs Hr%Htag Hw%Hful. by eapply (o_race _ _ _ HO).
  - done.
Qed.

(** A new promise of [Promise.all] or of a compute function. *)
Lemma Ordered_app_promise X Y pr0 s :
  Inv s → Ordered' X Y s →
  settled pr0 = None → reactions pr0 = [] →
  (∀ t ps i, source pr0 ≠ PContestant t ps i) →
  (∀ t ps cs, source pr0 ≠ PRace t ps cs) →
  (∀ c0, source pr0 = PAll c0 →
     (∀ j r, elements pr0 !! j ≠ Some (Some r)) ∧
     ∀ t ps i, source_is s c0 (PContestant t ps i) →
       ∃ d r, ps !! i = Some d ∧ fulfilled s d (JResult r) ∧ is_ok r = true) →
  Ordered' X Y (with_promises (λ l, l ++ [pr0]) s).
Proof.
  intros HI HO Hs0 Hk0 Hnc Hnr Hall.
  set (s' := with_promises (λ l, l ++ [pr0]) s).
  pose proof (grows_app_promise [pr0] s) as Hgr. fold s' in Hgr.
  assert (∀ p pr, promises s' !! p = Some pr →
    promises s !! p = Some pr ∨ (p = length (promises s) ∧ pr = pr0)) as Hlook.
  { intros p pr [Hp | [Hlen Hp]]%lookup_app_Some; [by left | right].
    apply list_lookup_singleton_Some in Hp as [Hp ->]. split; [lia | done]. }
  assert (∀ p src, source_is s' p src →
    source_is s p src ∨ (p = length (promises s) ∧ src = source pr0)) as Htag.
  { intros p src (pr & [Hp | [-> ->]]%Hlook & <-); [left; by exists pr | by right]. }
  assert (∀ c t ps i, source_is s' c (PContestant t ps i) →
    source_is s c (PContestant t ps i)) as Hcon.
  { intros c t ps i [? | [_ Hsrc]]%Htag; [done|]. by destruct (Hnc t ps i). }
  assert (∀ p v, fulfilled s' p v → fulfilled s p v) as Hful.
  { intros p v (pr & [Hp | [-> ->]]%Hlook & Hv); [by exists pr | congruence]. }
  assert (∀ p src, source_is s p src → p < length (promises s)) as Hlt.
  { intros p src (pr & Hp & _). by eapply lookup_lt_Some. }
  assert (∀ ps j k p pr, promises s !! p = Some pr → k ∈ reactions pr →
    element_of s' ps j k → element_of s ps j k) as Helr.
  { intros ps j k p pr Hp Hin (pall & c & t & i & -> & Hpall & Hc%Hcon).
    exists pall, c, t, i. split_and!; [done | | done].
    destruct (Htag _ _ Hpall) as [? | [-> _]]; [done|].
    destruct (inv_promises _ HI _ _ Hp) as (_ & Hks & _).
    rewrite Forall_forall in Hks. specialize (Hks _ Hin). simpl in Hks.
    destruct Hks as (? & ? & ? & ? & ?%Hlt & _). lia. }
  assert (∀ ps j jb, jb ∈ microtasks s →
    element_job s' ps j jb → element_job s ps j jb) as Helq.
  { intros ps j jb Hin (k & v & -> & (pall & c & t & i & -> & Hpall & Hc%Hcon)).
    exists (AllElement pall j), v. split; [done|].
    exists pall, c, t, i. split_and!; [done | | done].
    destruct (Htag _ _ Hpall) as [? | [-> _]]; [done|].
    pose proof (inv_jobs _ HI) as Hjobs. rewrite Forall_forall in Hjobs.
    destruct (Hjobs _ Hin) as (q & prq & _ & _ & Hk). simpl in Hk.
    destruct Hk as (? & ? & ? & ? & ?%Hlt & _). lia. }
  split.
  - intros pall c t ps i Hpall Hc%Hcon.
    assert (∃ d r, ps !! i = Some d ∧ fulfilled s d (JResult r) ∧ is_ok r = true)
      as (d & r & Hd & Hfd & Hr).
    { destruct (Htag _ _ Hpall) as [? | [_ Hsrc]].
      - by eapply (o_pall _ _ _ HO).
      - symmetry in Hsrc. destruct (Hall c Hsrc) as [_ H]. by eapply H. }
    exists d, r. split_and!; [done | by eapply fulfilled_grows | done].
  - intros c t ps i w Hc%Hcon Hw%Hful.
    pose proof (o_won _ _ _ HO _ _ _ _ _ Hc Hw) as H. destruct w as [e | rs].
    + destruct H as (d & Hd & Hfd & He). exists d.
      split_and!; [done | by eapply fulfilled_grows | done].
    + destruct H as [pall Hpall]. exists pall. by eapply source_is_grows.
  - intros c t ps j d prd Hc%Hcon [Hd | [-> ->]]%Hlook;
      [|rewrite Hk0; apply precedes_nil].
    pose proof (o_reactions _ _ _ HO _ _ _ _ _ _ Hc Hd) as Hpre.
    eapply precedes_mono; [| |exact Hpre]; [done|].
    intros k Hin. by apply (Helr _ _ _ d prd).
  - intros c t ps j Hc%Hcon.
    destruct (o_queue _ _ _ HO _ _ _ _ Hc) as [? | [? | Hpre]];
      [by left | right; left; by eapply Ran_grows | right; right].
    eapply precedes_mono; [| |exact Hpre]; [done|]. intros jb Hin. by apply Helq.
  - intros pall pr c' t' ps i j r c t Hpall Hsrc Hc'%Hcon Hel Hc%Hcon.
    eapply Ran_grows; [done|]. destruct (Hlook _ _ Hpall) as [Hp | [-> ->]].
    + by eapply (o_slots _ _ _ HO pall pr).
    + destruct (Hall c' Hsrc) as [Hno _]. by destruct (Hno j r).
  - intros race t ps cs Hr (pr & Hp & Hs).
    destruct (Htag _ _ Hr) as [Hr' | [_ Hsrc]]; [|by destruct (Hnr t ps cs)].
    apply (o_ahead _ _ _ HO _ _ _ _ Hr').
    destruct (Hlook _ _ Hp) as [Hp' | [-> ->]]; [by exists pr|].
    apply Hlt in Hr'. lia.
  - intros race t ps cs rs Hr Hw%Hful.
    destruct (Htag _ _ Hr) as [Hr' | [_ Hsrc]]; [|by destruct (Hnr t ps cs)].
    by eapply (o_race _ _ _ HO).
  - eapply Forall_impl; [by apply (o_calls _ _ _ HO)|].
    intros c. by apply call_values_grows.
Qed.

(** ** The built-ins *)

#[local] Transparent promise_all call_compute all_element.

(** [Promise.all(depPromises)] in the contestant [c0]. *)
Lemma Ordered_promise_all X Y c0 t0 ps i0 s :
  Inv s → Ordered' X Y s →
  source_is s c0 (PContestant t0 ps i0) →
  (∃ d r, ps !! i0 = Some d ∧ fulfilled s d (JResult r) ∧ is_ok r = true) →
  (∀ c t j d, source_is s c (PContestant t ps j) → ps !! j = Some d →
     waiting s (ContestantAwaitDep ps c) d ∨
     ((∃ v, fulfilled s d v) ∧ (X c ∨ Ran s c ∨ c = c0))) →
  Ordered' X Y (promise_all (PAll c0) ps s).2.
Proof.
  intros HI HO Hc0 Hok Hsib. unfold promise_all.
  set (pr0 := mkPromise _ _ _ _).
  set (s1 := with_promises (λ l, l ++ [pr0]) s).
  set (target := length (promises s)).
  pose proof (grows_app_promise [pr0] s) as Hgr. fold s1 in Hgr.
  assert (promises s1 !! target = Some pr0) as Hlook.
  { simpl. by rewrite lookup_app_r, Nat.sub_diag by done. }
  assert (ps ≠ []) as Hne.
  { destruct Hok as (d & _ & Hd & _). by intros ->. }
  assert (Ordered' X Y s1) as HO1.
  { apply Ordered_app_promise; [done | done | done | done | done | done |].
    intros c [= <-]. split.
    - intros j r [? _]%lookup_replicate. done.
    - intros t ps' i Hc.
      by assert (PContestant t ps' i = PContestant t0 ps i0) as [= -> -> ->]
        by eauto using source_is_fun. }
  simpl. destruct (decide (ps = [])) as [? | _]; [done|].
  apply (Ordered_fold_then X Y (λ ip : nat * nat, ip.2)
           (λ ip, AllElement target ip.1)); [done|].
  intros [j d] [j' Hjd]%list_elem_of_lookup.
  apply list_lookup_imap_Some in Hjd as (d' & Hd & [= <- <-]). simpl.
  split; [|intros race cs v (rs & _ & [? | (c & _ & ?)]); done].
  intros c t ps' j'' Hc.
  assert (source_is s c (PContestant t ps' j'')) as Hcs.
  { destruct Hc as (pr & [Hp | [_ Hp]]%lookup_app_Some & Hsrc); [by exists pr|].
    apply list_lookup_singleton_Some in Hp as [_ <-]. done. }
  destruct (decide (ps' = ps ∧ j'' = j)) as [[-> ->] | Hneq].
  - right. destruct (Hsib _ _ _ _ Hcs Hd) as [Hw | [[v Hv] Hran]].
    + left. by eapply waiting_mono.
    + right. split; [exists v; by eapply fulfilled_grows|].
      destruct Hran as [? | [? | ->]]; [by left | right; by eapply Ran_grows | right].
      right. exists target. by exists pr0.
  - left. intros (pall & c' & t' & i' & [= <- <-] & (pr & Hp & Hsrc) & Hc').
    assert (pr = pr0) as -> by congruence. simpl in Hsrc. injection Hsrc as <-.
    assert (PContestant t' ps' i' = PContestant t0 ps i0) as [= -> -> ->].
    { eapply source_is_fun; [done|]. by eapply source_is_grows. }
    by destruct Hneq.
Qed.

Lemma Ordered_record_call X Y t values s :
  Ordered' X Y s → call_values s (t, values) → Ordered' X Y (record_call t values s).
Proof.
  intros HO Hc. apply (Ordered_same X Y s); [done | done | | | done].
  - intros p pr Hp. exists pr. split_and!; [done..|]. intros j r ?. by left.
  - simpl. apply Forall_app. split; [apply (o_calls _ _ _ HO) | by constructor].
Qed.

(** [task.compute(values)] *)
Lemma Ordered_call_compute X Y t T values s :
  Inv s → Ordered' X Y s → call_values s (t, values) →
  Ordered' X Y (call_compute t T values s).2.
Proof.
  intros HI HO Hc. unfold call_compute.
  assert (Inv (record_call t values s)) as HI1.
  { apply Inv_record_call; [done|]. destruct Hc as (rs & ? & ? & _). by exists rs. }
  pose proof (Ordered_record_call X Y t values s HO Hc) as HO1.
  set (pr0 := {| settled := None; reactions := []; elements := [];
                 source := PCompute t (outcome (compute T values)) |}).
  assert (Ordered' X Y (with_promises (λ l, l ++ [pr0]) (record_call t values s)))
    as HO2 by by apply Ordered_app_promise.
  assert (promises (with_promises (λ l, l ++ [pr0]) (record_call t values s))
            !! length (promises s) = Some pr0) as Hp0.
  { simpl. by rewrite lookup_app_r, Nat.sub_diag by done. }
  cbv zeta. unfold new_promise. fold pr0.
  destruct (compute T values) as [r | r]; cbn [snd]; [|done].
  change (length (promises (record_call t values s))) with (length (promises s)).
  apply Ordered_resolve; [done | | |].
  - intros t' ps i w (pr & Hp & Hsrc). rewrite Hp0 in Hp. by injection Hp as <-.
  - intros t' ps cs rs (pr & Hp & Hsrc). rewrite Hp0 in Hp. by injection Hp as <-.
  - intros race t' ps cs pr k _ _ Hp Hin. rewrite Hp0 in Hp. injection Hp as <-.
    set_solver.
Qed.

#[local] Opaque promise_all call_compute all_element.

(** ** The order is kept by every job *)

#[local] Opaque promise_race promise_all call_compute all_element resolve then_.

Lemma Ordered_dequeue_plain s j :
  Ordered s → head (microtasks s) = Some j →
  (∀ ps c v, j ≠ ReactionJob (ContestantAwaitDep ps c) v) →
  (∀ race e, j ≠ ReactionJob (Forward race) (JWinner (WError e))) →
  Ordered (dequeued s).
Proof.
  intros HO Hj Hc Hr. eapply Ordered_weaken; [| |by apply Ordered_dequeue].
  - intros c (ps & v & ->). by destruct (Hc ps c v).
  - intros race (e & ->). by destruct (Hr race e).
Qed.

(** A value that is not a [success] with a failure inside is harmless. *)
Lemma not_bad_result race cs k r : ¬ bad_job race cs (ReactionJob k (JResult r)).
Proof. by intros (rs & _ & [? | (c & _ & ?)]). Qed.

Lemma not_bad_error race cs k e : ¬ bad_job race cs (ReactionJob k (JWinner (WError e))).
Proof. by intros (rs & _ & [? | (c & _ & ?)]). Qed.

(** Fulfilling a promise with the result of a task. *)
Lemma Ordered_resolve_result X Y p r s :
  Ordered' X Y s → Ordered' X Y (resolve p (JResult r) s).
Proof.
  intros HO. apply Ordered_resolve; [done | done | done |].
  intros race t ps cs pr k _ _ _ _ Hbad. by destruct (not_bad_result _ _ _ _ Hbad).
Qed.

(** The reaction of a contestant stays on its dependency until it has
    run. *)
Lemma sibling_waits s c t ps j d :
  Inv s → Live s → Ordered s →
  source_is s c (PContestant t ps j) → ps !! j = Some d →
  waiting s (ContestantAwaitDep ps c) d ∨ ((∃ v, fulfilled s d v) ∧ Ran s c).
Proof.
  intros HI HL HO Hc Hd.
  assert (∀ pall, source_is s pall (PAll c) → ∃ v, fulfilled s d v) as Hpall.
  { intros pall Hpall.
    destruct (o_pall _ _ _ HO _ _ _ _ _ Hpall Hc) as (d' & r & Hd' & Hful & _).
    exists (JResult r). congruence. }
  pose proof Hc as (pr & Hp & Hsrc).
  destruct (settled pr) as [v|] eqn:Hs.
  - right. assert (Ran s c) as Hran by (left; exists v; by exists pr). split; [|done].
    pose proof (Inv_fulfilled _ _ _ _ HI Hp Hs) as Hv. rewrite Hsrc in Hv.
    destruct Hv as (w & -> & _).
    assert (fulfilled s c (JWinner w)) as Hful by by exists pr.
    pose proof (o_won _ _ _ HO _ _ _ _ _ Hc Hful) as Hw. destruct w as [e | rs].
    + destruct Hw as (d' & Hd' & Hfd & _). exists (JResult e). congruence.
    + destruct Hw as [pall Hw]. by eapply Hpall.
  - pose proof (live_promises _ HL c pr Hp Hs) as Hal. rewrite Hsrc in Hal.
    destruct Hal as [(d' & Hd' & Hw) | (pall & Hw & _)].
    + left. congruence.
    + right. split; [by eapply Hpall | right; by exists pall].
Qed.

(** [const allResults = await Promise.all(depPromises)] *)
Lemma Ordered_all s t ps i self v d r :
  Inv s → Live s → Ordered s →
  head (microtasks s) = Some (ReactionJob (ContestantAwaitDep ps self) v) →
  source_is s self (PContestant t ps i) →
  ps !! i = Some d → fulfilled s d (JResult r) → is_ok r = true →
  let a := promise_all (PAll self) ps (dequeued s) in
  Ordered (then_ a.1 (ContestantAwaitAll self) a.2).
Proof.
  intros HI HL HO Hj Hself Hd Hful Hr.
  pose proof (Inv_dequeued _ _ HI Hj) as HI0.
  pose proof (Ordered_dequeue _ _ HO Hj) as HO0.
  destruct (promise_all_spec self t ps i (dequeued s) HI0 Hself) as (_ & _ & _ & Hsrc).
  destruct (Inv_contestant _ _ _ _ _ HI Hself) as [(T & HT & Hps) Hi].
  destruct (promise_all_live self ps (dequeued s))
    as (_ & _ & _ & _ & (pra & Hpa & Hsrca & _ & Hela & Hsla) & _).
  { apply Forall_forall. intros d' [j Hd']%list_elem_of_lookup.
    destruct (Forall2_lookup_r _ _ _ _ _ Hps Hd') as (u & _ & (? & ?%lookup_lt_Some & _)).
    done. }
  assert (Ordered' (λ c, ∃ ps0, awaits_dep ps0 c (ReactionJob (ContestantAwaitDep ps self) v))
            (λ race, forwards_error race (ReactionJob (ContestantAwaitDep ps self) v))
            (promise_all (PAll self) ps (dequeued s)).2) as HO1.
  { apply (Ordered_promise_all _ _ self t ps i); [done | done | done | by eauto |].
    intros c t' j d' Hc Hd'.
    destruct (sibling_waits s c t' ps j d' HI HL HO Hc Hd')
      as [(prd & Hpd & Hw) | [Hfd Hran]]; [|right; by auto].
    destruct (settled prd) as [v'|] eqn:Hs.
    - destruct (microtasks s) as [|j0 l] eqn:Hq; [done|]. injection Hj as ->.
      apply elem_of_cons in Hw as [[= <- <-] | Hw].
      + right. split; [exists v'; by exists prd | by auto].
      + left. exists prd. split; [done|]. rewrite Hs. simpl. by rewrite Hq.
    - left. exists prd. split; [done|]. by rewrite Hs. }
  cbn zeta. destruct (promise_all (PAll self) ps (dequeued s)) as [pall s1].
  cbn [fst snd] in *.
  eapply Ordered_close; [| |apply Ordered_then; [exact HO1| |]].
  - intros c t' ps' j (ps0 & v' & [= _ <-]) _. right. exists pall.
    by apply source_is_then.
  - intros race (e & ?). done.
  - intros c t' ps' j _. left. by intros (? & ? & ? & ? & ? & _).
  - intros race cs v' (pra' & Hpa' & Hsa) _.
    assert (pra' = pra) as -> by congruence.
    pose proof (Hsla self Hsrca) as Hsl. rewrite Hsa, Hela in Hsl.
    destruct Hsl as (rs & _ & Hrs).
    destruct ps as [|d0 ps]; [done|]. by destruct rs.
Qed.

(** [const result = await task.compute(depValues)] *)
Lemma Ordered_compute s t T self rs race ps cs :
  Inv s → Ordered s →
  head (microtasks s) = Some (ReactionJob (ExecAwaitRace t self) (JWinner (WSuccess rs))) →
  source_is s race (PRace t ps cs) → fulfilled s race (JWinner (WSuccess rs)) →
  tasks s !! t = Some T →
  let a := call_compute t T (value_of <$> rs) (dequeued s) in
  Ordered (then_ a.1 (ExecAwaitCompute t self) a.2).
Proof.
  intros HI HO Hj Hrace Hful HT.
  pose proof (Inv_dequeued _ _ HI Hj) as HI0.
  assert (Ordered (dequeued s)) as HO0 by by eapply Ordered_dequeue_plain.
  assert (call_values (dequeued s) (t, value_of <$> rs)) as Hcall.
  { exists rs. split_and!; [|done|by eapply (o_race _ _ _ HO)].
    destruct Hrace as (pr & Hp & Hsrc). destruct Hful as (pr' & Hp' & Hs).
    assert (pr' = pr) as -> by congruence.
    pose proof (Inv_fulfilled _ _ _ _ HI Hp Hs) as Hv. rewrite Hsrc in Hv.
    by destruct Hv as (w & [= <-] & Hw). }
  pose proof (Ordered_call_compute _ _ t T (value_of <$> rs) (dequeued s) HI0 HO0 Hcall)
    as HO1.
  cbn zeta. destruct (call_compute t T (value_of <$> rs) (dequeued s)) as [pc s1].
  cbn [fst snd] in *. apply Ordered_then; [done | |].
  - intros c t' ps' j _. left. by intros (? & ? & ? & ? & ? & _).
  - by intros race' cs' v _ (rs' & _ & [? | (c & _ & ?)]).
Qed.

(** The contestant answers [success]. *)
Lemma Ordered_won s self t ps i pall rs :
  Inv s → Ordered s →
  head (microtasks s) = Some (ReactionJob (ContestantAwaitAll self) (JResults rs)) →
  source_is s self (PContestant t ps i) → source_is s pall (PAll self) →
  Ordered (resolve self (JWinner (WSuccess rs)) (dequeued s)).
Proof.
  intros HI HO Hj Hself Hpall.
  assert (Ordered (dequeued s)) as HO0 by by eapply Ordered_dequeue_plain.
  apply Ordered_resolve; [done | | |].
  - intros t' ps' i' w _ _ [= <-]. by exists pall.
  - intros t' ps' cs rs' Hr. by assert (PRace t' ps' cs = PContestant t ps i)
      by eauto using source_is_fun.
  - intros race t' ps' cs pr k Hrace Hpend Hp Hin (rs' & Herr & [[= -> <-] | (c & _ & ?)]);
      [|done].
    destruct (inv_promises _ HI _ _ Hp) as (_ & Hks & _).
    rewrite Forall_forall in Hks. specialize (Hks _ Hin). simpl in Hks.
    rewrite (source_is_lookup _ _ _ _ Hself Hp) in Hks.
    destruct Hks as [(? & ? & _) | (u & ps0 & cs0 & i0 & [= <- <- <-] & Hrace' & Hi0)];
      [done|].
    assert (PRace t ps cs0 = PRace t' ps' cs) as [= <- <- <-]
      by eauto using source_is_fun.
    destruct (o_ahead _ _ _ HO _ _ _ _ Hrace Hpend) as [[] | Hpre].
    destruct (microtasks s) as [|j0 l]; [done|]. injection Hj as ->.
    destruct (precedes_head _ _ _ _ Hpre). exists rs. split; [done|]. right.
    exists self. split; [by eapply list_elem_of_lookup_2 | done].
Qed.

(** The race is decided. *)
Lemma Ordered_race s race t ps cs c i w :
  Inv s → Ordered s →
  head (microtasks s) = Some (ReactionJob (Forward race) (JWinner w)) →
  source_is s race (PRace t ps cs) → cs !! i = Some c →
  Ordered (resolve race (JWinner w) (dequeued s)).
Proof.
  intros HI HO Hj Hrace Hi.
  pose proof (Ordered_dequeue _ _ HO Hj) as HO0.
  eapply Ordered_close; [| |apply Ordered_resolve; [exact HO0| | |]].
  - by intros c' t' ps' j (ps0 & v & ?).
  - intros race' (e & [= -> _]). apply resolve_not_pending.
  - intros t' ps' i' w' Hr. by assert (PRace t ps cs = PContestant t' ps' i')
      by eauto using source_is_fun.
  - intros t' ps' cs' rs Hr Hpend [= ->].
    assert (PRace t' ps' cs' = PRace t ps cs) as [= -> -> ->]
      by eauto using source_is_fun.
    destruct (all_ok_or_err rs) as [? | Herr]; [done|].
    destruct (o_ahead _ _ _ HO _ _ _ _ Hrace Hpend) as [[] | Hpre].
    destruct (microtasks s) as [|j0 l]; [done|]. injection Hj as ->.
    destruct (precedes_head _ _ _ _ Hpre). exists rs. split; [done|]. by left.
  - intros race' t' ps' cs' pr k _ _ Hp Hin (rs & _ & [[= -> _] | (c' & _ & [= -> _])]).
    destruct (inv_promises _ HI _ _ Hp) as (_ & Hks & _).
    rewrite Forall_forall in Hks. specialize (Hks _ Hin). simpl in Hks.
    rewrite (source_is_lookup _ _ _ _ Hrace Hp) in Hks.
    by destruct Hks as [(? & ? & _) | (? & ? & ? & ? & ? & _)].
Qed.

(** The job that resolves the promise of [run] with [task._promise] *)
Lemma Ordered_thenable s target q t :
  Inv s → Ordered s →
  head (microtasks s) = Some (ResolveThenableJob target q) →
  source_is s q (PExec t) →
  Ordered (then_ q (Forward target) (dequeued s)).
Proof.
  intros HI HO Hj Hq.
  assert (Ordered (dequeued s)) as HO0 by by eapply Ordered_dequeue_plain.
  apply Ordered_then; [done | |].
  - intros c t' ps' j _. left. by intros (? & ? & ? & ? & ? & _).
  - intros race cs v (pr & Hp & Hs).
    pose proof (Inv_fulfilled _ _ _ _ HI Hp Hs) as Hv.
    rewrite (source_is_lookup _ _ _ _ Hq Hp) in Hv. destruct Hv as (r & -> & _).
    apply not_bad_result.
Qed.

#[local] Transparent all_element.

(** The resolve-element function of [Promise.all]: when it fills the
    last slot and a dependency has failed, the error is already on its
    way to the race. *)
Lemma Ordered_element s target index x c t ps i d :
  Inv s → Live s → Ordered s →
  head (microtasks s) = Some (ReactionJob (AllElement target index) (JResult x)) →
  source_is s target (PAll c) → source_is s c (PContestant t ps i) →
  ps !! index = Some d → fulfilled s d (JResult x) →
  Ordered (all_element target index x (dequeued s)).
Proof.
  intros HI HL HO Hj (pr & Hp & Hsrc) Hc Hd Hx.
  assert (Ordered (dequeued s)) as HO0 by by eapply Ordered_dequeue_plain.
  destruct (inv_promises _ HI _ _ Hp) as (Hso & Hks & _).
  rewrite Hsrc in Hso. simpl in Hso.
  destruct Hso as (t' & ps' & i' & Hc' & Hlen & Hels).
  assert (PContestant t' ps' i' = PContestant t ps i) as [= -> -> ->]
    by eauto using source_is_fun.
  unfold all_element. change (promises (dequeued s)) with (promises s). rewrite Hp.
  set (pr1 := mkPromise _ _ _ _).
  set (s1 := with_promises <[target := pr1]> (dequeued s)).
  assert (promises s1 !! target = Some pr1) as Hp1.
  { simpl. apply list_lookup_insert_eq. by eapply lookup_lt_Some. }
  (* every filled slot belongs to a dependency that has returned, and
     its contestant has run *)
  assert (∀ j r ck u, elements pr1 !! j = Some (Some r) →
    source_is s ck (PContestant u ps j) →
    Ran s ck ∧ ∃ dj, ps !! j = Some dj ∧ fulfilled s dj (JResult r)) as Hslot.
  { intros j r ck u Hel Hck. simpl in Hel.
    apply list_lookup_insert_Some in Hel as [(<- & [= <-] & _) | [Hne Hel]].
    - split; [|by eauto].
      destruct (o_queue _ _ _ HO _ _ _ _ Hck) as [[] | [? | Hpre]]; [done|].
      destruct (microtasks s) as [|j0 l]; [done|]. injection Hj as ->.
      destruct (precedes_head _ _ _ _ Hpre).
      exists (AllElement target index), (JResult x). split; [done|].
      exists target, c, t, i. split_and!; [done | by exists pr | done].
    - split; [|by apply Hels].
      by apply (o_slots _ _ _ HO target pr c t ps i j r ck u). }
  assert (∀ p pr', promises s1 !! p = Some pr' →
    ∃ pr0, promises s !! p = Some pr0 ∧ source pr0 = source pr' ∧
           settled pr0 = settled pr' ∧ reactions pr0 = reactions pr' ∧
           (p ≠ target → pr0 = pr')) as Hsame.
  { intros p pr' Hp'. simpl in Hp'.
    apply list_lookup_insert_Some in Hp' as [(<- & <- & _) | [? Hp']];
      [by exists pr | by exists pr']. }
  assert (Ordered s1) as HO1.
  { apply (Ordered_same _ _ (dequeued s)); [done | by apply length_insert | | | done].
    - intros p pr' Hp'. destruct (Hsame _ _ Hp') as (pr0 & Hp0 & ? & ? & ? & Heq).
      exists pr0. split_and!; [done..|]. intros j r Hel.
      destruct (decide (p = target)) as [->|Hne]; [|left; by rewrite Heq].
      assert (pr0 = pr) as -> by congruence.
      assert (pr' = pr1) as -> by congruence.
      right. intros c' u' ps' i' ck u Hsrc' Hc'' Hck.
      assert (c' = c) as -> by congruence.
      assert (PContestant u' ps' i' = PContestant t ps i) as [= -> -> ->]
        by eauto using source_is_fun.
      by apply (Hslot j r ck u).
    - eapply Forall_impl; [apply (o_calls _ _ _ HO0)|].
      intros c0. apply call_values_same; [done|].
      intros p v (pr0 & Hp0 & Hs0). destruct (decide (p = target)) as [->|Hne].
      + exists pr1. split; [done|]. simpl. change (promises (dequeued s)) with (promises s) in Hp0. congruence.
      + exists pr0. split; [|done]. simpl. by rewrite list_lookup_insert_ne. }
  destruct (mapM id _) as [rs|] eqn:Hrs; [|done].
  apply mapM_id_Some in Hrs. change (elements pr1 = Some <$> rs) in Hrs.
  apply Ordered_resolve; [done | done | done |].
  intros race u ps' cs pr' k Hrace Hpend Hp' Hin
    (rs' & Herr & [? | (c' & Hin' & [= -> <-])]); [done|].
  assert (pr' = pr1) as -> by congruence. simpl in Hin.
  (* the reaction is that of the contestant [c], which is in the race *)
  rewrite Forall_forall in Hks. specialize (Hks _ Hin). simpl in Hks.
  destruct Hks as (? & ? & ? & Hsrc' & _).
  assert (c' = c) as -> by congruence.
  assert (source_is s race (PRace u ps' cs)) as Hrace0.
  { destruct Hrace as (prr & Hpr & ?). destruct (Hsame _ _ Hpr) as (pr0 & ? & ? & _).
    exists pr0. split; [done | congruence]. }
  assert (pending s race) as Hpend0.
  { destruct Hpend as (prr & Hpr & ?). destruct (Hsame _ _ Hpr) as (pr0 & ? & ? & ? & _).
    exists pr0. split; [done | congruence]. }
  destruct (Inv_source _ _ _ HI Hrace0) as [els (_ & _ & Hlcs & Hcs)]. simpl in Hcs.
  apply list_elem_of_lookup in Hin' as [i0 Hi0].
  assert (PContestant u ps' i0 = PContestant t ps i) as [= -> -> ->]
    by eauto using source_is_fun.
  (* a failed dependency, and its contestant *)
  destruct (has_err_lookup _ Herr) as (j & r & Hj' & Hr).
  assert (elements pr1 !! j = Some (Some r)) as Hel.
  { rewrite Hrs, list_lookup_fmap, Hj'. done. }
  assert (j < length cs) as Hjlt.
  { rewrite Hlcs, <-Hlen. apply lookup_lt_Some in Hel. simpl in Hel.
    by rewrite length_insert in Hel. }
  destruct (lookup_lt_is_Some_2 cs j Hjlt) as [ck Hck].
  pose proof (Hcs _ _ Hck) as Hcktag.
  destruct (Hslot _ _ _ _ Hel Hcktag) as (Hran & dj & Hdj & Hfj).
  destruct (Ran_failed _ _ s ck t ps j dj r HI HO Hcktag Hdj Hfj Hr Hran) as [e He].
  (* the error it has answered is on its way *)
  destruct Hpend0 as (prr & Hpr & Hsr).
  pose proof (live_promises _ HL race prr Hpr Hsr) as Hal.
  rewrite (source_is_lookup _ _ _ _ Hrace0 Hpr) in Hal. simpl in Hal.
  destruct (Hal ck) as (prk & Hpk & Hw); [by eapply list_elem_of_lookup_2|].
  destruct He as (prk' & Hpk' & Hsk). assert (prk' = prk) as -> by congruence.
  rewrite Hsk in Hw.
  exists (ReactionJob (Forward race) (JWinner (WError e))). split; [|by exists e].
  simpl. destruct (microtasks s) as [|j0 l]; [done|]. injection Hj as ->.
  by apply elem_of_cons in Hw as [? | ?].
Qed.

#[local] Opaque all_element.

Lemma Ordered_grows_tasks X Y s s' :
  grows s s' → promises s' = promises s → microtasks s' = microtasks s →
  calls s' = calls s → Ordered' X Y s → Ordered' X Y s'.
Proof.
  intros Hgr Hp Hq Hc HO. apply (Ordered_same _ _ s); [done | by rewrite Hp | | | done].
  - intros p pr Hpr. rewrite Hp in Hpr. exists pr. split_and!; [done..|].
    intros j r ?. by left.
  - rewrite Hc. eapply Forall_impl; [apply (o_calls _ _ _ HO)|].
    intros c. by apply call_values_grows.
Qed.

Lemma Ordered_run_reaction k v s p pr :
  Inv s → Live s → Ordered s → head (microtasks s) = Some (ReactionJob k v) →
  promises s !! p = Some pr → settled pr = Some v →
  reaction_ok s p (source pr) k →
  Ordered (run_reaction k v (dequeued s)).
Proof.
  intros HI HL HO Hj Hp Hs Hk. pose proof (Inv_fulfilled _ _ _ _ HI Hp Hs) as Hv.
  assert (fulfilled s p v) as Hful by by exists pr.
  pose proof (Ordered_dequeue _ _ HO Hj) as HO0.
  destruct k as [t self | t self | depPromises self | self | t self | t self
                | target | target index]; simpl in Hk.
  - (* RunAwait *)
    destruct Hk as (Hsrc & Hself & Hq). rewrite Hsrc in Hv.
    destruct Hv as (r & -> & Hr). simpl.
    apply Ordered_resolve_result.
    apply (Ordered_grows_tasks _ _ (dequeued s)); [|done..|].
    + apply grows_set_result. intros r' (T & HT' & Hr')%bind_Some.
      destruct (inv_tasks _ HI _ _ HT') as [_ Hex]. apply (executed_fun s t); [by apply Hex|].
      exists p. split; [done|]. by exists pr.
    + by eapply Ordered_dequeue_plain.
  - (* ExecAwaitLeaf *)
    destruct Hk as (r & Hsrc & Hself). rewrite Hsrc in Hv. simpl in *. subst v.
    apply Ordered_resolve_result. by eapply Ordered_dequeue_plain.
  - (* ContestantAwaitDep *)
    destruct Hk as (t & i & Hself & Hi).
    destruct (Inv_contestant _ _ _ _ _ HI Hself) as [Hdp _].
    destruct (dep_promise_value _ _ _ _ _ _ HI Hdp Hi Hful)
      as (T & d & r & HT & Hd & _ & -> & Hr). simpl.
    destruct (is_ok r) eqn:Hok.
    + pose proof (Ordered_all s t depPromises i self (JResult r) p r
                    HI HL HO Hj Hself Hi Hful Hok) as H.
      cbn zeta in H. by destruct (promise_all (PAll self) depPromises (dequeued s)).
    + eapply Ordered_close; [| |apply Ordered_resolve; [exact HO0| | |]].
      * intros c t' ps' j (ps0 & v' & [= _ <- _]) _. left.
        destruct Hself as (prs & Hps & _).
        destruct (settled prs) as [w|] eqn:Hw.
        -- exists w. eapply fulfilled_grows; [apply grows_resolve|]. by exists prs.
        -- eexists. apply resolve_fulfilled. by exists prs.
      * by intros race (e & ?).
      * intros t' ps' i' w Hself' _ [= <-].
        assert (PContestant t' ps' i' = PContestant t depPromises i) as [= -> -> ->]
          by eauto using source_is_fun.
        by exists p.
      * by intros t' ps' cs rs _ _ ?.
      * intros race t' ps' cs pr' k _ _ _ _ Hbad. by destruct (not_bad_error _ _ _ _ Hbad).
  - (* ContestantAwaitAll *)
    destruct Hk as (t & ps & i & Hsrc & Hself). rewrite Hsrc in Hv.
    destruct Hv as (rs & t' & ps' & i' & -> & Hself' & Hrs). simpl.
    apply (Ordered_won s self t ps i p); [done..|]. by exists pr.
  - (* ExecAwaitRace *)
    destruct Hk as (ps & cs & Hsrc & Hself). rewrite Hsrc in Hv.
    destruct Hv as (w & -> & Hw). simpl. destruct w as [r | rs]; simpl in Hw.
    + apply Ordered_resolve_result. by eapply Ordered_dequeue_plain.
    + destruct Hw as (T & HT & Hrs).
      change (tasks (dequeued s)) with (tasks s). rewrite HT.
      pose proof (Ordered_compute s t T self rs p ps cs HI HO Hj) as H.
      cbn zeta in H.
      destruct (call_compute t T (value_of <$> rs) (dequeued s)).
      apply H; [by exists pr | done | done].
  - (* ExecAwaitCompute *)
    destruct Hk as (r & Hsrc & Hself). rewrite Hsrc in Hv. simpl in *. subst v.
    apply Ordered_resolve_result. by eapply Ordered_dequeue_plain.
  - (* Forward *)
    destruct Hk as [(t & Hsrc & Htarget & Hq)
                   | (t & ps & cs & i & Hsrc & Htarget & Hi)]; simpl.
    + rewrite Hsrc in Hv. destruct Hv as (r & -> & Hr).
      apply Ordered_resolve_result. by eapply Ordered_dequeue_plain.
    + rewrite Hsrc in Hv. destruct Hv as (w & -> & Hw).
      by apply (Ordered_race s target t ps cs p i).
  - (* AllElement *)
    destruct Hk as (c & t & ps & i & Htarget & Hc & Hd).
    destruct (Inv_contestant _ _ _ _ _ HI Hc) as [Hdp _].
    destruct (dep_promise_value _ _ _ _ _ _ HI Hdp Hd Hful)
      as (T & d & r & HT & Hd' & _ & -> & Hr). simpl.
    by eapply Ordered_element.
Qed.

Lemma Ordered_settle s p pr r t :
  Ordered s → promises s !! p = Some pr → source pr = PCompute t r →
  Ordered (resolve p (JResult r) s).
Proof. intros HO _ _. by apply Ordered_resolve_result. Qed.

Lemma Ordered_create_task l ds c s :
  Ordered s → Ordered (with_tasks (λ h, (task l ds c h).2) s).
Proof.
  intros HO. apply (Ordered_grows_tasks _ _ s); [|done..].
  apply grows_with_tasks. intros t T HT. exists T. simpl.
  split; [by apply lookup_app_l_Some | by split].
Qed.

Lemma Ordered_init : Ordered init.
Proof.
  split; try by (intros; repeat match goal with H : source_is init _ _ |- _ =>
                                  destruct H as (? & ? & _) end).
Qed.

(** ** The order is kept by a call of [run] *)

#[local] Transparent promise_race call_compute resolve then_.

Lemma calls_resolve p v s : calls (resolve p v s) = calls s.
Proof.
  unfold resolve. destruct (promises s !! p) as [pr|]; [|done]. by destruct (settled pr).
Qed.

Lemma calls_then p k s : calls (then_ p k s) = calls s.
Proof.
  unfold then_. destruct (promises s !! p) as [pr|]; [|done]. by destruct (settled pr).
Qed.

Lemma calls_fold_then {A} (f : A → pid) (g : A → reaction) l : ∀ s,
  calls (foldl (λ s x, then_ (f x) (g x) s) s l) = calls s.
Proof. induction l as [|x l IH]; intros s; simpl; [done|]. by rewrite IH, calls_then. Qed.

Lemma calls_contestants t ps : ∀ rest i s,
  calls (contestants t ps i rest s).2 = calls s.
Proof.
  induction rest as [|d rest IH]; intros i s; simpl; [done|].
  specialize (IH (S i) (then_ d (ContestantAwaitDep ps (length (promises s)))
                          (new_promise (PContestant t ps i) s).2)).
  destruct (contestants _ _ _ _ _) as [cs s']. simpl in *. by rewrite IH, calls_then.
Qed.

Lemma calls_promise_race src cs s : calls (promise_race src cs s).2 = calls s.
Proof.
  unfold promise_race. simpl.
  by rewrite (calls_fold_then id (λ _, Forward (length (promises s)))).
Qed.

Lemma calls_call_compute t T values s :
  calls (call_compute t T values s).2 = calls s ++ [(t, values)].
Proof.
  unfold call_compute. cbv zeta. unfold new_promise.
  destruct (compute T values); cbn [snd]; [by rewrite calls_resolve | done].
Qed.

#[local] Opaque promise_race call_compute resolve then_.

(** The compute functions called before [run] returns are those of
    tasks without dependencies. *)
Section LeafCalls.
Context (run_f : ref → state → option (pid * state)).
Context (Hleaf : ∀ t s p s', run_f t s = Some (p, s') →
                   ∀ c, c ∈ calls s' → c ∈ calls s ∨ c.2 = []).

Lemma run_deps_leaf ds : ∀ s ps s',
  run_deps run_f ds s = Some (ps, s') → ∀ c, c ∈ calls s' → c ∈ calls s ∨ c.2 = [].
Proof.
  induction ds as [|d ds IH]; intros s ps s'; simpl; [by intros [= <- <-]; auto|].
  destruct (run_f d s) as [[p s1]|] eqn:Hr; [|done]. simpl.
  destruct (run_deps run_f ds s1) as [[ps1 s2]|] eqn:Hrd; [|done]. simpl.
  intros [= <- <-] c Hc. destruct (IH _ _ _ Hrd c Hc) as [Hc1 | ?]; [|by right].
  by eapply Hleaf.
Qed.

Lemma executeTask_leaf t s p s' :
  executeTask run_f t s = Some (p, s') → ∀ c, c ∈ calls s' → c ∈ calls s ∨ c.2 = [].
Proof.
  unfold executeTask. destruct (tasks s !! t) as [T|]; [|done]. simpl.
  set (s1 := with_promises _ s).
  destruct (deps T) as [|d0 ds0] eqn:Hdeps.
  - pose proof (calls_call_compute t T [] s1) as Hcc.
    destruct (call_compute t T [] s1) as [pc s2]. simpl in Hcc.
    intros [= <- <-] c. rewrite calls_then, Hcc.
    intros [? | ->%list_elem_of_singleton]%elem_of_app; [by left | by right].
  - rewrite <-Hdeps. destruct (cached_error _ _).
    + intros [= <- <-] c. rewrite calls_resolve. by left.
    + destruct (run_deps run_f (deps T) s1) as [[depPromises s2]|] eqn:Hrd; [|done].
      cbn -[promise_race call_compute contestants].
      pose proof (calls_contestants t depPromises depPromises 0 s2) as Hc3.
      destruct (contestants t depPromises 0 depPromises s2) as [cs s3].
      pose proof (calls_promise_race (PRace t depPromises cs) cs s3) as Hc4.
      destruct (promise_race (PRace t depPromises cs) cs s3) as [race s4].
      simpl in *. intros [= <- <-] c. rewrite calls_then, Hc4, Hc3.
      intros Hc. by apply (run_deps_leaf _ _ _ _ Hrd).
Qed.
End LeafCalls.

Lemma run_leaf fuel : ∀ t s p s',
  run fuel t s = Some (p, s') → ∀ c, c ∈ calls s' → c ∈ calls s ∨ c.2 = [].
Proof.
  induction fuel as [|fuel IH]; intros t s p s'; simpl; [done|].
  destruct (tasks s !! t) as [T|]; [|done]. simpl.
  set (s1 := with_promises _ s).
  destruct (_result T); [intros [= <- <-] c; rewrite calls_resolve; by left|].
  destruct (_promise T); [intros [= <- <-] c; by left|].
  destruct (executeTask (run fuel) t s1) as [[q s2]|] eqn:Hex; [|done]. simpl.
  intros [= <- <-] c. rewrite calls_then. simpl.
  by apply (executeTask_leaf _ IH _ _ _ _ Hex).
Qed.

Lemma Ordered_run fuel t s p s' :
  Inv s → Ordered s → run fuel t s = Some (p, s') → Ordered s'.
Proof.
  intros HI HO Hr.
  destruct (run_sync_spec _ _ _ _ _ HI Hr) as (-> & Hgr & Hsy & Hnews).
  destruct (run_spec fuel _ _ _ _ HI Hr) as (HI' & _).
  set (n := length (promises s)) in *.
  destruct (sync_queue _ _ _ Hsy) as (js & Hq & Hjs).
  assert (∀ q src, q < n → source_is s' q src → source_is s q src) as Hold.
  { intros q src Hlt (pr & Hp & Hsrc). rewrite (sync_old _ _ _ Hsy) in Hp by done.
    by exists pr. }
  assert (∀ q src, source_is s q src → q < n) as Hlt.
  { intros q src (pr & Hp & _). by eapply lookup_lt_Some. }
  assert (∀ q v, fulfilled s' q v → q < n → fulfilled s q v) as Hfold.
  { intros q v (pr & Hp & Hs) Hq'. rewrite (sync_old _ _ _ Hsy) in Hp by done.
    by exists pr. }
  (* the promises of [Promise.all] and their contestants are old *)
  assert (∀ pall c, source_is s' pall (PAll c) → source_is s pall (PAll c)) as Hpall.
  { intros pall c Hpall. destruct (decide (pall < n)) as [?|Hge]; [by apply Hold|].
    destruct Hpall as (pr & Hp & Hsrc).
    destruct (Hnews pall pr Hp ltac:(lia) ltac:(set_solver)) as [_ Hns].
    unfold new_source in Hns. by rewrite Hsrc in Hns. }
  assert (∀ pall c t' ps i, source_is s' pall (PAll c) →
    source_is s' c (PContestant t' ps i) →
    source_is s c (PContestant t' ps i) ∧ Forall (λ d, d < n) ps) as Hcon.
  { intros pall c t' ps i Hp%Hpall Hc.
    destruct (Inv_source _ _ _ HI Hp) as [els (t0 & ps0 & i0 & Hc0 & _)].
    assert (source_is s c (PContestant t' ps i)) as Hc' by (apply Hold; eauto).
    split; [done|]. destruct (Inv_contestant _ _ _ _ _ HI Hc') as [(T & _ & Hps) _].
    apply Forall_forall. intros d [j Hd]%list_elem_of_lookup.
    destruct (Forall2_lookup_r _ _ _ _ _ Hps Hd) as (u & _ & ?). eauto. }
  assert (∀ ps j k, element_of s' ps j k →
    element_of s ps j k ∧ Forall (λ d, d < n) ps) as Hel.
  { intros ps j k (pall & c & t' & i & -> & Hp & Hc).
    destruct (Hcon _ _ _ _ _ Hp Hc) as [Hc' Hps]. split; [|done].
    exists pall, c, t', i. auto. }
  (* a contestant with these dependencies is old *)
  assert (∀ c t' ps j, source_is s' c (PContestant t' ps j) →
    Forall (λ d, d < n) ps → source_is s c (PContestant t' ps j)) as Hcold.
  { intros c t' ps j Hc Hps. destruct (decide (c < n)) as [?|Hge]; [by apply Hold|].
    destruct Hc as (pr & Hp & Hsrc).
    destruct (Hnews c pr Hp ltac:(lia) ltac:(set_solver)) as [_ Hns].
    unfold new_source in Hns. rewrite Hsrc in Hns. destruct Hns as (_ & d & Hd & Hdn).
    rewrite Forall_forall in Hps. apply list_elem_of_lookup_2, Hps in Hd. lia. }
  assert (∀ c, Ran s c → Ran s' c) as Hran by (intros c; by apply Ran_grows).
  split.
  - intros pall c t' ps i Hp Hc. destruct (Hcon _ _ _ _ _ Hp Hc) as [Hc' _].
    destruct (o_pall _ _ _ HO _ _ _ _ _ (Hpall _ _ Hp) Hc') as (d & r & Hd & Hful & Hok).
    exists d, r. split_and!; [done | by eapply fulfilled_grows | done].
  - intros c t' ps i w Hc Hw.
    assert (c < n) as Hcn.
    { destruct (decide (c < n)) as [?|Hge]; [done|].
      destruct Hc as (pr & Hp & Hsrc). destruct Hw as (pr' & Hp' & Hs).
      assert (pr' = pr) as -> by congruence.
      destruct (Hnews c pr Hp ltac:(lia) ltac:(set_solver)) as [_ Hns].
      unfold new_source in Hns. rewrite Hsrc in Hns. destruct Hns as [? _]. congruence. }
    pose proof (o_won _ _ _ HO _ _ _ _ _ (Hold _ _ Hcn Hc) (Hfold _ _ Hw Hcn)) as H.
    destruct w as [e | rs].
    + destruct H as (d & Hd & Hfd & He). exists d.
      split_and!; [done | by eapply fulfilled_grows | done].
    + destruct H as [pall H]. exists pall. by eapply source_is_grows.
  - intros c t' ps j d prd Hc Hd.
    destruct (decide (d < n)) as [Hdn|Hdn].
    + rewrite (sync_old _ _ _ Hsy) in Hd by done.
      destruct (decide (Forall (λ d, d < n) ps)) as [Hps|Hps].
      * pose proof (o_reactions _ _ _ HO _ _ _ _ _ _ (Hcold _ _ _ _ Hc Hps) Hd) as Hpre.
        eapply precedes_mono; [| |exact Hpre]; [done|].
        intros k _ Hk. by apply Hel.
      * apply precedes_free, Forall_forall. intros k _ Hk. by apply Hel in Hk as [_ ?].
    + apply precedes_free, Forall_forall.
      intros k Hin (pall & c' & t0 & i & -> & Hp & Hc').
      destruct (inv_promises _ HI' _ _ Hd) as (_ & Hks & _).
      rewrite Forall_forall in Hks. specialize (Hks _ Hin). simpl in Hks.
      destruct Hks as (c3 & t3 & ps3 & i3 & Hp3 & Hc3 & Hd3).
      destruct (Hcon _ _ _ _ _ Hp3 Hc3) as [_ Hps3].
      rewrite Forall_forall in Hps3. apply list_elem_of_lookup_2, Hps3 in Hd3. lia.
  - intros c t' ps j Hc. rewrite Hq.
    destruct (decide (Forall (λ d, d < n) ps)) as [Hps|Hps].
    + destruct (o_queue _ _ _ HO _ _ _ _ (Hcold _ _ _ _ Hc Hps)) as [[] | [? | Hpre]];
        [by auto|].
      right. right. apply precedes_app_free.
      * eapply precedes_mono; [| |exact Hpre]; [done|].
        intros jb _ (k & v & -> & Hk). exists k, v. split; [done|]. by apply Hel.
      * eapply Forall_impl; [exact Hjs|].
        intros jb Hjb (k & v & -> & (? & ? & ? & ? & -> & _)). done.
    + right. right. apply precedes_free, Forall_forall.
      intros jb _ (k & v & -> & Hk). by apply Hel in Hk as [_ ?].
  - intros pall pr c' t' ps i j r c t0 Hp Hsrc Hc' Hel' Hc.
    assert (source_is s' pall (PAll c')) as Hptag by by exists pr.
    destruct (Hcon _ _ _ _ _ Hptag Hc') as [Hc'' Hps].
    apply Hran. pose proof (Hpall _ _ Hptag) as Hptag'.
    rewrite (sync_old _ _ _ Hsy) in Hp by eauto.
    apply (o_slots _ _ _ HO pall pr c' t' ps i j r c t0); auto.
  - intros race t' ps cs Hrace Hpend. right. rewrite Hq.
    destruct (decide (race < n)) as [Hrn|Hrn].
    + destruct (o_ahead _ _ _ HO race t' ps cs) as [[] | Hpre]; [by apply Hold | |].
      { destruct Hpend as (pr & Hp & Hs). rewrite (sync_old _ _ _ Hsy) in Hp by done.
        by exists pr. }
      apply precedes_app_free; [done|].
      eapply Forall_impl; [exact Hjs|].
      by intros jb Hjb (rs & _ & [-> | (c & _ & ->)]).
    + apply precedes_free, Forall_forall.
      intros jb [Hin | Hin]%elem_of_app (rs & _ & [-> | (c & Hc & ->)]).
      * pose proof (inv_jobs _ HI) as Hjobs. rewrite Forall_forall in Hjobs.
        destruct (Hjobs _ Hin) as (q & prq & _ & _ & Hk). simpl in Hk.
        destruct Hk as [(? & _ & ?%Hlt & _) | (? & ? & ? & ? & _ & ?%Hlt & _)]; lia.
      * pose proof (inv_jobs _ HI) as Hjobs. rewrite Forall_forall in Hjobs.
        destruct (Hjobs _ Hin) as (q & prq & _ & _ & Hk). simpl in Hk.
        destruct Hk as (? & ? & ? & _ & ?%Hlt).
        destruct Hrace as (pr & Hp & Hsrc).
        destruct (Hnews race pr Hp ltac:(lia) ltac:(set_solver)) as [_ Hns].
        unfold new_source in Hns. rewrite Hsrc in Hns. destruct Hns as [_ Hcs].
        specialize (Hcs _ Hc). lia.
      * rewrite Forall_forall in Hjs. by apply Hjs in Hin.
      * rewrite Forall_forall in Hjs. by apply Hjs in Hin.
  - intros race t' ps cs rs Hrace Hw.
    assert (race < n) as Hrn.
    { destruct (decide (race < n)) as [?|Hge]; [done|].
      destruct Hrace as (pr & Hp & Hsrc). destruct Hw as (pr' & Hp' & Hs).
      assert (pr' = pr) as -> by congruence.
      destruct (Hnews race pr Hp ltac:(lia) ltac:(set_solver)) as [_ Hns].
      unfold new_source in Hns. rewrite Hsrc in Hns. destruct Hns as [? _]. congruence. }
    eapply (o_race _ _ _ HO); eauto.
  - apply Forall_forall. intros c Hc.
    destruct (run_leaf _ _ _ _ _ Hr c Hc) as [Hc' | Hnil].
    + pose proof (o_calls _ _ _ HO) as Hcalls. rewrite Forall_forall in Hcalls.
      eapply call_values_grows; [done|]. by apply Hcalls.
    + pose proof (inv_calls _ HI') as Hcalls. rewrite Forall_forall in Hcalls.
      destruct (Hcalls _ Hc) as (rs & Hrs & Heq). exists rs. split_and!; [done..|].
      rewrite Hnil in Heq. symmetry in Heq. apply fmap_nil_inv in Heq as ->.
      constructor.
Qed.

Lemma Ordered_exec a s s' : Inv s → Live s → Ordered s → exec a s = Some s' → Ordered s'.
Proof.
  intros HI HL HO. destruct a as [l ds c | t | p |]; unfold exec.
  - case_decide; [|done]. intros [= <-]. by apply Ordered_create_task.
  - intros ([q s1] & Hr & ->)%fmap_Some. by eapply Ordered_run.
  - intros (pr & Hp & Hs)%bind_Some.
    destruct (source pr) eqn:Hsrc; try done.
    destruct (settled pr) eqn:Hset; [done|]. injection Hs as <-.
    by eapply Ordered_settle.
  - destruct (microtasks s) as [|j q] eqn:Hq; [done|]. intros [= <-].
    assert (head (microtasks s) = Some j) as Hj by by rewrite Hq.
    destruct (Inv_dequeue _ _ _ HI Hq) as [_ Hjob].
    change (mkState (tasks s) (promises s) q (calls s))
      with (mkState (tasks s) (promises s) (tail (j :: q)) (calls s)).
    rewrite <-Hq. change (Ordered (run_job j (dequeued s))).
    destruct j as [k v | target thenable]; simpl in *.
    + destruct Hjob as (p & pr & ? & ? & ?). by eapply Ordered_run_reaction.
    + destruct Hjob as (t & Htarget & Hthen).
      apply (Ordered_thenable s target thenable t); [done..|].
      unfold promise_of in Hthen. apply bind_Some in Hthen as (T & HT & Hthen).
      by apply (inv_tasks _ HI _ _ HT).
Qed.

Lemma reachable_Ordered s : reachable s → Ordered s.
Proof.
  induction 1 as [|s a s' Hreach IH Hexec]; [apply Ordered_init|].
  eapply Ordered_exec; [by apply reachable_Inv | by apply reachable_Live | done | done].
Qed.

(** The compute function of a task is called only after all its
    dependencies have succeeded, with their values in declaration order. *)
Lemma reachable_call_values s t values :
  reachable s → (t, values) ∈ calls s → call_values s (t, values).
Proof.
  intros Hreach Hc. pose proof (o_calls _ _ _ (reachable_Ordered _ Hreach)) as Hcalls.
  rewrite Forall_forall in Hcalls. by apply Hcalls.
Qed.

(** * From the invariants to the behaviour of [run] *)

#[local] Opaque promise_race promise_all call_compute all_element.
#[local] Transparent resolve then_.

(** ** Scripts *)

Lemma exec_all_cons a l s : exec_all (a :: l) s = exec a s ≫= exec_all l.
Proof.
  unfold exec_all. simpl. destruct (exec a s) as [s'|]; [done|]. simpl.
  induction l as [|b l IH]; [done|]. done.
Qed.

Lemma exec_all_app l1 l2 s : exec_all (l1 ++ l2) s = exec_all l1 s ≫= exec_all l2.
Proof.
  revert s. induction l1 as [|a l1 IH]; intros s; [done|].
  rewrite <-app_comm_cons, !exec_all_cons. destruct (exec a s) as [s'|]; [|done].
  simpl. apply IH.
Qed.

Lemma exec_all_steps l : ∀ s s', exec_all l s = Some s' → steps s s'.
Proof.
  induction l as [|a l IH]; intros s s'.
  - intros [= <-]. constructor.
  - rewrite exec_all_cons. intros (s1 & Ha & Hl)%bind_Some.
    econstructor; [done|]. by apply IH.
Qed.

Lemma exec_all_reachable l s s' : reachable s → exec_all l s = Some s' → reachable s'.
Proof. intros Hs Hl. eapply steps_reachable; [done|]. by eapply exec_all_steps. Qed.

Lemma after_reachable l s : exec_all l init = Some s → reachable (after l).
Proof.
  intros Hl. unfold after. rewrite Hl. simpl.
  eapply exec_all_reachable; [constructor | done].
Qed.

(** ** Counting *)

Lemma ncalls_zero t s : (∀ values, (t, values) ∉ calls s) → ncalls t s = 0.
Proof.
  intros Hno. unfold ncalls. destruct (filter _ _) as [|[u values] l] eqn:Hf; [done|].
  assert ((u, values) ∈ filter (λ c : nat * list val, c.1 = t) (calls s)) as Hin
    by (rewrite Hf; by left).
  apply list_elem_of_filter in Hin as [Hu Hin]. simpl in Hu. subst u.
  by destruct (Hno values).
Qed.

Lemma ncalls_pos t values s : (t, values) ∈ calls s → 1 ≤ ncalls t s.
Proof.
  intros Hin. unfold ncalls.
  assert ((t, values) ∈ filter (λ c : nat * list val, c.1 = t) (calls s)) as Hf
    by by apply list_elem_of_filter.
  destruct (filter _ _); [by apply elem_of_nil in Hf | simpl; lia].
Qed.

(** ** Where a result comes from *)



(** The compute function of a node is never called once a dependency
    has failed. *)
Lemma failed_dep_no_call s t T d r :
  reachable s → tasks s !! t = Some T → d ∈ deps T →
  executed s d r → is_ok r = false → ncalls t s = 0.
Proof.
  intros Hreach HT Hd Hex Hr. apply ncalls_zero. intros values Hc.
  destruct (reachable_call_values _ _ _ Hreach Hc) as (rs & (T' & HT' & Hrs) & _ & Hok).
  simpl in HT'. assert (T' = T) as -> by congruence.
  apply list_elem_of_lookup in Hd as [i Hi].
  destruct (Forall2_lookup_l _ _ _ _ _ Hrs Hi) as (r1 & Hr1 & Hex1).
  unfold all_ok in Hok. rewrite Forall_forall in Hok.
  apply list_elem_of_lookup_2, Hok in Hr1.
  rewrite (executed_fun _ _ _ _ Hex1 Hex) in Hr1. congruence.
Qed.

(** ** What a promise of [run] delivers *)

Lemma run_value s p t r :
  reachable s → source_is s p (PRun t) → executed s t r →
  (∀ v, fulfilled s p v → v = JResult r) ∧
  (quiescent s → fulfilled s p (JResult r)).
Proof.
  intros Hreach Hp Hex. pose proof (reachable_Inv _ Hreach) as HI.
  assert (∀ v, fulfilled s p v → v = JResult r) as Hval.
  { intros v Hv. destruct (Inv_run_value _ _ _ _ HI Hp Hv) as (r' & -> & Hex').
    f_equal. by eapply executed_fun. }
  split; [done|]. intros Hq.
  destruct (quiescent_fulfilled s HI (reachable_Live _ Hreach) Hq p) as [v Hv].
  { destruct Hp as (pr & Hp & _). by eapply lookup_lt_Some. }
  by rewrite <-(Hval v Hv).
Qed.

Lemma run_value_later s s' p t r :
  reachable s → source_is s p (PRun t) → executed s t r → steps s s' →
  (∀ v, fulfilled s' p v → v = JResult r) ∧
  (quiescent s' → fulfilled s' p (JResult r)).
Proof.
  intros Hreach Hp Hex Hsteps.
  pose proof (steps_extends _ _ Hreach Hsteps) as Hext.
  apply (run_value s' p t r); [by eapply steps_reachable | |].
  - by eapply source_is_mono.
  - by eapply executed_mono.
Qed.

(** ** The two fast paths of [run] *)

(** The cache fast path: the promise is fulfilled when [run] returns,
    and nothing else changes. *)
Lemma run_cached s t r :
  result_of s t = Some r →
  ∃ s', exec (CallRun t) s = Some s' ∧
        source_is s' (length (promises s)) (PRun t) ∧
        fulfilled s' (length (promises s)) (JResult r) ∧
        calls s' = calls s ∧ tasks s' = tasks s ∧ microtasks s' = microtasks s ∧
        length (promises s') = S (length (promises s)).
Proof.
  intros (T & HT & Hr)%bind_Some.
  exists (resolve (length (promises s)) (JResult r) (new_promise (PRun t) s).2).
  assert (pending (new_promise (PRun t) s).2 (length (promises s))) as Hpend.
  { eexists. split; [apply new_promise_lookup | done]. }
  split_and!.
  - simpl. rewrite HT. simpl. by rewrite Hr.
  - apply source_is_resolve, new_promise_source.
  - by apply resolve_fulfilled.
  - by rewrite calls_resolve.
  - by rewrite tasks_resolve.
  - rewrite (resolve_pending _ _ _ _ (new_promise_lookup _ _) eq_refl). simpl.
    apply app_nil_r.
  - rewrite promises_resolve_length. simpl. rewrite length_app. simpl. lia.
Qed.

Lemma cached_error_first h ds i d e o :
  ds !! i = Some d → h !! d ≫= _result = Some (Err e o) →
  (∀ j d', j < i → ds !! j = Some d' → ∀ e' o', h !! d' ≫= _result ≠ Some (Err e' o')) →
  cached_error h ds = Some (Err e o).
Proof.
  revert i. induction ds as [|d0 ds IH]; intros i Hi Hd Hfirst; [done|].
  destruct i as [|i]; simpl in *.
  - injection Hi as ->. by rewrite Hd.
  - destruct (h !! d0 ≫= _result) as [[v | e' o']|] eqn:H0.
    + apply (IH i); [done..|]. intros j d' ??. apply (Hfirst (S j)); [lia | done].
    + by destruct (Hfirst 0 d0 ltac:(lia) eq_refl e' o').
    + apply (IH i); [done..|]. intros j d' ??. apply (Hfirst (S j)); [lia | done].
Qed.

Lemma cached_error_is_Some h ds d e o :
  d ∈ ds → h !! d ≫= _result = Some (Err e o) → is_Some (cached_error h ds).
Proof.
  induction ds as [|d0 ds IH]; intros Hd Hr; [by apply elem_of_nil in Hd|].
  simpl. destruct (h !! d0 ≫= _result) as [[v | e' o']|] eqn:H0; [|by eexists|].
  - apply IH; [|done]. apply elem_of_cons in Hd as [-> | ?]; [congruence | done].
  - apply IH; [|done]. apply elem_of_cons in Hd as [-> | ?]; [congruence | done].
Qed.

(** The synchronous short-circuit: a node that has not run and has a
    dependency with a cached failure.  Two promises are created, those of
    [run] and of [executeTask]; no task but the node itself is touched. *)
Lemma run_short_circuit s t T r :
  tasks s !! t = Some T → _result T = None → _promise T = None →
  deps T ≠ [] → cached_error (tasks s) (deps T) = Some r →
  ∃ s', exec (CallRun t) s = Some s' ∧
        source_is s' (length (promises s)) (PRun t) ∧
        executed s' t r ∧
        calls s' = calls s ∧
        (∀ u, u ≠ t → tasks s' !! u = tasks s !! u) ∧
        length (promises s') = S (S (length (promises s))).
Proof.
  intros HT Hres Hprom Hdeps Hce.
  set (p := length (promises s)). set (q := S p).
  set (s1 := (new_promise (PRun t) s).2).
  set (s2 := (new_promise (PExec t) s1).2).
  set (s3 := resolve q (JResult r) s2).
  set (s4 := set_promise t q s3).
  assert (length (promises s1) = q) as Hlen1
    by (simpl; rewrite length_app; simpl; unfold q, p; lia).
  assert (promises s2 !! q = Some {| settled := None; reactions := [];
            elements := []; source := PExec t |}) as Hq.
  { rewrite <-Hlen1. apply new_promise_lookup. }
  exists (then_ q (RunAwait t p) s4).
  split_and!.
  - simpl. rewrite HT. simpl. rewrite Hres, Hprom. unfold executeTask. simpl.
    rewrite HT. simpl. destruct (deps T) as [|d0 ds0] eqn:Hd; [done|].
    rewrite Hce. simpl. rewrite length_app. simpl.
    replace (length (promises s) + 1) with q by (unfold q, p; lia). done.
  - apply source_is_then. unfold s4, set_promise, source_is. simpl.
    change (source_is s3 p (PRun t)). apply source_is_resolve.
    eapply source_is_grows; [apply grows_new_promise|]. apply new_promise_source.
  - exists q. split.
    + unfold promise_of. rewrite tasks_then. apply promise_of_set_promise.
      unfold s3. rewrite tasks_resolve. simpl. eauto.
    + apply fulfilled_then. unfold s4, set_promise, fulfilled. simpl.
      change (fulfilled s3 q (JResult r)). apply resolve_fulfilled. by eexists.
  - rewrite calls_then. unfold s4, set_promise. simpl. unfold s3.
    by rewrite calls_resolve.
  - intros u Hu. rewrite tasks_then. unfold s4. simpl.
    rewrite list_lookup_alter_ne by done. unfold s3. by rewrite tasks_resolve.
  - rewrite promises_then_length. unfold s4, set_promise. simpl. unfold s3.
    rewrite promises_resolve_length. simpl. rewrite !length_app. simpl. lia.
Qed.

(** ** [run] returns *)

Section Total.
Context (run_f : ref → state → option (pid * state)) (bound : nat).
Context (Hrun : run_ok run_f).
Context (Htotal : ∀ t s, Inv s → t < bound → t < length (tasks s) → is_Some (run_f t s)).

Lemma run_deps_total ds : ∀ s,
  Inv s → Forall (λ d, d < bound ∧ d < length (tasks s)) ds →
  is_Some (run_deps run_f ds s).
Proof.
  induction ds as [|d ds IH]; intros s HI Hds; simpl; [by eexists|].
  apply Forall_cons in Hds as [[Hd1 Hd2] Hds].
  destruct (Htotal d s HI Hd1 Hd2) as [[p s1] Hr]. rewrite Hr. simpl.
  destruct (Hrun _ _ _ _ HI Hr) as (HI1 & Hext & _).
  destruct (IH s1 HI1) as [[ps s2] Hrd].
  { eapply Forall_impl; [done|]. intros d' [? Hlt]. split; [done|].
    apply lookup_lt_is_Some in Hlt as [T HT].
    destruct (ext_tasks _ _ Hext _ _ HT) as (T' & HT' & _). by eapply lookup_lt_Some. }
  rewrite Hrd. by eexists.
Qed.

Lemma executeTask_total t s :
  Inv s → t ≤ bound → t < length (tasks s) → is_Some (executeTask run_f t s).
Proof.
  intros HI Ht Hlen. unfold executeTask.
  apply lookup_lt_is_Some in Hlen as [T HT]. rewrite HT. simpl.
  set (s1 := with_promises _ s).
  assert (Inv s1) as HI1.
  { apply (Inv_new_promise (PExec t)); [done | by eexists]. }
  destruct (deps T) as [|d0 ds0] eqn:Hdeps.
  - destruct (call_compute t T [] s1). by eexists.
  - rewrite <-Hdeps. destruct (cached_error _ _); [by eexists|].
    destruct (run_deps_total (deps T) s1 HI1) as [[depPromises s2] Hrd].
    { destruct (inv_heap _ HI _ _ HT) as [_ Hlt].
      eapply Forall_impl; [done|]. intros d Hd. simpl in *.
      apply lookup_lt_Some in HT. lia. }
    rewrite Hrd. cbn -[promise_race call_compute contestants].
    destruct (contestants t depPromises 0 depPromises s2) as [cs s3].
    destruct (promise_race (PRace t depPromises cs) cs s3) as [race s4].
    by eexists.
Qed.
End Total.

Lemma run_total fuel : ∀ t s,
  Inv s → t < fuel → t < length (tasks s) → is_Some (run fuel t s).
Proof.
  induction fuel as [|fuel IH]; intros t s HI Ht Hlen; [lia|]. simpl.
  pose proof Hlen as [T HT]%lookup_lt_is_Some. rewrite HT. simpl.
  set (s1 := with_promises _ s).
  assert (Inv s1) as HI1.
  { apply (Inv_new_promise (PRun t)); [done | by eexists]. }
  destruct (_result T); [by eexists|]. destruct (_promise T); [by eexists|].
  destruct (executeTask_total (run fuel) fuel (run_spec fuel) IH t s1 HI1)
    as [[q s2] Hex]; [lia | done |].
  rewrite Hex. by eexists.
Qed.

(** The host may always call [run] on a task. *)
Lemma exec_run_total s t :
  Inv s → t < length (tasks s) → is_Some (exec (CallRun t) s).
Proof.
  intros HI Ht. destruct (run_total (S (length (tasks s))) t s HI) as [[p s'] Hr];
    [lia | done |].
  unfold exec. rewrite Hr. by eexists.
Qed.

Lemma exec_run_promise s t s' :
  Inv s → exec (CallRun t) s = Some s' →
  source_is s' (length (promises s)) (PRun t).
Proof.
  intros HI ([p s1] & Hr & ->)%fmap_Some.
  destruct (run_sync_spec _ _ _ _ _ HI Hr) as (-> & _).
  by destruct (run_spec _ _ _ _ _ HI Hr) as (_ & _ & ? & _).
Qed.

(** ** The first compute function a call of [run] reaches *)

Lemma cached_error_None h ds :
  (∀ d, d ∈ ds → h !! d ≫= _result = None) → cached_error h ds = None.
Proof.
  induction ds as [|d ds IH]; intros Hds; simpl; [done|].
  rewrite (Hds d) by by left. apply IH. intros d' ?. apply Hds. by right.
Qed.

Lemma never_run_no_result s t : Inv s → promise_of s t = None → result_of s t = None.
Proof.
  intros HI Hp. destruct (result_of s t) as [r|] eqn:Hr; [|done].
  apply bind_Some in Hr as (T & HT & Hr).
  destruct (inv_tasks _ HI _ _ HT) as [_ Hex].
  destruct (Hex _ Hr) as (q & Hq & _). congruence.
Qed.

Lemma run_first_leaf fuel : ∀ t s p s' u,
  Inv s → run fuel t s = Some (p, s') →
  (∀ x, reach (tasks s) t x → promise_of s x = None) →
  first_leaf (tasks s) t u → (u, []) ∈ calls s'.
Proof.
  induction fuel as [|fuel IH]; intros t s p s' u HI; simpl; [done|].
  intros Hr Hfresh Hfl.
  assert (∃ T, tasks s !! t = Some T) as [T HT] by (destruct Hfl; eauto).
  rewrite HT in Hr. simpl in Hr.
  pose proof (Hfresh t (reach_refl _ _)) as Hpt.
  pose proof (never_run_no_result _ _ HI Hpt) as Hrt.
  unfold promise_of in Hpt. unfold result_of in Hrt. rewrite HT in Hpt, Hrt.
  simpl in Hpt, Hrt. rewrite Hrt, Hpt in Hr.
  set (s1 := with_promises _ s) in Hr.
  assert (Inv s1) as HI1.
  { apply (Inv_new_promise (PRun t)); [done | by eexists]. }
  destruct (executeTask (run fuel) t s1) as [[q s2]|] eqn:Hex; [|done].
  simpl in Hr. injection Hr as <- <-. rewrite calls_then. simpl.
  revert Hex. unfold executeTask. change (tasks s1) with (tasks s). rewrite HT. simpl.
  set (s1' := with_promises _ s1).
  assert (Inv s1') as HI1'.
  { apply (Inv_new_promise (PExec t)); [done | by eexists]. }
  inversion Hfl as [t' T' HT' Hdeps | t' T' d ds u' HT' Hdeps Hfl']; subst;
    assert (T' = T) as -> by congruence; rewrite Hdeps.
  - pose proof (calls_call_compute u T [] s1') as Hcc.
    destruct (call_compute u T [] s1') as [pc s3]. simpl in Hcc.
    intros [= <- <-]. rewrite calls_then, Hcc. apply elem_of_app. right. by left.
  - rewrite <-Hdeps. rewrite cached_error_None.
    2:{ intros x Hx. apply (never_run_no_result s x HI), Hfresh.
        econstructor; [done | done | constructor]. }
    destruct (run_deps (run fuel) (deps T) s1') as [[depPromises s3]|] eqn:Hrd; [|done].
    cbn -[promise_race call_compute contestants].
    pose proof (calls_contestants t depPromises depPromises 0 s3) as Hc3.
    destruct (contestants t depPromises 0 depPromises s3) as [cs s4].
    pose proof (calls_promise_race (PRace t depPromises cs) cs s4) as Hc4.
    destruct (promise_race (PRace t depPromises cs) cs s4) as [race s5].
    simpl in *. intros [= <- <-]. rewrite calls_then, Hc4, Hc3.
    rewrite Hdeps in Hrd. simpl in Hrd.
    destruct (run fuel d s1') as [[p1 sd]|] eqn:Hrun1; [|done]. simpl in Hrd.
    destruct (run_deps (run fuel) ds sd) as [[ps2 sd2]|] eqn:Hrd2; [|done].
    simpl in Hrd. injection Hrd as <- <-.
    destruct (run_spec fuel _ _ _ _ HI1' Hrun1) as (HId & _).
    destruct (run_deps_spec _ (run_spec fuel) _ _ _ _ HId Hrd2) as (_ & Hext & _).
    apply (ext_calls _ _ Hext). apply (IH d s1' p1 sd u HI1' Hrun1); [|done].
    intros x Hx. apply Hfresh. econstructor; [done | | done]. rewrite Hdeps. by left.
Qed.

Lemma reach_inv h t u :
  reach h t u → u = t ∨ ∃ T d, h !! t = Some T ∧ d ∈ deps T ∧ reach h d u.
Proof. intros [t' | t' T d u' HT Hd Hr]; [by left | right; eauto]. Qed.

Lemma never_run_never_called s t : reachable s → promise_of s t = None → ncalls t s = 0.
Proof.
  intros Hreach Hp.
  pose proof (ncalls_weight t s) as H1.
  pose proof (reachable_weight t (w_calls t) (admissible_calls t) s Hreach) as H2.
  pose proof (reachable_nexec t s Hreach) as H3.
  unfold started in H3. rewrite Hp in H3. lia.
Qed.

Lemma task_later s s' t T :
  reachable s → steps s s' → tasks s !! t = Some T →
  ∃ T', tasks s' !! t = Some T' ∧ task_le T T'.
Proof. intros Hreach Hsteps HT. by apply (ext_tasks _ _ (steps_extends _ _ Hreach Hsteps)). Qed.

Lemma cached_executed s t r : Inv s → result_of s t = Some r → executed s t r.
Proof.
  intros HI (T & HT & Hr)%bind_Some. by apply (inv_tasks _ HI _ _ HT).
Qed.

(** A task without dependencies that has not run: [run] calls its
    compute function, with no arguments, before it returns. *)
Lemma run_leaf_fresh s t T :
  Inv s → tasks s !! t = Some T → deps T = [] → promise_of s t = None →
  ∃ s', exec (CallRun t) s = Some s' ∧ calls s' = calls s ++ [(t, [])].
Proof.
  intros HI HT Hdeps Hp.
  destruct (exec_run_total s t HI) as [s' Hex]; [by eapply lookup_lt_Some|].
  exists s'. split; [done|]. revert Hex. unfold exec. simpl. rewrite HT. simpl.
  pose proof (never_run_no_result _ _ HI Hp) as Hr.
  unfold promise_of in Hp. unfold result_of in Hr. rewrite HT in Hp, Hr.
  simpl in Hp, Hr. rewrite Hr, Hp. unfold executeTask. simpl. rewrite HT. simpl.
  rewrite Hdeps. set (s1 := with_promises _ _).
  pose proof (calls_call_compute t T [] s1) as Hcc.
  destruct (call_compute t T [] s1) as [pc s2]. simpl in *.
  intros [= <-]. rewrite calls_then. unfold set_promise.
  cbn [calls with_tasks]. by rewrite calls_then.
Qed.

(** * The event loop drains *)

#[local] Transparent promise_race promise_all call_compute all_element resolve then_.

Local Abbreviation nrun s :=
  (sum_list_with (λ pr, if running pr then 1 else 0) (promises s)).
Local Abbreviation nthen s := (sum_list_with w_thenable (microtasks s)).

Lemma sum_thenable_reactions v (ks : list reaction) :
  sum_list_with w_thenable ((λ k, ReactionJob k v) <$> ks) = 0.
Proof. induction ks as [|k ks IH]; [done|]. csimpl. by rewrite IH. Qed.

Lemma potential_resolve p v s : potential (resolve p v s) ≤ potential s.
Proof.
  pose proof (weight_resolve drain_weights p v s 0 ltac:(by intros)) as Hw.
  unfold potential. unfold resolve in *.
  destruct (promises s !! p) as [pr|] eqn:Hp; [|lia].
  destruct (settled pr) eqn:Hs; [lia|]. simpl in *.
  rewrite sum_list_with_app, sum_thenable_reactions.
  pose proof (sum_list_with_insert (λ pr, if running pr then 1 else 0) _ _
                (mkPromise (Some v) [] (elements pr) (source pr)) _ Hp) as Hi.
  assert (running (mkPromise (Some v) [] (elements pr) (source pr)) = false) as Hr.
  { unfold running. simpl. by destruct (source pr). }
  simpl in Hi. rewrite Hr in Hi. lia.
Qed.

Lemma potential_resolve_running p v s pr :
  promises s !! p = Some pr → running pr = true →
  potential (resolve p v s) + 1 ≤ potential s.
Proof.
  intros Hp Hrun.
  pose proof (weight_resolve drain_weights p v s 0 ltac:(by intros)) as Hw.
  assert (settled pr = None) as Hs.
  { unfold running in Hrun. destruct (source pr), (settled pr); done. }
  unfold potential. unfold resolve in *. rewrite Hp, Hs in *. simpl in *.
  rewrite sum_list_with_app, sum_thenable_reactions.
  pose proof (sum_list_with_insert (λ pr, if running pr then 1 else 0) _ _
                (mkPromise (Some v) [] (elements pr) (source pr)) _ Hp) as Hi.
  assert (running (mkPromise (Some v) [] (elements pr) (source pr)) = false) as Hr.
  { unfold running. simpl. by destruct (source pr). }
  simpl in Hi. rewrite Hr, Hrun in Hi. lia.
Qed.

Lemma potential_then p k s :
  potential (then_ p k s) ≤ potential s + w_reaction drain_weights k.
Proof.
  pose proof (weight_then drain_weights p k s) as Hw.
  unfold potential. unfold then_ in *.
  destruct (promises s !! p) as [pr|] eqn:Hp; [|lia].
  destruct (settled pr) eqn:Hs; simpl in *.
  - rewrite sum_list_with_app. simpl. lia.
  - pose proof (sum_list_with_insert (λ pr, if running pr then 1 else 0) _ _
                  (mkPromise None (reactions pr ++ [k]) (elements pr) (source pr))
                  _ Hp) as Hi.
    assert (running (mkPromise None (reactions pr ++ [k]) (elements pr) (source pr))
            = running pr) as Hr by (unfold running; simpl; by rewrite Hs).
    simpl in Hi. rewrite Hr in Hi. lia.
Qed.

Lemma potential_fold_then {A} (f : A → pid) (g : A → reaction) l : ∀ s,
  potential (foldl (λ s x, then_ (f x) (g x) s) s l)
  ≤ potential s + sum_list_with (λ x, w_reaction drain_weights (g x)) l.
Proof.
  induction l as [|x l IH]; intros s; cbn [foldl sum_list_with]; [lia|].
  etrans; [apply IH|]. pose proof (potential_then (f x) (g x) s). lia.
Qed.

Lemma potential_app_promise pr0 s :
  reactions pr0 = [] →
  potential (with_promises (λ l, l ++ [pr0]) s)
  = potential s + (if running pr0 then 1 else 0).
Proof.
  intros Hk. unfold potential, weight. simpl. rewrite !sum_list_with_app. simpl.
  unfold w_promise. rewrite Hk. simpl. destruct (settled pr0); simpl; lia.
Qed.

Lemma potential_promise_all c ps s :
  potential (promise_all (PAll c) ps s).2 ≤ potential s + length ps.
Proof.
  unfold promise_all. simpl.
  set (pr0 := mkPromise _ _ _ _). set (s1 := with_promises _ s).
  assert (potential s1 = potential s) as H1.
  { unfold s1. rewrite (potential_app_promise pr0) by done. simpl. lia. }
  set (s2 := if decide (ps = []) then _ else _).
  assert (potential s2 ≤ potential s1) as H2.
  { unfold s2. destruct (decide (ps = [])); [apply potential_resolve | done]. }
  etrans; [apply (potential_fold_then (λ ip : nat * nat, ip.2)
                    (λ ip, AllElement (length (promises s)) ip.1))|].
  assert (sum_list_with
            (λ x : nat * nat, w_reaction drain_weights (AllElement (length (promises s)) x.1))
            (imap pair ps) = length ps) as ->; [|lia].
  generalize (@pair nat nat). clear. intros h. revert h.
  induction ps as [|d ps IH]; intros h; [done|]. simpl. by rewrite IH.
Qed.

Lemma potential_call_compute t T values s :
  potential (call_compute t T values s).2 ≤ potential s + 1.
Proof.
  unfold call_compute.
  set (s1 := record_call t values s).
  assert (potential s1 = potential s) as H1.
  { unfold potential, weight. simpl. rewrite sum_list_with_app. simpl. lia. }
  set (pr0 := {| settled := None; reactions := []; elements := [];
                 source := PCompute t (outcome (compute T values)) |}).
  assert (potential (with_promises (λ l, l ++ [pr0]) s1) = potential s1 + 1) as H2
    by by rewrite (potential_app_promise pr0).
  cbv zeta. unfold new_promise. fold pr0.
  destruct (compute T values); cbn [snd]; [|lia].
  etrans; [apply potential_resolve|]. lia.
Qed.

Lemma potential_all_element target index x s :
  potential (all_element target index x s) ≤ potential s.
Proof.
  unfold all_element. destruct (promises s !! target) as [pr|] eqn:Hp; [|done].
  set (pr1 := mkPromise _ _ _ _). set (s1 := with_promises _ s).
  assert (potential s1 = potential s) as H1.
  { unfold potential, weight. simpl.
    pose proof (sum_list_with_insert (w_promise drain_weights) _ _ pr1 _ Hp) as Hi1.
    pose proof (sum_list_with_insert (λ pr, if running pr then 1 else 0) _ _ pr1 _ Hp)
      as Hi2.
    simpl in *. change (w_promise drain_weights pr1) with (w_promise drain_weights pr) in Hi1.
    change (running pr1) with (running pr) in Hi2. lia. }
  destruct (mapM id _); [|lia]. etrans; [apply potential_resolve|]. lia.
Qed.

#[local] Opaque promise_all call_compute all_element resolve then_.

Lemma potential_run_reaction k v s :
  potential (run_reaction k v s) + 1 ≤ potential s + w_reaction drain_weights k.
Proof.
  destruct k as [t self | t self | depPromises self | self | t self | t self
                | target | target index]; simpl.
  - destruct v; try lia.
    etrans; [apply Nat.add_le_mono_r, potential_resolve|]. done.
  - destruct v; try lia. pose proof (potential_resolve self (JResult r) s). lia.
  - destruct v as [r| |]; try lia. destruct (is_ok r).
    + pose proof (potential_promise_all self depPromises s) as H1.
      destruct (promise_all (PAll self) depPromises s) as [pall s1]. simpl in *.
      pose proof (potential_then pall (ContestantAwaitAll self) s1). simpl in *. lia.
    + pose proof (potential_resolve self (JWinner (WError r)) s). lia.
  - destruct v as [|rs|]; try lia.
    pose proof (potential_resolve self (JWinner (WSuccess rs)) s). lia.
  - destruct v as [| |[e | rs]]; try lia.
    + pose proof (potential_resolve self (JResult e) s). lia.
    + destruct (tasks s !! t) as [T|]; [|lia].
      pose proof (potential_call_compute t T (value_of <$> rs) s) as H1.
      destruct (call_compute t T (value_of <$> rs) s) as [pc s1]. simpl in *.
      pose proof (potential_then pc (ExecAwaitCompute t self) s1). simpl in *. lia.
  - destruct v; try lia. pose proof (potential_resolve self (JResult r) s). lia.
  - pose proof (potential_resolve target v s). lia.
  - destruct v; try lia. pose proof (potential_all_element target index r s). lia.
Qed.

(** Every microtask makes the potential smaller. *)
Lemma potential_tick s s' : exec Tick s = Some s' → potential s' < potential s.
Proof.
  unfold exec. destruct (microtasks s) as [|j q] eqn:Hq; [done|]. intros [= <-].
  set (s0 := mkState _ _ _ _).
  assert (potential s0 + w_job drain_weights j + w_thenable j = potential s) as H0.
  { unfold potential, weight. rewrite Hq. simpl. lia. }
  destruct j as [k v | target thenable]; cbn [w_job w_thenable run_job] in *.
  - pose proof (potential_run_reaction k v s0). lia.
  - pose proof (potential_then thenable (Forward target) s0). simpl in *. lia.
Qed.

(** So does the completion of a compute function. *)
Lemma potential_settle p s s' : exec (Settle p) s = Some s' → potential s' < potential s.
Proof.
  unfold exec. intros (pr & Hp & Hs)%bind_Some.
  destruct (source pr) eqn:Hsrc; try done.
  destruct (settled pr) eqn:Hset; [done|]. injection Hs as <-.
  pose proof (potential_resolve_running p (JResult r) s pr Hp) as H.
  unfold running in H. rewrite Hsrc, Hset in H. specialize (H eq_refl). lia.
Qed.

(** From every state the event loop, with the compute functions
    completing, reaches a state in which nothing is left to run. *)
Lemma drain : ∀ s, ∃ l s', Forall drains l ∧ exec_all l s = Some s' ∧ quiescent s'.
Proof.
  assert (∀ s, (∀ m, m < potential s → ∀ s1, m = potential s1 →
            ∃ l s', Forall drains l ∧ exec_all l s1 = Some s' ∧ quiescent s') →
          ∃ l s', Forall drains l ∧ exec_all l s = Some s' ∧ quiescent s') as Hstep.
  { intros s IH.
    assert (∀ a s1, drains a → exec a s = Some s1 → potential s1 < potential s →
              ∃ l s', Forall drains l ∧ exec_all l s = Some s' ∧ quiescent s') as Hgo.
    { intros a s1 Ha Hex Hlt. destruct (IH _ Hlt s1 eq_refl) as (l & s' & Hl & Hex' & Hq).
      exists (a :: l), s'. split_and!; [by constructor | | done].
      rewrite exec_all_cons, Hex. done. }
    destruct (microtasks s) as [|j q] eqn:Hq.
    - destruct (forallb (λ pr, negb (running pr)) (promises s)) eqn:Hrun.
      + exists [], s. split_and!; [constructor | done | by split].
      + assert (∃ p pr, promises s !! p = Some pr ∧ running pr = true) as (p & pr & Hp & Hr).
        { clear -Hrun. induction (promises s) as [|pr l IHl]; [done|]. simpl in Hrun.
          destruct (running pr) eqn:Hr.
          - exists 0, pr. done.
          - destruct (IHl Hrun) as (p & pr' & ? & ?). exists (S p), pr'. done. }
        assert (∃ s1, exec (Settle p) s = Some s1) as [s1 Hex].
        { unfold exec. rewrite Hp. simpl. unfold running in Hr.
          destruct (source pr); try done. destruct (settled pr); [done|]. by eexists. }
        apply (Hgo (Settle p) s1); [right; by eexists | done | by eapply potential_settle].
    - assert (∃ s1, exec Tick s = Some s1) as [s1 Hex].
      { unfold exec. rewrite Hq. by eexists. }
      apply (Hgo Tick s1); [by left | done | by apply potential_tick]. }
  intros s. remember (potential s) as n eqn:Hn. revert s Hn.
  induction (lt_wf n) as [n _ IH]. intros s ->.
  apply Hstep. intros m Hm s1 ->. by apply (IH (potential s1)).
Qed.

(** * What [run] returns *)

#[local] Opaque promise_race promise_all call_compute all_element resolve then_.

Lemma settles_intro s p v :
  (∀ s', steps s s' →
     (∀ v', fulfilled s' p v' → v' = v) ∧ (quiescent s' → fulfilled s' p v)) →
  settles s p v.
Proof.
  intros H s' Hsteps. destruct (H s' Hsteps) as [H1 H2]. split_and!; [done..|].
  destruct (drain s') as (l & s'' & Hl & Hex & Hq). exists l, s''.
  split_and!; [done..|]. apply (H s''); [|done].
  eapply steps_trans; [done | by eapply exec_all_steps].
Qed.

(** Once the execution of [t] has returned [r], every promise of
    [run(t)] settles as [r]. *)
Lemma run_settles s p t r :
  reachable s → source_is s p (PRun t) → executed s t r → settles s p (JResult r).
Proof. intros. apply settles_intro. intros s' Hsteps. by eapply run_value_later. Qed.

(** Every promise is fulfilled in the end. *)
Lemma fulfilled_in_the_end s p :
  reachable s → p < length (promises s) →
  ∃ l s' v, Forall drains l ∧ exec_all l s = Some s' ∧ reachable s' ∧
            quiescent s' ∧ fulfilled s' p v.
Proof.
  intros Hreach Hp. destruct (drain s) as (l & s' & Hl & Hex & Hq).
  pose proof (exec_all_reachable _ _ _ Hreach Hex) as Hreach'.
  destruct (quiescent_fulfilled s' (reachable_Inv _ Hreach') (reachable_Live _ Hreach')
              Hq p) as [v Hv].
  { pose proof (steps_extends _ _ Hreach (exec_all_steps _ _ _ Hex)) as Hext.
    apply lookup_lt_is_Some in Hp as [pr Hp].
    destruct (ext_promises _ _ Hext _ _ Hp) as (pr' & Hp' & _). by eapply lookup_lt_Some. }
  exists l, s', v. done.
Qed.

Lemma reach_mono s s' d a : extends s s' → reach (tasks s) d a → reach (tasks s') d a.
Proof.
  intros Hext. induction 1 as [|t T d u HT Hd _ IH]; [constructor|].
  destruct (ext_tasks _ _ Hext _ _ HT) as (T' & HT' & Hle).
  econstructor; [done | by rewrite (le_deps _ _ Hle) | done].
Qed.


(** The arguments and the result of the compute function of a node all
    of whose dependencies have succeeded. *)
Lemma call_arguments s t T vs values :
  Inv s → tasks s !! t = Some T →
  Forall2 (λ d v, executed s d (Ok v)) (deps T) vs →
  (t, values) ∈ calls s → values = vs.
Proof.
  intros HI HT Hvs Hc. pose proof (inv_calls _ HI) as Hcalls.
  rewrite Forall_forall in Hcalls.
  destruct (Hcalls _ Hc) as (rs & (T' & HT' & Hrs) & Heq). simpl in *. subst values.
  assert (T' = T) as -> by congruence. clear HT' Hc.
  revert rs Hrs. generalize (deps T) vs Hvs. clear.
  induction 1 as [|d v ds vs Hd Hds IH]; intros rs Hrs.
  - by apply Forall2_nil_inv_l in Hrs as ->.
  - apply Forall2_cons_inv_l in Hrs as (r & rs' & Hr & Hrs' & ->). simpl.
    rewrite (executed_fun _ _ _ _ Hr Hd). simpl. f_equal. by apply IH.
Qed.

Lemma run_after_compute s t T vs p v :
  Inv s → tasks s !! t = Some T →
  Forall2 (λ d v, executed s d (Ok v)) (deps T) vs →
  source_is s p (PRun t) → fulfilled s p v →
  (t, vs) ∈ calls s ∧ v = JResult (outcome (compute T vs)).
Proof.
  intros HI HT Hvs Hp Hv.
  destruct (Inv_run_value _ _ _ _ HI Hp Hv) as (r & -> & Hex).
  pose proof Hex as (q & Hq & pr & Hpq & Hs).
  unfold promise_of in Hq. rewrite HT in Hq. simpl in Hq.
  destruct (inv_tasks _ HI _ _ HT) as [Hsrc _].
  pose proof (Inv_fulfilled _ _ _ _ HI Hpq Hs) as Hval.
  rewrite (source_is_lookup _ _ _ _ (Hsrc _ Hq) Hpq) in Hval.
  destruct Hval as (r' & [= <-] & [(values & T' & HT' & Hc & <-)
                                  | (Hr & T' & d & HT' & Hd & Hexd)]).
  - assert (T' = T) as -> by congruence.
    by rewrite <-(call_arguments s t T vs values HI HT Hvs Hc).
  - assert (T' = T) as -> by congruence.
    apply list_elem_of_lookup in Hd as [i Hi].
    destruct (Forall2_lookup_l _ _ _ _ _ Hvs Hi) as (v & _ & Hexv).
    rewrite (executed_fun _ _ _ _ Hexd Hexv) in Hr. done.
Qed.

Lemma succeeded_later s s' T t vs :
  reachable s → steps s s' → tasks s !! t = Some T →
  Forall2 (λ d v, executed s d (Ok v)) (deps T) vs →
  ∃ T', tasks s' !! t = Some T' ∧ compute T' = compute T ∧
        Forall2 (λ d v, executed s' d (Ok v)) (deps T') vs.
Proof.
  intros Hreach Hsteps HT Hvs.
  pose proof (steps_extends _ _ Hreach Hsteps) as Hext.
  destruct (ext_tasks _ _ Hext _ _ HT) as (T' & HT' & Hle).
  exists T'. split_and!; [done | by apply (le_compute _ _ Hle) |].
  rewrite (le_deps _ _ Hle). eapply Forall2_impl; [done|].
  intros d v. by apply executed_mono.
Qed.

(** ** Nodes built by [all] *)

Lemma all_built_by_all id ts heap T :
  (all id ts heap).2 !! (all id ts heap).1 = Some T → built_by_all T.
Proof.
  unfold all, task. simpl. rewrite lookup_app_r, Nat.sub_diag by done.
  intros [= <-] values. reflexivity.
Qed.

Lemma built_by_all_later s s' t T :
  reachable s → steps s s' → tasks s !! t = Some T → built_by_all T →
  ∃ T', tasks s' !! t = Some T' ∧ built_by_all T'.
Proof.
  intros Hreach Hsteps HT Hall.
  destruct (task_later s s' t T Hreach Hsteps HT) as (T' & HT' & Hle).
  exists T'. split; [done|]. intros values. rewrite (le_compute _ _ Hle). apply Hall.
Qed.

(** ** What a call of a compute function tells *)

Lemma executed_ok_computed s t v :
  Inv s → executed s t (Ok v) → ∃ values, computed s t values (Ok v).
Proof.
  intros HI Hex. pose proof Hex as (q & Hq & pr & Hp & Hs).
  unfold promise_of in Hq. apply bind_Some in Hq as (T & HT & Hq).
  destruct (inv_tasks _ HI _ _ HT) as [Hsrc _].
  pose proof (Inv_fulfilled _ _ _ _ HI Hp Hs) as Hv.
  rewrite (source_is_lookup _ _ _ _ (Hsrc _ Hq) Hp) in Hv.
  destruct Hv as (r' & [= <-] & [Hc | (Hr & _)]); [done | done].
Qed.

Lemma call_dependencies s t values :
  reachable s → (t, values) ∈ calls s →
  ∃ T, tasks s !! t = Some T ∧
       Forall2 (λ d v, executed s d (Ok v)) (deps T) values.
Proof.
  intros Hreach Hc.
  destruct (reachable_call_values s t values Hreach Hc) as (rs & (T & HT & Hrs) & Heq & Hok).
  simpl in *. subst values. exists T. split; [done|].
  revert Hok. generalize (deps T) rs Hrs. clear. induction 1 as [|d r ds rs Hd _ IH].
  - constructor.
  - intros [Hr Hok]%Forall_cons. simpl. constructor; [|by apply IH].
    by destruct r.
Qed.

(** When the dependencies of a node have succeeded, a promise of [run]
    on the node settles as what its compute function returns on their
    values, and it is fulfilled only after that call. *)
Lemma computed_settles s t T vs p :
  reachable s → tasks s !! t = Some T →
  Forall2 (λ d v, executed s d (Ok v)) (deps T) vs →
  source_is s p (PRun t) →
  settles s p (JResult (outcome (compute T vs))) ∧
  ∀ s' v, steps s s' → fulfilled s' p v → (t, vs) ∈ calls s'.
Proof.
  intros Hreach HT Hvs Hp.
  assert (∀ s' v, steps s s' → fulfilled s' p v →
            (t, vs) ∈ calls s' ∧ v = JResult (outcome (compute T vs))) as Hlater.
  { intros s' v Hsteps Hv.
    destruct (succeeded_later s s' T t vs Hreach Hsteps HT Hvs) as (T' & HT' & Hc & Hvs').
    rewrite <-Hc.
    apply (run_after_compute s' t T' vs p v); [|done | done | | done].
    - by eapply reachable_Inv, steps_reachable.
    - eapply source_is_mono; [by apply steps_extends | done]. }
  split; [|intros s' v Hsteps Hv; by apply (Hlater s' v)].
  apply settles_intro. intros s' Hsteps.
  assert (∀ v', fulfilled s' p v' → v' = JResult (outcome (compute T vs))) as Hval
    by (intros v' Hv'; by apply (Hlater s' v')).
  split; [done|]. intros Hq.
  pose proof (steps_reachable _ _ Hreach Hsteps) as Hreach'.
  destruct (quiescent_fulfilled s' (reachable_Inv _ Hreach') (reachable_Live _ Hreach')
              Hq p) as [v Hv].
  { destruct (source_is_mono _ _ (steps_extends _ _ Hreach Hsteps) _ _ Hp)
      as (pr & ? & _). by eapply lookup_lt_Some. }
  by rewrite <-(Hval v Hv).
Qed.

(** * The claims *)

#[local] Opaque promise_race promise_all call_compute all_element resolve then_.


(** C2: in every state the program can reach, whatever calls of [run]
    have been made and however they interleave, the compute function of
    each node has been called at most once.  In a diamond none of whose
    nodes has run, the compute function of the shared dependency has not
    been called; [run] on the top node calls it, and from then on it has
    been called exactly once. *)
Theorem compute_at_most_once s :
  reachable s →
  (∀ t, ncalls t s ≤ 1) ∧
  ∀ top left right shared Ttop Tleft Tright Tshared,
    tasks s !! top = Some Ttop → deps Ttop = [left; right] →
    tasks s !! left = Some Tleft → deps Tleft = [shared] →
    tasks s !! right = Some Tright → deps Tright = [shared] →
    tasks s !! shared = Some Tshared → deps Tshared = [] →
    promise_of s top = None → promise_of s left = None →
    promise_of s right = None → promise_of s shared = None →
    ncalls shared s = 0 ∧
    ∃ s1, exec (CallRun top) s = Some s1 ∧
          ∀ s2, steps s1 s2 → ncalls shared s2 = 1.
Proof.
  intros Hreach. pose proof (reachable_Inv _ Hreach) as HI.
  split; [intros t; by apply reachable_ncalls|].
  intros top left right shared Ttop Tleft Tright Tshared
    Htop Hdtop Hleft Hdleft Hright Hdright Hshared Hdshared Hp1 Hp2 Hp3 Hp4.
  split; [by apply never_run_never_called|].
  destruct (exec_run_total s top HI) as [s1 Hex]; [by eapply lookup_lt_Some|].
  exists s1. split; [done|]. intros s2 Hsteps.
  assert (reachable s1) as Hreach1 by by econstructor.
  assert ((shared, []) ∈ calls s1) as Hcall.
  { unfold exec in Hex. apply fmap_Some in Hex as ([p s'] & Hr & ->).
    apply (run_first_leaf _ _ _ _ _ shared HI Hr).
    - assert (∀ x, reach (tasks s) shared x → promise_of s x = None) as Hs.
      { intros x [-> | (T & d & HT & Hd & _)]%reach_inv; [done|].
        assert (T = Tshared) as -> by congruence. rewrite Hdshared in Hd.
        by apply elem_of_nil in Hd. }
      assert (∀ x, reach (tasks s) left x → promise_of s x = None) as Hl.
      { intros x [-> | (T & d & HT & Hd & Hx)]%reach_inv; [done|].
        assert (T = Tleft) as -> by congruence. rewrite Hdleft in Hd.
        apply list_elem_of_singleton in Hd as ->. by apply Hs. }
      assert (∀ x, reach (tasks s) right x → promise_of s x = None) as Hr'.
      { intros x [-> | (T & d & HT & Hd & Hx)]%reach_inv; [done|].
        assert (T = Tright) as -> by congruence. rewrite Hdright in Hd.
        apply list_elem_of_singleton in Hd as ->. by apply Hs. }
      intros x [-> | (T & d & HT & Hd & Hx)]%reach_inv; [done|].
      assert (T = Ttop) as -> by congruence. rewrite Hdtop in Hd.
      apply elem_of_cons in Hd as [-> | ->%list_elem_of_singleton]; auto.
    - eapply first_leaf_dep; [done | done |].
      eapply first_leaf_dep; [done | done |]. by eapply first_leaf_here. }
  pose proof (reachable_ncalls shared s2 (steps_reachable _ _ Hreach1 Hsteps)) as Hle.
  pose proof (ncalls_pos shared [] s2
                (ext_calls _ _ (steps_extends _ _ Hreach1 Hsteps) _ Hcall)) as Hge.
  lia.
Qed.

(** C3: once a call of [run] on a node has returned an [Err], every
    later call of [run] on that node returns a promise that is already
    fulfilled with the same [Err] - same payload, same [errorTask] - and
    makes no call of a compute function; every promise [run] has returned
    for the node carries that [Err], and the compute function of the node
    has been called at most once. *)
Theorem failure_cached s t p e o s1 :
  reachable s → source_is s p (PRun t) → fulfilled s p (JResult (Err e o)) →
  steps s s1 →
  ncalls t s1 ≤ 1 ∧
  (∀ p' v, source_is s1 p' (PRun t) → fulfilled s1 p' v → v = JResult (Err e o)) ∧
  ∃ s2, exec (CallRun t) s1 = Some s2 ∧
        source_is s2 (length (promises s1)) (PRun t) ∧
        fulfilled s2 (length (promises s1)) (JResult (Err e o)) ∧
        calls s2 = calls s1.
Proof.
  intros Hreach Hp Hful Hsteps.
  pose proof (steps_reachable _ _ Hreach Hsteps) as Hreach1.
  pose proof (reachable_Inv _ Hreach1) as HI1.
  pose proof (k_result _ (reachable_Cached _ Hreach) _ _ _ Hp Hful) as Hres.
  pose proof (result_of_mono _ _ (steps_extends _ _ Hreach Hsteps) _ _ Hres) as Hres1.
  split_and!; [by apply reachable_ncalls | |].
  - intros p' v Hp'. by apply (run_value s1 p' t); [|
      |apply cached_executed].
  - destruct (run_cached s1 t _ Hres1) as (s2 & ? & ? & ? & ? & _). eauto.
Qed.

(** C4, as amended: for a node that has not been run - no execution in
    flight, nothing settled - with a dependency whose cache holds an
    [Err] when [run] is called: [run] returns the [Err] of the first such
    dependency in declaration order, unchanged; it calls no compute
    function, then or later the node's own, and it starts no dependency:
    the only promises it creates are its own and that of the execution of
    the node, and no other task is touched. *)
Theorem short_circuit s t T d e o :
  reachable s → tasks s !! t = Some T → _promise T = None → _result T = None →
  d ∈ deps T → result_of s d = Some (Err e o) →
  ∃ r s1,
    cached_error (tasks s) (deps T) = Some r ∧
    (∃ d', d' ∈ deps T ∧ result_of s d' = Some r ∧ is_ok r = false) ∧
    exec (CallRun t) s = Some s1 ∧
    source_is s1 (length (promises s)) (PRun t) ∧
    settles s1 (length (promises s)) (JResult r) ∧
    calls s1 = calls s ∧
    (∀ u, u ≠ t → tasks s1 !! u = tasks s !! u) ∧
    length (promises s1) = S (S (length (promises s))) ∧
    ∀ s2, steps s1 s2 → ncalls t s2 = 0.
Proof.
  intros Hreach HT Hprom Hres Hd Hrd. pose proof (reachable_Inv _ Hreach) as HI.
  destruct (cached_error_is_Some (tasks s) (deps T) d e o Hd Hrd) as [r Hce].
  destruct (cached_error_Some _ _ _ Hce) as (Hr & d' & T' & Hd' & HT' & Hr').
  assert (result_of s d' = Some r) as Hrd' by (unfold result_of; by rewrite HT').
  destruct (run_short_circuit s t T r HT Hres Hprom) as (s1 & Hex & Hp & Hexd & Hc & Ht & Hl);
    [by intros Hnil; rewrite Hnil in Hd; apply elem_of_nil in Hd | done |].
  assert (reachable s1) as Hreach1 by by econstructor.
  exists r, s1. split_and!; [done | by eauto | done | done | | done..|].
  - by apply (run_settles s1 _ t).
  - intros s2 Hsteps.
    pose proof (steps_trans _ _ _ (steps_one _ _ _ Hex) Hsteps) as Hsteps'.
    destruct (task_later s s2 t T Hreach Hsteps' HT) as (T2 & HT2 & Hle).
    apply (failed_dep_no_call s2 t T2 d' r);
      [by eapply steps_reachable | done | | | done].
    + by rewrite (le_deps _ _ Hle).
    + apply (executed_mono s); [by apply steps_extends | by apply cached_executed].
Qed.

(** C5: when all the dependencies of a node have succeeded, every call
    of its compute function, then or later, receives exactly their values,
    in the order of the [deps] list; a promise of [run] on the node is
    fulfilled only after that call, and it settles as what the call
    returns.  [all(label, tasks)] is a node whose dependencies are
    [tasks], in the order of the list; [run] on it returns a promise, an
    [Ok] this promise is fulfilled with is the tuple of the values of
    [tasks], in the order of the list, and once all of [tasks] have
    succeeded the promise settles as [Ok] of that tuple. *)
Theorem order_preserved s :
  reachable s →
  (∀ t T vs, tasks s !! t = Some T →
     Forall2 (λ d v, executed s d (Ok v)) (deps T) vs →
     (∀ s' values, steps s s' → (t, values) ∈ calls s' → values = vs) ∧
     (∀ p, source_is s p (PRun t) →
        settles s p (JResult (outcome (compute T vs))) ∧
        ∀ s' v, steps s s' → fulfilled s' p v → (t, vs) ∈ calls s')) ∧
  (∀ label ts, Forall (λ d, d < length (tasks s)) ts →
     let a := (all label ts (tasks s)).1 in
     let s1 := with_tasks (λ h, (all label ts h).2) s in
     reachable s1 ∧ a = length (tasks s) ∧
     (∃ T, tasks s1 !! a = Some T ∧ deps T = ts) ∧
     ∀ s2, steps s1 s2 →
       (∃ s3, exec (CallRun a) s2 = Some s3 ∧
              source_is s3 (length (promises s2)) (PRun a)) ∧
       (∀ p v, source_is s2 p (PRun a) → fulfilled s2 p (JResult (Ok v)) →
          ∃ vs, Forall2 (λ d v, executed s2 d (Ok v)) ts vs ∧ v = VTuple vs) ∧
       ∀ vs, Forall2 (λ d v, executed s2 d (Ok v)) ts vs →
         (∀ values, (a, values) ∈ calls s2 → values = vs) ∧
         ∀ p, source_is s2 p (PRun a) → settles s2 p (JResult (Ok (VTuple vs)))).
Proof.
  intros Hreach. split.
  { intros t T vs HT Hvs. split.
    - intros s' values Hsteps Hc.
      destruct (succeeded_later s s' T t vs Hreach Hsteps HT Hvs) as (T' & HT' & _ & Hvs').
      apply (call_arguments s' t T' vs values); [|done..].
      by eapply reachable_Inv, steps_reachable.
    - intros p Hp. by apply (computed_settles s t T vs p). }
  intros label ts Hts a s1.
  assert (exec (CreateTask label ts tuple_of) s = Some s1) as Hcreate.
  { unfold exec. by rewrite decide_True by done. }
  assert (reachable s1) as Hreach1 by by econstructor.
  set (T := {| label := label; deps := ts;
               compute := λ values, tuple_of {| h_ok := ok;
                                                 h_err := λ error, err a error |} values;
               _promise := None; _result := None; _id := a |}).
  assert (tasks s1 !! a = Some T) as HT.
  { simpl. by rewrite lookup_app_r, Nat.sub_diag by done. }
  split_and!; [done | done | by exists T |].
  intros s2 Hsteps.
  pose proof (steps_reachable _ _ Hreach1 Hsteps) as Hreach2.
  pose proof (reachable_Inv _ Hreach2) as HI2.
  destruct (task_later s1 s2 a T Hreach1 Hsteps HT) as (T2 & HT2 & Hle).
  assert (deps T2 = ts) as Hdeps by by rewrite (le_deps _ _ Hle).
  assert (∀ values, outcome (compute T2 values) = Ok (VTuple values)) as Hout
    by (intros values; by rewrite (le_compute _ _ Hle)).
  split_and!.
  - destruct (exec_run_total s2 a HI2) as [s3 Hex]; [by eapply lookup_lt_Some|].
    exists s3. split; [done | by apply exec_run_promise].
  - intros p v Hp Hful.
    destruct (Inv_run_value _ _ _ _ HI2 Hp Hful) as (r & [= <-] & Hex).
    destruct (executed_ok_computed s2 a v HI2 Hex) as (values & T' & HT' & Hc & Hv).
    assert (T' = T2) as -> by congruence. rewrite Hout in Hv. injection Hv as <-.
    destruct (call_dependencies s2 a values Hreach2 Hc) as (T' & HT'' & Hvs).
    assert (T' = T2) as -> by congruence. rewrite Hdeps in Hvs. by exists values.
  - intros vs Hvs. rewrite <-Hdeps in Hvs. split.
    + intros values. by apply (call_arguments s2 a T2 vs).
    + intros p Hp. rewrite <-(Hout vs).
      by destruct (computed_settles s2 a T2 vs p Hreach2 HT2 Hvs Hp).
Qed.

(** C6, as amended: the wrapper that [task] installs around the compute
    function passes it an [err] helper bound to the node, so a compute
    function that builds its results with the helpers it is given blames
    its own node.  (The two-argument [err] is exported as well: see the
    counterexample.) *)
Theorem err_helper_blames_own_node label ds c heap T values e o :
  uses_helpers c →
  (task label ds c heap).2 !! (task label ds c heap).1 = Some T →
  outcome (compute T values) = Err e o →
  o = (task label ds c heap).1.
Proof.
  intros Hc HT. simpl in HT. rewrite lookup_app_r, Nat.sub_diag in HT by done.
  injection HT as <-. simpl.
  destruct (Hc {| h_ok := ok; h_err := λ error, err (length heap) error |} values)
    as [[v ->] | [e' ->]]; [done|]. simpl. by intros [= _ <-].
Qed.

(** C7: in an acyclic graph built by [task], [getTrace] lists the labels
    of exactly the nodes reachable from the node, one entry per node, every
    node after all of its dependencies and the node itself last. *)
Theorem getTrace_topological (h : list Task) (t : ref) :
  wf_heap h → t < length h →
  ∃ order : list ref,
    getTrace h t = Some (lbl h <$> order) ∧
    NoDup order ∧
    (∀ u, u ∈ order ↔ reach h t u) ∧
    (∀ i u T d, order !! i = Some u → h !! u = Some T → d ∈ deps T →
                ∃ j, j < i ∧ order !! j = Some d) ∧
    last order = Some t.
Proof.
  intros Hwf Hlen.
  destruct (traverse_spec h Hwf (S (length h)) t ∅ [])
    as (o & (Hres & [Hnd Hto] & _) & Hin & Hlast); [lia | done | | |].
  { split; [constructor|]. intros i u T d Hi. by rewrite lookup_nil in Hi. }
  { intros u _. set_solver. }
  exists o. unfold getTrace.
  change (@nil string) with (lbl h <$> @nil nat). rewrite Hres.
  rewrite decide_False in Hlast by set_solver. simpl in *.
  split_and!; try done.
  intros u. rewrite Hin. split; [tauto|]. intros Hr. split; [done|]. set_solver.
Qed.

(** C8: when [run] on a node has returned the [Err] of one of its
    dependencies, the cache of the node holds that [Err], and it keeps it:
    in every later state the cache is the same, a call of [run] on the node
    returns a promise already fulfilled with that [Err] and calls no compute
    function, and the compute function of the node has never been
    called. *)
Theorem forwarded_failure_cached s t T d r p :
  reachable s → tasks s !! t = Some T → d ∈ deps T →
  executed s d r → is_ok r = false →
  source_is s p (PRun t) → fulfilled s p (JResult r) →
  ∀ s1, steps s s1 →
    result_of s1 t = Some r ∧ ncalls t s1 = 0 ∧
    ∃ s2, exec (CallRun t) s1 = Some s2 ∧
          source_is s2 (length (promises s1)) (PRun t) ∧
          fulfilled s2 (length (promises s1)) (JResult r) ∧
          calls s2 = calls s1.
Proof.
  intros Hreach HT Hd Hexd Hr Hp Hful s1 Hsteps.
  pose proof (steps_reachable _ _ Hreach Hsteps) as Hreach1.
  pose proof (steps_extends _ _ Hreach Hsteps) as Hext.
  pose proof (k_result _ (reachable_Cached _ Hreach) _ _ _ Hp Hful) as Hres.
  pose proof (result_of_mono _ _ Hext _ _ Hres) as Hres1.
  split_and!; [done | |].
  - destruct (task_later s s1 t T Hreach Hsteps HT) as (T1 & HT1 & Hle).
    apply (failed_dep_no_call s1 t T1 d r); [done | done | | | done].
    + by rewrite (le_deps _ _ Hle).
    + by apply (executed_mono s).
  - destruct (run_cached s1 t _ Hres1) as (s2 & ? & ? & ? & ? & _). eauto.
Qed.

(** C9: for every label, [all(label, [])] is a task without
    dependencies; [run] on it calls its compute function with no
    arguments, once and for all, and the promise it returns settles as
    [Ok] of the empty tuple. *)
Theorem all_empty s label :
  reachable s →
  let t := length (tasks s) in
  let p := length (promises s) in
  let s1 := with_tasks (λ h, (all label [] h).2) s in
  (all label [] (tasks s)).1 = t ∧
  ∃ T s2,
    tasks s1 !! t = Some T ∧ deps T = [] ∧
    exec (CallRun t) s1 = Some s2 ∧
    source_is s2 p (PRun t) ∧ calls s2 = calls s ++ [(t, [])] ∧
    settles s2 p (JResult (Ok (VTuple []))) ∧
    ∀ s3, steps s2 s3 →
      ncalls t s3 = 1 ∧ ∀ values, (t, values) ∈ calls s3 → values = [].
Proof.
  intros Hreach t p s1. split; [done|].
  assert (exec (CreateTask label [] tuple_of) s = Some s1) as Hcreate.
  { unfold exec. by rewrite decide_True by constructor. }
  assert (reachable s1) as Hreach1 by by econstructor.
  pose proof (reachable_Inv _ Hreach1) as HI1.
  set (T := {| label := label; deps := [];
               compute := λ values, tuple_of {| h_ok := ok;
                                                 h_err := λ error, err t error |} values;
               _promise := None; _result := None; _id := t |}).
  assert (tasks s1 !! t = Some T) as HT.
  { simpl. by rewrite lookup_app_r, Nat.sub_diag by done. }
  destruct (run_leaf_fresh s1 t T HI1 HT eq_refl) as (s2 & Hex & Hcalls).
  { unfold promise_of. by rewrite HT. }
  pose proof (exec_run_promise _ _ _ HI1 Hex) as Hp.
  assert (reachable s2) as Hreach2 by by econstructor.
  assert (∀ s3, steps s2 s3 →
    reachable s3 ∧ (t, []) ∈ calls s3 ∧
    (∀ values, (t, values) ∈ calls s3 → values = []) ∧
    ∀ v, fulfilled s3 p v → v = JResult (Ok (VTuple []))) as Hlater.
  { intros s3 Hsteps.
    pose proof (steps_reachable _ _ Hreach2 Hsteps) as Hreach3.
    pose proof (steps_extends _ _ Hreach2 Hsteps) as Hext.
    pose proof (reachable_Inv _ Hreach3) as HI3.
    destruct (task_later s1 s3 t T Hreach1
                (steps_trans _ _ _ (steps_one _ _ _ Hex) Hsteps) HT) as (T3 & HT3 & Hle).
    assert (Forall2 (λ d v, executed s3 d (Ok v)) (deps T3) []) as Hvs
      by (rewrite (le_deps _ _ Hle); constructor).
    split_and!; [done | | |].
    - apply (ext_calls _ _ Hext). rewrite Hcalls. apply elem_of_app. right. by left.
    - intros values. by apply (call_arguments s3 t T3 []).
    - intros v Hv.
      destruct (run_after_compute s3 t T3 [] p v HI3 HT3 Hvs) as [_ ->];
        [by eapply source_is_mono | done |].
      by rewrite (le_compute _ _ Hle). }
  exists T, s2. split_and!; [done..| |].
  - apply settles_intro. intros s3 Hsteps.
    destruct (Hlater s3 Hsteps) as (Hreach3 & _ & _ & Hval). split; [done|]. intros Hq.
    destruct (quiescent_fulfilled s3 (reachable_Inv _ Hreach3) (reachable_Live _ Hreach3)
                Hq p) as [v Hv].
    { destruct (source_is_mono _ _ (steps_extends _ _ Hreach2 Hsteps) _ _ Hp)
        as (pr & ? & _). by eapply lookup_lt_Some. }
    by rewrite <-(Hval v Hv).
  - intros s3 Hsteps. destruct (Hlater s3 Hsteps) as (Hreach3 & Hcall & Hargs & _).
    split; [|done].
    pose proof (reachable_ncalls t s3 Hreach3). pose proof (ncalls_pos t [] s3 Hcall). lia.
Qed.

(** C10, as amended: for a node that has not been run - no execution in
    flight, nothing settled - [run] returns the [Err] of the earliest
    dependency, in declaration order, whose cache holds an [Err] when [run]
    is called, however many later ones do. *)
Theorem earliest_cached_failure s t T i d e o :
  reachable s → tasks s !! t = Some T → _promise T = None → _result T = None →
  deps T !! i = Some d → result_of s d = Some (Err e o) →
  (∀ j d', j < i → deps T !! j = Some d' →
           ∀ e' o', result_of s d' ≠ Some (Err e' o')) →
  ∃ s1, exec (CallRun t) s = Some s1 ∧
        source_is s1 (length (promises s)) (PRun t) ∧
        settles s1 (length (promises s)) (JResult (Err e o)).
Proof.
  intros Hreach HT Hprom Hres Hi Hrd Hfirst.
  pose proof (cached_error_first (tasks s) (deps T) i d e o Hi Hrd Hfirst) as Hce.
  destruct (run_short_circuit s t T (Err e o) HT Hres Hprom)
    as (s1 & Hex & Hp & Hexd & _); [by intros Hnil; rewrite Hnil in Hi | done |].
  exists s1. split_and!; [done..|].
  assert (reachable s1) as Hreach1 by by econstructor.
  by apply (run_settles s1 _ t).
Qed.

(** * The claims on example graphs *)

(** ** C1 *)



(** ** C2 *)

(** The diamond, none of whose nodes has run. *)
Lemma compute_at_most_once_witness :
  let s := after diamond in
  reachable s ∧ (∀ t, ncalls t s ≤ 1) ∧ ncalls 0 s = 0 ∧
  ∃ s1, exec (CallRun 3) s = Some s1 ∧ ∀ s2, steps s1 s2 → ncalls 0 s2 = 1.
Proof.
  intros s.
  assert (reachable s) as Hreach.
  { apply (after_reachable _ s). vm_compute. reflexivity. }
  destruct (compute_at_most_once s Hreach) as [Hall Hdiamond].
  split_and!; [exact Hreach | exact Hall |..];
    (eapply (Hdiamond 3 1 2 0); vm_compute; reflexivity).
Defined.

(** ** C3 *)

(** A node that fails, run once; then [run] again. *)
Lemma failure_cached_witness :
  let s := after (failed_once ++ ticks 2) in
  reachable s ∧ source_is s 0 (PRun 0) ∧
  fulfilled s 0 (JResult (Err (VStr "A") 0)) ∧ steps s s ∧
  ncalls 0 s ≤ 1 ∧
  (∀ p' v, source_is s p' (PRun 0) → fulfilled s p' v →
           v = JResult (Err (VStr "A") 0)) ∧
  ∃ s2, exec (CallRun 0) s = Some s2 ∧
        source_is s2 (length (promises s)) (PRun 0) ∧
        fulfilled s2 (length (promises s)) (JResult (Err (VStr "A") 0)) ∧
        calls s2 = calls s.
Proof.
  intros s.
  assert (reachable s) as Hreach.
  { apply (after_reachable _ s). vm_compute. reflexivity. }
  assert (source_is s 0 (PRun 0)) as Hp.
  { eexists. split; [vm_compute; reflexivity | reflexivity]. }
  assert (fulfilled s 0 (JResult (Err (VStr "A") 0))) as Hful.
  { eexists. split; [vm_compute; reflexivity | reflexivity]. }
  assert (steps s s) as Hsteps by constructor.
  split_and!; [exact Hreach | exact Hp | exact Hful | exact Hsteps |..];
    apply (failure_cached s 0 0 (VStr "A") 0 s Hreach Hp Hful Hsteps).
Defined.

(** ** C4 *)

(** [x] has failed and is cached; [t] depends on [never] and on [x] and
    has not run. *)
Lemma short_circuit_witness :
  let s := after (cached_dep ++ ticks 2) in
  reachable s ∧ result_of s 0 = Some (Err (VStr "X") 0) ∧
  ∃ T, tasks s !! 2 = Some T ∧ _promise T = None ∧ _result T = None ∧ 0 ∈ deps T ∧
  ∃ r s1,
    cached_error (tasks s) (deps T) = Some r ∧
    (∃ d', d' ∈ deps T ∧ result_of s d' = Some r ∧ is_ok r = false) ∧
    exec (CallRun 2) s = Some s1 ∧
    source_is s1 (length (promises s)) (PRun 2) ∧
    settles s1 (length (promises s)) (JResult r) ∧
    calls s1 = calls s ∧
    (∀ u, u ≠ 2 → tasks s1 !! u = tasks s !! u) ∧
    length (promises s1) = S (S (length (promises s))) ∧
    ∀ s2, steps s1 s2 → ncalls 2 s2 = 0.
Proof.
  intros s.
  assert (reachable s) as Hreach.
  { apply (after_reachable _ s). vm_compute. reflexivity. }
  assert (result_of s 0 = Some (Err (VStr "X") 0)) as Hx by (vm_compute; reflexivity).
  split_and!; [exact Hreach | exact Hx |].
  eexists. split_and!;
    [vm_compute; reflexivity | reflexivity | reflexivity | right; by left |].
  eapply (short_circuit s 2 _ 0 (VStr "X") 0 Hreach);
    [vm_compute; reflexivity | reflexivity | reflexivity | right; by left | exact Hx].
Defined.

(** The node [t] is in flight when [run] is called on it, and its
    dependency [x] is settled as failed in its cache: [run] returns the
    failure of [z], which settles later. *)
Lemma short_circuit_in_flight :
  let s := after in_flight in
  reachable s ∧
  (∃ T, tasks s !! 2 = Some T ∧ deps T = [1; 0]) ∧
  result_of s 0 = Some (Err (VStr "X") 0) ∧ result_of s 1 = None ∧
  ∃ s1 s2, exec (CallRun 2) s = Some s1 ∧
           source_is s1 (length (promises s)) (PRun 2) ∧
           exec_all (ticks 10) s1 = Some s2 ∧ quiescent s2 ∧
           fulfilled s2 (length (promises s)) (JResult (Err (VStr "Z") 1)).
Proof.
  intros s. split_and!.
  - apply (after_reachable _ s). vm_compute. reflexivity.
  - eexists. split; [vm_compute; reflexivity | reflexivity].
  - vm_compute. reflexivity.
  - vm_compute. reflexivity.
  - exists (after (in_flight ++ [CallRun 2])), (after (in_flight ++ [CallRun 2] ++ ticks 10)).
    split_and!.
    + vm_compute. reflexivity.
    + eexists. split; [vm_compute; reflexivity | reflexivity].
    + vm_compute. reflexivity.
    + split; vm_compute; reflexivity.
    + eexists. split; [vm_compute; reflexivity | reflexivity].
Qed.

(** ** C5 *)

(** Two nodes that succeed and a node over them, run to the end; then
    [all] of the two nodes in the other order, and [run] on it. *)
Lemma order_preserved_witness :
  let s := after (pair_script ++ ticks 17) in
  let vs := [VNum 1; VNum 2] in
  let ts := [1; 0] in
  let sw := [VNum 2; VNum 1] in
  let a := (all "swapped" ts (tasks s)).1 in
  let s1 := with_tasks (λ h, (all "swapped" ts h).2) s in
  let s2 := default s1 (exec (CallRun a) s1) in
  reachable s ∧
  (∃ T, tasks s !! 2 = Some T ∧
        Forall2 (λ d v, executed s d (Ok v)) (deps T) vs ∧
        (∀ s' values, steps s s' → (2, values) ∈ calls s' → values = vs) ∧
        (∀ p, source_is s p (PRun 2) →
           settles s p (JResult (outcome (compute T vs))) ∧
           ∀ s' v, steps s s' → fulfilled s' p v → (2, vs) ∈ calls s')) ∧
  Forall (λ d, d < length (tasks s)) ts ∧
  reachable s1 ∧ a = 3 ∧
  (∃ T, tasks s1 !! a = Some T ∧ deps T = ts) ∧
  steps s1 s2 ∧ source_is s2 (length (promises s1)) (PRun a) ∧
  Forall2 (λ d v, executed s2 d (Ok v)) ts sw ∧
  (∃ s3, exec (CallRun a) s2 = Some s3 ∧
         source_is s3 (length (promises s2)) (PRun a)) ∧
  (∀ p v, source_is s2 p (PRun a) → fulfilled s2 p (JResult (Ok v)) →
     ∃ vs', Forall2 (λ d v, executed s2 d (Ok v)) ts vs' ∧ v = VTuple vs') ∧
  (∀ values, (a, values) ∈ calls s2 → values = sw) ∧
  settles s2 (length (promises s1)) (JResult (Ok (VTuple sw))).
Proof.
  intros s vs ts sw a s1 s2.
  assert (reachable s) as Hreach.
  { apply (after_reachable _ s). vm_compute. reflexivity. }
  destruct (order_preserved s Hreach) as [Hnode Hall].
  assert (executed s 0 (Ok (VNum 1))) as H0.
  { exists 3. split; [vm_compute; reflexivity|].
    eexists. split; [vm_compute; reflexivity | reflexivity]. }
  assert (executed s 1 (Ok (VNum 2))) as H1.
  { exists 6. split; [vm_compute; reflexivity|].
    eexists. split; [vm_compute; reflexivity | reflexivity]. }
  assert (Forall (λ d, d < length (tasks s)) ts) as Hts.
  { apply Forall_cons. split; [vm_compute; lia|].
    apply Forall_cons. split; [vm_compute; lia | apply Forall_nil_2]. }
  destruct (Hall "swapped" ts Hts) as (Hreach1 & Ha & HT & Hlater).
  assert (steps s1 s2) as Hsteps.
  { apply (exec_all_steps [CallRun a]). vm_compute. reflexivity. }
  assert (source_is s2 (length (promises s1)) (PRun a)) as Hp.
  { eexists. split; [vm_compute; reflexivity | reflexivity]. }
  assert (Forall2 (λ d v, executed s2 d (Ok v)) ts sw) as Hsw.
  { constructor; [|constructor; [|constructor]].
    - exists 6. split; [vm_compute; reflexivity|].
      eexists. split; [vm_compute; reflexivity | reflexivity].
    - exists 3. split; [vm_compute; reflexivity|].
      eexists. split; [vm_compute; reflexivity | reflexivity]. }
  destruct (Hlater s2 Hsteps) as (Hrun & Hok & Hsettles).
  destruct (Hsettles sw Hsw) as [Hargs Hset].
  split; [exact Hreach|]. split.
  { eexists. split; [vm_compute; reflexivity|].
    split; [repeat constructor; assumption|].
    eapply (Hnode 2 _ vs); [vm_compute; reflexivity|].
    repeat constructor; assumption. }
  split_and!; [exact Hts | exact Hreach1 | exact Ha | exact HT | exact Hsteps | exact Hp |
               exact Hsw | exact Hrun | exact Hok | exact Hargs | exact (Hset _ Hp)].
Defined.

(** ** C6 *)

Lemma err_helper_blames_own_node_witness :
  uses_helpers (fails "A") ∧
  ∃ T, (task "a" [] (fails "A") []).2 !! (task "a" [] (fails "A") []).1 = Some T ∧
       outcome (compute T []) = Err (VStr "A") 0 ∧
       0 = (task "a" [] (fails "A") []).1.
Proof.
  assert (uses_helpers (fails "A")) as Hc.
  { intros h values. right. by eexists. }
  split; [exact Hc|]. eexists. split; [reflexivity|]. split; [reflexivity|].
  eapply (err_helper_blames_own_node "a" [] (fails "A") [] _ [] (VStr "A") 0 Hc);
    reflexivity.
Defined.

(** The compute function of [liar] calls the exported [err] on the node
    [innocent]: [run(liar)] returns an [Err] that blames [innocent], whose
    compute function has never been called. *)
Lemma err_is_exported :
  let s := after liar_script in
  reachable s ∧ quiescent s ∧ calls s = [(1, [])] ∧
  source_is s 0 (PRun 1) ∧ fulfilled s 0 (JResult (Err (VStr "boom") 0)) ∧
  computed s 1 [] (err 0 (VStr "boom")).
Proof.
  intros s. split_and!.
  - apply (after_reachable _ s). vm_compute. reflexivity.
  - split; vm_compute; reflexivity.
  - vm_compute. reflexivity.
  - eexists. split; [vm_compute; reflexivity | reflexivity].
  - eexists. split; [vm_compute; reflexivity | reflexivity].
  - eexists. split_and!; [vm_compute; reflexivity | | reflexivity].
    vm_compute. by left.
Qed.

(** ** C7 *)

(** A graph with two nodes labelled [mid]. *)
Lemma getTrace_topological_witness :
  wf_heap labelled ∧ 3 < length labelled ∧
  ∃ order : list ref,
    getTrace labelled 3 = Some (lbl labelled <$> order) ∧
    NoDup order ∧
    (∀ u, u ∈ order ↔ reach labelled 3 u) ∧
    (∀ i u T d, order !! i = Some u → labelled !! u = Some T → d ∈ deps T →
                ∃ j, j < i ∧ order !! j = Some d) ∧
    last order = Some 3.
Proof.
  assert (wf_heap labelled) as Hwf.
  { unfold labelled.
    repeat (apply wf_heap_task; [|repeat constructor; simpl; lia]). apply wf_heap_nil. }
  assert (3 < length labelled) as Hlen by (simpl; lia).
  split_and!; [exact Hwf | exact Hlen | exact (getTrace_topological labelled 3 Hwf Hlen)].
Defined.

(** ** C8 *)

(** [d] depends on [m], whose dependency [a] fails: [run(d)] returns the
    failure that [m] has forwarded. *)
Lemma forwarded_failure_cached_witness :
  let s := after (chain ++ ticks 10) in
  let r := Err (VStr "A") 0 in
  reachable s ∧ executed s 1 r ∧ source_is s 0 (PRun 2) ∧ fulfilled s 0 (JResult r) ∧
  ∃ T, tasks s !! 2 = Some T ∧ 1 ∈ deps T ∧
  ∀ s1, steps s s1 →
    result_of s1 2 = Some r ∧ ncalls 2 s1 = 0 ∧
    ∃ s2, exec (CallRun 2) s1 = Some s2 ∧
          source_is s2 (length (promises s1)) (PRun 2) ∧
          fulfilled s2 (length (promises s1)) (JResult r) ∧
          calls s2 = calls s1.
Proof.
  intros s r.
  assert (reachable s) as Hreach.
  { apply (after_reachable _ s). vm_compute. reflexivity. }
  assert (executed s 1 r) as Hex.
  { exists 3. split; [vm_compute; reflexivity|].
    eexists. split; [vm_compute; reflexivity | reflexivity]. }
  assert (source_is s 0 (PRun 2)) as Hp.
  { eexists. split; [vm_compute; reflexivity | reflexivity]. }
  assert (fulfilled s 0 (JResult r)) as Hful.
  { eexists. split; [vm_compute; reflexivity | reflexivity]. }
  split_and!; [exact Hreach | exact Hex | exact Hp | exact Hful |].
  eexists. split; [vm_compute; reflexivity|]. split; [by left|].
  eapply (forwarded_failure_cached s 2 _ 1 r 0 Hreach);
    [vm_compute; reflexivity | by left | exact Hex | reflexivity | exact Hp | exact Hful].
Defined.

(** ** C9 *)

Lemma all_empty_witness :
  reachable init ∧
  (all "empty" [] (tasks init)).1 = 0 ∧
  ∃ T s2,
    tasks (with_tasks (λ h, (all "empty" [] h).2) init) !! 0 = Some T ∧ deps T = [] ∧
    exec (CallRun 0) (with_tasks (λ h, (all "empty" [] h).2) init) = Some s2 ∧
    source_is s2 0 (PRun 0) ∧ calls s2 = calls init ++ [(0, [])] ∧
    settles s2 0 (JResult (Ok (VTuple []))) ∧
    ∀ s3, steps s2 s3 →
      ncalls 0 s3 = 1 ∧ ∀ values, (0, values) ∈ calls s3 → values = [].
Proof.
  assert (reachable init) as Hreach by constructor.
  split; [exact Hreach|]. exact (all_empty init "empty" Hreach).
Defined.

(** ** C10 *)

(** Both dependencies of [t] have failed and are cached; [t] has not
    run. *)
Lemma earliest_cached_failure_witness :
  let s := after two_cached in
  reachable s ∧
  result_of s 0 = Some (Err (VStr "Y") 0) ∧ result_of s 1 = Some (Err (VStr "X") 1) ∧
  ∃ T, tasks s !! 2 = Some T ∧ deps T = [0; 1] ∧
  ∃ s1, exec (CallRun 2) s = Some s1 ∧
        source_is s1 (length (promises s)) (PRun 2) ∧
        settles s1 (length (promises s)) (JResult (Err (VStr "Y") 0)).
Proof.
  intros s.
  assert (reachable s) as Hreach.
  { apply (after_reachable _ s). vm_compute. reflexivity. }
  assert (result_of s 0 = Some (Err (VStr "Y") 0)) as Hy by (vm_compute; reflexivity).
  split_and!; [exact Hreach | exact Hy | vm_compute; reflexivity |].
  eexists. split; [vm_compute; reflexivity|]. split; [reflexivity|].
  eapply (earliest_cached_failure s 2 _ 0 0 (VStr "Y") 0 Hreach);
    [vm_compute; reflexivity | reflexivity | reflexivity | reflexivity | exact Hy |].
  intros j d' Hj. lia.
Defined.

(** The node [t] is settled with the failure of [x], its second
    dependency, when the first one, [y], fails: both are settled as failed
    when [run(t)] is called, and it returns the failure of [x]. *)
Lemma cached_failure_not_earliest :
  let s := after late_failure in
  reachable s ∧
  (∃ T, tasks s !! 2 = Some T ∧ deps T = [0; 1]) ∧
  result_of s 0 = Some (Err (VStr "Y") 0) ∧ result_of s 1 = Some (Err (VStr "X") 1) ∧
  ∃ s1, exec (CallRun 2) s = Some s1 ∧
        source_is s1 (length (promises s)) (PRun 2) ∧
        fulfilled s1 (length (promises s)) (JResult (Err (VStr "X") 1)).
Proof.
  intros s. split_and!.
  - apply (after_reachable _ s). vm_compute. reflexivity.
  - eexists. split; [vm_compute; reflexivity | reflexivity].
  - vm_compute. reflexivity.
  - vm_compute. reflexivity.
  - exists (after (late_failure ++ [CallRun 2])). split_and!.
    + vm_compute. reflexivity.
    + eexists. split; [vm_compute; reflexivity | reflexivity].
    + eexists. split; [vm_compute; reflexivity | reflexivity].
Qed.

(** * Further properties of the executor *)

(** ** Helper lemmas *)

(** A node has succeeded only if every node below it has. *)
Lemma ok_below s t u :
  reachable s → reach (tasks s) t u →
  ∀ v, executed s t (Ok v) → ∃ v', executed s u (Ok v').
Proof.
  intros Hreach. pose proof (reachable_Inv _ Hreach) as HI.
  induction 1 as [t | t T d u HT Hd _ IH]; intros v Hex; [by eauto|].
  destruct (executed_ok_computed s t v HI Hex) as (values & T' & HT' & Hc & _).
  destruct (call_dependencies s t values Hreach Hc) as (T'' & HT'' & Hdeps).
  assert (T'' = T) as -> by congruence.
  apply list_elem_of_lookup in Hd as [i Hi].
  destruct (Forall2_lookup_l _ _ _ _ _ Hdeps Hi) as (v' & _ & Hexd).
  by apply (IH v').
Qed.

Lemma failed_below_no_call s t a r :
  reachable s → reach (tasks s) t a → a ≠ t →
  executed s a r → is_ok r = false → ncalls t s = 0.
Proof.
  intros Hreach Hta Hne Hex Hr. apply ncalls_zero. intros values Hc.
  destruct (call_dependencies s t values Hreach Hc) as (T & HT & Hdeps).
  destruct (reach_inv _ _ _ Hta) as [-> | (T' & d & HT' & Hd & Hda)]; [done|].
  assert (T' = T) as -> by congruence.
  apply list_elem_of_lookup in Hd as [i Hi].
  destruct (Forall2_lookup_l _ _ _ _ _ Hdeps Hi) as (v & _ & Hexd).
  destruct (ok_below s d a Hreach Hda v Hexd) as [v' Hex'].
  by rewrite (executed_fun _ _ _ _ Hex Hex') in Hr.
Qed.

Lemma potential_drains a s s' : drains a → exec a s = Some s' → potential s' < potential s.
Proof.
  intros [-> | [p ->]]; [apply potential_tick | apply potential_settle].
Qed.

(** ** [run] *)

(** X1: whatever has been started, every promise that [run] has returned
    is fulfilled after finitely many steps of the event loop, the running
    compute functions completing; nothing is left to run then, and the
    result is in the cache of the node. *)
Theorem run_completes s p t :
  reachable s → source_is s p (PRun t) →
  ∃ l s' r, Forall drains l ∧ exec_all l s = Some s' ∧ quiescent s' ∧
            fulfilled s' p (JResult r) ∧ result_of s' t = Some r.
Proof.
  intros Hreach Hp.
  assert (p < length (promises s)) as Hlt.
  { destruct Hp as (pr & Hp & _). by eapply lookup_lt_Some. }
  destruct (fulfilled_in_the_end s p Hreach Hlt)
    as (l & s' & v & Hl & Hex & Hreach' & Hq & Hv).
  pose proof (steps_extends _ _ Hreach (exec_all_steps _ _ _ Hex)) as Hext.
  pose proof (source_is_mono _ _ Hext _ _ Hp) as Hp'.
  destruct (Inv_run_value _ _ _ _ (reachable_Inv _ Hreach') Hp' Hv) as (r & -> & _).
  exists l, s', r. split_and!; [done..|].
  by apply (k_result _ (reachable_Cached _ Hreach') p).
Qed.

(** X2: the event loop cannot run for ever: in whatever order the
    microtasks run and the pending compute functions complete, the number
    of these steps is bounded by the potential of the state they start
    from. *)
Theorem event_loop_bounded l : ∀ s s',
  Forall drains l → exec_all l s = Some s' → length l + potential s' ≤ potential s.
Proof.
  induction l as [|a l IH]; intros s s' Hl Hex.
  - injection Hex as <-. simpl. lia.
  - apply Forall_cons in Hl as [Ha Hl]. rewrite exec_all_cons in Hex.
    apply bind_Some in Hex as (s1 & Ha1 & Hex).
    pose proof (potential_drains a s s1 Ha Ha1). specialize (IH s1 s' Hl Hex).
    simpl. lia.
Qed.

(** X3: once a call of [run] on a node has returned an [Ok], the cache of
    the node holds it for good, the compute function of the node has been
    called exactly once, every promise [run] has returned for the node
    carries that [Ok], and a later call of [run] returns a promise that is
    already fulfilled with it, touching nothing else. *)
Theorem success_cached s t p v s1 :
  reachable s → source_is s p (PRun t) → fulfilled s p (JResult (Ok v)) →
  steps s s1 →
  result_of s1 t = Some (Ok v) ∧ ncalls t s1 = 1 ∧
  (∀ p' v', source_is s1 p' (PRun t) → fulfilled s1 p' v' → v' = JResult (Ok v)) ∧
  ∃ s2, exec (CallRun t) s1 = Some s2 ∧
        source_is s2 (length (promises s1)) (PRun t) ∧
        fulfilled s2 (length (promises s1)) (JResult (Ok v)) ∧
        calls s2 = calls s1 ∧ tasks s2 = tasks s1 ∧ microtasks s2 = microtasks s1 ∧
        length (promises s2) = S (length (promises s1)).
Proof.
  intros Hreach Hp Hful Hsteps.
  pose proof (steps_reachable _ _ Hreach Hsteps) as Hreach1.
  pose proof (reachable_Inv _ Hreach1) as HI1.
  pose proof (steps_extends _ _ Hreach Hsteps) as Hext.
  pose proof (k_result _ (reachable_Cached _ Hreach) _ _ _ Hp Hful) as Hres.
  pose proof (result_of_mono _ _ Hext _ _ Hres) as Hres1.
  pose proof (cached_executed s1 t _ HI1 Hres1) as Hex1.
  split_and!; [done | | |].
  - destruct (executed_ok_computed s1 t v HI1 Hex1) as (values & T & _ & Hc & _).
    pose proof (reachable_ncalls t s1 Hreach1). pose proof (ncalls_pos t values s1 Hc). lia.
  - intros p' v' Hp'. by apply (run_value s1 p' t).
  - apply (run_cached s1 t _ Hres1).
Qed.

(** X4: [run] on a node whose execution is in flight starts nothing: it
    creates one promise, queues the job that adopts the execution, calls
    no compute function and touches no task and no other promise; the
    promise it returns is fulfilled only with what the execution in flight
    returns, once that has returned. *)
Theorem run_in_flight s t q :
  reachable s → promise_of s t = Some q → result_of s t = None →
  ∃ s1, exec (CallRun t) s = Some s1 ∧
        source_is s1 (length (promises s)) (PRun t) ∧
        pending s1 (length (promises s)) ∧
        length (promises s1) = S (length (promises s)) ∧
        (∀ p', p' < length (promises s) → promises s1 !! p' = promises s !! p') ∧
        microtasks s1 = microtasks s ++ [ResolveThenableJob (length (promises s)) q] ∧
        tasks s1 = tasks s ∧ calls s1 = calls s ∧
        ∀ s2 v', steps s1 s2 → fulfilled s2 (length (promises s)) v' →
                 ∃ r, v' = JResult r ∧ fulfilled s2 q (JResult r).
Proof.
  intros Hreach Hq Hres. pose proof (reachable_Inv _ Hreach) as HI.
  unfold promise_of in Hq. apply bind_Some in Hq as (T & HT & Hq).
  unfold result_of in Hres. rewrite HT in Hres. simpl in Hres.
  assert (exec (CallRun t) s
          = Some (enqueue [ResolveThenableJob (length (promises s)) q]
                    (new_promise (PRun t) s).2)) as Hex.
  { unfold exec. cbn [run]. rewrite HT. simpl. by rewrite Hres, Hq. }
  eexists. split; [exact Hex|].
  assert (reachable (enqueue [ResolveThenableJob (length (promises s)) q]
                       (new_promise (PRun t) s).2)) as Hreach1 by by econstructor.
  split_and!.
  - eexists. simpl. split; [by rewrite lookup_app_r, Nat.sub_diag | done].
  - eexists. simpl. split; [by rewrite lookup_app_r, Nat.sub_diag | done].
  - simpl. rewrite length_app. simpl. lia.
  - intros p' Hp'. simpl. by apply lookup_app_l.
  - done.
  - done.
  - done.
  - intros s2 v' Hsteps Hv'.
    pose proof (steps_reachable _ _ Hreach1 Hsteps) as Hreach2.
    pose proof (steps_extends _ _ Hreach1 Hsteps) as Hext.
    assert (source_is s2 (length (promises s)) (PRun t)) as Hp2.
    { eapply source_is_mono; [exact Hext|]. eexists. simpl.
      split; [by rewrite lookup_app_r, Nat.sub_diag | done]. }
    destruct (Inv_run_value _ _ _ _ (reachable_Inv _ Hreach2) Hp2 Hv')
      as (r & -> & q' & Hq' & Hful).
    exists r. split; [done|].
    assert (promise_of s2 t = Some q) as Hq2.
    { eapply promise_of_mono; [exact Hext|]. unfold promise_of. simpl. by rewrite HT. }
    congruence.
Qed.

(** ** [executeTask] *)

(** X5: the compute function of a node is called only when every
    dependency of the node has succeeded: at each call, each dependency
    has returned an [Ok], and the arguments are their values, in the order
    of the [deps] list. *)
Theorem compute_after_dependencies s t values :
  reachable s → (t, values) ∈ calls s →
  ∃ T, tasks s !! t = Some T ∧ length values = length (deps T) ∧
       Forall2 (λ d v, executed s d (Ok v)) (deps T) values.
Proof.
  intros Hreach Hc. destruct (call_dependencies s t values Hreach Hc) as (T & HT & Hdeps).
  exists T. split_and!; [done | | done]. symmetry. by eapply Forall2_length.
Qed.

(** X6: when [run] on a node has returned an [Ok], every node it depends
    on, directly or transitively, has succeeded, and the compute function
    of each has been called exactly once. *)
Theorem success_needs_all_below s p t v u :
  reachable s → source_is s p (PRun t) → fulfilled s p (JResult (Ok v)) →
  reach (tasks s) t u →
  ∃ v' values, executed s u (Ok v') ∧ computed s u values (Ok v') ∧ ncalls u s = 1.
Proof.
  intros Hreach Hp Hful Htu. pose proof (reachable_Inv _ Hreach) as HI.
  destruct (Inv_run_value _ _ _ _ HI Hp Hful) as (r & [= <-] & Hex).
  destruct (ok_below s t u Hreach Htu v Hex) as [v' Hexu].
  destruct (executed_ok_computed s u v' HI Hexu) as [values Hc].
  exists v', values. split_and!; [done..|].
  destruct Hc as (U & _ & Hc & _).
  pose proof (reachable_ncalls u s Hreach). pose proof (ncalls_pos u values s Hc). lia.
Qed.

(** X7: once a node has failed, no node that depends on it, directly or
    transitively, is ever computed, and [run] on such a node returns only
    an [Err]. *)
Theorem failure_below_blocks s t a r :
  reachable s → reach (tasks s) t a → a ≠ t →
  executed s a r → is_ok r = false →
  ∀ s', steps s s' →
    ncalls t s' = 0 ∧
    ∀ p v, source_is s' p (PRun t) → fulfilled s' p v → ∃ e o, v = JResult (Err e o).
Proof.
  intros Hreach Hta Hne Hex Hr s' Hsteps.
  pose proof (steps_reachable _ _ Hreach Hsteps) as Hreach'.
  pose proof (steps_extends _ _ Hreach Hsteps) as Hext.
  pose proof (executed_mono _ _ Hext _ _ Hex) as Hex'.
  pose proof (reach_mono _ _ _ _ Hext Hta) as Hta'.
  split; [by apply (failed_below_no_call s' t a r)|].
  intros p v Hp Hv.
  destruct (Inv_run_value _ _ _ _ (reachable_Inv _ Hreach') Hp Hv) as (r' & -> & Hext').
  destruct r' as [v'|e o]; [|by eauto].
  destruct (ok_below s' t a Hreach' Hta' v' Hext') as [va Hexa].
  by rewrite (executed_fun _ _ _ _ Hex' Hexa) in Hr.
Qed.


(** ** [all] *)

(** X9: a task built by [all] does not fail by itself: an [Err] that
    [run] returns for it is the [Err] of one of its tasks, unchanged, and
    its compute function has not been called. *)
Theorem all_fails_with_member s t T p e o :
  reachable s → tasks s !! t = Some T → built_by_all T →
  source_is s p (PRun t) → fulfilled s p (JResult (Err e o)) →
  ncalls t s = 0 ∧ ∃ d, d ∈ deps T ∧ executed s d (Err e o).
Proof.
  intros Hreach HT Hall Hp Hful. pose proof (reachable_Inv _ Hreach) as HI.
  destruct (Inv_run_value _ _ _ _ HI Hp Hful) as (r & [= <-] & Hex).
  pose proof Hex as (q & Hq & pr & Hpr & Hs).
  unfold promise_of in Hq. rewrite HT in Hq. simpl in Hq.
  destruct (inv_tasks _ HI _ _ HT) as [Hsrc _].
  pose proof (Inv_fulfilled _ _ _ _ HI Hpr Hs) as Hv.
  rewrite (source_is_lookup _ _ _ _ (Hsrc _ Hq) Hpr) in Hv.
  destruct Hv as (r' & [= <-] & [[values (T' & HT' & _ & Hout)] | (_ & T' & d & HT' & Hd & Hexd)]).
  - assert (T' = T) as -> by congruence. by rewrite Hall in Hout.
  - assert (T' = T) as -> by congruence. split; [|by eauto].
    by apply (failed_dep_no_call s t T d (Err e o)).
Qed.

(** ** Fail-fast: the failure of a dependency does not wait *)

(** The microtask queue runs empty. *)
Lemma ticks_drain : ∀ s, ∃ n s', exec_all (ticks n) s = Some s' ∧ microtasks s' = [].
Proof.
  intros s. remember (potential s) as m eqn:Hm. revert s Hm.
  induction (lt_wf m) as [m _ IH]. intros s ->.
  destruct (microtasks s) as [|j q] eqn:Hq.
  - exists 0, s. done.
  - assert (is_Some (exec Tick s)) as [s1 Hs1] by (unfold exec; rewrite Hq; eauto).
    destruct (IH (potential s1) (potential_tick _ _ Hs1) s1 eq_refl) as (n & s' & Hex & Hs').
    exists (S n), s'. split; [|done].
    change (ticks (S n)) with (Tick :: ticks n). by rewrite exec_all_cons, Hs1.
Qed.

Section Idle.
Context (s : state) (Hreach : reachable s) (Hidle : microtasks s = []).

Lemma idle_waiting k q : waiting s k q → pending s q.
Proof.
  intros (pr & Hq & Hw). exists pr. split; [done|].
  destruct (settled pr) as [v|]; [|done]. rewrite Hidle in Hw. by apply elem_of_nil in Hw.
Qed.

Lemma idle_run_pending p t :
  source_is s p (PRun t) → pending s p → ∃ q, promise_of s t = Some q ∧ pending s q.
Proof.
  intros (pr & Hp & Hsrc) (pr' & Hp' & Hs). assert (pr' = pr) as -> by congruence.
  pose proof (live_promises _ (reachable_Live _ Hreach) p pr Hp Hs) as Ha.
  rewrite Hsrc in Ha. destruct Ha as (q & Hq & [Hw | [Hj | Hw]]).
  - exists q. split; [done | by eapply idle_waiting].
  - rewrite Hidle in Hj. by apply elem_of_nil in Hj.
  - exists q. split; [done | by eapply idle_waiting].
Qed.

(** With nothing in the queue, a promise of [run] on a node one of whose
    dependencies has failed is not pending. *)
Lemma idle_failed t T d r p :
  tasks s !! t = Some T → d ∈ deps T → executed s d r → is_ok r = false →
  source_is s p (PRun t) → ¬ pending s p.
Proof.
  intros HT Hd Hex Hr Hp Hpend.
  pose proof (reachable_Inv _ Hreach) as HI.
  pose proof (reachable_Live _ Hreach) as HL.
  destruct (idle_run_pending p t Hp Hpend) as (q & Hq & (prq & Hprq & Hsq)).
  assert (source_is s q (PExec t)) as Hqsrc.
  { unfold promise_of in Hq. rewrite HT in Hq. simpl in Hq.
    by apply (inv_tasks _ HI _ _ HT). }
  pose proof (live_promises _ HL q prq Hprq Hsq) as Ha.
  rewrite (source_is_lookup _ _ _ _ Hqsrc Hprq) in Ha.
  destruct Ha as [(pc & r0 & (prc & Hprc & Hsrc) & _) | (race & ps & cs & Hrace & Hw)].
  { (* the compute function has been called *)
    destruct (inv_promises _ HI _ _ Hprc) as (Hok & _). rewrite Hsrc in Hok.
    destruct Hok as (values & _ & _ & Hc & _).
    pose proof (failed_dep_no_call s t T d r Hreach HT Hd Hex Hr).
    pose proof (ncalls_pos t values s Hc). lia. }
  apply idle_waiting in Hw as (prr & Hprr & Hsr).
  destruct (inv_promises _ HI _ _ Hprr) as (Hok & _).
  rewrite (source_is_lookup _ _ _ _ Hrace Hprr) in Hok.
  destruct Hok as ((T' & HT' & Hps) & _ & Hlen & Hcs).
  assert (T' = T) as -> by congruence.
  apply list_elem_of_lookup in Hd as [i Hi].
  destruct (Forall2_lookup_l _ _ _ _ _ Hps Hi) as (dp & Hdp & Hdpsrc).
  destruct (lookup_lt_is_Some_2 cs i) as [c Hc].
  { rewrite Hlen. by eapply lookup_lt_Some. }
  pose proof (Hcs _ _ Hc) as Hcsrc.
  pose proof (live_promises _ HL race prr Hprr Hsr) as Har.
  rewrite (source_is_lookup _ _ _ _ Hrace Hprr) in Har. simpl in Har.
  pose proof (idle_waiting _ _ (Har c (list_elem_of_lookup_2 _ _ _ Hc)))
    as (prc & Hprc & Hsc).
  pose proof (live_promises _ HL c prc Hprc Hsc) as Hac.
  rewrite (source_is_lookup _ _ _ _ Hcsrc Hprc) in Hac.
  destruct Hac as [(d0 & Hd0 & Hw0) | (pall & Hpall & _)].
  - assert (d0 = dp) as -> by congruence.
    apply idle_waiting in Hw0.
    destruct (idle_run_pending dp d Hdpsrc Hw0) as (qd & Hqd & Hqdp).
    destruct Hex as (qd' & Hqd' & Hful). assert (qd' = qd) as -> by congruence.
    by eapply pending_fulfilled.
  - destruct (o_pall _ _ _ (reachable_Ordered _ Hreach) _ _ _ _ _ Hpall Hcsrc)
      as (d0 & r0 & Hd0 & Hful & Hr0).
    assert (d0 = dp) as -> by congruence.
    destruct (Inv_run_value _ _ _ _ HI Hdpsrc Hful) as (r1 & [= <-] & Hex1).
    rewrite (executed_fun _ _ _ _ Hex Hex1) in Hr. congruence.
Qed.
End Idle.

(** X10: once a dependency of a node has failed, a promise of [run] on
    the node is fulfilled with an [Err] by the microtasks alone: no
    compute function that is still running has to complete. *)
Theorem fail_fast s t T d r p :
  reachable s → tasks s !! t = Some T → d ∈ deps T →
  executed s d r → is_ok r = false → source_is s p (PRun t) →
  ∃ n s' e o, exec_all (ticks n) s = Some s' ∧ microtasks s' = [] ∧
              fulfilled s' p (JResult (Err e o)).
Proof.
  intros Hreach HT Hd Hex Hr Hp.
  destruct (ticks_drain s) as (n & s' & Hex' & Hidle).
  pose proof (exec_all_reachable _ _ _ Hreach Hex') as Hreach'.
  pose proof (steps_extends _ _ Hreach (exec_all_steps _ _ _ Hex')) as Hext.
  destruct (ext_tasks _ _ Hext _ _ HT) as (T' & HT' & Hle).
  pose proof (executed_mono _ _ Hext _ _ Hex) as Hexd.
  pose proof (source_is_mono _ _ Hext _ _ Hp) as Hp'.
  assert (d ∈ deps T') as Hd' by by rewrite (le_deps _ _ Hle).
  pose proof (idle_failed s' Hreach' Hidle t T' d r p HT' Hd' Hexd Hr Hp') as Hnp.
  destruct Hp' as (pr & Hpr & Hsrc).
  destruct (settled pr) as [v|] eqn:Hs; [|by destruct Hnp; exists pr].
  assert (fulfilled s' p v) as Hv by by exists pr.
  destruct (Inv_run_value _ _ _ _ (reachable_Inv _ Hreach') (ex_intro _ pr (conj Hpr Hsrc)) Hv)
    as (r' & -> & Hext').
  destruct r' as [v'|e o]; [|by exists n, s', e, o].
  assert (reach (tasks s') t d) as Htd by (eapply reach_dep; [done | done | constructor]).
  destruct (ok_below s' t d Hreach' Htd v' Hext') as [vd Hvd].
  by rewrite (executed_fun _ _ _ _ Hexd Hvd) in Hr.
Qed.

(** ** The dependencies are started together *)

#[local] Opaque promise_race call_compute contestants.

Section Started.
Context (run_f : ref → state → option (pid * state)).
Context (Hrun : run_ok run_f) (Hsync : run_sync run_f).

(** Past the check of the caches, [executeTask] returns a pending
    promise. *)
Lemma executeTask_pending t T s q s' :
  Inv s → tasks s !! t = Some T → deps T ≠ [] →
  cached_error (tasks s) (deps T) = None →
  executeTask run_f t s = Some (q, s') →
  q = length (promises s) ∧ pending s' q.
Proof.
  intros HI HT Hne Hce. unfold executeTask. rewrite HT.
  cbn -[promise_race call_compute contestants].
  set (self := length (promises s)).
  set (s1 := with_promises _ s).
  assert (s1 = (new_promise (PExec t) s).2) as Hs1 by done.
  assert (Inv s1) as HI1 by (rewrite Hs1; apply Inv_new_promise; [done | by eexists]).
  assert (promises s1 !! self = Some {| settled := None; reactions := [];
            elements := []; source := PExec t |}) as Hself
    by (rewrite Hs1; apply new_promise_lookup).
  assert (length (promises s1) = S self) as Hlen1
    by (simpl; rewrite length_app; simpl; unfold self; lia).
  assert (news (S self) [] s1) as Hnews1 by (apply news_vacuous; lia).
  destruct (deps T) as [|d0 ds0] eqn:Hdeps; [done|].
  rewrite <-Hdeps in *. change (tasks s1) with (tasks s). rewrite Hce.
  destruct (run_deps run_f (deps T) s1) as [[depPromises s2]|] eqn:Hrd; [|done].
  cbn -[promise_race call_compute contestants].
  destruct (run_deps_spec _ Hrun _ _ _ _ HI1 Hrd) as (HI2 & _ & Hps & _).
  destruct (run_deps_sync _ Hrun Hsync (S self) _ _ _ _ HI1 ltac:(lia) Hnews1 Hrd)
    as (Hgr2 & Hsy2 & Hnews2 & Hbound).
  destruct (contestants_sync (S self) t depPromises depPromises 0 s2)
    as (Hgr3 & Hsy3 & Hnews3 & Hcs); [apply grows_length in Hgr2; lia | done | | done |].
  { apply Forall_forall. intros d Hd. split.
    - rewrite Forall_forall in Hbound. specialize (Hbound _ Hd). lia.
    - apply list_elem_of_lookup in Hd as [i Hi].
      destruct (Forall2_lookup_r _ _ _ _ _ Hps Hi) as (u & _ & ?). eauto. }
  pose proof (grows_length _ _ Hgr2) as Hlen2.
  destruct (contestants t depPromises 0 depPromises s2) as [cs s3].
  cbn [fst snd] in *.
  pose proof (grows_length _ _ Hgr3) as Hlen3.
  destruct (promise_race_sync (S self) t depPromises cs s3)
    as (Hrace & Hgr4 & Hsy4 & Hnews4 & Hsrc & Hpen); [lia | done | |].
  { eapply Forall_impl; [done|]. simpl. intros c [? ?]. split; [lia | done]. }
  destruct (promise_race (PRace t depPromises cs) cs s3) as [race s4].
  cbn [fst snd] in *. intros [= <- <-]. split; [done|].
  apply pending_then.
  exists {| settled := None; reactions := []; elements := []; source := PExec t |}.
  split; [|done].
  rewrite (sync_old _ _ _ Hsy4), (sync_old _ _ _ Hsy3), (sync_old _ _ _ Hsy2) by lia.
  exact Hself.
Qed.
End Started.

Lemma run_fresh_pending fuel t T s p s' :
  Inv s → tasks s !! t = Some T → _promise T = None → deps T ≠ [] →
  cached_error (tasks s) (deps T) = None →
  run fuel t s = Some (p, s') →
  promise_of s' t = Some (S (length (promises s))) ∧
  pending s' (S (length (promises s))).
Proof.
  intros HI HT Hprom Hne Hce. destruct fuel as [|fuel]; [done|]. cbn [run].
  rewrite HT. simpl.
  assert (_result T = None) as ->.
  { pose proof (never_run_no_result s t HI) as Hres. unfold promise_of, result_of in Hres.
    rewrite HT in Hres. simpl in Hres. by apply Hres. }
  rewrite Hprom.
  set (s1 := with_promises _ s).
  assert (s1 = (new_promise (PRun t) s).2) as Hs1 by done.
  assert (Inv s1) as HI1 by (rewrite Hs1; apply Inv_new_promise; [done | by eexists]).
  destruct (executeTask (run fuel) t s1) as [[q s2]|] eqn:Hex; [|done]. simpl.
  intros [= <- <-].
  destruct (executeTask_pending (run fuel) (run_spec fuel) (run_sync_spec fuel)
              t T s1 q s2 HI1 HT Hne Hce Hex) as [-> Hpend].
  destruct (executeTask_spec _ (run_spec fuel) _ _ _ _ HI1 Hex) as (_ & Hext & _).
  destruct (ext_tasks _ _ Hext _ _ HT) as (T2 & HT2 & _).
  assert (length (promises s1) = S (length (promises s))) as Hlen
    by (simpl; rewrite length_app; simpl; lia).
  rewrite Hlen in *. split.
  - unfold promise_of. rewrite tasks_then. by apply promise_of_set_promise.
  - by apply pending_then.
Qed.

(** While the execution of a node is pending, every dependency of the
    node has been started. *)
Lemma in_flight_started s t T q d :
  reachable s → tasks s !! t = Some T → _promise T = Some q → pending s q →
  d ∈ deps T → is_Some (promise_of s d).
Proof.
  intros Hreach HT Hq (prq & Hprq & Hsq) Hd.
  pose proof (reachable_Inv _ Hreach) as HI.
  pose proof (reachable_Live _ Hreach) as HL.
  pose proof (proj1 (inv_tasks _ HI _ _ HT) _ Hq) as Hqsrc.
  pose proof (live_promises _ HL q prq Hprq Hsq) as Ha.
  rewrite (source_is_lookup _ _ _ _ Hqsrc Hprq) in Ha.
  apply list_elem_of_lookup in Hd as [i Hi].
  destruct Ha as [(pc & r0 & (prc & Hprc & Hsrc) & _) | (race & ps & cs & Hrace & _)].
  - destruct (inv_promises _ HI _ _ Hprc) as (Hok & _). rewrite Hsrc in Hok.
    destruct Hok as (values & _ & _ & Hc & _).
    destruct (call_dependencies s t values Hreach Hc) as (T' & HT' & Hdeps).
    assert (T' = T) as -> by congruence.
    destruct (Forall2_lookup_l _ _ _ _ _ Hdeps Hi) as (v & _ & qd & Hqd & _). eauto.
  - destruct Hrace as (prr & Hprr & Hsrc).
    destruct (inv_promises _ HI _ _ Hprr) as (Hok & _). rewrite Hsrc in Hok.
    destruct Hok as ((T' & HT' & Hps) & _).
    assert (T' = T) as -> by congruence.
    destruct (Forall2_lookup_l _ _ _ _ _ Hps Hi) as (dp & _ & prd & Hprd & Hdsrc).
    destruct (settled prd) as [v|] eqn:Hsd.
    + destruct (Inv_run_value s dp d v HI) as (r & _ & qd & Hqd & _);
        [by exists prd | by exists prd | eauto].
    + pose proof (live_promises _ HL dp prd Hprd Hsd) as Had. rewrite Hdsrc in Had.
      destruct Had as (qd & Hqd & _). eauto.
Qed.

(** A node without dependencies is computed when it is started. *)
Lemma started_leaf_called s d D q :
  reachable s → tasks s !! d = Some D → deps D = [] → _promise D = Some q →
  ncalls d s = 1.
Proof.
  intros Hreach HD Hleaf Hq.
  pose proof (reachable_Inv _ Hreach) as HI.
  pose proof (reachable_Live _ Hreach) as HL.
  pose proof (proj1 (inv_tasks _ HI _ _ HD) _ Hq) as (prq & Hprq & Hqsrc).
  assert (∃ values, (d, values) ∈ calls s) as [values Hc].
  { destruct (settled prq) as [v|] eqn:Hsq.
    - pose proof (Inv_fulfilled _ _ _ _ HI Hprq Hsq) as Hv. rewrite Hqsrc in Hv.
      destruct Hv as (r & _ & [[values (_ & _ & Hc & _)] | (_ & D' & d' & HD' & Hd' & _)]);
        [by eauto|].
      assert (D' = D) as -> by congruence. rewrite Hleaf in Hd'. by apply elem_of_nil in Hd'.
    - pose proof (live_promises _ HL q prq Hprq Hsq) as Ha. rewrite Hqsrc in Ha.
      destruct Ha as [(pc & r0 & (prc & Hprc & Hsrc) & _) | (race & ps & cs & Hrace & _)].
      + destruct (inv_promises _ HI _ _ Hprc) as (Hok & _). rewrite Hsrc in Hok.
        destruct Hok as (values & _ & _ & Hc & _). eauto.
      + destruct Hrace as (prr & Hprr & Hsrc).
        destruct (inv_promises _ HI _ _ Hprr) as (Hok & _). rewrite Hsrc in Hok.
        destruct Hok as ((D' & HD' & Hps) & Hne & _).
        assert (D' = D) as -> by congruence. rewrite Hleaf in Hps.
        by apply Forall2_nil_inv_l in Hps. }
  pose proof (reachable_ncalls d s Hreach). pose proof (ncalls_pos d values s Hc). lia.
Qed.

(** X11: [run] on a node that has not been run, none of whose
    dependencies is settled as failed, starts every dependency before it
    returns: the execution of the node is then pending, every dependency
    is in flight or settled, and the compute function of each dependency
    that has no dependencies of its own has been called - no dependency
    waits for another one to complete. *)
Theorem dependencies_started_together s t T :
  reachable s → tasks s !! t = Some T → _promise T = None → deps T ≠ [] →
  cached_error (tasks s) (deps T) = None →
  ∃ s1, exec (CallRun t) s = Some s1 ∧
        promise_of s1 t = Some (S (length (promises s))) ∧
        pending s1 (S (length (promises s))) ∧
        ∀ d D, d ∈ deps T → tasks s !! d = Some D →
               is_Some (promise_of s1 d) ∧ (deps D = [] → ncalls d s1 = 1).
Proof.
  intros Hreach HT Hprom Hne Hce. pose proof (reachable_Inv _ Hreach) as HI.
  destruct (exec_run_total s t HI) as [s1 Hex]; [by eapply lookup_lt_Some|].
  exists s1. split; [done|].
  assert (reachable s1) as Hreach1 by by econstructor.
  pose proof (exec_extends _ _ _ HI Hex) as Hext.
  unfold exec in Hex. apply fmap_Some in Hex as ([p s'] & Hrun & ->). cbn [snd] in *.
  destruct (run_fresh_pending _ t T s p s' HI HT Hprom Hne Hce Hrun) as [Hq Hpend].
  split_and!; [done..|]. intros d D Hd HD.
  pose proof Hq as Hq'. unfold promise_of in Hq'. apply bind_Some in Hq' as (T1 & HT1 & Hq1).
  destruct (ext_tasks _ _ Hext _ _ HT) as (T1' & HT1' & Hle).
  assert (T1' = T1) as -> by congruence.
  assert (d ∈ deps T1) as Hd1 by by rewrite (le_deps _ _ Hle).
  pose proof (in_flight_started s' t T1 _ d Hreach1 HT1 Hq1 Hpend Hd1) as [qd Hqd].
  split; [by eauto|]. intros Hleaf.
  unfold promise_of in Hqd. apply bind_Some in Hqd as (D1 & HD1 & Hqd).
  destruct (ext_tasks _ _ Hext _ _ HD) as (D1' & HD1' & HleD).
  assert (D1' = D1) as -> by congruence.
  apply (started_leaf_called s' d D1 qd Hreach1 HD1); [|done].
  by rewrite (le_deps _ _ HleD).
Qed.

(** ** The compute functions are called in dependency order *)

#[local] Transparent promise_race promise_all call_compute all_element contestants.

Lemma calls_promise_all src ps s : calls (promise_all src ps s).2 = calls s.
Proof.
  unfold promise_all. cbn [snd]. rewrite calls_fold_then.
  destruct (decide (ps = [])); [by rewrite calls_resolve | done].
Qed.

Lemma calls_all_element target index x s : calls (all_element target index x s) = calls s.
Proof.
  unfold all_element. destruct (promises s !! target) as [pr|]; [|done].
  destruct (mapM id _); [by rewrite calls_resolve | done].
Qed.

#[local] Opaque promise_race promise_all call_compute all_element contestants.

(** A call of [run] calls only compute functions of nodes without
    dependencies. *)
Section CallsRun.
Context (run_f : ref → state → option (pid * state)).
Context (Hleaf : ∀ t s p s', run_f t s = Some (p, s') →
                   ∃ l, calls s' = calls s ++ l ∧ Forall (λ c, c.2 = []) l).

Lemma run_deps_calls ds : ∀ s ps s',
  run_deps run_f ds s = Some (ps, s') →
  ∃ l, calls s' = calls s ++ l ∧ Forall (λ c, c.2 = []) l.
Proof.
  induction ds as [|d ds IH]; intros s ps s'; simpl.
  { intros [= <- <-]. exists []. by rewrite app_nil_r. }
  destruct (run_f d s) as [[p s1]|] eqn:Hr; [|done]. simpl.
  destruct (run_deps run_f ds s1) as [[ps1 s2]|] eqn:Hrd; [|done]. simpl.
  intros [= <- <-]. destruct (Hleaf _ _ _ _ Hr) as (l1 & Hl1 & Hf1).
  destruct (IH _ _ _ Hrd) as (l2 & Hl2 & Hf2).
  exists (l1 ++ l2). split; [by rewrite Hl2, Hl1, (assoc_L (++)) | by apply Forall_app].
Qed.

Lemma executeTask_calls t s p s' :
  executeTask run_f t s = Some (p, s') →
  ∃ l, calls s' = calls s ++ l ∧ Forall (λ c, c.2 = []) l.
Proof.
  unfold executeTask. destruct (tasks s !! t) as [T|]; [|done]. simpl.
  set (s1 := with_promises _ s).
  destruct (deps T) as [|d0 ds0] eqn:Hdeps.
  - pose proof (calls_call_compute t T [] s1) as Hcc.
    destruct (call_compute t T [] s1) as [pc s2]. simpl in Hcc.
    intros [= <- <-]. exists [(t, [])]. rewrite calls_then, Hcc.
    split; [done | by constructor].
  - rewrite <-Hdeps. destruct (cached_error _ _).
    + intros [= <- <-]. exists []. by rewrite calls_resolve, app_nil_r.
    + destruct (run_deps run_f (deps T) s1) as [[depPromises s2]|] eqn:Hrd; [|done].
      cbn -[promise_race call_compute contestants].
      pose proof (calls_contestants t depPromises depPromises 0 s2) as Hc3.
      destruct (contestants t depPromises 0 depPromises s2) as [cs s3].
      pose proof (calls_promise_race (PRace t depPromises cs) cs s3) as Hc4.
      destruct (promise_race (PRace t depPromises cs) cs s3) as [race s4].
      simpl in *. intros [= <- <-]. rewrite calls_then, Hc4, Hc3.
      by apply (run_deps_calls _ _ _ _ Hrd).
Qed.
End CallsRun.

Lemma run_calls fuel : ∀ t s p s',
  run fuel t s = Some (p, s') →
  ∃ l, calls s' = calls s ++ l ∧ Forall (λ c, c.2 = []) l.
Proof.
  induction fuel as [|fuel IH]; intros t s p s'; simpl; [done|].
  destruct (tasks s !! t) as [T|]; [|done]. simpl.
  set (s1 := with_promises _ s).
  destruct (_result T).
  { intros [= <- <-]. exists []. by rewrite calls_resolve, app_nil_r. }
  destruct (_promise T).
  { intros [= <- <-]. exists []. by rewrite app_nil_r. }
  destruct (executeTask (run fuel) t s1) as [[q s2]|] eqn:Hex; [|done]. simpl.
  intros [= <- <-]. rewrite calls_then. simpl.
  by apply (executeTask_calls _ IH _ _ _ _ Hex).
Qed.

(** A microtask calls at most one compute function. *)
Lemma run_reaction_calls k v s :
  ∃ l, calls (run_reaction k v s) = calls s ++ l ∧ length l ≤ 1.
Proof.
  assert (∀ s', calls s' = calls s → ∃ l, calls s' = calls s ++ l ∧ length l ≤ 1) as Hsame.
  { intros s' ->. exists []. rewrite app_nil_r. split; [done | simpl; lia]. }
  destruct k as [t self|t self|ps self|self|t self|t self|target|target index],
    v as [r| |w]; simpl; try (apply Hsame; by rewrite ?calls_resolve).
  - destruct (is_ok r); [|apply Hsame; by rewrite calls_resolve].
    pose proof (calls_promise_all (PAll self) ps s) as Hc.
    destruct (promise_all (PAll self) ps s) as [pall s1]. simpl in Hc.
    apply Hsame. by rewrite calls_then.
  - destruct w as [e|rs]; [apply Hsame; by rewrite calls_resolve|].
    destruct (tasks s !! t) as [T|]; [|by apply Hsame].
    pose proof (calls_call_compute t T (value_of <$> rs) s) as Hc.
    destruct (call_compute t T (value_of <$> rs) s) as [pc s1]. simpl in Hc.
    exists [(t, value_of <$> rs)]. rewrite calls_then. split; [done | simpl; lia].
  - apply Hsame. by rewrite calls_all_element.
Qed.

Lemma exec_calls a s s' :
  exec a s = Some s' →
  ∃ l, calls s' = calls s ++ l ∧ (length l ≤ 1 ∨ Forall (λ c, c.2 = []) l).
Proof.
  destruct a as [l0 ds c|t|p|]; cbn [exec].
  - destruct (decide _); [|done]. intros [= <-]. exists []. simpl. rewrite app_nil_r.
    split; [done | left; simpl; lia].
  - intros ([p s1] & Hrun & ->)%fmap_Some. destruct (run_calls _ _ _ _ _ Hrun) as (l & ? & ?).
    eauto.
  - destruct (promises s !! p) as [pr|]; [|done]. simpl.
    destruct (source pr); try done. destruct (settled pr); [done|].
    intros [= <-]. exists []. rewrite calls_resolve, app_nil_r. split; [done | left; simpl; lia].
  - destruct (microtasks s) as [|j q]; [done|]. intros [= <-].
    destruct j as [k v|target thenable]; cbn [run_job].
    + destruct (run_reaction_calls k v {| tasks := tasks s; promises := promises s;
                                          microtasks := q; calls := calls s |})
        as (l & Hl & ?). exists l. eauto.
    + exists []. rewrite calls_then, app_nil_r. split; [done | left; simpl; lia].
Qed.

(** X12: in the log of the calls of compute functions, a call for a node
    comes after a call for each of its dependencies: the dependencies are
    computed first. *)
Theorem computed_in_dependency_order s i t values T d :
  reachable s → calls s !! i = Some (t, values) →
  tasks s !! t = Some T → d ∈ deps T →
  ∃ j vs, j < i ∧ calls s !! j = Some (d, vs).
Proof.
  intros Hreach. revert i t values T d.
  induction Hreach as [|s a s' Hreach IH Hex]; intros i t values T' d Hi HT' Hd.
  { simpl in Hi. by rewrite lookup_nil in Hi. }
  pose proof (reachable_Inv _ Hreach) as HI.
  assert (reachable s') as Hreach' by by econstructor.
  destruct (exec_calls _ _ _ Hex) as (l & Hl & Hnew).
  pose proof (exec_extends _ _ _ HI Hex) as Hext.
  rewrite Hl in Hi |- *. apply lookup_app_Some in Hi as [Hi | [Hge Hi]].
  - (* a call made before the step *)
    pose proof (inv_calls _ HI) as Hcalls. rewrite Forall_forall in Hcalls.
    destruct (Hcalls _ (list_elem_of_lookup_2 _ _ _ Hi)) as (rs & (T & HT & _) & _).
    simpl in HT. destruct (ext_tasks _ _ Hext _ _ HT) as (T'' & HT'' & Hle).
    assert (T'' = T') as -> by congruence.
    rewrite (le_deps _ _ Hle) in Hd.
    destruct (IH i t values T d Hi HT Hd) as (j & vs & Hj & Hjd).
    exists j, vs. split; [done | by apply lookup_app_l_Some].
  - (* a call made by the step *)
    assert ((t, values) ∈ calls s') as Hc.
    { rewrite Hl. apply elem_of_app. right. by eapply list_elem_of_lookup_2. }
    destruct (call_dependencies s' t values Hreach' Hc) as (T & HT & Hdeps).
    assert (T = T') as -> by congruence.
    pose proof Hd as [n Hn]%list_elem_of_lookup.
    destruct (Forall2_lookup_l _ _ _ _ _ Hdeps Hn) as (v & Hv & Hexd).
    destruct Hnew as [Hone | Hleaf].
    + destruct (executed_ok_computed s' d v (reachable_Inv _ Hreach') Hexd)
        as (vs & _ & _ & [j Hj]%list_elem_of_lookup & _).
      rewrite Hl in Hj. exists j, vs. split; [|done].
      pose proof (lookup_lt_Some _ _ _ Hj) as Hlt. rewrite length_app in Hlt.
      assert (i - length (calls s) = 0) as Hi0
        by (apply lookup_lt_Some in Hi; lia).
      assert (j ≠ i); [|lia]. intros ->.
      rewrite lookup_app_r, Hi in Hj by lia. injection Hj as -> _.
      destruct (inv_heap _ (reachable_Inv _ Hreach') _ _ HT) as [_ Hlt'].
      rewrite Forall_forall in Hlt'. specialize (Hlt' _ Hd). lia.
    + rewrite Forall_forall in Hleaf.
      specialize (Hleaf _ (list_elem_of_lookup_2 _ _ _ Hi)). simpl in Hleaf.
      subst values. by rewrite lookup_nil in Hv.
Qed.

(** ** [getEdges] *)

Section EdgesProofs.
Context (h : list Task) (Hwf : wf_heap h).

Lemma edges_of_lookup t T : h !! t = Some T → edges_of h t = (λ d, (d, t)) <$> deps T.
Proof. unfold edges_of. by intros ->. Qed.

Lemma traverse_edges_spec fuel : ∀ t vis es,
  t < fuel → t < length h →
  (∀ u w, u ≤ t → u ∈ vis → reach h u w → w ∈ vis) →
  ∃ o' es',
    traverse_edges h fuel t (vis, edge_labels h <$> es)
    = Some (vis ∪ list_to_set o', edge_labels h <$> (es ++ es')) ∧
    NoDup o' ∧ (∀ u, u ∈ o' ↔ reach h t u ∧ u ∉ vis) ∧
    es' ≡ₚ o' ≫= edges_of h.
Proof.
  induction fuel as [|fuel IH]; intros t vis es Hfuel Hlen Hclosed; [lia|].
  destruct (lookup_lt_is_Some_2 _ _ Hlen) as [T HT].
  destruct (Hwf _ _ HT) as [Hid Hdeps].
  simpl. rewrite HT. simpl. rewrite Hid.
  destruct (decide (t ∈ vis)) as [Hin | Hnin].
  { (* already visited *)
    exists [], []. rewrite app_nil_r. simpl. rewrite (right_id_L ∅ (∪)).
    split_and!; [done | constructor | | done].
    intros u. split; [intros []%elem_of_nil|].
    intros [Hr Hn]. destruct Hn. by apply (Hclosed t u). }
  (* the loop over the dependencies *)
  assert (∀ ds, Forall (λ d, d < t) ds → ∀ vis1 es1,
    (∀ u w, u < t → u ∈ vis1 → reach h u w → w ∈ vis1) →
    ∃ o2 es2,
      foldl (λ acc dep, acc ← acc; D ← h !! dep;
               traverse_edges h fuel dep (acc.1, acc.2 ++ [(label D, label T)]))
            (Some (vis1, edge_labels h <$> es1)) ds
      = Some (vis1 ∪ list_to_set o2, edge_labels h <$> (es1 ++ es2)) ∧
      NoDup o2 ∧
      (∀ u, u ∈ o2 ↔ (∃ d, d ∈ ds ∧ reach h d u) ∧ u ∉ vis1) ∧
      es2 ≡ₚ ((λ d, (d, t)) <$> ds) ++ (o2 ≫= edges_of h)) as Hloop.
  { induction ds as [|d ds IHds]; intros Hds vis1 es1 Hcl1.
    - exists [], []. rewrite app_nil_r. simpl. rewrite (right_id_L ∅ (∪)).
      split_and!; [done | constructor | | done].
      intros u. split; [intros []%elem_of_nil|].
      intros [(d & []%elem_of_nil & _) _].
    - apply Forall_cons in Hds as [Hd Hds]. simpl.
      destruct (lookup_lt_is_Some_2 h d) as [D HD]; [lia|]. rewrite HD. simpl.
      assert ((edge_labels h <$> es1) ++ [(label D, label T)]
              = edge_labels h <$> (es1 ++ [(d, t)])) as ->.
      { rewrite fmap_app. simpl. unfold edge_labels at 3, lbl. simpl.
        by rewrite HD, HT. }
      destruct (IH d vis1 (es1 ++ [(d, t)])) as (oa & ea & Hres & Hnda & Hina & Hpa);
        [lia | lia | intros u w Hu; apply Hcl1; lia |].
      rewrite Hres.
      destruct (IHds Hds (vis1 ∪ list_to_set oa) ((es1 ++ [(d, t)]) ++ ea))
        as (ob & eb & Hresb & Hndb & Hinb & Hpb).
      { intros u w Hu [Hv | Ho]%elem_of_union Hr.
        - apply elem_of_union. left. by apply (Hcl1 u).
        - apply elem_of_list_to_set, Hina in Ho as [Hdu Hnv].
          destruct (decide (w ∈ vis1)) as [|Hnw]; [set_solver|].
          apply elem_of_union. right. apply elem_of_list_to_set, Hina.
          split; [|done]. clear -Hdu Hr.
          induction Hdu as [|x X y z HX Hy _ IHr]; [done|]. econstructor; eauto. }
      exists (oa ++ ob), ([(d, t)] ++ ea ++ eb). split_and!.
      + rewrite Hresb, list_to_set_app_L, (assoc_L (∪)). by rewrite <-!(assoc_L (++)).
      + apply NoDup_app. split_and!; [done | | done].
        intros u Hu Hub. apply Hinb in Hub as [_ Hn]. set_solver.
      + intros u. rewrite elem_of_app, Hinb.
        setoid_rewrite elem_of_cons. rewrite elem_of_union, elem_of_list_to_set.
        split.
        * intros [[Hr Hn]%Hina | [(d' & Hd' & Hr) Hn]].
          -- split; [exists d; auto | done].
          -- split; [exists d'; auto | tauto].
        * intros [(d' & [-> | Hd'] & Hr) Hn]; [left; by apply Hina|].
          destruct (decide (u ∈ oa)) as [Hoa | Hoa]; [by left|].
          right. split; [eauto | tauto].
      + rewrite Hpa, Hpb, bind_app. simpl. apply perm_skip.
        apply Permutation_app_swap_app. }
  destruct (Hloop (deps T) Hdeps (vis ∪ {[t]}) es) as (o2 & es2 & Hres & Hnd2 & Hin2 & Hp2).
  { intros u w Hu [Hv | ->%elem_of_singleton]%elem_of_union Hr; [|lia].
    apply elem_of_union. left. apply (Hclosed u); [lia | done | done]. }
  rewrite Hres. exists (t :: o2), es2. split_and!.
  - do 2 f_equal. rewrite list_to_set_cons. set_solver.
  - constructor; [|done]. intros [(d & Hd & Hr) _]%Hin2.
    rewrite Forall_forall in Hdeps. specialize (Hdeps _ Hd).
    pose proof (reach_le _ _ _ Hwf Hr). lia.
  - intros u. rewrite elem_of_cons, Hin2. split.
    + intros [-> | [(d & Hd & Hr) Hn]].
      * split; [constructor | done].
      * split; [by eapply reach_dep | set_solver].
    + intros [Hr Hn]. inversion Hr as [|? T' d ? HT' Hd Hr']; subst; [by left|].
      right. assert (T' = T) as -> by congruence.
      split; [by eauto|]. intros [? | ->%elem_of_singleton]%elem_of_union; [done|].
      rewrite Forall_forall in Hdeps. specialize (Hdeps _ Hd).
      pose proof (reach_le _ _ _ Hwf Hr'). lia.
  - rewrite Hp2. simpl. by rewrite (edges_of_lookup _ _ HT).
Qed.
End EdgesProofs.

(** X13: in a graph built by [task], [getEdges] returns one pair of
    labels, dependency first, for each entry of the [deps] list of each
    node reachable from the node, and nothing else: the edges of the
    reachable part of the graph, each one once, also where nodes are
    shared. *)
Theorem getEdges_complete (h : list Task) (t : ref) :
  wf_heap h → t < length h →
  ∃ (order : list ref) (es : list (ref * ref)),
    getEdges h t = Some (edge_labels h <$> es) ∧
    NoDup order ∧ (∀ u, u ∈ order ↔ reach h t u) ∧
    es ≡ₚ order ≫= edges_of h ∧
    ∀ d u, (d, u) ∈ es ↔ reach h t u ∧ ∃ U, h !! u = Some U ∧ d ∈ deps U.
Proof.
  intros Hwf Hlen.
  destruct (traverse_edges_spec h Hwf (S (length h)) t ∅ [])
    as (o & es & Hres & Hnd & Hin & Hp); [lia | done | set_solver |].
  exists o, es. unfold getEdges.
  change (@nil (string * string)) with (edge_labels h <$> @nil (nat * nat)).
  rewrite Hres. simpl.
  assert (∀ u, u ∈ o ↔ reach h t u) as Hin'.
  { intros u. rewrite Hin. set_solver. }
  split_and!; [done..|].
  intros d u. rewrite Hp, list_elem_of_bind. split.
  - intros (u' & Hd & Hu'). unfold edges_of in Hd.
    destruct (h !! u') as [U|] eqn:HU; simpl in Hd; [|by apply elem_of_nil in Hd].
    apply list_elem_of_fmap in Hd as (d' & [= -> ->] & Hd').
    split; [by apply Hin' | eauto].
  - intros (Hr & U & HU & Hd). exists u. split; [|by apply Hin'].
    rewrite (edges_of_lookup _ _ _ HU). apply list_elem_of_fmap. eauto.
Qed.

(** ** The trace does not depend on what has run *)

Section Stable.
Context (h h' : list Task) (Hwf : wf_heap h).
Context (Hsame : ∀ t T, h !! t = Some T →
           ∃ T', h' !! t = Some T' ∧ label T' = label T ∧ deps T' = deps T ∧
                 _id T' = _id T).

Lemma traverse_stable fuel : ∀ fuel' t acc,
  t < fuel → t < fuel' → t < length h →
  traverse h' fuel' t acc = traverse h fuel t acc.
Proof.
  induction fuel as [|fuel IH]; intros fuel' t acc Hf Hf' Hlen; [lia|].
  destruct fuel' as [|fuel']; [lia|].
  destruct (lookup_lt_is_Some_2 _ _ Hlen) as [T HT].
  destruct (Hsame _ _ HT) as (T' & HT' & Hl & Hd & Hi).
  simpl. rewrite HT, HT'. simpl. rewrite Hi, Hd, Hl.
  destruct (decide _); [done|].
  destruct (Hwf _ _ HT) as [_ Hdeps].
  assert (∀ ds, Forall (λ d, d < t) ds → ∀ a,
            foldl (λ acc dep, acc ≫= traverse h' fuel' dep) a ds
            = foldl (λ acc dep, acc ≫= traverse h fuel dep) a ds) as Hloop.
  { induction ds as [|d ds IHds]; intros Hds a; [done|].
    apply Forall_cons in Hds as [Hd' Hds]. simpl. rewrite IHds by done. f_equal.
    destruct a as [a|]; [|done]. simpl. apply IH; lia. }
  by rewrite Hloop.
Qed.

Lemma traverse_edges_stable fuel : ∀ fuel' t acc,
  t < fuel → t < fuel' → t < length h →
  traverse_edges h' fuel' t acc = traverse_edges h fuel t acc.
Proof.
  induction fuel as [|fuel IH]; intros fuel' t acc Hf Hf' Hlen; [lia|].
  destruct fuel' as [|fuel']; [lia|].
  destruct (lookup_lt_is_Some_2 _ _ Hlen) as [T HT].
  destruct (Hsame _ _ HT) as (T' & HT' & Hl & Hd & Hi).
  simpl. rewrite HT, HT'. simpl. rewrite Hi, Hd, Hl.
  destruct (decide _); [done|].
  destruct (Hwf _ _ HT) as [_ Hdeps].
  generalize (Some (acc.1 ∪ {[_id T]}, acc.2)). revert Hdeps. generalize (deps T).
  induction l as [|d ds IHds]; intros Hds a; [done|].
  apply Forall_cons in Hds as [Hd' Hds]. simpl. rewrite IHds by done. f_equal.
  destruct a as [a|]; [|done]. simpl.
  destruct (lookup_lt_is_Some_2 h d) as [D HD]; [lia|].
  destruct (Hsame _ _ HD) as (D' & HD' & HlD & _).
  rewrite HD, HD'. simpl. rewrite HlD. apply IH; lia.
Qed.
End Stable.

(** X14: what [getTrace] and [getEdges] return for a node does not
    change when tasks are created or run: they read the labels, the
    dependencies and the identity tokens only. *)
Theorem trace_stable s s' t :
  reachable s → steps s s' → t < length (tasks s) →
  getTrace (tasks s') t = getTrace (tasks s) t ∧
  getEdges (tasks s') t = getEdges (tasks s) t.
Proof.
  intros Hreach Hsteps Hlen.
  pose proof (steps_extends _ _ Hreach Hsteps) as Hext.
  pose proof (inv_heap _ (reachable_Inv _ Hreach)) as Hwf.
  assert (∀ u T, tasks s !! u = Some T →
            ∃ T', tasks s' !! u = Some T' ∧ label T' = label T ∧ deps T' = deps T ∧
                  _id T' = _id T) as Hsame.
  { intros u T HT. destruct (ext_tasks _ _ Hext _ _ HT) as (T' & HT' & Hle).
    exists T'. split_and!; [done | apply Hle..]. }
  assert (t < length (tasks s')) as Hlen'.
  { destruct (lookup_lt_is_Some_2 _ _ Hlen) as [T HT].
    destruct (Hsame _ _ HT) as (T' & HT' & _). by eapply lookup_lt_Some. }
  unfold getTrace, getEdges. split; f_equal.
  - apply (traverse_stable _ _ Hwf Hsame); lia.
  - apply (traverse_edges_stable _ _ Hwf Hsame); lia.
Qed.

(** ** Nothing is started that has not been asked for *)

#[local] Transparent promise_race promise_all call_compute all_element contestants.

Lemma tasks_contestants t ps : ∀ rest i s,
  tasks (contestants t ps i rest s).2 = tasks s.
Proof.
  induction rest as [|d rest IH]; intros i s; simpl; [done|].
  specialize (IH (S i) (then_ d (ContestantAwaitDep ps (length (promises s)))
                          (new_promise (PContestant t ps i) s).2)).
  destruct (contestants _ _ _ _ _) as [cs s']. simpl in *. by rewrite IH, tasks_then.
Qed.

Lemma tasks_promise_race src cs s : tasks (promise_race src cs s).2 = tasks s.
Proof. unfold promise_race. simpl. by rewrite tasks_fold_then. Qed.

Lemma tasks_promise_all src ps s : tasks (promise_all src ps s).2 = tasks s.
Proof.
  unfold promise_all. cbn [snd]. rewrite tasks_fold_then.
  destruct (decide (ps = [])); [by rewrite tasks_resolve | done].
Qed.

#[local] Opaque promise_race promise_all call_compute all_element contestants.

Section Lazy.
Context (run_f : ref → state → option (pid * state)).
Context (Hrun : run_ok run_f).
Context (Hframe : ∀ t s p s' u, Inv s → run_f t s = Some (p, s') →
                    promise_of s' u ≠ promise_of s u → reach (tasks s') t u).

Lemma run_deps_frame ds : ∀ s ps s' u,
  Inv s → run_deps run_f ds s = Some (ps, s') →
  promise_of s' u ≠ promise_of s u → ∃ d, d ∈ ds ∧ reach (tasks s') d u.
Proof.
  induction ds as [|d ds IH]; intros s ps s' u HI; simpl.
  { by intros [= <- <-]. }
  destruct (run_f d s) as [[p s1]|] eqn:Hr; [|done]. simpl.
  destruct (run_deps run_f ds s1) as [[ps1 s2]|] eqn:Hrd; [|done]. simpl.
  intros [= <- <-] Hne.
  destruct (Hrun _ _ _ _ HI Hr) as (HI1 & _).
  destruct (run_deps_spec _ Hrun _ _ _ _ HI1 Hrd) as (_ & Hext & _).
  destruct (decide (promise_of s1 u = promise_of s u)) as [Heq | Hne1].
  - rewrite <-Heq in Hne. destruct (IH _ _ _ _ HI1 Hrd Hne) as (d' & Hd' & Hr').
    exists d'. split; [by right | done].
  - exists d. split; [by left|]. eapply reach_mono; [exact Hext|].
    exact (Hframe d s p s1 u HI Hr Hne1).
Qed.

Lemma executeTask_frame t s p s' u :
  Inv s → executeTask run_f t s = Some (p, s') →
  promise_of s' u ≠ promise_of s u →
  ∃ T d, tasks s' !! t = Some T ∧ d ∈ deps T ∧ reach (tasks s') d u.
Proof.
  intros HI. unfold executeTask. destruct (tasks s !! t) as [T|] eqn:HT; [|done]. simpl.
  set (s1 := with_promises _ s).
  assert (s1 = (new_promise (PExec t) s).2) as Hs1 by done.
  assert (Inv s1) as HI1 by (rewrite Hs1; apply Inv_new_promise; [done | by eexists]).
  destruct (deps T) as [|d0 ds0] eqn:Hdeps.
  - pose proof (tasks_call_compute t T [] s1) as Hcc.
    destruct (call_compute t T [] s1) as [pc s2]. simpl in Hcc.
    intros [= <- <-]. unfold promise_of. by rewrite tasks_then, Hcc.
  - rewrite <-Hdeps. destruct (cached_error _ _).
    + intros [= <- <-]. unfold promise_of. by rewrite tasks_resolve.
    + destruct (run_deps run_f (deps T) s1) as [[depPromises s2]|] eqn:Hrd; [|done].
      cbn -[promise_race call_compute contestants].
      pose proof (tasks_contestants t depPromises depPromises 0 s2) as Hc3.
      destruct (contestants t depPromises 0 depPromises s2) as [cs s3].
      pose proof (tasks_promise_race (PRace t depPromises cs) cs s3) as Hc4.
      destruct (promise_race (PRace t depPromises cs) cs s3) as [race s4].
      simpl in Hc3, Hc4. intros [= <- <-]. unfold promise_of.
      rewrite tasks_then, Hc4, Hc3. intros Hne.
      destruct (run_deps_frame _ _ _ _ u HI1 Hrd Hne) as (d & Hd & Hr).
      destruct (run_deps_spec _ Hrun _ _ _ _ HI1 Hrd) as (_ & Hext & _).
      destruct (ext_tasks _ _ Hext t T HT) as (T2 & HT2 & Hle).
      exists T2, d. split_and!; [done | by rewrite (le_deps _ _ Hle) | done].
Qed.
End Lazy.

Lemma run_frame fuel : ∀ t s p s' u,
  Inv s → run fuel t s = Some (p, s') →
  promise_of s' u ≠ promise_of s u → reach (tasks s') t u.
Proof.
  induction fuel as [|fuel IH]; intros t s p s' u HI; simpl; [done|].
  destruct (tasks s !! t) as [T|] eqn:HT; [|done]. simpl.
  set (s1 := with_promises _ s).
  assert (s1 = (new_promise (PRun t) s).2) as Hs1 by done.
  assert (Inv s1) as HI1 by (rewrite Hs1; apply Inv_new_promise; [done | by eexists]).
  destruct (_result T).
  { intros [= <- <-]. unfold promise_of. by rewrite tasks_resolve. }
  destruct (_promise T) eqn:Hprom.
  { by intros [= <- <-]. }
  destruct (executeTask (run fuel) t s1) as [[q s2]|] eqn:Hex; [|done]. simpl.
  intros [= <- <-].
  destruct (decide (u = t)) as [->|Hne]; [constructor|].
  unfold promise_of. rewrite tasks_then, tasks_set_promise_ne by done. intros Hch.
  destruct (executeTask_frame _ (run_spec fuel) IH _ _ _ _ u HI1 Hex Hch)
    as (T2 & d & HT2 & Hd & Hr).
  destruct (executeTask_spec _ (run_spec fuel) _ _ _ _ HI1 Hex) as (_ & _ & _ & Hsame).
  assert (extends s2 (set_promise t q s2)) as Hext.
  { apply set_promise_extends.
    unfold promise_of. rewrite Hsame by done. change (tasks s1) with (tasks s).
    by rewrite HT. }
  destruct (ext_tasks _ _ Hext _ _ HT2) as (T3 & HT3 & Hle).
  eapply reach_dep; [exact HT3 | by rewrite (le_deps _ _ Hle) |].
  by eapply reach_mono.
Qed.

Lemma run_reaction_started k v s u :
  promise_of (run_reaction k v s) u = promise_of s u.
Proof.
  destruct k as [t self|t self|ps self|self|t self|t self|target|target index],
    v as [r| |w]; cbn [run_reaction]; try done;
    try (unfold promise_of; by rewrite tasks_resolve); unfold promise_of at 1.
  - rewrite tasks_resolve. apply promise_of_set_result.
  - destruct (is_ok r); [|by rewrite tasks_resolve].
    pose proof (tasks_promise_all (PAll self) ps s) as Hc.
    destruct (promise_all (PAll self) ps s) as [pall s1]. simpl in Hc.
    by rewrite tasks_then, Hc.
  - destruct w as [e|rs]; [by rewrite tasks_resolve|].
    destruct (tasks s !! t) as [T|]; [|done].
    pose proof (tasks_call_compute t T (value_of <$> rs) s) as Hc.
    destruct (call_compute t T (value_of <$> rs) s) as [pc s1]. simpl in Hc.
    by rewrite tasks_then, Hc.
  - by rewrite tasks_all_element.
Qed.

(** X15: the executor is lazy.  Creating a task starts nothing, and
    neither do the microtasks or a compute function that completes: the
    execution of a node is started only by a call of [run] on it or on a
    node that depends on it, directly or transitively, and the compute
    function of a node that has not been started has not been called. *)
Theorem started_only_on_demand s :
  reachable s →
  (∀ u, promise_of s u = None → ncalls u s = 0) ∧
  ∀ a s' u, exec a s = Some s' → promise_of s' u ≠ promise_of s u →
    promise_of s u = None ∧ ∃ t, a = CallRun t ∧ reach (tasks s') t u.
Proof.
  intros Hreach. pose proof (reachable_Inv _ Hreach) as HI.
  split; [intros u; by apply never_run_never_called|].
  intros a s' u Hex Hne. split.
  { destruct (promise_of s u) as [q|] eqn:Hq; [|done]. destruct Hne.
    by apply (promise_of_mono _ _ (exec_extends _ _ _ HI Hex)). }
  destruct a as [l0 ds c|t|p|]; cbn [exec] in Hex.
  - destruct (decide _); [|done]. injection Hex as <-. destruct Hne.
    unfold promise_of, task. simpl.
    destruct (decide (u < length (tasks s))) as [Hlt | Hge].
    + by rewrite lookup_app_l.
    + rewrite lookup_app_r, (lookup_ge_None_2 (tasks s)) by lia.
      by destruct (u - length (tasks s)) as [|[|n]].
  - apply fmap_Some in Hex as ([p s1] & Hrun & ->). exists t. split; [done|].
    by eapply run_frame.
  - destruct (promises s !! p) as [pr|]; [|done]. simpl in Hex.
    destruct (source pr); try done. destruct (settled pr); [done|].
    injection Hex as <-. destruct Hne. unfold promise_of. by rewrite tasks_resolve.
  - destruct (microtasks s) as [|j q]; [done|]. injection Hex as <-. destruct Hne.
    destruct j as [k v|target thenable]; cbn [run_job].
    + by rewrite run_reaction_started.
    + unfold promise_of. by rewrite tasks_then.
Qed.

(** ** A node without dependencies *)

(** X16: [run] on a node without dependencies that has not been run
    calls its compute function before it returns, with no arguments; the
    promise it returns settles as what the compute function returns, be it
    an [Ok] or an [Err], and the compute function is not called again. *)
Theorem leaf_computed_at_once s t T :
  reachable s → tasks s !! t = Some T → deps T = [] → _promise T = None →
  ∃ s1, exec (CallRun t) s = Some s1 ∧
        calls s1 = calls s ++ [(t, [])] ∧
        source_is s1 (length (promises s)) (PRun t) ∧
        settles s1 (length (promises s)) (JResult (outcome (compute T []))) ∧
        ∀ s2, steps s1 s2 → ncalls t s2 = 1.
Proof.
  intros Hreach HT Hleaf Hprom. pose proof (reachable_Inv _ Hreach) as HI.
  destruct (run_leaf_fresh s t T HI HT Hleaf) as (s1 & Hex & Hcalls).
  { unfold promise_of. by rewrite HT. }
  pose proof (exec_run_promise _ _ _ HI Hex) as Hp.
  assert (reachable s1) as Hreach1 by by econstructor.
  assert (∀ s2, steps s1 s2 →
    reachable s2 ∧ (t, []) ∈ calls s2 ∧
    ∀ v, fulfilled s2 (length (promises s)) v → v = JResult (outcome (compute T []))) as Hlater.
  { intros s2 Hsteps.
    pose proof (steps_reachable _ _ Hreach1 Hsteps) as Hreach2.
    pose proof (steps_extends _ _ Hreach1 Hsteps) as Hext.
    destruct (task_later s s2 t T Hreach
                (steps_trans _ _ _ (steps_one _ _ _ Hex) Hsteps) HT) as (T2 & HT2 & Hle).
    assert (Forall2 (λ d v, executed s2 d (Ok v)) (deps T2) []) as Hvs
      by (rewrite (le_deps _ _ Hle), Hleaf; constructor).
    split_and!; [done | |].
    - apply (ext_calls _ _ Hext). rewrite Hcalls. apply elem_of_app. right. by left.
    - intros v Hv.
      destruct (run_after_compute s2 t T2 [] (length (promises s)) v
                  (reachable_Inv _ Hreach2) HT2 Hvs)
        as [_ ->]; [by eapply source_is_mono | done |].
      by rewrite (le_compute _ _ Hle). }
  exists s1. split_and!; [done..| |].
  - apply settles_intro. intros s2 Hsteps.
    destruct (Hlater s2 Hsteps) as (Hreach2 & _ & Hval). split; [done|]. intros Hq.
    destruct (quiescent_fulfilled s2 (reachable_Inv _ Hreach2) (reachable_Live _ Hreach2)
                Hq (length (promises s))) as [v Hv].
    { destruct (source_is_mono _ _ (steps_extends _ _ Hreach1 Hsteps) _ _ Hp)
        as (pr & ? & _). by eapply lookup_lt_Some. }
    by rewrite <-(Hval v Hv).
  - intros s2 Hsteps. destruct (Hlater s2 Hsteps) as (Hreach2 & Hcall & _).
    pose proof (reachable_ncalls t s2 Hreach2). pose proof (ncalls_pos t [] s2 Hcall). lia.
Qed.

(** ** Where a success comes from *)

(** X17: an [Ok] that [run] returns for a node is what the compute
    function of the node has returned when it was called with the values
    of the dependencies of the node, all of which have succeeded. *)
Theorem success_is_computed s p t v :
  reachable s → source_is s p (PRun t) → fulfilled s p (JResult (Ok v)) →
  ∃ T vs, tasks s !! t = Some T ∧
          Forall2 (λ d w, executed s d (Ok w)) (deps T) vs ∧
          (t, vs) ∈ calls s ∧ outcome (compute T vs) = Ok v.
Proof.
  intros Hreach Hp Hful. pose proof (reachable_Inv _ Hreach) as HI.
  destruct (Inv_run_value _ _ _ _ HI Hp Hful) as (r & [= <-] & Hex).
  destruct (executed_ok_computed s t v HI Hex) as (vs & T & HT & Hc & Hout).
  destruct (call_dependencies s t vs Hreach Hc) as (T' & HT' & Hdeps).
  assert (T' = T) as -> by congruence. by exists T, vs.
Qed.

(** ** The further properties on example graphs *)

(** The chain [d], [m], [a], just after [run(d)]. *)
Lemma run_completes_witness :
  let s := after chain in
  reachable s ∧ source_is s 0 (PRun 2) ∧
  ∃ l s' r, Forall drains l ∧ exec_all l s = Some s' ∧ quiescent s' ∧
            fulfilled s' 0 (JResult r) ∧ result_of s' 2 = Some r.
Proof.
  intros s.
  assert (reachable s) as Hreach.
  { apply (after_reachable _ s). vm_compute. reflexivity. }
  assert (source_is s 0 (PRun 2)) as Hp.
  { eexists. split; [vm_compute; reflexivity | reflexivity]. }
  split_and!; [exact Hreach | exact Hp | exact (run_completes s 0 2 Hreach Hp)].
Defined.

Lemma event_loop_bounded_witness :
  let s := after chain in
  let s' := after (chain ++ ticks 10) in
  Forall drains (ticks 10) ∧ exec_all (ticks 10) s = Some s' ∧
  length (ticks 10) + potential s' ≤ potential s.
Proof.
  intros s s'.
  assert (Forall drains (ticks 10)) as Hl by (repeat constructor; by left).
  assert (exec_all (ticks 10) s = Some s') as Hex by (vm_compute; reflexivity).
  split_and!; [exact Hl | exact Hex | exact (event_loop_bounded (ticks 10) s s' Hl Hex)].
Defined.

(** Two nodes that succeed and their [all], run to the end. *)
Lemma success_cached_witness :
  let s := after (pair_script ++ ticks 17) in
  let v := VTuple [VNum 1; VNum 2] in
  reachable s ∧ source_is s 0 (PRun 2) ∧ fulfilled s 0 (JResult (Ok v)) ∧ steps s s ∧
  result_of s 2 = Some (Ok v) ∧ ncalls 2 s = 1 ∧
  (∀ p' v', source_is s p' (PRun 2) → fulfilled s p' v' → v' = JResult (Ok v)) ∧
  ∃ s2, exec (CallRun 2) s = Some s2 ∧
        source_is s2 (length (promises s)) (PRun 2) ∧
        fulfilled s2 (length (promises s)) (JResult (Ok v)) ∧
        calls s2 = calls s ∧ tasks s2 = tasks s ∧ microtasks s2 = microtasks s ∧
        length (promises s2) = S (length (promises s)).
Proof.
  intros s v.
  assert (reachable s) as Hreach.
  { apply (after_reachable _ s). vm_compute. reflexivity. }
  assert (source_is s 0 (PRun 2)) as Hp.
  { eexists. split; [vm_compute; reflexivity | reflexivity]. }
  assert (fulfilled s 0 (JResult (Ok v))) as Hful.
  { eexists. split; [vm_compute; reflexivity | reflexivity]. }
  assert (steps s s) as Hsteps by constructor.
  split_and!; [exact Hreach | exact Hp | exact Hful | exact Hsteps |..];
    apply (success_cached s 2 0 v s Hreach Hp Hful Hsteps).
Defined.

(** The node [d] of the chain is in flight. *)
Lemma run_in_flight_witness :
  let s := after chain in
  reachable s ∧ promise_of s 2 = Some 1 ∧ result_of s 2 = None ∧
  ∃ s1, exec (CallRun 2) s = Some s1 ∧
        source_is s1 (length (promises s)) (PRun 2) ∧
        pending s1 (length (promises s)) ∧
        length (promises s1) = S (length (promises s)) ∧
        (∀ p', p' < length (promises s) → promises s1 !! p' = promises s !! p') ∧
        microtasks s1 = microtasks s ++ [ResolveThenableJob (length (promises s)) 1] ∧
        tasks s1 = tasks s ∧ calls s1 = calls s ∧
        ∀ s2 v', steps s1 s2 → fulfilled s2 (length (promises s)) v' →
                 ∃ r, v' = JResult r ∧ fulfilled s2 1 (JResult r).
Proof.
  intros s.
  assert (reachable s) as Hreach.
  { apply (after_reachable _ s). vm_compute. reflexivity. }
  assert (promise_of s 2 = Some 1) as Hq by (vm_compute; reflexivity).
  assert (result_of s 2 = None) as Hres by (vm_compute; reflexivity).
  split_and!; [exact Hreach | exact Hq | exact Hres |
               exact (run_in_flight s 2 1 Hreach Hq Hres)].
Defined.

Lemma compute_after_dependencies_witness :
  let s := after (pair_script ++ ticks 17) in
  reachable s ∧ (2, [VNum 1; VNum 2]) ∈ calls s ∧
  ∃ T, tasks s !! 2 = Some T ∧ length [VNum 1; VNum 2] = length (deps T) ∧
       Forall2 (λ d v, executed s d (Ok v)) (deps T) [VNum 1; VNum 2].
Proof.
  intros s.
  assert (reachable s) as Hreach.
  { apply (after_reachable _ s). vm_compute. reflexivity. }
  assert ((2, [VNum 1; VNum 2]) ∈ calls s) as Hc.
  { vm_compute. right. right. left. }
  split_and!; [exact Hreach | exact Hc |
               exact (compute_after_dependencies s 2 _ Hreach Hc)].
Defined.

(** The diamond, its top node run to the end. *)
Lemma success_needs_all_below_witness :
  let s := after (diamond ++ [CallRun 3] ++ ticks 31) in
  let v := VTuple [VTuple [VNum 1]; VTuple [VNum 1]] in
  reachable s ∧ source_is s 0 (PRun 3) ∧ fulfilled s 0 (JResult (Ok v)) ∧
  reach (tasks s) 3 0 ∧
  ∃ v' values, executed s 0 (Ok v') ∧ computed s 0 values (Ok v') ∧ ncalls 0 s = 1.
Proof.
  intros s v.
  assert (reachable s) as Hreach.
  { apply (after_reachable _ s). vm_compute. reflexivity. }
  assert (source_is s 0 (PRun 3)) as Hp.
  { eexists. split; [vm_compute; reflexivity | reflexivity]. }
  assert (fulfilled s 0 (JResult (Ok v))) as Hful.
  { eexists. split; [vm_compute; reflexivity | reflexivity]. }
  assert (reach (tasks s) 3 0) as Hr.
  { eapply reach_dep; [vm_compute; reflexivity | by left |].
    eapply reach_dep; [vm_compute; reflexivity | by left |]. constructor. }
  split_and!; [exact Hreach | exact Hp | exact Hful | exact Hr |
               exact (success_needs_all_below s 0 3 v 0 Hreach Hp Hful Hr)].
Defined.

(** The chain, one microtask after [run(d)]: [a] has failed. *)
Lemma failure_below_blocks_witness :
  let s := after (chain ++ ticks 1) in
  let r := Err (VStr "A") 0 in
  reachable s ∧ reach (tasks s) 2 0 ∧ 0 ≠ 2 ∧ executed s 0 r ∧ is_ok r = false ∧
  ∀ s', steps s s' →
    ncalls 2 s' = 0 ∧
    ∀ p v, source_is s' p (PRun 2) → fulfilled s' p v → ∃ e o, v = JResult (Err e o).
Proof.
  intros s r.
  assert (reachable s) as Hreach.
  { apply (after_reachable _ s). vm_compute. reflexivity. }
  assert (reach (tasks s) 2 0) as Hr.
  { eapply reach_dep; [vm_compute; reflexivity | by left |].
    eapply reach_dep; [vm_compute; reflexivity | by left |]. constructor. }
  assert (0 ≠ 2) as Hne by lia.
  assert (executed s 0 r) as Hex.
  { exists 5. split; [vm_compute; reflexivity|].
    eexists. split; [vm_compute; reflexivity | reflexivity]. }
  assert (is_ok r = false) as Hok by reflexivity.
  split_and!; [exact Hreach | exact Hr | exact Hne | exact Hex | exact Hok |
               exact (failure_below_blocks s 2 0 r Hreach Hr Hne Hex Hok)].
Defined.


Lemma all_fails_with_member_witness :
  let s := after (chain ++ ticks 10) in
  reachable s ∧ source_is s 0 (PRun 2) ∧
  fulfilled s 0 (JResult (Err (VStr "A") 0)) ∧
  ∃ T, tasks s !! 2 = Some T ∧ built_by_all T ∧
       ncalls 2 s = 0 ∧ ∃ d, d ∈ deps T ∧ executed s d (Err (VStr "A") 0).
Proof.
  intros s.
  assert (reachable s) as Hreach.
  { apply (after_reachable _ s). vm_compute. reflexivity. }
  assert (source_is s 0 (PRun 2)) as Hp.
  { eexists. split; [vm_compute; reflexivity | reflexivity]. }
  assert (fulfilled s 0 (JResult (Err (VStr "A") 0))) as Hful.
  { eexists. split; [vm_compute; reflexivity | reflexivity]. }
  split_and!; [exact Hreach | exact Hp | exact Hful |].
  eexists. split; [vm_compute; reflexivity|]. split; [intros values; reflexivity|].
  eapply (all_fails_with_member s 2 _ 0 _ _ Hreach);
    [vm_compute; reflexivity | intros values; reflexivity | exact Hp | exact Hful].
Defined.

(** [fast] has failed, the compute function of [slow] is still running. *)
Lemma fail_fast_witness :
  let s := after (slow_and_fast ++ ticks 1) in
  let r := Err (VStr "F") 1 in
  reachable s ∧ executed s 1 r ∧ is_ok r = false ∧ source_is s 0 (PRun 2) ∧
  pending s 4 ∧ source_is s 4 (PCompute 0 (Ok (VNum 1))) ∧
  ∃ T, tasks s !! 2 = Some T ∧ 1 ∈ deps T ∧
  ∃ n s' e o, exec_all (ticks n) s = Some s' ∧ microtasks s' = [] ∧
              fulfilled s' 0 (JResult (Err e o)).
Proof.
  intros s r.
  assert (reachable s) as Hreach.
  { apply (after_reachable _ s). vm_compute. reflexivity. }
  assert (executed s 1 r) as Hex.
  { exists 6. split; [vm_compute; reflexivity|].
    eexists. split; [vm_compute; reflexivity | reflexivity]. }
  assert (is_ok r = false) as Hok by reflexivity.
  assert (source_is s 0 (PRun 2)) as Hp.
  { eexists. split; [vm_compute; reflexivity | reflexivity]. }
  split_and!; [exact Hreach | exact Hex | exact Hok | exact Hp | | |].
  - eexists. split; [vm_compute; reflexivity | reflexivity].
  - eexists. split; [vm_compute; reflexivity | reflexivity].
  - eexists. split; [vm_compute; reflexivity|]. split; [right; by left|].
    eapply (fail_fast s 2 _ 1 r 0 Hreach);
      [vm_compute; reflexivity | right; by left | exact Hex | exact Hok | exact Hp].
Defined.

(** Two nodes and their [all], none of which has run. *)
Lemma dependencies_started_together_witness :
  let s := after (take 3 pair_script) in
  reachable s ∧
  ∃ T, tasks s !! 2 = Some T ∧ _promise T = None ∧ deps T ≠ [] ∧
       cached_error (tasks s) (deps T) = None ∧
  ∃ s1, exec (CallRun 2) s = Some s1 ∧
        promise_of s1 2 = Some (S (length (promises s))) ∧
        pending s1 (S (length (promises s))) ∧
        ∀ d D, d ∈ deps T → tasks s !! d = Some D →
               is_Some (promise_of s1 d) ∧ (deps D = [] → ncalls d s1 = 1).
Proof.
  intros s.
  assert (reachable s) as Hreach.
  { apply (after_reachable _ s). vm_compute. reflexivity. }
  split; [exact Hreach|].
  eexists. split; [vm_compute; reflexivity|].
  split; [reflexivity|]. split; [discriminate|]. split; [vm_compute; reflexivity|].
  eapply (dependencies_started_together s 2 _ Hreach);
    [vm_compute; reflexivity | reflexivity | discriminate | vm_compute; reflexivity].
Defined.

Lemma computed_in_dependency_order_witness :
  let s := after (pair_script ++ ticks 17) in
  reachable s ∧ calls s !! 2 = Some (2, [VNum 1; VNum 2]) ∧
  ∃ T, tasks s !! 2 = Some T ∧ 0 ∈ deps T ∧
  ∃ j vs, j < 2 ∧ calls s !! j = Some (0, vs).
Proof.
  intros s.
  assert (reachable s) as Hreach.
  { apply (after_reachable _ s). vm_compute. reflexivity. }
  assert (calls s !! 2 = Some (2, [VNum 1; VNum 2])) as Hc by (vm_compute; reflexivity).
  split_and!; [exact Hreach | exact Hc |].
  eexists. split; [vm_compute; reflexivity|]. split; [by left|].
  eapply (computed_in_dependency_order s 2 2 _ _ 0 Hreach Hc);
    [vm_compute; reflexivity | by left].
Defined.

(** A graph in which two nodes share a dependency and a label. *)
Lemma getEdges_complete_witness :
  wf_heap labelled ∧ 3 < length labelled ∧
  ∃ (order : list ref) (es : list (ref * ref)),
    getEdges labelled 3 = Some (edge_labels labelled <$> es) ∧
    NoDup order ∧ (∀ u, u ∈ order ↔ reach labelled 3 u) ∧
    es ≡ₚ order ≫= edges_of labelled ∧
    ∀ d u, (d, u) ∈ es ↔ reach labelled 3 u ∧ ∃ U, labelled !! u = Some U ∧ d ∈ deps U.
Proof.
  assert (wf_heap labelled) as Hwf.
  { unfold labelled.
    repeat (apply wf_heap_task; [|repeat constructor; simpl; lia]). apply wf_heap_nil. }
  assert (3 < length labelled) as Hlen by (simpl; lia).
  split_and!; [exact Hwf | exact Hlen | exact (getEdges_complete labelled 3 Hwf Hlen)].
Defined.

(** The diamond, before and after its top node has run. *)
Lemma trace_stable_witness :
  let s := after diamond in
  let s' := after (diamond ++ [CallRun 3] ++ ticks 31) in
  reachable s ∧ steps s s' ∧ 3 < length (tasks s) ∧
  getTrace (tasks s') 3 = getTrace (tasks s) 3 ∧
  getEdges (tasks s') 3 = getEdges (tasks s) 3.
Proof.
  intros s s'.
  assert (reachable s) as Hreach.
  { apply (after_reachable _ s). vm_compute. reflexivity. }
  assert (steps s s') as Hsteps.
  { apply (exec_all_steps ([CallRun 3] ++ ticks 31)). vm_compute. reflexivity. }
  assert (3 < length (tasks s)) as Hlen by (vm_compute; lia).
  split_and!; [exact Hreach | exact Hsteps | exact Hlen |..];
    apply (trace_stable s s' 3 Hreach Hsteps Hlen).
Defined.

Lemma started_only_on_demand_witness :
  let s := after diamond in
  reachable s ∧
  (∀ u, promise_of s u = None → ncalls u s = 0) ∧
  ∀ a s' u, exec a s = Some s' → promise_of s' u ≠ promise_of s u →
    promise_of s u = None ∧ ∃ t, a = CallRun t ∧ reach (tasks s') t u.
Proof.
  intros s.
  assert (reachable s) as Hreach.
  { apply (after_reachable _ s). vm_compute. reflexivity. }
  split; [exact Hreach | exact (started_only_on_demand s Hreach)].
Defined.

(** A node without dependencies that fails. *)
Lemma leaf_computed_at_once_witness :
  let s := after (take 1 failed_once) in
  reachable s ∧
  ∃ T, tasks s !! 0 = Some T ∧ deps T = [] ∧ _promise T = None ∧
  ∃ s1, exec (CallRun 0) s = Some s1 ∧
        calls s1 = calls s ++ [(0, [])] ∧
        source_is s1 (length (promises s)) (PRun 0) ∧
        settles s1 (length (promises s)) (JResult (outcome (compute T []))) ∧
        ∀ s2, steps s1 s2 → ncalls 0 s2 = 1.
Proof.
  intros s.
  assert (reachable s) as Hreach.
  { apply (after_reachable _ s). vm_compute. reflexivity. }
  split; [exact Hreach|].
  eexists. split; [vm_compute; reflexivity|]. split; [reflexivity|]. split; [reflexivity|].
  eapply (leaf_computed_at_once s 0 _ Hreach);
    [vm_compute; reflexivity | reflexivity | reflexivity].
Defined.

Lemma success_is_computed_witness :
  let s := after (pair_script ++ ticks 17) in
  let v := VTuple [VNum 1; VNum 2] in
  reachable s ∧ source_is s 0 (PRun 2) ∧ fulfilled s 0 (JResult (Ok v)) ∧
  ∃ T vs, tasks s !! 2 = Some T ∧
          Forall2 (λ d w, executed s d (Ok w)) (deps T) vs ∧
          (2, vs) ∈ calls s ∧ outcome (compute T vs) = Ok v.
Proof.
  intros s v.
  assert (reachable s) as Hreach.
  { apply (after_reachable _ s). vm_compute. reflexivity. }
  assert (source_is s 0 (PRun 2)) as Hp.
  { eexists. split; [vm_compute; reflexivity | reflexivity]. }
  assert (fulfilled s 0 (JResult (Ok v))) as Hful.
  { eexists. split; [vm_compute; reflexivity | reflexivity]. }
  split_and!; [exact Hreach | exact Hp | exact Hful |
               exact (success_is_computed s 0 2 v Hreach Hp Hful)].
Defined.

